(** * Dungeon generation, laser tracing and power routing: a shallow embedding

    The JavaScript sources are embedded function by function.  Numbers that
    the program keeps integral (grid coordinates, pixel origins, tile sizes,
    the state of the linear-congruential generator) are [Z]; numbers that the
    program computes with fractions (ray parameters, draws in [0,1)) are
    exact rationals [Q], so rounding of IEEE doubles is not modelled: where
    the code divides, its result differs from the one computed here by a
    few units in the last place.  Statements about such results are made
    to a tolerance, or for arguments (whole numbers, rays along an axis)
    for which the arithmetic of the code is exact.  A JavaScript [Map] is
    an association list in insertion order, because the program iterates
    over maps and the order of iteration decides results. *)

From Stdlib Require Import ZArith QArith Qround Qabs Qminmax Qfield Lqa List String Ascii Bool Lia DecimalString FinFun.
From Stdlib Require Import Znumtheory Permutation.
Import ListNotations.
Open Scope Z_scope.

(** constants.js *)
Definition TILE_SIZE : Z := 64.

(** How a call ends: with a value, with a JavaScript exception, or (for the
    model only) with the iteration budget of a [while] loop used up. *)
Inductive outcome (A : Type) : Type :=
| Done (a : A)
| Thrown
| OutOfFuel.
Arguments Done {A} a.
Arguments Thrown {A}.
Arguments OutOfFuel {A}.

Definition bind {A B : Type} (c : outcome A) (k : A -> outcome B) : outcome B :=
  match c with
  | Done a => k a
  | Thrown => Thrown
  | OutOfFuel => OutOfFuel
  end.

Notation "'do' x <- c ; k" := (bind c (fun x => k))
  (at level 10, x pattern, c at level 100, k at level 200).

(* ===================================================================== *)
(** ** Arrays under index reads and writes *)
(* ===================================================================== *)

Module JsArray.

(** An array object: its elements ([None] is [undefined], or a hole) and
    the properties written under negative indices, which are not elements
    of the array. *)
Record t (A : Type) := { elems : list (option A); props : list (Z * option A) }.
Arguments elems {A} _.
Arguments props {A} _.

(** [[...array]] *)
Definition ofList {A : Type} (l : list A) : t A :=
  {| elems := map Some l; props := [] |}.

Fixpoint lookup {A : Type} (k : Z) (m : list (Z * option A)) : option A :=
  match m with
  | [] => None
  | (k', v) :: m' => if k =? k' then v else lookup k m'
  end.

(** [a[i]] *)
Definition get {A : Type} (a : t A) (i : Z) : option A :=
  if i <? 0 then lookup i (props a)
  else match nth_error (elems a) (Z.to_nat i) with
       | Some v => v
       | None => None
       end.

Fixpoint replaceAt {A : Type} (i : nat) (v : A) (l : list A) : list A :=
  match l, i with
  | [], _ => []
  | _ :: l', O => v :: l'
  | x :: l', S i' => x :: replaceAt i' v l'
  end.

(** [a[i] = v]: a write past the end extends the array with holes. *)
Definition set {A : Type} (i : Z) (v : option A) (a : t A) : t A :=
  if i <? 0 then {| elems := elems a; props := (i, v) :: props a |}
  else if i <? Z.of_nat (List.length (elems a))
  then {| elems := replaceAt (Z.to_nat i) v (elems a); props := props a |}
  else {| elems := elems a
                   ++ repeat None (Z.to_nat i - List.length (elems a)) ++ [v];
          props := props a |}.

End JsArray.

(* ===================================================================== *)
(** ** utils.js: the seeded generator *)
(* ===================================================================== *)

Module SeededRandom.

Record t := { seed : Z }.

(** [constructor(seed)]: [%] is the JavaScript remainder, [Z.rem]. *)
Definition make (s : Z) : t :=
  let s1 := Z.rem s 2147483647 in
  {| seed := if s1 <=? 0 then s1 + 2147483646 else s1 |}.

(** [random()]: advances the state and returns a draw in [0,1). *)
Definition random (r : t) : Q * t :=
  let s := Z.rem (seed r * 16807) 2147483647 in
  (Qmake (s - 1) 2147483646, {| seed := s |}).

(** [randomInt(min, max)]: [Math.floor(random() * (max - min)) + min]. *)
Definition randomInt (min max : Z) (r : t) : Z * t :=
  let (x, r') := random r in
  (Qfloor (x * inject_Z (max - min)) + min, r').

(** [array[i]]: [undefined] (here [None]) outside [0 .. length-1]. *)
Definition index {A : Type} (array : list A) (i : Z) : option A :=
  if i <? 0 then None else nth_error array (Z.to_nat i).

(** [choice(array)]: [undefined] on the empty array. *)
Definition choice {A : Type} (array : list A) (r : t) : option A * t :=
  match array with
  | [] => (None, r)
  | _ =>
      let (i, r') := randomInt 0 (Z.of_nat (List.length array)) r in
      (index array i, r')
  end.

(** The loop of [shuffle], [i] running from [n] down to [1]: the two reads
    of [[result[j], result[i]]] come first, then the write to [result[i]],
    then the write to [result[j]]. *)
Fixpoint shuffleLoop {A : Type} (n : nat) (result : JsArray.t A) (r : t)
  : JsArray.t A * t :=
  match n with
  | O => (result, r)
  | S n' =>
      let i := Z.of_nat n in
      let (j, r') := randomInt 0 (i + 1) r in
      let a := JsArray.get result j in
      let b := JsArray.get result i in
      shuffleLoop n' (JsArray.set j b (JsArray.set i a result)) r'
  end.

(** [shuffle(array)]: Fisher-Yates on a copy of the array. *)
Definition shuffle {A : Type} (array : list A) (r : t) : JsArray.t A * t :=
  shuffleLoop (List.length array - 1) (JsArray.ofList array) r.

End SeededRandom.

(* ===================================================================== *)
(** ** utils.js: helpers on numbers and arrays *)
(* ===================================================================== *)

Module Utils.

(** [clamp(value, min, max)] *)
Definition clamp (value min max : Q) : Q := Qmin (Qmax value min) max.

(** [array.slice(start, end)] for integer arguments: a negative index
    counts from the end of the array. *)
Definition jsSlice {A : Type} (array : list A) (start end_ : Z) : list A :=
  let len := Z.of_nat (List.length array) in
  let k := if start <? 0 then Z.max (len + start) 0 else Z.min start len in
  let final := if end_ <? 0 then Z.max (len + end_) 0 else Z.min end_ len in
  firstn (Z.to_nat (final - k)) (skipn (Z.to_nat k) array).

(** The loop of [chunk], from index [i] on. *)
Fixpoint chunkLoop {A : Type} (fuel : nat) (array : list A) (size i : Z)
    (chunks : list (list A)) : outcome (list (list A)) :=
  if i <? Z.of_nat (List.length array) then
    match fuel with
    | O => OutOfFuel
    | S fuel' =>
        chunkLoop fuel' array size (i + size) (chunks ++ [jsSlice array i (i + size)])
    end
  else Done chunks.

(** [chunk(array, size)] for an integer [size]; one iteration per element
    is enough whenever the loop ends. *)
Definition chunk {A : Type} (array : list A) (size : Z) : outcome (list (list A)) :=
  chunkLoop (List.length array) array size 0 [].

End Utils.

(* ===================================================================== *)
(** ** Room templates (the JSON records read by the tile loader) *)
(* ===================================================================== *)

Module Prefab.
Record t := {
  type : string;
  pos : Z * Z;
  dir : option string;
  id : option string
}.
End Prefab.

Module Tile.
Record t := {
  id : string;
  size : option (Z * Z);
  start : bool;
  exit : bool;
  collision : option (list string);
  exits : list (string * (Z * Z));
  prefabs : option (list Prefab.t)
}.
End Tile.

(* ===================================================================== *)
(** ** world.js: rooms *)
(* ===================================================================== *)

(** [0, 1, ..., n-1], the index range of a counting [for] loop. *)
Definition range (n : Z) : list Z := map Z.of_nat (seq 0 (Z.to_nat n)).

(** [lo, lo+1, ..., hi], the range of [for (v = lo; v <= hi; v++)]. *)
Definition rangeIncl (lo hi : Z) : list Z := map (fun i => lo + i) (range (hi - lo + 1)).

Definition key_eqb (a b : Z * Z) : bool :=
  (fst a =? fst b) && (snd a =? snd b).

(** In-place update of the object at index [i] of an array. *)
Fixpoint updateAt {A : Type} (i : nat) (f : A -> A) (l : list A) : list A :=
  match l, i with
  | [], _ => []
  | x :: l', O => f x :: l'
  | x :: l', S i' => x :: updateAt i' f l'
  end.

Module WorldRoom.

Record t := {
  roomData : Tile.t;
  worldX : Z;
  worldY : Z;
  roomX : Z;
  roomY : Z;
  tileWidth : Z;
  tileHeight : Z;
  collisionMap : list (list bool);
  width : Z;
  height : Z;
  exits : list (string * (Z * Z));
  isExit : bool
}.

(** [collision[y][x] === "#"] guarded by
    [y < collision.length && x < collision[y].length]. *)
Definition templateWall (collision : list string) (y x : Z) : bool :=
  match nth_error collision (Z.to_nat y) with
  | Some row =>
      match String.get (Z.to_nat x) row with
      | Some c => Ascii.eqb c "#"%char
      | None => false
      end
  | None => false
  end.

(** [createCollisionMap()]: returns the map and sets [tileWidth] and
    [tileHeight]; [a || b] takes [b] when [a] is [0]. *)
Definition createCollisionMap (rd : Tile.t) : list (list bool) * Z * Z :=
  let collision := match Tile.collision rd with Some c => c | None => [] end in
  let sizeW := match Tile.size rd with Some (w, _) => w | None => 4 end in
  let sizeH := match Tile.size rd with Some (_, h) => h | None => 4 end in
  let actualHeight := Z.of_nat (List.length collision) in
  let actualWidth :=
    match collision with
    | row0 :: _ => Z.of_nat (String.length row0)
    | [] => sizeW
    end in
  let tileHeight := if actualHeight =? 0 then sizeH else actualHeight in
  let tileWidth := if actualWidth =? 0 then sizeW else actualWidth in
  (map (fun y => map (fun x => templateWall collision y x) (range tileWidth))
       (range tileHeight),
   tileWidth, tileHeight).

Definition normalizeExits (tw th : Z) (exits : list (string * (Z * Z)))
  : list (string * (Z * Z)) :=
  map (fun e : string * (Z * Z) =>
         let '(direction, (px, py)) := e in
         (direction, (Z.max 0 (Z.min px (tw - 1)), Z.max 0 (Z.min py (th - 1)))))
      exits.

(** [new WorldRoom(roomData, worldX, worldY, roomX, roomY)]; the deep clone
    of the template is the template itself, values being immutable here. *)
Definition make (rd : Tile.t) (wx wy rx ry : Z) : t :=
  let '(cmap, tw, th) := createCollisionMap rd in
  {| roomData := rd;
     worldX := wx; worldY := wy; roomX := rx; roomY := ry;
     tileWidth := tw; tileHeight := th;
     collisionMap := cmap;
     width := tw * TILE_SIZE;
     height := th * TILE_SIZE;
     exits := normalizeExits tw th (Tile.exits rd);
     isExit := false |}.

(** [hasCollisionAt(localPos)].  [None] stands for an index outside the
    arrays ([undefined], or a [TypeError] when the row is missing). *)
Definition hasCollisionAt (r : t) (localPos : Z * Z) : option bool :=
  let (x, y) := localPos in
  if (x <? 0) || (x >=? tileWidth r) || (y <? 0) || (y >=? tileHeight r)
  then Some true
  else
    match nth_error (collisionMap r) (Z.to_nat y) with
    | Some row => nth_error row (Z.to_nat x)
    | None => None
    end.

Definition shift (dx dy : Z) (r : t) : t :=
  {| roomData := roomData r;
     worldX := worldX r + dx; worldY := worldY r + dy;
     roomX := roomX r; roomY := roomY r;
     tileWidth := tileWidth r; tileHeight := tileHeight r;
     collisionMap := collisionMap r;
     width := width r; height := height r;
     exits := exits r;
     isExit := isExit r |}.

(** [room.isExit = true; room.roomData.exit = true]. *)
Definition markExit (r : t) : t :=
  let rd := roomData r in
  {| roomData := {| Tile.id := Tile.id rd; Tile.size := Tile.size rd;
                    Tile.start := Tile.start rd; Tile.exit := true;
                    Tile.collision := Tile.collision rd;
                    Tile.exits := Tile.exits rd;
                    Tile.prefabs := Tile.prefabs rd |};
     worldX := worldX r; worldY := worldY r;
     roomX := roomX r; roomY := roomY r;
     tileWidth := tileWidth r; tileHeight := tileHeight r;
     collisionMap := collisionMap r;
     width := width r; height := height r;
     exits := exits r;
     isExit := true |}.

End WorldRoom.

(* ===================================================================== *)
(** ** world.js: the world manager *)
(* ===================================================================== *)

Module WorldManager.

Import WorldRoom.

Record Constraints := {
  maxRooms : Z;
  maxExits : Z;
  maxWidth : Z;
  maxHeight : Z;
  minRooms : Z
}.

Record Bounds := { minX : Z; maxX : Z; minY : Z; maxY : Z }.

(** A reference to a room object.  Room objects live in [rooms]; within one
    level at most one object is created per grid key, so a live reference
    is the key.  [rooms.clear()] drops the objects: a reference that
    survives it points to an object outside the store. *)
Inductive RoomRef := LiveRoom (key : Z * Z) | DroppedRoom.

(** [rooms] and [roomGrid] are written together, with the same key and the
    same object, and cleared together: they are one store here. *)
Record t := {
  tileLoader : list Tile.t;
  rng : SeededRandom.t;
  rooms : list ((Z * Z) * WorldRoom.t);
  seed : Z;
  startRoom : option RoomRef;
  currentRoom : option RoomRef;
  levelConstraints : Constraints;
  generatedRooms : Z;
  exitRoomsGenerated : Z;
  levelBounds : Bounds;
  levelComplete : bool
}.

Definition set_rng (v : SeededRandom.t) (wm : t) : t :=
  {| tileLoader := tileLoader wm; rng := v; rooms := rooms wm; seed := seed wm;
     startRoom := startRoom wm; currentRoom := currentRoom wm;
     levelConstraints := levelConstraints wm;
     generatedRooms := generatedRooms wm;
     exitRoomsGenerated := exitRoomsGenerated wm;
     levelBounds := levelBounds wm; levelComplete := levelComplete wm |}.

Definition set_rooms (v : list ((Z * Z) * WorldRoom.t)) (wm : t) : t :=
  {| tileLoader := tileLoader wm; rng := rng wm; rooms := v; seed := seed wm;
     startRoom := startRoom wm; currentRoom := currentRoom wm;
     levelConstraints := levelConstraints wm;
     generatedRooms := generatedRooms wm;
     exitRoomsGenerated := exitRoomsGenerated wm;
     levelBounds := levelBounds wm; levelComplete := levelComplete wm |}.

Definition set_start (v : option RoomRef) (wm : t) : t :=
  {| tileLoader := tileLoader wm; rng := rng wm; rooms := rooms wm; seed := seed wm;
     startRoom := v; currentRoom := v;
     levelConstraints := levelConstraints wm;
     generatedRooms := generatedRooms wm;
     exitRoomsGenerated := exitRoomsGenerated wm;
     levelBounds := levelBounds wm; levelComplete := levelComplete wm |}.

Definition set_generatedRooms (v : Z) (wm : t) : t :=
  {| tileLoader := tileLoader wm; rng := rng wm; rooms := rooms wm; seed := seed wm;
     startRoom := startRoom wm; currentRoom := currentRoom wm;
     levelConstraints := levelConstraints wm;
     generatedRooms := v;
     exitRoomsGenerated := exitRoomsGenerated wm;
     levelBounds := levelBounds wm; levelComplete := levelComplete wm |}.

Definition set_exitRoomsGenerated (v : Z) (wm : t) : t :=
  {| tileLoader := tileLoader wm; rng := rng wm; rooms := rooms wm; seed := seed wm;
     startRoom := startRoom wm; currentRoom := currentRoom wm;
     levelConstraints := levelConstraints wm;
     generatedRooms := generatedRooms wm;
     exitRoomsGenerated := v;
     levelBounds := levelBounds wm; levelComplete := levelComplete wm |}.

(** [new WorldManager(tileLoader)]; the generator built there is seeded by
    the clock, which the caller supplies as [clock]. *)
Definition make (tl : list Tile.t) (clock : Z) : t :=
  {| tileLoader := tl; rng := SeededRandom.make clock; rooms := []; seed := 0;
     startRoom := None; currentRoom := None;
     levelConstraints :=
       {| maxRooms := 10; maxExits := 1; maxWidth := 4; maxHeight := 4;
          minRooms := 5 |};
     generatedRooms := 0; exitRoomsGenerated := 0;
     levelBounds := {| minX := -2; maxX := 2; minY := -2; maxY := 2 |};
     levelComplete := false |}.

(** [Map.prototype.get] and [Map.prototype.set] on the store. *)
Fixpoint map_get (k : Z * Z) (m : list ((Z * Z) * WorldRoom.t)) : option WorldRoom.t :=
  match m with
  | [] => None
  | (k', v) :: m' => if key_eqb k k' then Some v else map_get k m'
  end.

Fixpoint map_set (k : Z * Z) (v : WorldRoom.t) (m : list ((Z * Z) * WorldRoom.t))
  : list ((Z * Z) * WorldRoom.t) :=
  match m with
  | [] => [(k, v)]
  | (k', v') :: m' =>
      if key_eqb k k' then (k, v) :: m' else (k', v') :: map_set k v m'
  end.

Definition getRoom (wm : t) (roomX roomY : Z) : option WorldRoom.t :=
  map_get (roomX, roomY) (rooms wm).

Definition hasRoom (wm : t) (roomX roomY : Z) : bool :=
  match getRoom wm roomX roomY with Some _ => true | None => false end.

Definition filterTiles (wm : t) (predicate : Tile.t -> bool) : list Tile.t :=
  filter predicate (tileLoader wm).

Definition adjustConstraintsForLevel (levelNumber : Z) (wm : t) : t :=
  let c := {| maxRooms := Z.min (6 + levelNumber / 2) 15;
              maxExits := 1;
              maxWidth := Z.min (3 + levelNumber / 3) 5;
              maxHeight := Z.min (3 + levelNumber / 3) 5;
              minRooms := Z.min (4 + levelNumber / 4) 8 |} in
  {| tileLoader := tileLoader wm; rng := rng wm; rooms := rooms wm; seed := seed wm;
     startRoom := startRoom wm; currentRoom := currentRoom wm;
     levelConstraints := c;
     generatedRooms := generatedRooms wm;
     exitRoomsGenerated := exitRoomsGenerated wm;
     levelBounds := {| minX := 0; maxX := maxWidth c - 1;
                       minY := 0; maxY := maxHeight c - 1 |};
     levelComplete := levelComplete wm |}.

Definition isWithinLevelBounds (wm : t) (roomX roomY : Z) : bool :=
  (roomX >=? minX (levelBounds wm)) && (roomX <=? maxX (levelBounds wm)) &&
  (roomY >=? minY (levelBounds wm)) && (roomY <=? maxY (levelBounds wm)).

(** North, south, east, west, in the order of the source. *)
Definition adjacent4 (p : Z * Z) : list (Z * Z) :=
  let (x, y) := p in [(x, y - 1); (x, y + 1); (x + 1, y); (x - 1, y)].

Definition getValidAdjacentPositions (wm : t) (currentPos : Z * Z)
    (generatedPositions : list (Z * Z)) : list (Z * Z) :=
  filter (fun pos =>
            negb (existsb (key_eqb pos) generatedPositions) &&
            isWithinLevelBounds wm (fst pos) (snd pos) &&
            negb (hasRoom wm (fst pos) (snd pos)))
         (adjacent4 currentPos).

Definition hasAdjacentRoom (wm : t) (roomX roomY : Z) : bool :=
  existsb (fun pos => hasRoom wm (fst pos) (snd pos)) (adjacent4 (roomX, roomY)).

(** [createRoom]: builds the room and stores it under its grid key. *)
Definition createRoom (rd : Tile.t) (wx wy rx ry : Z) (wm : t) : t :=
  set_rooms (map_set (rx, ry) (WorldRoom.make rd wx wy rx ry) (rooms wm)) wm.

(** [generateStartRoom]: when [choice] yields [undefined] the room
    constructor throws on cloning it. *)
Definition generateStartRoom (wm : t) : outcome t :=
  let startTiles := filterTiles wm Tile.start in
  match startTiles with
  | [] => Done wm
  | _ =>
      let (c, rng') := SeededRandom.choice startTiles (rng wm) in
      match c with
      | Some startTile =>
          Done (set_start (Some (LiveRoom (0, 0)))
                  (createRoom startTile 0 0 0 0 (set_rng rng' wm)))
      | None => Thrown
      end
  end.

Definition getAverageRoomWidth (wm : t) : Z :=
  match rooms wm with
  | [] => 6 * TILE_SIZE
  | rs => fold_left (fun sum kr => sum + width (snd kr)) rs 0
          / Z.of_nat (List.length rs)
  end.

Definition getAverageRoomHeight (wm : t) : Z :=
  match rooms wm with
  | [] => 6 * TILE_SIZE
  | rs => fold_left (fun sum kr => sum + height (snd kr)) rs 0
          / Z.of_nat (List.length rs)
  end.

(** [calculateRoomWorldPosition]: the sums over the columns to the left and
    the rows above; for a negative grid coordinate the source computes an
    offset it never uses and sets the coordinate to [0]. *)
Definition calculateRoomWorldPosition (wm : t) (roomX roomY : Z) : Z * Z :=
  let wX := fold_left
              (fun acc x => acc + match getRoom wm x roomY with
                                  | Some leftRoom => width leftRoom
                                  | None => getAverageRoomWidth wm
                                  end)
              (range roomX) 0 in
  let wY := fold_left
              (fun acc y => acc + match getRoom wm roomX y with
                                  | Some topRoom => height topRoom
                                  | None => getAverageRoomHeight wm
                                  end)
              (range roomY) 0 in
  let wX := if roomX <? 0 then 0 else wX in
  let wY := if roomY <? 0 then 0 else wY in
  (Z.max 0 wX, Z.max 0 wY).

(** [adjustAllRoomsPosition]: rooms carry no entities while the level is
    generated, so only the room origins move. *)
Definition adjustAllRoomsPosition (offsetX offsetY : Z) (wm : t) : t :=
  if (offsetX =? 0) && (offsetY =? 0) then wm
  else set_rooms
         (map (fun kr : (Z * Z) * WorldRoom.t =>
                 (fst kr, WorldRoom.shift offsetX offsetY (snd kr)))
              (rooms wm))
         wm.

(** One iteration of the loop of [validateRoomPosition]: [pos] is the
    running [(worldX, worldY)]; the proposed bounds stay those of the
    position the function was called with. *)
Definition validateStep (pX pY roomWidth roomHeight roomX roomY : Z)
    (pos : Z * Z) (room : WorldRoom.t) : Z * Z :=
  let (wX, wY) := pos in
  if (WorldRoom.roomX room =? roomX) && (WorldRoom.roomY room =? roomY) then pos
  else
    let pLeft := pX in
    let pRight := pX + roomWidth in
    let pTop := pY in
    let pBottom := pY + roomHeight in
    let rLeft := WorldRoom.worldX room in
    let rRight := WorldRoom.worldX room + width room in
    let rTop := WorldRoom.worldY room in
    let rBottom := WorldRoom.worldY room + height room in
    let overlapLeft := Z.max 0 (Z.min pRight rRight - Z.max pLeft rLeft) in
    let overlapTop := Z.max 0 (Z.min pBottom rBottom - Z.max pTop rTop) in
    let hasOverlap := (overlapLeft >? 0) && (overlapTop >? 0) in
    if hasOverlap then
      let isAdjacentHorizontally :=
        (Z.abs (WorldRoom.roomX room - roomX) =? 1) && (WorldRoom.roomY room =? roomY) in
      let isAdjacentVertically :=
        (Z.abs (WorldRoom.roomY room - roomY) =? 1) && (WorldRoom.roomX room =? roomX) in
      if isAdjacentHorizontally || isAdjacentVertically then
        let wX1 :=
          if isAdjacentHorizontally && negb (overlapLeft =? TILE_SIZE) then
            if WorldRoom.roomX room <? roomX then rRight - TILE_SIZE
            else rLeft + TILE_SIZE - roomWidth
          else wX in
        let wY1 :=
          if isAdjacentVertically && negb (overlapTop =? TILE_SIZE) then
            if WorldRoom.roomY room <? roomY then rBottom - TILE_SIZE
            else rTop + TILE_SIZE - roomHeight
          else wY in
        (wX1, wY1)
      else
        let wX1 := if (pLeft <? rRight) && (pRight >? rLeft) then rRight else wX in
        let wY1 := if (pTop <? rBottom) && (pBottom >? rTop) then rBottom else wY in
        (wX1, wY1)
    else pos.

Definition validateRoomPosition (wm : t)
    (worldX worldY roomWidth roomHeight roomX roomY : Z) : Z * Z :=
  fold_left (fun pos kr =>
               validateStep worldX worldY roomWidth roomHeight roomX roomY pos (snd kr))
            (rooms wm) (worldX, worldY).

Definition calculateOptimalRoomPosition (roomX roomY : Z) (rd : Tile.t) (wm : t)
  : (Z * Z) * t :=
  let roomWidth := (match Tile.size rd with Some (w, _) => w | None => 6 end) * TILE_SIZE in
  let roomHeight := (match Tile.size rd with Some (_, h) => h | None => 6 end) * TILE_SIZE in
  let west := getRoom wm (roomX - 1) roomY in
  let east := getRoom wm (roomX + 1) roomY in
  let north := getRoom wm roomX (roomY - 1) in
  let south := getRoom wm roomX (roomY + 1) in
  let wX :=
    match west, east with
    | Some w, _ => WorldRoom.worldX w + width w - TILE_SIZE
    | None, Some e => WorldRoom.worldX e + TILE_SIZE - roomWidth
    | None, None => fst (calculateRoomWorldPosition wm roomX roomY)
    end in
  let wY :=
    match north, south with
    | Some n, _ => WorldRoom.worldY n + height n - TILE_SIZE
    | None, Some s => WorldRoom.worldY s + TILE_SIZE - roomHeight
    | None, None => snd (calculateRoomWorldPosition wm roomX roomY)
    end in
  let '(wX, wm) :=
    if wX <? 0 then (0, adjustAllRoomsPosition (0 - wX) 0 wm) else (wX, wm) in
  let '(wY, wm) :=
    if wY <? 0 then (0, adjustAllRoomsPosition 0 (0 - wY) wm) else (wY, wm) in
  (validateRoomPosition wm wX wY roomWidth roomHeight roomX roomY, wm).

Definition hasExit (r : WorldRoom.t) (d : string) : bool :=
  existsb (fun e => String.eqb (fst e) d) (exits r).

Definition getRequiredConnections (wm : t) (roomX roomY : Z) : list string :=
  let adjacent :=
    [ (0, -1, "N", "S"); (0, 1, "S", "N"); (1, 0, "E", "W"); (-1, 0, "W", "E") ]%string in
  flat_map (fun a : Z * Z * string * string =>
              let '(dx, dy, dir, opposite) := a in
              match getRoom wm (roomX + dx) (roomY + dy) with
              | Some adjRoom => if hasExit adjRoom opposite then [dir] else []
              | None => []
              end)
           adjacent.

Definition findSuitableTiles (wm : t) (requiredConnections : list string)
    (allowExit : bool) : list Tile.t :=
  filterTiles wm (fun tile =>
    if Tile.start tile then false
    else if Tile.exit tile && negb allowExit then false
    else
      let tileConnections := map fst (Tile.exits tile) in
      forallb (fun dir => existsb (String.eqb dir) tileConnections)
              requiredConnections).

(** [generateRoomAt]: when [choice] yields [undefined], reading its
    [size] throws. *)
Definition generateRoomAt (roomX roomY : Z) (wm : t) : outcome (bool * t) :=
  if hasRoom wm roomX roomY then Done (false, wm)
  else if negb (isWithinLevelBounds wm roomX roomY) then Done (false, wm)
  else if generatedRooms wm >=? maxRooms (levelConstraints wm) - 1 then Done (false, wm)
  else
    let requiredConnections := getRequiredConnections wm roomX roomY in
    let suitableTiles := findSuitableTiles wm requiredConnections false in
    match suitableTiles with
    | [] => Done (false, wm)
    | _ =>
        let (c, rng') := SeededRandom.choice suitableTiles (rng wm) in
        let wm := set_rng rng' wm in
        match c with
        | Some chosenTile =>
            let '((wX, wY), wm) := calculateOptimalRoomPosition roomX roomY chosenTile wm in
            let wm := createRoom chosenTile wX wY roomX roomY wm in
            Done (true, set_generatedRooms (generatedRooms wm + 1) wm)
        | None => Thrown
        end
    end.

(** The array without its element at index [i]. *)
Fixpoint removeAt {A : Type} (i : nat) (l : list A) : list A :=
  match l, i with
  | [], _ => []
  | _ :: l', O => l'
  | x :: l', S i' => x :: removeAt i' l'
  end.

(** [array.splice(i, 1)]: a negative [i] counts from the end of the
    array.  Returns the removed element ([None] when nothing is removed)
    and the remaining array. *)
Definition splice1 {A : Type} (i : Z) (l : list A) : option A * list A :=
  let len := Z.of_nat (List.length l) in
  let start := if i <? 0 then Z.max (len + i) 0 else Z.min i len in
  (nth_error l (Z.to_nat start), removeAt (Z.to_nat start) l).

(** The [for] loop of [generateFiniteLevel], [n] iterations left. *)
Fixpoint addRooms (n : nat) (adjacentPositions generationQueue generatedPositions : list (Z * Z))
    (wm : t) : outcome (list (Z * Z) * list (Z * Z) * t) :=
  match n, adjacentPositions with
  | O, _ | _, [] => Done (generationQueue, generatedPositions, wm)
  | S n', _ =>
      let (posIndex, rng') :=
        SeededRandom.randomInt 0 (Z.of_nat (List.length adjacentPositions)) (rng wm) in
      let wm := set_rng rng' wm in
      match splice1 posIndex adjacentPositions with
      | (None, _) => Thrown
      | (Some newPos, rest) =>
          do (ok, wm) <- generateRoomAt (fst newPos) (snd newPos) wm;
          if ok : bool
          then addRooms n' rest (generationQueue ++ [newPos])
                        (generatedPositions ++ [newPos]) wm
          else addRooms n' rest generationQueue generatedPositions wm
      end
  end.

(** The [while] loop of [generateFiniteLevel].  [OutOfFuel] only when
    [fuel] iterations were not enough to reach the exit of the loop. *)
Fixpoint generationLoop (fuel : nat) (roomsToGenerate : Z)
    (generationQueue generatedPositions : list (Z * Z)) (wm : t) : outcome t :=
  match generationQueue with
  | [] => Done wm
  | currentPos :: queue' =>
      if generatedRooms wm <? roomsToGenerate then
        match fuel with
        | O => OutOfFuel
        | S fuel' =>
            let adjacentPositions :=
              getValidAdjacentPositions wm currentPos generatedPositions in
            let (k, rng') := SeededRandom.randomInt 1 3 (rng wm) in
            let wm := set_rng rng' wm in
            let roomsToAdd :=
              Z.min (Z.min k (roomsToGenerate - generatedRooms wm))
                    (Z.of_nat (List.length adjacentPositions)) in
            do (queue2, positions2, wm) <-
              addRooms (Z.to_nat roomsToAdd) adjacentPositions queue'
                       generatedPositions wm;
            generationLoop fuel' roomsToGenerate queue2 positions2 wm
        end
      else Done wm
  end.

(** The second [for] loop of [ensureMinimumRooms]. *)
Fixpoint topUp (n : nat) (availablePositions : list (Z * Z)) (wm : t) : outcome t :=
  match n, availablePositions with
  | O, _ | _, [] => Done wm
  | S n', _ =>
      let (posIndex, rng') :=
        SeededRandom.randomInt 0 (Z.of_nat (List.length availablePositions)) (rng wm) in
      let wm := set_rng rng' wm in
      match splice1 posIndex availablePositions with
      | (None, _) => Thrown
      | (Some pos, rest) =>
          do (_, wm) <- generateRoomAt (fst pos) (snd pos) wm;
          topUp n' rest wm
      end
  end.

Definition ensureMinimumRooms (wm : t) : outcome t :=
  let totalRooms := generatedRooms wm + 1 in
  if totalRooms <? minRooms (levelConstraints wm) then
    let roomsNeeded := minRooms (levelConstraints wm) - totalRooms in
    let b := levelBounds wm in
    let availablePositions :=
      flat_map (fun x =>
        flat_map (fun y =>
          if negb (hasRoom wm x y) && hasAdjacentRoom wm x y then [(x, y)] else [])
          (rangeIncl (minY b) (maxY b)))
        (rangeIncl (minX b) (maxX b)) in
    topUp (Z.to_nat roomsNeeded) availablePositions wm
  else Done wm.

Definition manhattan (r : WorldRoom.t) : Z :=
  Z.abs (roomX r) + Z.abs (roomY r).

(** The [for ... of] loop of [generateExitRoom]: the running
    [(exitRoom, maxDistance)], the room given by its index in [allRooms]. *)
Fixpoint exitScan (allRooms : list WorldRoom.t) (i : nat)
    (exitRoom : option nat) (maxDistance : Z) : option nat :=
  match allRooms with
  | [] => exitRoom
  | room :: rest =>
      if manhattan room >? maxDistance
      then exitScan rest (S i) (Some i) (manhattan room)
      else exitScan rest (S i) exitRoom maxDistance
  end.

Definition generateExitRoom (wm : t) : t :=
  if exitRoomsGenerated wm >=? maxExits (levelConstraints wm) then wm
  else
    match rooms wm with
    | [] => wm
    | rs =>
        match exitScan (map snd rs) 0 None (-1) with
        | Some i =>
            set_exitRoomsGenerated (exitRoomsGenerated wm + 1)
              (set_rooms
                 (updateAt i (fun kr : (Z * Z) * WorldRoom.t =>
                                (fst kr, WorldRoom.markExit (snd kr))) rs)
                 wm)
        | None => wm
        end
    end.

Definition generateFiniteLevel (wm : t) : outcome t :=
  do wm <- generateStartRoom wm;
  let roomsToGenerate := maxRooms (levelConstraints wm) - 1 in
  do wm <- generationLoop (Z.to_nat (maxRooms (levelConstraints wm)))
                          roomsToGenerate [(0, 0)] [(0, 0)] wm;
  do wm <- ensureMinimumRooms wm;
  Done (generateExitRoom wm).

(** What [rooms.clear()] does to a reference held outside the store. *)
Definition dropRef (r : option RoomRef) : option RoomRef :=
  match r with
  | Some _ => Some DroppedRoom
  | None => None
  end.

Definition initialize (seed0 levelNumber : Z) (wm : t) : outcome t :=
  let wm := adjustConstraintsForLevel levelNumber wm in
  generateFiniteLevel
    {| tileLoader := tileLoader wm;
       rng := SeededRandom.make seed0;
       rooms := [];
       seed := seed0;
       startRoom := dropRef (startRoom wm);
       currentRoom := dropRef (currentRoom wm);
       levelConstraints := levelConstraints wm;
       generatedRooms := 0;
       exitRoomsGenerated := 0;
       levelBounds := levelBounds wm;
       levelComplete := false |}.

End WorldManager.

(* ===================================================================== *)
(** ** dungeonGen.js: the tile loader's validation pass *)
(* ===================================================================== *)

Module TileLoader.

Open Scope string_scope.
Open Scope Z_scope.

Definition isType (ty : string) (p : Prefab.t) : bool :=
  String.eqb (Prefab.type p) ty.

Definition set_prefabs (ps : list Prefab.t) (tile : Tile.t) : Tile.t :=
  {| Tile.id := Tile.id tile; Tile.size := Tile.size tile;
     Tile.start := Tile.start tile; Tile.exit := Tile.exit tile;
     Tile.collision := Tile.collision tile;
     Tile.exits := Tile.exits tile;
     Tile.prefabs := Some ps |}.

Definition set_pos (pos : Z * Z) (p : Prefab.t) : Prefab.t :=
  {| Prefab.type := Prefab.type p; Prefab.pos := pos;
     Prefab.dir := Prefab.dir p; Prefab.id := Prefab.id p |}.

(** [tile.collision || []]. *)
Definition collisionOf (tile : Tile.t) : list string :=
  match Tile.collision tile with Some c => c | None => [] end.

(** [row[x]] of a string: [undefined] (here [None]) outside the string. *)
Definition charAt (row : string) (x : Z) : option ascii :=
  if x <? 0 then None else String.get (Z.to_nat x) row.

Definition isChar (c : ascii) (o : option ascii) : bool :=
  match o with Some c' => Ascii.eqb c' c | None => false end.

(** [prefabs.some(p => p.pos[0] === x && p.pos[1] === y)]. *)
Definition occupied (prefabs : list Prefab.t) (x y : Z) : bool :=
  existsb (fun p => (fst (Prefab.pos p) =? x) && (snd (Prefab.pos p) =? y)) prefabs.

(** The test of the inner loop of [findSafePositions] at cell [(x, y)]. *)
Definition safeCell (collision : list string) (prefabs : list Prefab.t) (x y : Z) : bool :=
  match nth_error collision (Z.to_nat y) with
  | Some row =>
      (y <? Z.of_nat (List.length collision)) &&
      (x <? Z.of_nat (String.length row)) &&
      isChar "."%char (charAt row x) &&
      negb (occupied prefabs x y)
  | None => false
  end.

(** [array.slice(0, count)]; a negative [count] counts from the end. *)
Definition slice0 {A : Type} (count : Z) (l : list A) : list A :=
  if count <? 0 then firstn (Z.to_nat (Z.of_nat (List.length l) + count)) l
  else firstn (Z.to_nat count) l.

(** [findSafePositions(tile, count)]: interior cells, row by row; reading
    [tile.size[1]] throws when the template has no [size]. *)
Definition findSafePositions (tile : Tile.t) (prefabs : list Prefab.t) (count : Z)
  : outcome (list (Z * Z)) :=
  match Tile.size tile with
  | None => Thrown
  | Some (w, h) =>
      let collision := collisionOf tile in
      Done (slice0 count
              (flat_map (fun y =>
                 flat_map (fun x =>
                   if safeCell collision prefabs x y then [(x, y)] else [])
                   (rangeIncl 1 (w - 2)))
                 (rangeIncl 1 (h - 2))))
  end.

Definition showNat (n : nat) : string :=
  NilZero.string_of_uint (Nat.to_uint n).

(** [addPowerCellsToMatch(tile, lasers, powerCells)]. *)
Definition addPowerCellsToMatch (tile : Tile.t) (prefabs lasers powerCells : list Prefab.t)
  : outcome (list Prefab.t) :=
  let needed := Z.of_nat (List.length lasers) - Z.of_nat (List.length powerCells) in
  do safePositions <- findSafePositions tile prefabs needed;
  let added :=
    map (fun ip : nat * (Z * Z) =>
           let (i, pos) := ip in
           {| Prefab.type := "PowerCell";
              Prefab.pos := pos;
              Prefab.dir := None;
              Prefab.id := Some ("auto_cell_" ++ Tile.id tile ++ "_"
                                 ++ showNat (i + List.length powerCells + 1)%nat)%string |})
        (combine (seq 0 (Z.to_nat needed)) safePositions) in
  Done (prefabs ++ added)%list.

(** [getBestLaserDirection(tile, pos)]: the centre is [size / 2]; the
    comparisons are made on the doubled differences, which are integers. *)
Definition getBestLaserDirection (w h : Z) (pos : Z * Z) : string :=
  let dx2 := w - 2 * fst pos in
  let dy2 := h - 2 * snd pos in
  if Z.abs dx2 >? Z.abs dy2
  then (if dx2 >? 0 then "E" else "W")
  else (if dy2 >? 0 then "S" else "N").

(** [addLasersToMatch(tile, lasers, powerCells)]. *)
Definition addLasersToMatch (tile : Tile.t) (prefabs lasers powerCells : list Prefab.t)
  : outcome (list Prefab.t) :=
  let needed := Z.of_nat (List.length powerCells) - Z.of_nat (List.length lasers) in
  do safePositions <- findSafePositions tile prefabs needed;
  match Tile.size tile with
  | None => Thrown
  | Some (w, h) =>
      let added :=
        map (fun ip : nat * (Z * Z) =>
               let (i, pos) := ip in
               {| Prefab.type := "LaserEmitter";
                  Prefab.pos := pos;
                  Prefab.dir := Some (getBestLaserDirection w h pos);
                  Prefab.id := Some ("auto_emitter_" ++ Tile.id tile ++ "_"
                                     ++ showNat (i + List.length lasers + 1)%nat)%string |})
            (combine (seq 0 (Z.to_nat needed)) safePositions) in
      Done (prefabs ++ added)%list
  end.

(** [findSafePositionNear(tile, targetX, targetY)]: [collision[targetY]] is
    [undefined] for a negative [targetY], and reading its [length] throws. *)
Definition findSafePositionNear (tile : Tile.t) (prefabs : list Prefab.t)
    (targetX targetY : Z) : outcome (option (Z * Z)) :=
  let collision := collisionOf tile in
  if targetY <? Z.of_nat (List.length collision) then
    if targetY <? 0 then Thrown
    else
      match nth_error collision (Z.to_nat targetY) with
      | Some row =>
          if (targetX <? Z.of_nat (String.length row)) &&
             isChar "."%char (charAt row targetX) &&
             negb (occupied prefabs targetX targetY)
          then Done (Some (targetX, targetY))
          else Done None
      | None => Done None
      end
  else Done None.

(** The positions, in the array, of the prefabs that satisfy [p]: the
    filtered arrays of the source hold references to these objects. *)
Fixpoint indicesOf {A : Type} (p : A -> bool) (l : list A) (i : nat) : list nat :=
  match l with
  | [] => []
  | x :: l' => if p x then i :: indicesOf p l' (S i) else indicesOf p l' (S i)
  end.

Definition dirIs (p : Prefab.t) (d : string) : bool :=
  match Prefab.dir p with Some d' => String.eqb d' d | None => false end.

(** The loop of [alignLasersAndPowerCells] over the pairs
    [(lasers[i], powerCells[i])], each given by its index in [prefabs]. *)
Fixpoint alignLoop (tile : Tile.t) (pairs : list (nat * nat)) (prefabs : list Prefab.t)
  : outcome (list Prefab.t) :=
  match pairs with
  | [] => Done prefabs
  | (li, ci) :: rest =>
      match nth_error prefabs li, nth_error prefabs ci with
      | Some laser, Some powerCell =>
          if dirIs laser "E" || dirIs laser "W" then
            let targetY := snd (Prefab.pos laser) in
            do safePos <- findSafePositionNear tile prefabs (fst (Prefab.pos powerCell)) targetY;
            match safePos with
            | Some (_, sy) =>
                alignLoop tile rest
                  (updateAt ci (fun c => set_pos (fst (Prefab.pos c), sy) c) prefabs)
            | None => alignLoop tile rest prefabs
            end
          else if dirIs laser "N" || dirIs laser "S" then
            let targetX := fst (Prefab.pos laser) in
            do safePos <- findSafePositionNear tile prefabs targetX (snd (Prefab.pos powerCell));
            match safePos with
            | Some (sx, _) =>
                alignLoop tile rest
                  (updateAt ci (fun c => set_pos (sx, snd (Prefab.pos c)) c) prefabs)
            | None => alignLoop tile rest prefabs
            end
          else alignLoop tile rest prefabs
      | _, _ => alignLoop tile rest prefabs
      end
  end.

Definition alignLasersAndPowerCells (tile : Tile.t) (prefabs : list Prefab.t)
  : outcome (list Prefab.t) :=
  let lasers := indicesOf (isType "LaserEmitter") prefabs 0 in
  let powerCells := indicesOf (isType "PowerCell") prefabs 0 in
  match lasers, powerCells with
  | [], _ | _, [] => Done prefabs
  | _, _ => alignLoop tile (combine lasers powerCells) prefabs
  end.

Definition balanceLaserAndPowerCells (tile : Tile.t) : outcome Tile.t :=
  match Tile.prefabs tile with
  | None => Done tile
  | Some prefabs =>
      let lasers := filter (isType "LaserEmitter") prefabs in
      let powerCells := filter (isType "PowerCell") prefabs in
      do prefabs <-
        (if negb (List.length lasers =? List.length powerCells)%nat then
           if (List.length powerCells <? List.length lasers)%nat
           then addPowerCellsToMatch tile prefabs lasers powerCells
           else addLasersToMatch tile prefabs lasers powerCells
         else Done prefabs);
      do prefabs <- alignLasersAndPowerCells tile prefabs;
      Done (set_prefabs prefabs tile)
  end.

(** The filter predicate of [removeEntitiesInWalls]: [collision[y]] is
    [undefined] for a negative [y], and reading its [length] throws. *)
Definition keepPrefab (collision : list string) (prefab : Prefab.t) : outcome bool :=
  let (x, y) := Prefab.pos prefab in
  if y >=? Z.of_nat (List.length collision) then Done false
  else if y <? 0 then Thrown
  else
    match nth_error collision (Z.to_nat y) with
    | Some row =>
        if x >=? Z.of_nat (String.length row) then Done false
        else if isChar "#"%char (charAt row x) then Done false
        else Done true
    | None => Done false
    end.

Fixpoint filterKeep (collision : list string) (prefabs : list Prefab.t)
  : outcome (list Prefab.t) :=
  match prefabs with
  | [] => Done []
  | p :: rest =>
      do k <- keepPrefab collision p;
      do rest' <- filterKeep collision rest;
      Done (if k : bool then p :: rest' else rest')
  end.

Definition removeEntitiesInWalls (tile : Tile.t) : outcome Tile.t :=
  match Tile.prefabs tile, Tile.collision tile with
  | Some prefabs, Some collision =>
      do kept <- filterKeep collision prefabs;
      Done (set_prefabs kept tile)
  | _, _ => Done tile
  end.

(** [validateAndFixTile(tile)]; the deep clone is the template itself. *)
Definition validateAndFixTile (tile : Tile.t) : outcome Tile.t :=
  do fixedTile <- balanceLaserAndPowerCells tile;
  removeEntitiesInWalls fixedTile.

(** [createFallbackTiles()]: the two templates built when no file loads. *)
Definition createFallbackTiles : list Tile.t :=
  [ {| Tile.id := "start"; Tile.size := Some (4, 4); Tile.start := true;
       Tile.exit := false; Tile.collision := None;
       Tile.exits := [("E", (3, 2))];
       Tile.prefabs :=
         Some [ {| Prefab.type := "Player"; Prefab.pos := (1, 2);
                   Prefab.dir := None; Prefab.id := Some "player_start" |} ] |};
    {| Tile.id := "exit"; Tile.size := Some (4, 4); Tile.start := false;
       Tile.exit := true; Tile.collision := None;
       Tile.exits := [("W", (0, 2))];
       Tile.prefabs :=
         Some [ {| Prefab.type := "Door"; Prefab.pos := (2, 2);
                   Prefab.dir := None; Prefab.id := Some "exit_door" |} ] |} ].

End TileLoader.

(* ===================================================================== *)
(** ** dungeonGen.js: directions of the dungeon generator *)
(* ===================================================================== *)

Module DungeonGenerator.

Open Scope string_scope.
Open Scope Z_scope.

Definition directions : list string := ["N"; "E"; "S"; "W"].

(** [array.indexOf(x)]: the first index of [x], or [-1]. *)
Fixpoint indexFrom (x : string) (array : list string) (i : Z) : Z :=
  match array with
  | [] => -1
  | y :: rest => if String.eqb y x then i else indexFrom x rest (i + 1)
  end.

Definition indexOf (x : string) (array : list string) : Z := indexFrom x array 0.

(** [array[i]] as a property key: ["undefined"] outside the array. *)
Definition keyAt (array : list string) (i : Z) : string :=
  if i <? 0 then "undefined"
  else match nth_error array (Z.to_nat i) with
       | Some d => d
       | None => "undefined"
       end.

(** [object[key] = value]: a new key goes last, a known key keeps its
    place. *)
Fixpoint assign {V : Type} (key : string) (value : V) (object : list (string * V))
  : list (string * V) :=
  match object with
  | [] => [(key, value)]
  | (k, v) :: rest =>
      if String.eqb k key then (k, value) :: rest else (k, v) :: assign key value rest
  end.

(** [rotateExits(exits, rotation)]; [%] is the remainder of the truncated
    division. *)
Definition rotateExits (exits : list (string * (Z * Z))) (rotation : Z)
  : list (string * (Z * Z)) :=
  if rotation =? 0 then exits
  else
    fold_left
      (fun rotated (entry : string * (Z * Z)) =>
         let (dir, pos) := entry in
         let dirIndex := indexOf dir directions in
         let newDirIndex := Z.rem (dirIndex + rotation) 4 in
         let newDir := keyAt directions newDirIndex in
         assign newDir pos rotated)
      exits [].

End DungeonGenerator.

(* ===================================================================== *)
(** ** utils.js, entity.js: vectors and entities *)
(* ===================================================================== *)

Module Vector2.

Local Open Scope Q_scope.

Record t := { x : Q; y : Q }.

Definition add (a b : t) : t := {| x := x a + x b; y := y a + y b |}.
Definition subtract (a b : t) : t := {| x := x a - x b; y := y a - y b |}.
Definition multiply (a : t) (scalar : Q) : t := {| x := x a * scalar; y := y a * scalar |}.

(** The square of [distance(other)]; the root itself is not rational. *)
Definition distanceSq (a b : t) : Q :=
  let dx := x a - x b in
  let dy := y a - y b in
  dx * dx + dy * dy.

End Vector2.

Definition Qltb (a b : Q) : bool := negb (Qle_bool b a).

Module Entity.

Local Open Scope Q_scope.

(** The fields that the collision and power code reads.  [constructorName]
    is [entity.constructor.name]; a flag that a class does not define reads
    as [false]. *)
Record t := {
  constructorName : string;
  id : string;
  position : Vector2.t;
  width : Q;
  height : Q;
  visible : bool;
  active : bool;
  solid : bool;
  isOpen : bool;
  isActive : bool;
  direction : string;
  isPowered : bool;
  laserPowered : bool
}.

Record Bounds := { bx : Q; by_ : Q; bwidth : Q; bheight : Q }.

Definition getBounds (e : t) : Bounds :=
  {| bx := Vector2.x (position e); by_ := Vector2.y (position e);
     bwidth := width e; bheight := height e |}.

Definition getCenter (e : t) : Vector2.t :=
  {| Vector2.x := Vector2.x (position e) + width e / 2;
     Vector2.y := Vector2.y (position e) + height e / 2 |}.

Definition set_position (p : Vector2.t) (e : t) : t :=
  {| constructorName := constructorName e; id := id e; position := p;
     width := width e; height := height e; visible := visible e;
     active := active e; solid := solid e; isOpen := isOpen e;
     isActive := isActive e; direction := direction e;
     isPowered := isPowered e; laserPowered := laserPowered e |}.

(** [cell.setPowered(p); cell.laserPowered = p] (the sound is not modelled). *)
Definition set_powered (p : bool) (e : t) : t :=
  {| constructorName := constructorName e; id := id e; position := position e;
     width := width e; height := height e; visible := visible e;
     active := active e; solid := solid e; isOpen := isOpen e;
     isActive := isActive e; direction := direction e;
     isPowered := p; laserPowered := p |}.

Definition isA (name : string) (e : t) : bool := String.eqb (constructorName e) name.

(** [LaserEmitter.getDirectionVector()], over the table [DIRECTIONS]. *)
Definition getDirectionVector (e : t) : Vector2.t :=
  if String.eqb (direction e) "N" then {| Vector2.x := 0; Vector2.y := -1 |}
  else if String.eqb (direction e) "S" then {| Vector2.x := 0; Vector2.y := 1 |}
  else if String.eqb (direction e) "E" then {| Vector2.x := 1; Vector2.y := 0 |}
  else if String.eqb (direction e) "W" then {| Vector2.x := -1; Vector2.y := 0 |}
  else {| Vector2.x := 1; Vector2.y := 0 |}.

(** [LaserEmitter.getLaserStart()]: returns the start point and the emitter,
    whose position the call corrects when its centre is negative. *)
Definition getLaserStart (e : t) : Vector2.t * t :=
  let center := getCenter e in
  if Qltb (Vector2.x center) 0 || Qltb (Vector2.y center) 0 then
    let safeCenter := {| Vector2.x := Qmax 0 (Vector2.x center);
                         Vector2.y := Qmax 0 (Vector2.y center) |} in
    let e' := set_position {| Vector2.x := Qmax 0 (Vector2.x (position e));
                              Vector2.y := Qmax 0 (Vector2.y (position e)) |} e in
    (Vector2.add safeCenter (Vector2.multiply (getDirectionVector e') 2), e')
  else
    (Vector2.add center (Vector2.multiply (getDirectionVector e) 2), e).

End Entity.

(* ===================================================================== *)
(** ** world.js: queries by pixel position *)
(* ===================================================================== *)

(** The methods of [WorldRoom] and [WorldManager] that take or return a
    pixel position, a [Vector2] whose coordinates need not be whole. *)
Module WorldQuery.

Local Open Scope Q_scope.

Record RoomBounds := {
  left : Z; right : Z; top : Z; bottom : Z; bwidth : Z; bheight : Z
}.

(** [WorldRoom.getBounds()]. *)
Definition getBounds (room : WorldRoom.t) : RoomBounds :=
  {| left := WorldRoom.worldX room;
     right := (WorldRoom.worldX room + WorldRoom.width room)%Z;
     top := WorldRoom.worldY room;
     bottom := (WorldRoom.worldY room + WorldRoom.height room)%Z;
     bwidth := WorldRoom.width room;
     bheight := WorldRoom.height room |}.

(** [WorldRoom.containsWorldPosition(worldPos)]. *)
Definition containsWorldPosition (room : WorldRoom.t) (worldPos : Vector2.t) : bool :=
  let bounds := getBounds room in
  Qle_bool (inject_Z (left bounds)) (Vector2.x worldPos) &&
  Qltb (Vector2.x worldPos) (inject_Z (right bounds)) &&
  Qle_bool (inject_Z (top bounds)) (Vector2.y worldPos) &&
  Qltb (Vector2.y worldPos) (inject_Z (bottom bounds)).

(** [WorldRoom.worldToLocal(worldPos)]: both coordinates are floors. *)
Definition worldToLocal (room : WorldRoom.t) (worldPos : Vector2.t) : Z * Z :=
  (Qfloor ((Vector2.x worldPos - inject_Z (WorldRoom.worldX room)) / inject_Z TILE_SIZE),
   Qfloor ((Vector2.y worldPos - inject_Z (WorldRoom.worldY room)) / inject_Z TILE_SIZE)).

(** [WorldRoom.localToWorld(localPos)]. *)
Definition localToWorld (room : WorldRoom.t) (localPos : Vector2.t) : Vector2.t :=
  {| Vector2.x := inject_Z (WorldRoom.worldX room) + Vector2.x localPos * inject_Z TILE_SIZE;
     Vector2.y := inject_Z (WorldRoom.worldY room) + Vector2.y localPos * inject_Z TILE_SIZE |}.

(** [WorldManager.getRoomAtWorldPosition(worldPos)]: the first room, in the
    order of the map, that contains the position. *)
Definition getRoomAtWorldPosition (wm : WorldManager.t) (worldPos : Vector2.t)
  : option WorldRoom.t :=
  option_map snd
    (find (fun kr : (Z * Z) * WorldRoom.t => containsWorldPosition (snd kr) worldPos)
          (WorldManager.rooms wm)).

(** [WorldManager.hasCollisionAtWorldPosition(worldPos)].  Without a room
    the source computes [worldPosToRoomGrid], which has no effect, and
    returns [true] on both branches of its test.  [None] is the failure of
    [WorldRoom.hasCollisionAt]. *)
Definition hasCollisionAtWorldPosition (wm : WorldManager.t) (worldPos : Vector2.t)
  : option bool :=
  match getRoomAtWorldPosition wm worldPos with
  | None => Some true
  | Some room => WorldRoom.hasCollisionAt room (worldToLocal room worldPos)
  end.

End WorldQuery.

(* ===================================================================== *)
(** ** collision.js: the laser collision detector *)
(* ===================================================================== *)

Module Collision.

Local Open Scope Q_scope.

(** A JavaScript number of [lineAABBIntersect]: a rational, an infinity, or
    [NaN] (from [0 * Infinity]). *)
Inductive num := Fin (q : Q) | PInf | NInf | NaN.

Definition sign (q : Q) : comparison := (Qnum q ?= 0)%Z.

(** IEEE multiplication. *)
Definition nmul (a b : num) : num :=
  match a, b with
  | NaN, _ | _, NaN => NaN
  | Fin p, Fin q => Fin (p * q)
  | Fin p, PInf | PInf, Fin p =>
      match sign p with Eq => NaN | Gt => PInf | Lt => NInf end
  | Fin p, NInf | NInf, Fin p =>
      match sign p with Eq => NaN | Gt => NInf | Lt => PInf end
  | PInf, PInf | NInf, NInf => PInf
  | PInf, NInf | NInf, PInf => NInf
  end.

(** [a < b]; false when either side is [NaN]. *)
Definition nlt (a b : num) : bool :=
  match a, b with
  | NaN, _ | _, NaN => false
  | Fin p, Fin q => Qltb p q
  | NInf, NInf | PInf, PInf => false
  | NInf, _ => true
  | _, PInf => true
  | _, NInf => false
  | PInf, _ => false
  end.

(** [Math.min] and [Math.max]: [NaN] when either argument is. *)
Definition nmin (a b : num) : num :=
  match a, b with
  | NaN, _ | _, NaN => NaN
  | _, _ => if nlt b a then b else a
  end.

Definition nmax (a b : num) : num :=
  match a, b with
  | NaN, _ | _, NaN => NaN
  | _, _ => if nlt a b then b else a
  end.

(** A point computed as [start.add(dir.multiply(t))]: both coordinates are
    [NaN] when [t] is. *)
Inductive point := Pt (v : Vector2.t) | PtNaN.

Record Hit := { hpoint : point; normal : Vector2.t; t : num }.

Definition mkV (a b : Z) : Vector2.t := {| Vector2.x := inject_Z a; Vector2.y := inject_Z b |}.

(** [lineAABBIntersect(start, end, rect)], for finite arguments.  The code
    rounds each of its quotients, products and sums to binary64: its
    parameter [t] and its hit point are those computed here up to that
    rounding, and a statement about them is made to a tolerance. *)
Definition lineAABBIntersect (start end_ : Vector2.t) (rect : Entity.Bounds) : option Hit :=
  let dir := Vector2.subtract end_ start in
  let invDirX := if Qeq_bool (Vector2.x dir) 0 then PInf else Fin (1 / Vector2.x dir) in
  let invDirY := if Qeq_bool (Vector2.y dir) 0 then PInf else Fin (1 / Vector2.y dir) in
  let t1 := nmul (Fin (Entity.bx rect - Vector2.x start)) invDirX in
  let t2 := nmul (Fin (Entity.bx rect + Entity.bwidth rect - Vector2.x start)) invDirX in
  let t3 := nmul (Fin (Entity.by_ rect - Vector2.y start)) invDirY in
  let t4 := nmul (Fin (Entity.by_ rect + Entity.bheight rect - Vector2.y start)) invDirY in
  let tMin := nmax (nmin t1 t2) (nmin t3 t4) in
  let tMax := nmin (nmax t1 t2) (nmax t3 t4) in
  if nlt tMax (Fin 0) || nlt tMax tMin || nlt (Fin 1) tMin then None
  else
    let t := if nlt tMin (Fin 0) then tMax else tMin in
    if nlt (Fin 1) t then None
    else
      match t with
      | Fin q =>
          let hitPoint := Vector2.add start (Vector2.multiply dir q) in
          let epsilon := 1 # 1000 in
          let normal :=
            if Qltb (Qabs (Vector2.x hitPoint - Entity.bx rect)) epsilon then mkV (-1)%Z 0%Z
            else if Qltb (Qabs (Vector2.x hitPoint - (Entity.bx rect + Entity.bwidth rect))) epsilon
                 then mkV 1%Z 0%Z
            else if Qltb (Qabs (Vector2.y hitPoint - Entity.by_ rect)) epsilon then mkV 0%Z (-1)%Z
            else mkV 0%Z 1%Z in
          Some {| hpoint := Pt hitPoint; normal := normal; t := t |}
      | _ => Some {| hpoint := PtNaN; normal := mkV 0%Z 1%Z; t := t |}
      end.

Record HitEntity := { entity : Entity.t; hit : Hit }.

(** [distance] of a hit entity is [hit.t]. *)
Definition distance (h : HitEntity) : num := t (hit h).

(** The comparator [(a, b) => a.distance - b.distance] is negative. *)
Definition sortsBefore (a b : HitEntity) : bool :=
  match distance a, distance b with
  | Fin p, Fin q => Qltb p q
  | _, _ => false
  end.

(** [Array.prototype.sort] is stable; for a comparator that is a total
    preorder it is this insertion sort.  With a [NaN] distance the comparator
    is not one, and the order that an engine produces is not specified. *)
Fixpoint insertHit (h : HitEntity) (l : list HitEntity) : list HitEntity :=
  match l with
  | [] => [h]
  | h' :: l' => if sortsBefore h' h then h' :: insertHit h l' else h :: l
  end.

Definition sortHits (l : list HitEntity) : list HitEntity :=
  fold_right insertHit [] l.

Definition findEntityCollisions (start end_ : Vector2.t) (entities : list Entity.t)
  : list HitEntity :=
  sortHits
    (flat_map (fun e =>
       if negb (Entity.visible e) || negb (Entity.active e) then []
       else match lineAABBIntersect start end_ (Entity.getBounds e) with
            | Some h => [{| entity := e; hit := h |}]
            | None => []
            end)
       entities).

Definition TILE : Q := inject_Z TILE_SIZE.

(** [snapToTileBoundary(point, direction)]. *)
Definition snapToTileBoundary (p direction : Vector2.t) : Vector2.t :=
  let snappedX :=
    if Qltb 0 (Vector2.x direction) then inject_Z (Qceiling (Vector2.x p / TILE)) * TILE
    else if Qltb (Vector2.x direction) 0 then inject_Z (Qfloor (Vector2.x p / TILE)) * TILE
    else Vector2.x p in
  let snappedY :=
    if Qltb 0 (Vector2.y direction) then inject_Z (Qceiling (Vector2.y p / TILE)) * TILE
    else if Qltb (Vector2.y direction) 0 then inject_Z (Qfloor (Vector2.y p / TILE)) * TILE
    else Vector2.y p in
  if Qltb (Qabs (Vector2.y direction)) (Qabs (Vector2.x direction))
  then {| Vector2.x := snappedX; Vector2.y := Vector2.y p |}
  else {| Vector2.x := Vector2.x p; Vector2.y := snappedY |}.

Definition stepSize : Z := 8%Z.

(** The loop of [checkWallCollision] over the steps [is]: the first step
    whose check point the callback reports as wall. *)
Fixpoint firstWallStep (callback : Vector2.t -> bool) (start stepVector : Vector2.t)
    (steps : list Z) : option Z :=
  match steps with
  | [] => None
  | i :: rest =>
      if callback (Vector2.add start (Vector2.multiply stepVector (inject_Z i)))
      then Some i
      else firstWallStep callback start stepVector rest
  end.

Definition checkWallCollision (start direction : Vector2.t) (maxDistance : Z)
    (wallCollisionCallback : option (Vector2.t -> bool)) : option Vector2.t :=
  match wallCollisionCallback with
  | None => None
  | Some callback =>
      let steps := (maxDistance / stepSize)%Z in
      let stepVector := Vector2.multiply direction (inject_Z stepSize) in
      match firstWallStep callback start stepVector (rangeIncl 1 steps) with
      | Some i =>
          let safePoint := Vector2.add start (Vector2.multiply stepVector (inject_Z (i - 1)%Z)) in
          Some (snapToTileBoundary safePoint direction)
      | None => None
      end
  end.

(** [LaserConfig.physics.maxDistance] *)
Definition maxDistance : Z := 2000%Z.

Definition isOpenDoor (e : Entity.t) : bool :=
  (Entity.isA "AutoDoor" e || Entity.isA "Door" e) && Entity.isOpen e.

(** The walk of [traceLaser] over the sorted hits: the running end point
    and the processed entities. *)
Fixpoint walkHits (hits : list HitEntity) (determinedEndPoint : point)
    (processedEntities : list HitEntity) : point * list HitEntity :=
  match hits with
  | [] => (determinedEndPoint, processedEntities)
  | hitEntity :: rest =>
      let e := entity hitEntity in
      if Entity.isA "LaserEmitter" e then walkHits rest determinedEndPoint processedEntities
      else if Entity.solid e then
        if isOpenDoor e
        then walkHits rest determinedEndPoint (processedEntities ++ [hitEntity])
        else (hpoint (hit hitEntity), processedEntities ++ [hitEntity])
      else walkHits rest determinedEndPoint (processedEntities ++ [hitEntity])
  end.

Record TraceResult := {
  endPoint : point;
  hitEntities : list HitEntity;
  wallHit : bool
}.

(** [traceLaser(start, direction, entities, wallCollisionCallback)]; the
    debug record it also returns is left out. *)
Definition traceLaser (start direction : Vector2.t) (entities : list Entity.t)
    (wallCollisionCallback : option (Vector2.t -> bool)) : TraceResult :=
  let wallHitPoint := checkWallCollision start direction maxDistance wallCollisionCallback in
  let wallLimited :=
    match wallHitPoint with
    | Some p => p
    | None => Vector2.add start (Vector2.multiply direction (inject_Z maxDistance))
    end in
  let hits := findEntityCollisions start wallLimited entities in
  let (e, processed) := walkHits hits (Pt wallLimited) [] in
  {| endPoint := e;
     hitEntities := processed;
     wallHit := match wallHitPoint with Some _ => true | None => false end |}.

(** [rectangleIntersect(rect1, rect2)] *)
Definition rectangleIntersect (rect1 rect2 : Entity.Bounds) : bool :=
  Qltb (Entity.bx rect1) (Entity.bx rect2 + Entity.bwidth rect2) &&
  Qltb (Entity.bx rect2) (Entity.bx rect1 + Entity.bwidth rect1) &&
  Qltb (Entity.by_ rect1) (Entity.by_ rect2 + Entity.bheight rect2) &&
  Qltb (Entity.by_ rect2) (Entity.by_ rect1 + Entity.bheight rect1).

(** [entitiesIntersect(entity1, entity2)] *)
Definition entitiesIntersect (entity1 entity2 : Entity.t) : bool :=
  rectangleIntersect (Entity.getBounds entity1) (Entity.getBounds entity2).

(** [pointInRectangle(point, rect)] *)
Definition pointInRectangle (p : Vector2.t) (rect : Entity.Bounds) : bool :=
  Qle_bool (Entity.bx rect) (Vector2.x p) &&
  Qle_bool (Vector2.x p) (Entity.bx rect + Entity.bwidth rect) &&
  Qle_bool (Entity.by_ rect) (Vector2.y p) &&
  Qle_bool (Vector2.y p) (Entity.by_ rect + Entity.bheight rect).

(** [worldToTile(worldPos)] and [tileToWorld(tilePos)] *)
Definition worldToTile (worldPos : Vector2.t) : Vector2.t :=
  {| Vector2.x := inject_Z (Qfloor (Vector2.x worldPos / TILE));
     Vector2.y := inject_Z (Qfloor (Vector2.y worldPos / TILE)) |}.

Definition tileToWorld (tilePos : Vector2.t) : Vector2.t :=
  {| Vector2.x := Vector2.x tilePos * TILE; Vector2.y := Vector2.y tilePos * TILE |}.

(** [calculateOverlap(rect1, rect2)] *)
Definition calculateOverlap (rect1 rect2 : Entity.Bounds) : Q * Q :=
  (Qmin (Entity.bx rect1 + Entity.bwidth rect1 - Entity.bx rect2)
        (Entity.bx rect2 + Entity.bwidth rect2 - Entity.bx rect1),
   Qmin (Entity.by_ rect1 + Entity.bheight rect1 - Entity.by_ rect2)
        (Entity.by_ rect2 + Entity.bheight rect2 - Entity.by_ rect1)).


(** [PlayerCollisionDetector.getCollisionTestPoints(position)]: the four
    corners of the player put at [position]. *)
Definition getCollisionTestPoints (player : Entity.t) (position : Vector2.t)
  : list Vector2.t :=
  [ {| Vector2.x := Vector2.x position; Vector2.y := Vector2.y position |};
    {| Vector2.x := Vector2.x position + Entity.width player;
       Vector2.y := Vector2.y position |};
    {| Vector2.x := Vector2.x position;
       Vector2.y := Vector2.y position + Entity.height player |};
    {| Vector2.x := Vector2.x position + Entity.width player;
       Vector2.y := Vector2.y position + Entity.height player |} ].

(** [PlayerCollisionDetector.checkCollisionAt(position, collisionCallback)] *)
Definition checkCollisionAt (player : Entity.t) (position : Vector2.t)
    (collisionCallback : option (Vector2.t -> bool)) : bool :=
  match collisionCallback with
  | None => false
  | Some callback => existsb callback (getCollisionTestPoints player position)
  end.

(** [PlayerCollisionDetector.moveWithCollisionSliding(newPosition,
    collisionCallback)]: the player with its position updated. *)
Definition moveWithCollisionSliding (player : Entity.t) (newPosition : Vector2.t)
    (collisionCallback : option (Vector2.t -> bool)) : Entity.t :=
  match collisionCallback with
  | None =>
      Entity.set_position
        {| Vector2.x := Vector2.x newPosition; Vector2.y := Vector2.y newPosition |} player
  | Some _ =>
      let wouldCollide := checkCollisionAt player newPosition collisionCallback in
      if negb wouldCollide then
        Entity.set_position
          {| Vector2.x := Vector2.x newPosition; Vector2.y := Vector2.y newPosition |} player
      else
        let horizontalPosition :=
          {| Vector2.x := Vector2.x newPosition;
             Vector2.y := Vector2.y (Entity.position player) |} in
        let horizontalCollision :=
          checkCollisionAt player horizontalPosition collisionCallback in
        let player :=
          if negb horizontalCollision then
            Entity.set_position
              {| Vector2.x := Vector2.x newPosition;
                 Vector2.y := Vector2.y (Entity.position player) |} player
          else player in
        let verticalPosition :=
          {| Vector2.x := Vector2.x (Entity.position player);
             Vector2.y := Vector2.y newPosition |} in
        let verticalCollision :=
          checkCollisionAt player verticalPosition collisionCallback in
        if negb verticalCollision then
          Entity.set_position
            {| Vector2.x := Vector2.x (Entity.position player);
               Vector2.y := Vector2.y newPosition |} player
        else player
  end.

End Collision.

(* ===================================================================== *)
(** ** powerManagement.js *)
(* ===================================================================== *)

Module Power.

Local Open Scope string_scope.
Local Open Scope Z_scope.

Definition LASER_ACTIVATED := "laser_activated".
Definition LASER_DEACTIVATED := "laser_deactivated".
Definition LASER_ROTATED := "laser_rotated".
Definition LASER_HIT_CELL := "laser_hit_cell".
Definition LASER_LOST_CELL := "laser_lost_cell".
Definition CELL_POWERED := "cell_powered".
Definition CELL_UNPOWERED := "cell_unpowered".

(** How a statement completes: normally, or abruptly with a thrown value;
    either way with the state reached. *)
Inductive completion (S : Type) : Type :=
| Normal (s : S)
| Abrupt (error : string) (s : S).
Arguments Normal {S} s.
Arguments Abrupt {S} error s.

Definition andThen {S : Type} (c : completion S) (k : S -> completion S) : completion S :=
  match c with
  | Normal s => k s
  | Abrupt e s => Abrupt e s
  end.

(** [try { body } catch (error) { handler }] *)
Definition tryCatch {S : Type} (body : completion S) (handler : string -> S -> completion S)
  : completion S :=
  match body with
  | Normal s => Normal s
  | Abrupt e s => handler e s
  end.

(** [array.forEach(f)]: an exception thrown by [f] ends the iteration. *)
Fixpoint forEach {A S : Type} (f : A -> S -> completion S) (array : list A) (s : S)
  : completion S :=
  match array with
  | [] => Normal s
  | a :: rest => andThen (f a s) (forEach f rest)
  end.

(** A [Map] with string keys, in insertion order. *)
Fixpoint get {V : Type} (k : string) (m : list (string * V)) : option V :=
  match m with
  | [] => None
  | (k', v) :: m' => if String.eqb k k' then Some v else get k m'
  end.

Fixpoint set {V : Type} (k : string) (v : V) (m : list (string * V)) : list (string * V) :=
  match m with
  | [] => [(k, v)]
  | (k', v') :: m' => if String.eqb k k' then (k, v) :: m' else (k', v') :: set k v m'
  end.

(** In-place update of the object stored under [k]. *)
Definition modify {V : Type} (k : string) (f : V -> V) (m : list (string * V))
  : list (string * V) :=
  map (fun kv : string * V => if String.eqb k (fst kv) then (fst kv, f (snd kv)) else kv) m.

Record LaserPowerState := {
  laserId : string;
  powerCellId : string;
  isConnected : bool;
  lastConnectedTime : Z;
  totalPowerTime : Z;
  connectionCount : Z
}.

Definition newLaserPowerState (l c : string) : LaserPowerState :=
  {| laserId := l; powerCellId := c; isConnected := false;
     lastConnectedTime := 0; totalPowerTime := 0; connectionCount := 0 |}.

(** [connect()], [disconnect()], [updateTotalTime()] at clock reading [now]. *)
Definition connect (now : Z) (p : LaserPowerState) : LaserPowerState :=
  if isConnected p then p
  else {| laserId := laserId p; powerCellId := powerCellId p; isConnected := true;
          lastConnectedTime := now; totalPowerTime := totalPowerTime p;
          connectionCount := connectionCount p + 1 |}.

Definition disconnect (now : Z) (p : LaserPowerState) : LaserPowerState :=
  if isConnected p then
    {| laserId := laserId p; powerCellId := powerCellId p; isConnected := false;
       lastConnectedTime := lastConnectedTime p;
       totalPowerTime := totalPowerTime p + (now - lastConnectedTime p);
       connectionCount := connectionCount p |}
  else p.

Definition updateTotalTime (now : Z) (p : LaserPowerState) : LaserPowerState :=
  if isConnected p then
    {| laserId := laserId p; powerCellId := powerCellId p; isConnected := true;
       lastConnectedTime := now;
       totalPowerTime := totalPowerTime p + (now - lastConnectedTime p);
       connectionCount := connectionCount p |}
  else p.

Record LaserState := {
  ls_id : string;
  ls_isActive : bool;
  ls_direction : string;
  ls_position : Vector2.t;
  lastRotation : Z;
  activationCount : Z
}.

Record CellState := {
  cs_id : string;
  cs_isPowered : bool;
  cs_laserPowered : bool;
  cs_position : Vector2.t;
  poweringLasers : list string;
  lastPowerChange : Z
}.

Definition set_poweringLasers (l : list string) (c : CellState) : CellState :=
  {| cs_id := cs_id c; cs_isPowered := cs_isPowered c;
     cs_laserPowered := cs_laserPowered c; cs_position := cs_position c;
     poweringLasers := l; lastPowerChange := lastPowerChange c |}.

(** The payload of an event. *)
Inductive EventData :=
| LaserActivated (laser : string) (position : Vector2.t) (direction : string)
| LaserDeactivated (laser : string) (position : Vector2.t)
| LaserRotated (laser : string) (oldDirection newDirection : string) (position : Vector2.t)
| LaserHitCell (laser cell : string) (laserPosition cellPosition : Vector2.t)
| LaserLostCell (laser cell : string)
| CellPowered (cell : string) (position : Vector2.t) (lasers : list string)
| CellUnpowered (cell : string) (position : Vector2.t).

Record Beam := { start : option Vector2.t; end_ : option Vector2.t }.

Section WithListeners.

(** A listener is a closure of the embedding application.  It is given by a
    name and by what it does to the state [W] of the application; it does
    not call back into the power manager. *)
Variable W : Type.
Variable Listener : Type.
Variable call : Listener -> EventData -> W -> completion W.

Record t := {
  powerStates : list (string * LaserPowerState);
  laserStates : list (string * LaserState);
  cellStates : list (string * CellState);
  eventListeners : list (string * list Listener);
  lastUpdate : Z;
  debugMode : bool;
  totalCellPowerings : Z;
  statsTotalPowerTime : Z;
  console : list string;
  world : W
}.

Definition with_world (w : W) (s : t) : t :=
  {| powerStates := powerStates s; laserStates := laserStates s;
     cellStates := cellStates s; eventListeners := eventListeners s;
     lastUpdate := lastUpdate s; debugMode := debugMode s;
     totalCellPowerings := totalCellPowerings s;
     statsTotalPowerTime := statsTotalPowerTime s;
     console := console s; world := w |}.

Definition with_console (c : list string) (s : t) : t :=
  {| powerStates := powerStates s; laserStates := laserStates s;
     cellStates := cellStates s; eventListeners := eventListeners s;
     lastUpdate := lastUpdate s; debugMode := debugMode s;
     totalCellPowerings := totalCellPowerings s;
     statsTotalPowerTime := statsTotalPowerTime s;
     console := c; world := world s |}.

Definition with_powerStates (v : list (string * LaserPowerState)) (s : t) : t :=
  {| powerStates := v; laserStates := laserStates s;
     cellStates := cellStates s; eventListeners := eventListeners s;
     lastUpdate := lastUpdate s; debugMode := debugMode s;
     totalCellPowerings := totalCellPowerings s;
     statsTotalPowerTime := statsTotalPowerTime s;
     console := console s; world := world s |}.

Definition with_laserStates (v : list (string * LaserState)) (s : t) : t :=
  {| powerStates := powerStates s; laserStates := v;
     cellStates := cellStates s; eventListeners := eventListeners s;
     lastUpdate := lastUpdate s; debugMode := debugMode s;
     totalCellPowerings := totalCellPowerings s;
     statsTotalPowerTime := statsTotalPowerTime s;
     console := console s; world := world s |}.

Definition with_cellStates (v : list (string * CellState)) (s : t) : t :=
  {| powerStates := powerStates s; laserStates := laserStates s;
     cellStates := v; eventListeners := eventListeners s;
     lastUpdate := lastUpdate s; debugMode := debugMode s;
     totalCellPowerings := totalCellPowerings s;
     statsTotalPowerTime := statsTotalPowerTime s;
     console := console s; world := world s |}.

Definition with_stats (powerings time : Z) (s : t) : t :=
  {| powerStates := powerStates s; laserStates := laserStates s;
     cellStates := cellStates s; eventListeners := eventListeners s;
     lastUpdate := lastUpdate s; debugMode := debugMode s;
     totalCellPowerings := powerings;
     statsTotalPowerTime := time;
     console := console s; world := world s |}.

Definition with_lastUpdate (now : Z) (s : t) : t :=
  {| powerStates := powerStates s; laserStates := laserStates s;
     cellStates := cellStates s; eventListeners := eventListeners s;
     lastUpdate := now; debugMode := debugMode s;
     totalCellPowerings := totalCellPowerings s;
     statsTotalPowerTime := statsTotalPowerTime s;
     console := console s; world := world s |}.

(** [new PowerManagementSystem()] *)
Definition make (w : W) : t :=
  {| powerStates := []; laserStates := []; cellStates := []; eventListeners := [];
     lastUpdate := 0; debugMode := false; totalCellPowerings := 0;
     statsTotalPowerTime := 0; console := []; world := w |}.

Definition addEventListener (event : string) (callback : Listener) (s : t) : t :=
  let listeners := match get event (eventListeners s) with Some l => l | None => [] end in
  {| powerStates := powerStates s; laserStates := laserStates s;
     cellStates := cellStates s;
     eventListeners := set event (listeners ++ [callback])%list (eventListeners s);
     lastUpdate := lastUpdate s; debugMode := debugMode s;
     totalCellPowerings := totalCellPowerings s;
     statsTotalPowerTime := statsTotalPowerTime s;
     console := console s; world := world s |}.

(** The body of the [forEach] of [emitEvent]: one listener inside its
    [try]/[catch]; the handler writes the warning. *)
Definition guardedCall (data : EventData) (callback : Listener) (s : t) : completion t :=
  tryCatch
    (match call callback data (world s) with
     | Normal w => Normal (with_world w s)
     | Abrupt e w => Abrupt e (with_world w s)
     end)
    (fun error s' =>
       Normal (with_console
                 (console s' ++ [String.append "Error in power management event listener: " error])%list
                 s')).

(** [emitEvent(event, data)] *)
Definition emitEvent (event : string) (data : EventData) (s : t) : completion t :=
  andThen
    (match get event (eventListeners s) with
     | Some listeners => forEach (guardedCall data) listeners s
     | None => Normal s
     end)
    (fun s =>
       if debugMode s
       then Normal (with_console (console s ++ [String.append "[PowerManagement] Event: " event])%list s)
       else Normal s).

(** [clearStates()] *)
Definition clearStates (s : t) : t :=
  with_cellStates [] (with_laserStates [] (with_powerStates [] s)).

(** [initialize(entities)] *)
Definition initialize (entities : list Entity.t) (s : t) : t :=
  let s := clearStates s in
  let lasers := filter (Entity.isA "LaserEmitter") entities in
  let powerCells := filter (Entity.isA "PowerCell") entities in
  let s :=
    fold_left (fun s laser =>
      with_laserStates
        (set (Entity.id laser)
             {| ls_id := Entity.id laser; ls_isActive := Entity.isActive laser;
                ls_direction := Entity.direction laser;
                ls_position := Entity.getCenter laser;
                lastRotation := 0; activationCount := 0 |}
             (laserStates s)) s)
      lasers s in
  let s :=
    fold_left (fun s cell =>
      with_cellStates
        (set (Entity.id cell)
             {| cs_id := Entity.id cell; cs_isPowered := Entity.isPowered cell;
                cs_laserPowered := Entity.laserPowered cell;
                cs_position := Entity.getCenter cell;
                poweringLasers := []; lastPowerChange := 0 |}
             (cellStates s)) s)
      powerCells s in
  if debugMode s
  then with_console (console s ++ ["[PowerManagement] Initialized"])%list s
  else s.

(** The body of the [forEach] of [updateLaserStates]. *)
Definition updateLaserState (now : Z) (laser : Entity.t) (s : t) : completion t :=
  match get (Entity.id laser) (laserStates s) with
  | None => Normal s
  | Some currentState =>
      let wasActive := ls_isActive currentState in
      let oldDirection := ls_direction currentState in
      andThen
        (if negb (Bool.eqb (Entity.isActive laser) wasActive) then
           let s :=
             with_laserStates
               (modify (Entity.id laser)
                  (fun c => {| ls_id := ls_id c; ls_isActive := Entity.isActive laser;
                               ls_direction := ls_direction c;
                               ls_position := ls_position c;
                               lastRotation := lastRotation c;
                               activationCount :=
                                 if Entity.isActive laser then activationCount c + 1
                                 else activationCount c |})
                  (laserStates s)) s in
           if Entity.isActive laser
           then emitEvent LASER_ACTIVATED
                  (LaserActivated (Entity.id laser) (Entity.getCenter laser)
                     (Entity.direction laser)) s
           else emitEvent LASER_DEACTIVATED
                  (LaserDeactivated (Entity.id laser) (Entity.getCenter laser)) s
         else Normal s)
        (fun s =>
           andThen
             (if negb (String.eqb (Entity.direction laser) oldDirection) then
                let s :=
                  with_laserStates
                    (modify (Entity.id laser)
                       (fun c => {| ls_id := ls_id c; ls_isActive := ls_isActive c;
                                    ls_direction := Entity.direction laser;
                                    ls_position := ls_position c;
                                    lastRotation := now;
                                    activationCount := activationCount c |})
                       (laserStates s)) s in
                emitEvent LASER_ROTATED
                  (LaserRotated (Entity.id laser) oldDirection (Entity.direction laser)
                     (Entity.getCenter laser)) s
              else Normal s)
             (fun s =>
                Normal
                  (with_laserStates
                     (modify (Entity.id laser)
                        (fun c => {| ls_id := ls_id c; ls_isActive := ls_isActive c;
                                     ls_direction := ls_direction c;
                                     ls_position := Entity.getCenter laser;
                                     lastRotation := lastRotation c;
                                     activationCount := activationCount c |})
                        (laserStates s)) s)))
  end.

Definition updateLaserStates (now : Z) (entities : list Entity.t) (s : t) : completion t :=
  forEach (updateLaserState now) (filter (Entity.isA "LaserEmitter") entities) s.

(** [findLaserForBeam(beam, lasers)]: [lasers] holds the indices, in
    [entities], of the emitters; the result is the index of the closest one.
    Distances are compared through their squares. *)
Definition findLaserForBeam (beamStart : Vector2.t) (lasers : list nat)
    (entities : list Entity.t) : option nat * list Entity.t :=
  let '(closestLaser, _, entities) :=
    fold_left
      (fun (acc : option nat * option Q * list Entity.t) li =>
         let '(closestLaser, closestDistance, entities) := acc in
         match nth_error entities li with
         | Some laser =>
             if negb (Entity.isActive laser) then acc
             else
               let (laserStart, laser') := Entity.getLaserStart laser in
               let entities := updateAt li (fun _ => laser') entities in
               let distance := Vector2.distanceSq laserStart beamStart in
               let closer :=
                 match closestDistance with
                 | Some c => Qltb distance c
                 | None => true
                 end in
               if closer && Qltb distance (50 * 50)%Q
               then (Some li, Some distance, entities)
               else (closestLaser, closestDistance, entities)
         | None => acc
         end)
      lasers (None, None, entities) in
  (closestLaser, entities).

(** The square of [pointToLineDistance(point, lineStart, lineEnd)]. *)
Definition pointToLineDistanceSq (point lineStart lineEnd : Vector2.t) : Q :=
  (let A := Vector2.x point - Vector2.x lineStart in
   let B := Vector2.y point - Vector2.y lineStart in
   let C := Vector2.x lineEnd - Vector2.x lineStart in
   let D := Vector2.y lineEnd - Vector2.y lineStart in
   let dot := A * C + B * D in
   let lenSq := C * C + D * D in
   if Qeq_bool lenSq 0 then Vector2.distanceSq point lineStart
   else
     let param := dot / lenSq in
     let closest :=
       if Qltb param 0 then lineStart
       else if Qltb 1 param then lineEnd
       else {| Vector2.x := Vector2.x lineStart + param * C;
               Vector2.y := Vector2.y lineStart + param * D |} in
     Vector2.distanceSq point closest)%Q.

(** [distanceToBeam <= cellRadius + 5], on the squares. *)
Definition withinReach (distanceSq cellRadius : Q) : bool :=
  (Qle_bool 0 (cellRadius + 5) &&
   Qle_bool distanceSq ((cellRadius + 5) * (cellRadius + 5)))%Q.

Definition connectionKey (laser cell : string) : string :=
  String.append laser (String.append "_" cell).

(** [string.split("_")] *)
Fixpoint splitOn (sep : ascii) (s cur : string) : list string :=
  match s with
  | EmptyString => [cur]
  | String c s' =>
      if Ascii.eqb c sep then cur :: splitOn sep s' ""
      else splitOn sep s' (String.append cur (String c ""))
  end.

Definition split_ (s : string) : list string := splitOn "_"%char s "".

(** [emitEvent] on the power manager of a pair (manager, entities). *)
Definition emit (event : string) (data : EventData) (st : t * list Entity.t)
  : completion (t * list Entity.t) :=
  match emitEvent event data (fst st) with
  | Normal s => Normal (s, snd st)
  | Abrupt e s => Abrupt e (s, snd st)
  end.

(** The body of the [laserBeams.forEach] of [updatePowerCellStates], for the
    cell at index [ci] of [entities]. *)
Definition beamOnCell (now : Z) (lasers : list nat) (ci : nat) (beam : Beam)
    (st : t * list Entity.t) : completion (t * list Entity.t) :=
  let (s, entities) := st in
  match start beam, end_ beam, nth_error entities ci with
  | Some beamStart, Some beamEnd, Some cell =>
      let cellCenter := Entity.getCenter cell in
      let cellRadius := (Qmax (Entity.width cell) (Entity.height cell) / 2)%Q in
      let (hit, entities) := findLaserForBeam beamStart lasers entities in
      match hit with
      | None => Normal (s, entities)
      | Some li =>
          match nth_error entities li with
          | None => Normal (s, entities)
          | Some hitLaser =>
              let distanceToBeam := pointToLineDistanceSq cellCenter beamStart beamEnd in
              if withinReach distanceToBeam cellRadius then
                let s :=
                  with_cellStates
                    (modify (Entity.id cell)
                       (fun c => set_poweringLasers
                                   (poweringLasers c ++ [Entity.id hitLaser])%list c)
                       (cellStates s)) s in
                let key := connectionKey (Entity.id hitLaser) (Entity.id cell) in
                let s :=
                  match get key (powerStates s) with
                  | Some _ => s
                  | None =>
                      with_powerStates
                        (set key (newLaserPowerState (Entity.id hitLaser) (Entity.id cell))
                             (powerStates s)) s
                  end in
                match get key (powerStates s) with
                | Some powerState =>
                    if negb (isConnected powerState) then
                      emit LASER_HIT_CELL
                        (LaserHitCell (Entity.id hitLaser) (Entity.id cell)
                           (Entity.getCenter hitLaser) cellCenter)
                        (with_powerStates (modify key (connect now) (powerStates s)) s,
                         entities)
                    else Normal (s, entities)
                | None => Normal (s, entities)
                end
              else Normal (s, entities)
          end
      end
  | _, _, _ => Normal (s, entities)
  end.

(** The body of the second [powerCells.forEach] of [updatePowerCellStates]. *)
Definition updateCell (now : Z) (lasers : list nat) (laserBeams : list Beam) (ci : nat)
    (st : t * list Entity.t) : completion (t * list Entity.t) :=
  match nth_error (snd st) ci with
  | None => Normal st
  | Some cell0 =>
      match get (Entity.id cell0) (cellStates (fst st)) with
      | None => Normal st
      | Some _ =>
          andThen (forEach (beamOnCell now lasers ci) laserBeams st)
            (fun st =>
               let (s, entities) := st in
               match get (Entity.id cell0) (cellStates s), nth_error entities ci with
               | Some cellState, Some cell =>
                   let cellCenter := Entity.getCenter cell in
                   let wasPowered := cs_isPowered cellState in
                   let isPowered :=
                     match poweringLasers cellState with [] => false | _ => true end in
                   if negb (Bool.eqb isPowered wasPowered) then
                     let s :=
                       with_cellStates
                         (modify (Entity.id cell0)
                            (fun c => {| cs_id := cs_id c; cs_isPowered := isPowered;
                                         cs_laserPowered := isPowered;
                                         cs_position := cs_position c;
                                         poweringLasers := poweringLasers c;
                                         lastPowerChange := now |})
                            (cellStates s)) s in
                     let entities := updateAt ci (Entity.set_powered isPowered) entities in
                     if isPowered then
                       emit CELL_POWERED
                         (CellPowered (Entity.id cell) cellCenter (poweringLasers cellState))
                         (with_stats (totalCellPowerings s + 1) (statsTotalPowerTime s) s,
                          entities)
                     else
                       emit CELL_UNPOWERED (CellUnpowered (Entity.id cell) cellCenter)
                         (s, entities)
                   else Normal (s, entities)
               | _, _ => Normal (s, entities)
               end)
      end
  end.

(** The body of the [powerStates.forEach] of [updatePowerCellStates]: the
    connection is looked up again under [key], the map being iterated while
    its values change. *)
Definition checkConnection (now : Z) (key : string) (st : t * list Entity.t)
  : completion (t * list Entity.t) :=
  let (s, entities) := st in
  match get key (powerStates s) with
  | Some powerState =>
      if isConnected powerState then
        let parts := split_ key in
        let laser := nth 0 parts "" in
        let cell := nth_error parts 1 in
        let lost :=
          match cell with
          | Some c =>
              match get c (cellStates s) with
              | Some cellState => negb (existsb (String.eqb laser) (poweringLasers cellState))
              | None => true
              end
          | None => true
          end in
        if lost then
          emit LASER_LOST_CELL (LaserLostCell laser (match cell with Some c => c | None => "undefined" end))
            (with_powerStates (modify key (disconnect now) (powerStates s)) s, entities)
        else Normal (s, entities)
      else Normal (s, entities)
  | None => Normal (s, entities)
  end.

(** [updatePowerCellStates(entities, laserBeams)] *)
Definition updatePowerCellStates (now : Z) (laserBeams : list Beam)
    (st : t * list Entity.t) : completion (t * list Entity.t) :=
  let powerCells := TileLoader.indicesOf (Entity.isA "PowerCell") (snd st) 0 in
  let lasers := TileLoader.indicesOf (Entity.isA "LaserEmitter") (snd st) 0 in
  let st :=
    fold_left
      (fun (st : t * list Entity.t) ci =>
         match nth_error (snd st) ci with
         | Some cell =>
             (with_cellStates
                (modify (Entity.id cell) (set_poweringLasers []) (cellStates (fst st)))
                (fst st),
              snd st)
         | None => st
         end)
      powerCells st in
  andThen (forEach (updateCell now lasers laserBeams) powerCells st)
    (fun st => forEach (checkConnection now) (map fst (powerStates (fst st))) st).

(** [updateConnectionStates()] and [updateStatistics()] *)
Definition updateConnectionStates (now : Z) (s : t) : t :=
  with_powerStates
    (map (fun kv : string * LaserPowerState => (fst kv, updateTotalTime now (snd kv)))
         (powerStates s)) s.

Definition updateStatistics (s : t) : t :=
  with_stats (totalCellPowerings s)
    (fold_left (fun sum kv => sum + totalPowerTime (snd kv)) (powerStates s) 0) s.

(** [update(entities, laserBeams)] at clock reading [now]. *)
Definition update (now : Z) (laserBeams : list Beam) (st : t * list Entity.t)
  : completion (t * list Entity.t) :=
  let (s, entities) := st in
  let s := with_lastUpdate now s in
  match updateLaserStates now entities s with
  | Abrupt e s => Abrupt e (s, entities)
  | Normal s =>
      andThen (updatePowerCellStates now laserBeams (s, entities))
        (fun st => Normal (updateStatistics (updateConnectionStates now (fst st)), snd st))
  end.

(** [onLaserRotated(laser)]: it returns at once for an emitter without an
    identifier; the cell of a lost connection is read from the connection
    record. *)
Definition onLaserRotated (now : Z) (laser : Entity.t) (s : t) : completion t :=
  if String.eqb (Entity.id laser) "" then Normal s
  else
    let s :=
      with_laserStates
        (modify (Entity.id laser)
           (fun c => {| ls_id := ls_id c; ls_isActive := ls_isActive c;
                        ls_direction := Entity.direction laser;
                        ls_position := ls_position c;
                        lastRotation := now;
                        activationCount := activationCount c |})
           (laserStates s)) s in
    andThen
      (forEach
         (fun key s =>
            match get key (powerStates s) with
            | Some powerState =>
                if String.prefix (String.append (Entity.id laser) "_") key
                   && isConnected powerState
                then emitEvent LASER_LOST_CELL
                       (LaserLostCell (Entity.id laser) (powerCellId powerState))
                       (with_powerStates (modify key (disconnect now) (powerStates s)) s)
                else Normal s
            | None => Normal s
            end)
         (map fst (powerStates s)) s)
      (fun s =>
         emitEvent LASER_ROTATED
           (LaserRotated (Entity.id laser) "" (Entity.direction laser) (Entity.getCenter laser))
           s).

(** [onLaserToggled(laser)]: it returns at once for an emitter without an
    identifier, and when the recorded state agrees with the emitter. *)
Definition onLaserToggled (now : Z) (laser : Entity.t) (s : t) : completion t :=
  if String.eqb (Entity.id laser) "" then Normal s
  else
    let announce (s : t) : completion t :=
      if Entity.isActive laser then
        emitEvent LASER_ACTIVATED
          (LaserActivated (Entity.id laser) (Entity.getCenter laser) (Entity.direction laser)) s
      else
        andThen
          (forEach
             (fun key s =>
                match get key (powerStates s) with
                | Some powerState =>
                    if String.prefix (String.append (Entity.id laser) "_") key
                       && isConnected powerState
                    then emitEvent LASER_LOST_CELL
                           (LaserLostCell (Entity.id laser) (powerCellId powerState))
                           (with_powerStates (modify key (disconnect now) (powerStates s)) s)
                    else Normal s
                | None => Normal s
                end)
             (map fst (powerStates s)) s)
          (fun s =>
             emitEvent LASER_DEACTIVATED
               (LaserDeactivated (Entity.id laser) (Entity.getCenter laser)) s) in
    match get (Entity.id laser) (laserStates s) with
    | Some laserState =>
        if negb (Bool.eqb (ls_isActive laserState) (Entity.isActive laser)) then
          announce
            (with_laserStates
               (modify (Entity.id laser)
                  (fun c => {| ls_id := ls_id c; ls_isActive := Entity.isActive laser;
                               ls_direction := ls_direction c;
                               ls_position := ls_position c;
                               lastRotation := lastRotation c;
                               activationCount :=
                                 if Entity.isActive laser then activationCount c + 1
                                 else activationCount c |})
                  (laserStates s)) s)
        else Normal s
    | None => announce s
    end.

End WithListeners.

End Power.

(* ===================================================================== *)
(** * Notions used to state the properties *)
(* ===================================================================== *)

Module Spec.

(** What the listeners of an event do when each of them is called once, in
    the order of registration, whatever the others did: the state of the
    application at the end, and the values thrown on the way. *)
Fixpoint allListenersRun {W Listener : Type}
    (call : Listener -> Power.EventData -> W -> Power.completion W)
    (data : Power.EventData) (listeners : list Listener) (w : W) : W * list string :=
  match listeners with
  | [] => (w, [])
  | cb :: rest =>
      match call cb data w with
      | Power.Normal w' => allListenersRun call data rest w'
      | Power.Abrupt e w' =>
          let (w'', errors) := allListenersRun call data rest w' in
          (w'', e :: errors)
      end
  end.

(** The grid keys of the placed rooms, in the order of placement. *)
Definition keys (wm : WorldManager.t) : list (Z * Z) :=
  map fst (WorldManager.rooms wm).

(** A grid cell linked to the origin by a path of 4-neighbour steps through
    placed rooms (the origin itself is the root of the paths). *)
Inductive linked (ks : list (Z * Z)) : Z * Z -> Prop :=
| linked_origin : linked ks (0, 0)
| linked_step p q :
    linked ks p -> In q (WorldManager.adjacent4 p) -> In q ks -> linked ks q.

(** Reachable from the start room: as [linked], the start room at the
    origin being placed. *)
Inductive reachable (ks : list (Z * Z)) : Z * Z -> Prop :=
| reach_start : In (0, 0) ks -> reachable ks (0, 0)
| reach_step p q :
    reachable ks p -> In q (WorldManager.adjacent4 p) -> In q ks -> reachable ks q.

(** The seeds for which the generator starts in state [0] and stays there,
    every draw being negative. *)
Definition degenerateSeed (seed : Z) : Prop :=
  SeededRandom.seed (SeededRandom.make seed) = 0.

Definition rngOK (r : SeededRandom.t) : Prop :=
  1 <= SeededRandom.seed r <= 2147483646.

(** [ensures c bad post]: the call [c] returns a value that satisfies
    [post], or throws and then [bad] holds; it does not run out of fuel. *)
Definition ensures {A : Type} (c : outcome A) (bad : Prop) (post : A -> Prop) : Prop :=
  match c with
  | Done a => post a
  | Thrown => bad
  | OutOfFuel => False
  end.

(** The fields of the manager that generating rooms leaves alone. *)
Definition frame (wm wm' : WorldManager.t) : Prop :=
  WorldManager.tileLoader wm' = WorldManager.tileLoader wm /\
  WorldManager.levelConstraints wm' = WorldManager.levelConstraints wm /\
  WorldManager.levelBounds wm' = WorldManager.levelBounds wm /\
  WorldManager.exitRoomsGenerated wm' = WorldManager.exitRoomsGenerated wm /\
  WorldManager.startRoom wm' = WorldManager.startRoom wm.

(** A stored room sits under its own grid key and is not an exit yet. *)
Definition roomOK (kr : (Z * Z) * WorldRoom.t) : Prop :=
  fst kr = (WorldRoom.roomX (snd kr), WorldRoom.roomY (snd kr)) /\
  WorldRoom.isExit (snd kr) = false.

(** The invariant of level generation. *)
Definition Inv (wm : WorldManager.t) : Prop :=
  NoDup (keys wm) /\
  Forall roomOK (WorldManager.rooms wm) /\
  (forall k, In k (keys wm) -> linked (keys wm) k).

(** The catalog has a template flagged [start]. *)
Definition hasStartTile (tl : list Tile.t) : Prop :=
  exists t, In t tl /\ Tile.start t = true.

(** The start room, when there is one, is the room at the origin. *)
Definition startRef (wm : WorldManager.t) : Prop :=
  WorldManager.startRoom wm = None \/
  WorldManager.startRoom wm = Some WorldManager.DroppedRoom \/
  WorldManager.startRoom wm = Some (WorldManager.LiveRoom (0, 0)).

(** The start room as a room of the current graph. *)
Definition startRoomInGraph (wm : WorldManager.t) : option WorldRoom.t :=
  match WorldManager.startRoom wm with
  | Some (WorldManager.LiveRoom (x, y)) => WorldManager.getRoom wm x y
  | _ => None
  end.

(** The room graph of a level: the rooms with their grid coordinates,
    templates, world origins and exit flags, in the order of placement, and
    the start room. *)
Definition roomGraph (wm : WorldManager.t)
  : list ((Z * Z) * WorldRoom.t) * option WorldRoom.t :=
  (WorldManager.rooms wm, startRoomInGraph wm).

Definition outcome_map {A B : Type} (f : A -> B) (c : outcome A) : outcome B :=
  match c with
  | Done a => Done (f a)
  | Thrown => Thrown
  | OutOfFuel => OutOfFuel
  end.

(** A manager without its references to a start room. *)
Definition forgetStart (wm : WorldManager.t) : WorldManager.t :=
  WorldManager.set_start None wm.

(** What [initialize] hands to its last step, [generateExitRoom]. *)
Definition generated (wm wm' : WorldManager.t) : Prop :=
  exists wmE,
    wm' = WorldManager.generateExitRoom wmE /\
    Inv wmE /\
    WorldManager.tileLoader wmE = WorldManager.tileLoader wm /\
    WorldManager.exitRoomsGenerated wmE = 0 /\
    WorldManager.maxExits (WorldManager.levelConstraints wmE) = 1 /\
    WorldManager.startRoom wmE =
      match filter Tile.start (WorldManager.tileLoader wm) with
      | [] => WorldManager.dropRef (WorldManager.startRoom wm)
      | _ => Some (WorldManager.LiveRoom (0, 0))
      end /\
    (filter Tile.start (WorldManager.tileLoader wm) <> [] -> In (0, 0) (keys wmE)).

(** All rooms moved by [(dx, dy)]: what [adjustAllRoomsPosition] does. *)
Definition movedBy (dx dy : Z) (wm : WorldManager.t) : WorldManager.t :=
  WorldManager.set_rooms
    (map (fun kr : (Z * Z) * WorldRoom.t => (fst kr, WorldRoom.shift dx dy (snd kr)))
         (WorldManager.rooms wm))
    wm.

Definition roomPost (x y : Z) (wm : WorldManager.t) (res : bool * WorldManager.t) : Prop :=
  let (ok, wm') := res in
  Inv wm' /\ frame wm wm' /\
  (rngOK (WorldManager.rng wm) -> rngOK (WorldManager.rng wm')) /\
  if ok
  then keys wm' = keys wm ++ [(x, y)] /\
       WorldManager.generatedRooms wm' = WorldManager.generatedRooms wm + 1
  else keys wm' = keys wm /\
       WorldManager.generatedRooms wm' = WorldManager.generatedRooms wm.

Definition anchored (wm : WorldManager.t) (positions : list (Z * Z)) : Prop :=
  forall q, In q positions ->
    exists p, linked (keys wm) p /\ In q (WorldManager.adjacent4 p).

Definition addPost (wm : WorldManager.t) (queue : list (Z * Z))
    (res : list (Z * Z) * list (Z * Z) * WorldManager.t) : Prop :=
  let '(queue2, _, wm') := res in
  Inv wm' /\ frame wm wm' /\
  (rngOK (WorldManager.rng wm) -> rngOK (WorldManager.rng wm')) /\
  incl (keys wm) (keys wm') /\
  Forall (linked (keys wm')) queue2 /\
  Z.of_nat (List.length queue2) - Z.of_nat (List.length queue) =
    WorldManager.generatedRooms wm' - WorldManager.generatedRooms wm.

Definition genPost (wm wm' : WorldManager.t) : Prop :=
  Inv wm' /\ frame wm wm' /\
  (rngOK (WorldManager.rng wm) -> rngOK (WorldManager.rng wm')) /\
  incl (keys wm) (keys wm').

(** The rooms of a generated level, in the order of placement. *)
Definition placed (wm : WorldManager.t) : list WorldRoom.t :=
  map snd (WorldManager.rooms wm).

(** What [generateExitRoom] leaves behind: the room at index [i] is the one
    exit; it is farthest from the origin, and the first such room. *)
Definition exitAt (wm : WorldManager.t) (i : nat) (exitRoom : WorldRoom.t) : Prop :=
  nth_error (placed wm) i = Some exitRoom /\
  WorldRoom.isExit exitRoom = true /\
  (forall j r, nth_error (placed wm) j = Some r -> WorldRoom.isExit r = true -> j = i) /\
  (forall r, In r (placed wm) -> WorldManager.manhattan r <= WorldManager.manhattan exitRoom) /\
  (forall j r, (j < i)%nat -> nth_error (placed wm) j = Some r ->
               WorldManager.manhattan r < WorldManager.manhattan exitRoom).


(** The exit designation as the specification words it: one room is marked,
    it is not the start room, and no placed room is farther from the
    origin. *)
Definition exitDesignationAsSpecified (wm : WorldManager.t) : Prop :=
  exists i exitRoom,
    nth_error (placed wm) i = Some exitRoom /\
    WorldRoom.isExit exitRoom = true /\
    (forall j r, nth_error (placed wm) j = Some r -> WorldRoom.isExit r = true -> j = i) /\
    WorldManager.startRoom wm <>
      Some (WorldManager.LiveRoom (WorldRoom.roomX exitRoom, WorldRoom.roomY exitRoom)) /\
    (forall r, In r (placed wm) -> WorldManager.manhattan r <= WorldManager.manhattan exitRoom).

(** The width and the height of the intersection of the world-pixel
    rectangles of two rooms (not positive when they are apart). *)
Definition overlapWidth (a b : WorldRoom.t) : Z :=
  Z.min (WorldRoom.worldX a + WorldRoom.width a) (WorldRoom.worldX b + WorldRoom.width b)
  - Z.max (WorldRoom.worldX a) (WorldRoom.worldX b).

Definition overlapHeight (a b : WorldRoom.t) : Z :=
  Z.min (WorldRoom.worldY a + WorldRoom.height a) (WorldRoom.worldY b + WorldRoom.height b)
  - Z.max (WorldRoom.worldY a) (WorldRoom.worldY b).

Definition intersects (a b : WorldRoom.t) : Prop :=
  0 < overlapWidth a b /\ 0 < overlapHeight a b.

Definition gridAdjacent (a b : WorldRoom.t) : Prop :=
  Z.abs (WorldRoom.roomX a - WorldRoom.roomX b) +
  Z.abs (WorldRoom.roomY a - WorldRoom.roomY b) = 1.

(** Two rooms side by side share a strip one tile wide; two rooms one above
    the other share a strip one tile tall. *)
Definition sharedEdgeStrip (a b : WorldRoom.t) : Prop :=
  (WorldRoom.roomY a = WorldRoom.roomY b -> overlapWidth a b = TILE_SIZE) /\
  (WorldRoom.roomX a = WorldRoom.roomX b -> overlapHeight a b = TILE_SIZE).

Definition nonOverlapExceptSharedEdge (wm : WorldManager.t) : Prop :=
  forall a b, In a (placed wm) -> In b (placed wm) -> a <> b ->
    ~ intersects a b \/ (gridAdjacent a b /\ sharedEdgeStrip a b).

(** A catalog of two templates of 4 by 4 tiles, each with the four exits. *)
Definition crossTile (id : string) (start : bool) : Tile.t :=
  {| Tile.id := id; Tile.size := Some (4, 4); Tile.start := start; Tile.exit := false;
     Tile.collision := Some ["#..#"; "...."; "...."; "#..#"]%string;
     Tile.exits := [("N", (1, 0)); ("E", (3, 1)); ("S", (1, 3)); ("W", (0, 1))]%string;
     Tile.prefabs := Some [] |}.

Definition crossCatalog : list Tile.t :=
  [crossTile "start" true; crossTile "cross" false].

(** A manager that has generated a level before: its store is filled and it
    holds a reference to the start room of that level. *)
Definition usedManager : WorldManager.t :=
  match WorldManager.initialize 7 3 (WorldManager.make crossCatalog 5) with
  | Done wm => wm
  | _ => WorldManager.make crossCatalog 5
  end.

(** The connectivity of a level as the specification words it. *)
Definition connectedAsSpecified (wm : WorldManager.t) : Prop :=
  forall k, In k (keys wm) -> reachable (keys wm) k.

(** *** A laser that lights a cell

    An emitter facing east and a power cell four tiles to its right, both
    one tile in size; the beam of the emitter ends on the near face of the
    cell.  The application listens to [laser_hit_cell], [cell_powered] and
    [laser_lost_cell] and keeps a journal of the calls it receives. *)

Definition tileEntity (name id : string) (px py : Z) (isActive : bool) (direction : string)
    (solid : bool) : Entity.t :=
  {| Entity.constructorName := name; Entity.id := id;
     Entity.position := Collision.mkV px py;
     Entity.width := inject_Z TILE_SIZE; Entity.height := inject_Z TILE_SIZE;
     Entity.visible := true; Entity.active := true; Entity.solid := solid;
     Entity.isOpen := false; Entity.isActive := isActive; Entity.direction := direction;
     Entity.isPowered := false; Entity.laserPowered := false |}.

Definition litEntities (laser cell : string) : list Entity.t :=
  [ tileEntity "LaserEmitter"%string laser 64 64 true "E"%string false;
    tileEntity "PowerCell"%string cell 320 64 false ""%string true ].

Definition litBeams : list Power.Beam :=
  [ {| Power.start := Some (Collision.mkV 98 96);
       Power.end_ := Some (Collision.mkV 320 96) |} ].

Definition Journal : Type := list (string * Power.EventData).

Definition journalist (listener : string) (data : Power.EventData) (j : Journal)
  : Power.completion Journal :=
  Power.Normal (j ++ [(listener, data)])%list.

Definition litManager (laser cell : string) : Power.t Journal string :=
  Power.initialize Journal string (litEntities laser cell)
    (Power.addEventListener Journal string Power.LASER_LOST_CELL "on_laser_lost_cell"%string
       (Power.addEventListener Journal string Power.CELL_POWERED "on_cell_powered"%string
          (Power.addEventListener Journal string Power.LASER_HIT_CELL "on_laser_hit_cell"%string
             (Power.make Journal string [])))).

(** One call of [update] per clock reading, the beams staying the same. *)
Fixpoint ticks (clock : list Z) (st : Power.t Journal string * list Entity.t)
  : Power.completion (Power.t Journal string * list Entity.t) :=
  match clock with
  | [] => Power.Normal st
  | now :: rest =>
      match Power.update Journal string journalist now litBeams st with
      | Power.Normal st' => ticks rest st'
      | Power.Abrupt e st' => Power.Abrupt e st'
      end
  end.

(** The names of the listeners called so far, in order. *)
Definition calls (c : Power.completion (Power.t Journal string * list Entity.t)) : list string :=
  match c with
  | Power.Normal st => map fst (Power.world Journal string (fst st))
  | Power.Abrupt _ st => map fst (Power.world Journal string (fst st))
  end.

(** *** Balance repair *)

Definition isCell (p : Prefab.t) : bool := TileLoader.isType "PowerCell"%string p.
Definition isLaser (p : Prefab.t) : bool := TileLoader.isType "LaserEmitter"%string p.

(** The collision cell at [pos] is floor. *)
Definition floorAt (tile : Tile.t) (pos : Z * Z) : Prop :=
  0 <= fst pos /\ 0 <= snd pos /\
  exists row,
    nth_error (TileLoader.collisionOf tile) (Z.to_nat (snd pos)) = Some row /\
    String.get (Z.to_nat (fst pos)) row = Some "."%char.

(** The safe cells of a template, in the order in which
    [findSafePositions] visits them: interior, floor, free of prefabs. *)
Definition safeCells (tile : Tile.t) (prefabs : list Prefab.t) : list (Z * Z) :=
  match Tile.size tile with
  | Some (w, h) =>
      flat_map (fun y =>
        flat_map (fun x =>
          if TileLoader.safeCell (TileLoader.collisionOf tile) prefabs x y
          then [(x, y)] else [])
          (rangeIncl 1 (w - 2)))
        (rangeIncl 1 (h - 2))
  | None => []
  end.

(** No prefab shares the position of a power cell. *)
Definition apart (p q : Prefab.t) : Prop :=
  isCell p = true \/ isCell q = true -> Prefab.pos p <> Prefab.pos q.

(** Every power cell of the list sits on floor, at a position that no
    other prefab of the list has. *)
Definition cellsPlacedSafely (tile : Tile.t) (prefabs : list Prefab.t) : Prop :=
  forall before p after,
    prefabs = before ++ p :: after -> isCell p = true ->
    floorAt tile (Prefab.pos p) /\
    forall q, In q (before ++ after) -> Prefab.pos q <> Prefab.pos p.

Definition laserPrefab (id : string) (x y : Z) (dir : string) : Prefab.t :=
  {| Prefab.type := "LaserEmitter"%string; Prefab.pos := (x, y);
     Prefab.dir := Some dir; Prefab.id := Some id |}.

(** A walled room of 4 by 4 tiles with two emitters in its interior. *)
Definition twoLaserTile : Tile.t :=
  {| Tile.id := "lasers"%string; Tile.size := Some (4, 4); Tile.start := false; Tile.exit := false;
     Tile.collision := Some ["####"%string; "#..#"%string; "#..#"%string; "####"%string]%string;
     Tile.exits := [];
     Tile.prefabs := Some [laserPrefab "l1"%string 1 1 "E"%string; laserPrefab "l2"%string 2 1 "S"%string] |}.

(** The same room with the player standing on one of the two free cells. *)
Definition twoLaserStartTile : Tile.t :=
  {| Tile.id := "lasers"%string; Tile.size := Some (4, 4); Tile.start := true; Tile.exit := false;
     Tile.collision := Some ["####"%string; "#..#"%string; "#..#"%string; "####"%string]%string;
     Tile.exits := [];
     Tile.prefabs :=
       Some [laserPrefab "l1"%string 1 1 "E"%string; laserPrefab "l2"%string 2 1 "S"%string;
             {| Prefab.type := "Player"%string; Prefab.pos := (1, 2);
                Prefab.dir := None; Prefab.id := Some "player_start"%string |}] |}.

(** The balance repair as the specification words it. *)
Definition balancedAsSpecified (tile : Tile.t) : Prop :=
  exists tile' prefabs',
    TileLoader.validateAndFixTile tile = Done tile' /\
    Tile.prefabs tile' = Some prefabs' /\
    List.length (filter isCell prefabs') = 2%nat /\
    cellsPlacedSafely tile prefabs'.

(** The invariant of the alignment loop: the prefab types stay as they are,
    no prefab shares the position of a power cell, power cells sit on floor. *)
Definition aligned (tile : Tile.t) (types : list string) (prefabs : list Prefab.t) : Prop :=
  map Prefab.type prefabs = types /\
  ForallOrdPairs apart prefabs /\
  Forall (fun p => isCell p = true -> floorAt tile (Prefab.pos p)) prefabs.

(** The filter that [removeEntitiesInWalls] applies when nothing throws. *)
Definition kept (collision : list string) (p : Prefab.t) : bool :=
  match TileLoader.keepPrefab collision p with
  | Done true => true
  | _ => false
  end.

(** Every prefab sits on a row of non-negative index. *)
Definition rowsFromZero (prefabs : list Prefab.t) : Prop :=
  Forall (fun p => 0 <= snd (Prefab.pos p)) prefabs.

(** *** The walk over the entity hits *)

Definition isEmitter (h : Collision.HitEntity) : bool :=
  Entity.isA "LaserEmitter"%string (Collision.entity h).


(** A hit that lets the ray through: an emitter, an entity that is not
    solid, or a solid door that is open. *)
Definition transparent (h : Collision.HitEntity) : bool :=
  isEmitter h || negb (Entity.solid (Collision.entity h))
  || Collision.isOpenDoor (Collision.entity h).

(** The hits that the walk records: all but the emitters. *)
Definition recorded (hits : list Collision.HitEntity) : list Collision.HitEntity :=
  filter (fun h => negb (isEmitter h)) hits.

(** The end of the ray before the entities are looked at: the wall hit
    point, or the point at [maxDistance]. *)
Definition wallLimitedEnd (start direction : Vector2.t)
    (wallCollisionCallback : option (Vector2.t -> bool)) : Vector2.t :=
  match Collision.checkWallCollision start direction Collision.maxDistance
          wallCollisionCallback with
  | Some p => p
  | None => Vector2.add start (Vector2.multiply direction (inject_Z Collision.maxDistance))
  end.

(** The sorted hits that [traceLaser] walks. *)
Definition hitsWalked (start direction : Vector2.t) (entities : list Entity.t)
    (wallCollisionCallback : option (Vector2.t -> bool)) : list Collision.HitEntity :=
  Collision.findEntityCollisions start
    (wallLimitedEnd start direction wallCollisionCallback) entities.

(** A door of one tile at [(px, py)], and a switch that is not solid. *)
Definition autoDoor (px py : Z) (isOpen : bool) : Entity.t :=
  {| Entity.constructorName := "AutoDoor"%string; Entity.id := "door_1"%string;
     Entity.position := Collision.mkV px py;
     Entity.width := inject_Z TILE_SIZE; Entity.height := inject_Z TILE_SIZE;
     Entity.visible := true; Entity.active := true; Entity.solid := true;
     Entity.isOpen := isOpen; Entity.isActive := false; Entity.direction := ""%string;
     Entity.isPowered := false; Entity.laserPowered := false |}.

Definition doorScene (isOpen : bool) : list Entity.t :=
  [ tileEntity "LaserEmitter"%string "laser_1"%string 64 64 true "E"%string false;
    tileEntity "Button"%string "button_1"%string 192 64 false ""%string false;
    autoDoor 320 64 isOpen ].



(** The hit point of a record lies on the segment from [start] to [end_],
    at the parameter of the record; or the parameter is [NaN], and so is
    the point. *)
Definition onSegment (start end_ : Vector2.t) (h : Collision.Hit) : Prop :=
  match Collision.t h with
  | Collision.Fin q =>
      (0 <= q)%Q /\ (q <= 1)%Q /\
      Collision.hpoint h
      = Collision.Pt (Vector2.add start (Vector2.multiply (Vector2.subtract end_ start) q))
  | Collision.NaN => Collision.hpoint h = Collision.PtNaN
  | _ => False
  end.

(** *** The reach of the ray *)

Definition unitVector (v : Vector2.t) : Prop :=
  (Vector2.x v * Vector2.x v + Vector2.y v * Vector2.y v == 1)%Q.

(** The first of the samples of [checkWallCollision] at which the callback
    reports a wall. *)
Definition wallStep (start direction : Vector2.t)
    (wallCollisionCallback : option (Vector2.t -> bool)) : option Z :=
  match wallCollisionCallback with
  | None => None
  | Some callback =>
      Collision.firstWallStep callback start
        (Vector2.multiply direction (inject_Z Collision.stepSize))
        (rangeIncl 1 (Collision.maxDistance / Collision.stepSize))
  end.

(** The point of the ray at distance [s] from its start. *)
Definition pointAt (start direction : Vector2.t) (s : Q) : Vector2.t :=
  Vector2.add start (Vector2.multiply direction s).

Definition inBounds (p : Vector2.t) (b : Entity.Bounds) : Prop :=
  (Entity.bx b <= Vector2.x p)%Q /\ (Vector2.x p <= Entity.bx b + Entity.bwidth b)%Q /\
  (Entity.by_ b <= Vector2.y p)%Q /\ (Vector2.y p <= Entity.by_ b + Entity.bheight b)%Q.

(** The wall predicate holds at a point of the ray within [maxDistance]. *)
Definition wallOnRay (start direction : Vector2.t)
    (wallCollisionCallback : option (Vector2.t -> bool)) : Prop :=
  exists callback s,
    wallCollisionCallback = Some callback /\
    (0 <= s)%Q /\ (s <= inject_Z Collision.maxDistance)%Q /\
    callback (pointAt start direction s) = true.

(** The bounds of a solid entity that is not an open door meet the ray
    within [maxDistance]. *)
Definition blockerOnRay (start direction : Vector2.t) (entities : list Entity.t) : Prop :=
  exists e s,
    In e entities /\ Entity.solid e = true /\ Collision.isOpenDoor e = false /\
    (0 <= s)%Q /\ (s <= inject_Z Collision.maxDistance)%Q /\
    inBounds (pointAt start direction s) (Entity.getBounds e).

Definition maxDistanceSq : Q := inject_Z (Collision.maxDistance * Collision.maxDistance).

(** The truncation of the ray as the specification words it. *)
Definition truncatedAsSpecified (start direction : Vector2.t) (entities : list Entity.t)
    (wallCollisionCallback : option (Vector2.t -> bool)) : Prop :=
  match Collision.endPoint
          (Collision.traceLaser start direction entities wallCollisionCallback) with
  | Collision.Pt p =>
      (Vector2.distanceSq start p <= maxDistanceSq)%Q /\
      (wallOnRay start direction wallCollisionCallback \/
       blockerOnRay start direction entities ->
       (Vector2.distanceSq start p < maxDistanceSq)%Q)
  | Collision.PtNaN => False
  end.

(** The reach of the ray when the sampling reports a wall first at sample
    [i]: the sample before it, and less than one tile more. *)
Definition reachAtStep (i : Z) : Q :=
  inject_Z (Collision.stepSize * (i - 1) + TILE_SIZE).

(** A wall that begins at [x = 2001]. *)
Definition farWall (p : Vector2.t) : bool := Qle_bool 2001 (Vector2.x p).

(** Two points with equal coordinates. *)
Definition samePoint (a b : Vector2.t) : Prop :=
  (Vector2.x a == Vector2.x b)%Q /\ (Vector2.y a == Vector2.y b)%Q.

(** The tile that holds a coordinate. *)
Definition tileOf (c : Q) : Z := Qfloor (c / Collision.TILE).

(** A wall predicate that is the same all over each tile, as one that
    looks the point up in a grid of tiles is. *)
Definition tileWall (callback : Vector2.t -> bool) : Prop :=
  forall p q,
    tileOf (Vector2.x p) = tileOf (Vector2.x q) ->
    tileOf (Vector2.y p) = tileOf (Vector2.y q) ->
    callback p = callback q.

(** The four vectors of the table [DIRECTIONS]. *)
Definition axisDirection (d : Vector2.t) : Prop :=
  d = Collision.mkV 1 0 \/ d = Collision.mkV (-1) 0 \/
  d = Collision.mkV 0 1 \/ d = Collision.mkV 0 (-1).

(** The sample [i] of [checkWallCollision]. *)
Definition sample (start direction : Vector2.t) (i : Z) : Vector2.t :=
  Vector2.add start
    (Vector2.multiply (Vector2.multiply direction (inject_Z Collision.stepSize))
       (inject_Z i)).

(** The wall that fills the tile columns from column [n] on. *)
Definition wallFromTile (n : Z) (p : Vector2.t) : bool := n <=? tileOf (Vector2.x p).

(** *** The seeded generator *)

(** The generator after [n] draws. *)
Definition afterDraws (n : nat) (r : SeededRandom.t) : SeededRandom.t :=
  Nat.iter n (fun r => snd (SeededRandom.random r)) r.

(** *** The limits of a level *)

(** A room as the constructor shapes it: its pixel size is its size in
    tiles times the side of a tile, and the collision map has one row per
    tile row, one entry per tile column. *)
Definition roomShaped (r : WorldRoom.t) : Prop :=
  WorldRoom.width r = WorldRoom.tileWidth r * TILE_SIZE /\
  WorldRoom.height r = WorldRoom.tileHeight r * TILE_SIZE /\
  List.length (WorldRoom.collisionMap r) = Z.to_nat (WorldRoom.tileHeight r) /\
  Forall (fun row => List.length row = Z.to_nat (WorldRoom.tileWidth r))
         (WorldRoom.collisionMap r).

Definition inGrid (b : WorldManager.Bounds) (k : Z * Z) : Prop :=
  WorldManager.minX b <= fst k <= WorldManager.maxX b /\
  WorldManager.minY b <= snd k <= WorldManager.maxY b.

(** What generation keeps, under bounds [b] and constraints [c]: the store
    holds the counted rooms and [s] more (the start room); the count stays
    under the maximum; every room is shaped, and lies within the bounds
    unless it is the room of the origin. *)
Definition levelOK (s : Z) (b : WorldManager.Bounds) (c : WorldManager.Constraints)
    (wm : WorldManager.t) : Prop :=
  WorldManager.levelBounds wm = b /\
  WorldManager.levelConstraints wm = c /\
  Z.of_nat (List.length (WorldManager.rooms wm)) = WorldManager.generatedRooms wm + s /\
  WorldManager.generatedRooms wm <= Z.max 0 (WorldManager.maxRooms c - 1) /\
  Forall (fun kr : (Z * Z) * WorldRoom.t =>
            (fst kr = (0, 0) \/ inGrid b (fst kr)) /\ roomShaped (snd kr))
         (WorldManager.rooms wm).

(** *** Exits of neighbouring rooms *)

(** The table of [getRequiredConnections]: the offset of a neighbour, the
    side of the room that faces it, and the side of the neighbour that
    faces the room. *)
Definition facing : list (Z * Z * string * string) :=
  [ (0, -1, "N"%string, "S"%string); (0, 1, "S"%string, "N"%string); (1, 0, "E"%string, "W"%string); (-1, 0, "W"%string, "E"%string) ]%string.

(** Every room has an exit towards each neighbour placed before it that
    has an exit towards the room. *)
Definition exitsAnswered (rooms : list ((Z * Z) * WorldRoom.t)) : Prop :=
  forall i j ka A kb B dx dy dir opposite,
    (i < j)%nat ->
    nth_error rooms i = Some (ka, A) -> nth_error rooms j = Some (kb, B) ->
    In (dx, dy, dir, opposite) facing ->
    ka = (fst kb + dx, snd kb + dy) ->
    WorldManager.hasExit A opposite = true ->
    WorldManager.hasExit B dir = true.

(** The entry of the store at index [i]; past the end, a start room of the
    sample catalog. *)
Definition placedAt (wm : WorldManager.t) (i : nat) : (Z * Z) * WorldRoom.t :=
  nth i (WorldManager.rooms wm)
      ((0, 0), WorldRoom.make (crossTile "start" true) 0 0 0 0).

Definition exitsOK (wm : WorldManager.t) : Prop :=
  NoDup (keys wm) /\ exitsAnswered (WorldManager.rooms wm).

(** *** Rotated exits *)

(** The manager of the lit scene after one call of [update]: the emitter
    is connected to the cell. *)
Definition connectedManager : Power.t Journal string :=
  match ticks [1000] (litManager "laser1" "cell1", litEntities "laser1" "cell1") with
  | Power.Normal st => fst st
  | Power.Abrupt _ st => fst st
  end.

(** Whether the connection under [key] is on, when there is one. *)
Definition connectionOn (key : string) (s : Power.t Journal string) : option bool :=
  option_map Power.isConnected (Power.get key (Power.powerStates Journal string s)).

(** The direction that [rotateExits] gives to the exit of [dir]. *)
Definition rotated (rotation : Z) (dir : string) : string :=
  DungeonGenerator.keyAt DungeonGenerator.directions
    (Z.rem (DungeonGenerator.indexOf dir DungeonGenerator.directions + rotation) 4).

(** *** Positions on a ray *)

(** The point at parameter [q] of the segment from [a] to [b]. *)
Definition along (a b : Vector2.t) (q : Q) : Vector2.t :=
  Vector2.add a (Vector2.multiply (Vector2.subtract b a) q).

(** The point lies in the open interior of the rectangle. *)
Definition strictlyInside (p : Vector2.t) (b : Entity.Bounds) : Prop :=
  (Entity.bx b < Vector2.x p)%Q /\ (Vector2.x p < Entity.bx b + Entity.bwidth b)%Q /\
  (Entity.by_ b < Vector2.y p)%Q /\ (Vector2.y p < Entity.by_ b + Entity.bheight b)%Q.

(** A segment parallel to an axis does not run along the line of an edge
    of the rectangle that is parallel to it: no crossing parameter of the
    slab test is [0 * Infinity]. *)
Definition offEdgeLines (a b : Vector2.t) (r : Entity.Bounds) : Prop :=
  ((Vector2.x b - Vector2.x a == 0)%Q ->
   ~ (Entity.bx r - Vector2.x a == 0)%Q /\
   ~ (Entity.bx r + Entity.bwidth r - Vector2.x a == 0)%Q) /\
  ((Vector2.y b - Vector2.y a == 0)%Q ->
   ~ (Entity.by_ r - Vector2.y a == 0)%Q /\
   ~ (Entity.by_ r + Entity.bheight r - Vector2.y a == 0)%Q).

(** The parameter of a hit, when it is a number. *)
Definition param (h : Collision.HitEntity) : Q :=
  match Collision.t (Collision.hit h) with
  | Collision.Fin q => q
  | _ => 0%Q
  end.

Definition numericHit (h : Collision.HitEntity) : Prop :=
  exists q, Collision.t (Collision.hit h) = Collision.Fin q.

(** *** Positions up to rounding

    The code computes positions in binary64 and this development in exact
    rationals: a hit point of the code lies within a few units in the last
    place of the point computed here.  Where a statement is about the
    place of a hit, it is made to the tolerance with which
    [lineAABBIntersect] itself tells the faces of a rectangle apart, for
    coordinates of at most a million pixels, which rounding then stays
    far below. *)

Definition tolerance : Q := 1 # 1000.

Definition ordinary (c : Q) : Prop := (Qabs c <= 1000000)%Q.

Definition ordinaryRay (a b : Vector2.t) : Prop :=
  ordinary (Vector2.x a) /\ ordinary (Vector2.y a) /\
  ordinary (Vector2.x b) /\ ordinary (Vector2.y b).

(** A rectangle of non-negative size and ordinary coordinates. *)
Definition ordinaryBounds (r : Entity.Bounds) : Prop :=
  (0 <= Entity.bwidth r)%Q /\ (0 <= Entity.bheight r)%Q /\
  ordinary (Entity.bx r) /\ ordinary (Entity.by_ r) /\
  ordinary (Entity.bx r + Entity.bwidth r) /\ ordinary (Entity.by_ r + Entity.bheight r).

(** The point is in the rectangle or less than [eps] away from it. *)
Definition withinOf (eps : Q) (p : Vector2.t) (b : Entity.Bounds) : Prop :=
  (Entity.bx b - eps <= Vector2.x p)%Q /\
  (Vector2.x p <= Entity.bx b + Entity.bwidth b + eps)%Q /\
  (Entity.by_ b - eps <= Vector2.y p)%Q /\
  (Vector2.y p <= Entity.by_ b + Entity.bheight b + eps)%Q.

(** The point is in the rectangle, more than [eps] away from its edges. *)
Definition insideBy (eps : Q) (p : Vector2.t) (b : Entity.Bounds) : Prop :=
  (Entity.bx b + eps < Vector2.x p)%Q /\
  (Vector2.x p < Entity.bx b + Entity.bwidth b - eps)%Q /\
  (Entity.by_ b + eps < Vector2.y p)%Q /\
  (Vector2.y p < Entity.by_ b + Entity.bheight b - eps)%Q.

(** The point is less than [eps] away, in each coordinate, from a point of
    the segment from [a] to [b]. *)
Definition nearSegment (eps : Q) (a b p : Vector2.t) : Prop :=
  exists q, (0 <= q)%Q /\ (q <= 1)%Q /\
    (Qabs (Vector2.x p - Vector2.x (along a b q)) <= eps)%Q /\
    (Qabs (Vector2.y p - Vector2.y (along a b q)) <= eps)%Q.

(** [p] is where the segment from [start] enters the rectangle, on its
    near face: [p] is at the rectangle, and no point of the segment from
    [start] to [p] is inside it; both up to [eps]. *)
Definition entersAt (eps : Q) (start p : Vector2.t) (b : Entity.Bounds) : Prop :=
  withinOf eps p b /\
  forall q, (0 <= q)%Q -> (q <= 1)%Q -> ~ insideBy eps (along start p q) b.

(** A segment parallel to an axis keeps [eps] away from the lines of the
    edges of the rectangle that are parallel to it. *)
Definition clearOfEdgeLines (eps : Q) (a b : Vector2.t) (r : Entity.Bounds) : Prop :=
  ((Vector2.x b - Vector2.x a == 0)%Q ->
   (eps <= Qabs (Vector2.x a - Entity.bx r))%Q /\
   (eps <= Qabs (Vector2.x a - (Entity.bx r + Entity.bwidth r)))%Q) /\
  ((Vector2.y b - Vector2.y a == 0)%Q ->
   (eps <= Qabs (Vector2.y a - Entity.by_ r))%Q /\
   (eps <= Qabs (Vector2.y a - (Entity.by_ r + Entity.bheight r)))%Q).


(** *** Blocking entities *)

(** An entity that [findEntityCollisions] looks at and that the walk of
    [traceLaser] stops at: visible, active, solid, neither an emitter nor
    an open door. *)
Definition blocker (e : Entity.t) : Prop :=
  Entity.visible e = true /\ Entity.active e = true /\ Entity.solid e = true /\
  Entity.isA "LaserEmitter"%string e = false /\ Collision.isOpenDoor e = false.

(** Every entity that [findEntityCollisions] looks at has bounds of
    ordinary size, and the segment keeps clear of the lines of their
    edges. *)
Definition inPlainSight (start reach : Vector2.t) (entities : list Entity.t) : Prop :=
  forall e, In e entities -> Entity.visible e = true -> Entity.active e = true ->
    ordinaryBounds (Entity.getBounds e) /\
    clearOfEdgeLines tolerance start reach (Entity.getBounds e).

(** *** Starts on and off the pixel grid *)

(** A whole number of ordinary size: sums and differences of such numbers
    are exact in binary64. *)
Definition wholeNumber (c : Q) : Prop :=
  exists n : Z, (c == inject_Z n)%Q /\ (Z.abs n <= 1000000)%Z.

(** A point of the pixel grid.  From such a start the sums of a ray along
    an axis are exact in binary64. *)
Definition onGrid (p : Vector2.t) : Prop :=
  wholeNumber (Vector2.x p) /\ wholeNumber (Vector2.y p).

Definition ordinaryPoint (p : Vector2.t) : Prop :=
  ordinary (Vector2.x p) /\ ordinary (Vector2.y p).

(** A solid power cell of one tile at [(px, py)]; one that [destroy()] has
    marked as inactive. *)
Definition cellAt (px py : Z) : Entity.t :=
  tileEntity "PowerCell"%string "cell_1"%string px py false ""%string true.

Definition destroyedCellAt (px py : Z) : Entity.t :=
  {| Entity.constructorName := "PowerCell"%string; Entity.id := "cell_1"%string;
     Entity.position := Collision.mkV px py;
     Entity.width := inject_Z TILE_SIZE; Entity.height := inject_Z TILE_SIZE;
     Entity.visible := true; Entity.active := false; Entity.solid := true;
     Entity.isOpen := false; Entity.isActive := false; Entity.direction := ""%string;
     Entity.isPowered := false; Entity.laserPowered := false |}.

Definition warning (error : string) : string :=
  String.append "Error in power management event listener: " error.

Definition debugLine {W Listener : Type} (s : Power.t W Listener) (event : string)
  : list string :=
  if Power.debugMode W Listener s
  then [String.append "[PowerManagement] Event: " event]
  else [].

End Spec.

(* ===================================================================== *)
(** * Properties *)
(* ===================================================================== *)

Import Spec.

(** ** Index ranges *)

Lemma range_nth (n i : Z) :
  0 <= i < n -> nth_error (range n) (Z.to_nat i) = Some i.
Proof.
  intros H. unfold range.
  rewrite nth_error_map.
  rewrite (nth_error_nth' _ 0%nat) by (rewrite length_seq; lia).
  rewrite seq_nth by lia. simpl. f_equal. lia.
Qed.

Lemma range_length (n : Z) : List.length (range n) = Z.to_nat n.
Proof. unfold range. now rewrite length_map, length_seq. Qed.

Lemma range_In (n i : Z) : In i (range n) <-> 0 <= i < n.
Proof.
  unfold range. rewrite in_map_iff. split.
  - intros (k & <- & Hk). apply in_seq in Hk. lia.
  - intros H. exists (Z.to_nat i). split; [lia|]. apply in_seq. lia.
Qed.

Lemma rangeIncl_In (lo hi i : Z) : In i (rangeIncl lo hi) <-> lo <= i <= hi.
Proof.
  unfold rangeIncl. rewrite in_map_iff. split.
  - intros (k & <- & Hk). apply range_In in Hk. lia.
  - intros H. exists (i - lo). split; [lia|]. apply range_In. lia.
Qed.

(** ** WorldRoom.hasCollisionAt *)

Lemma collisionMap_entry (rd : Tile.t) (wx wy rx ry x y : Z) :
  let r := WorldRoom.make rd wx wy rx ry in
  0 <= x < WorldRoom.tileWidth r -> 0 <= y < WorldRoom.tileHeight r ->
  exists row,
    nth_error (WorldRoom.collisionMap r) (Z.to_nat y) = Some row /\
    nth_error row (Z.to_nat x) =
      Some (WorldRoom.templateWall
              (match Tile.collision rd with Some c => c | None => [] end) y x).
Proof.
  unfold WorldRoom.make, WorldRoom.createCollisionMap. cbn.
  intros Hx Hy.
  eexists. split.
  - rewrite nth_error_map, (range_nth _ y Hy). reflexivity.
  - rewrite nth_error_map, (range_nth _ x Hx). reflexivity.
Qed.

(** C10. [hasCollisionAt] is total on the rooms that the constructor builds:
    outside the tile rectangle it answers "wall", inside it answers the entry
    of the collision map, which exists; no query indexes the map out of
    range. *)
Theorem hasCollisionAt_total_out_of_bounds_solid
    (rd : Tile.t) (wx wy rx ry x y : Z) :
  let r := WorldRoom.make rd wx wy rx ry in
  if (x <? 0) || (x >=? WorldRoom.tileWidth r) ||
     (y <? 0) || (y >=? WorldRoom.tileHeight r)
  then WorldRoom.hasCollisionAt r (x, y) = Some true
  else exists row b,
         nth_error (WorldRoom.collisionMap r) (Z.to_nat y) = Some row /\
         nth_error row (Z.to_nat x) = Some b /\
         WorldRoom.hasCollisionAt r (x, y) = Some b.
Proof.
  intros r.
  destruct ((x <? 0) || (x >=? WorldRoom.tileWidth r) ||
            (y <? 0) || (y >=? WorldRoom.tileHeight r)) eqn:Hout.
  - unfold WorldRoom.hasCollisionAt. now rewrite Hout.
  - assert (Hx : 0 <= x < WorldRoom.tileWidth r) by lia.
    assert (Hy : 0 <= y < WorldRoom.tileHeight r) by lia.
    destruct (collisionMap_entry rd wx wy rx ry x y Hx Hy) as (row & Hrow & Hb).
    exists row. eexists. fold r in Hrow. split; [exact Hrow|]. split; [exact Hb|].
    unfold WorldRoom.hasCollisionAt. rewrite Hout, Hrow. exact Hb.
Qed.

(** ** PowerManagementSystem.emitEvent *)

Section EmitEvent.

Variables (W Listener : Type).
Variable call : Listener -> Power.EventData -> W -> Power.completion W.

Let state := Power.t W Listener.

Lemma forEach_guardedCall (data : Power.EventData) (listeners : list Listener) (s : state) :
  Power.forEach (Power.guardedCall W Listener call data) listeners s =
  Power.Normal
    (Power.with_console W Listener
       (Power.console W Listener s ++
        map Spec.warning (snd (Spec.allListenersRun call data listeners (Power.world W Listener s))))
       (Power.with_world W Listener
          (fst (Spec.allListenersRun call data listeners (Power.world W Listener s))) s)).
Proof.
  revert s. induction listeners as [|cb rest IH]; intros s; simpl.
  - rewrite app_nil_r. now destruct s.
  - unfold Power.guardedCall at 1.
    destruct (call cb data (Power.world W Listener s)) as [w'|e w']; simpl.
    + rewrite IH. simpl. reflexivity.
    + rewrite IH. simpl.
      destruct (Spec.allListenersRun call data rest w') as [w'' errors]. simpl.
      unfold Spec.warning at 2. now rewrite <- app_assoc.
Qed.

(** C9. Whatever the listeners of an event do, [emitEvent] completes
    normally; every listener registered for the event has been called, in
    order, also after one that threw; each thrown value was caught and
    written to the console as a warning; the rest of the manager's state is
    untouched. *)
Theorem emitEvent_isolates_listener_faults
    (event : string) (data : Power.EventData) (s : state) :
  let listeners :=
    match Power.get event (Power.eventListeners W Listener s) with
    | Some l => l
    | None => []
    end in
  let run := Spec.allListenersRun call data listeners (Power.world W Listener s) in
  exists s',
    Power.emitEvent W Listener call event data s = Power.Normal s' /\
    Power.world W Listener s' = fst run /\
    Power.console W Listener s' =
      Power.console W Listener s ++ map Spec.warning (snd run) ++ Spec.debugLine s event /\
    Power.eventListeners W Listener s' = Power.eventListeners W Listener s /\
    Power.powerStates W Listener s' = Power.powerStates W Listener s /\
    Power.cellStates W Listener s' = Power.cellStates W Listener s /\
    Power.laserStates W Listener s' = Power.laserStates W Listener s.
Proof.
  intros listeners run. subst run listeners. unfold Power.emitEvent, Spec.debugLine.
  destruct (Power.get event (Power.eventListeners W Listener s)) as [l|].
  - rewrite forEach_guardedCall. simpl.
    destruct (Power.debugMode W Listener s); eexists; (split; [reflexivity|]); simpl;
      repeat split; try reflexivity.
    + now rewrite <- app_assoc.
    + now rewrite app_nil_r.
  - simpl.
    destruct (Power.debugMode W Listener s); eexists; (split; [reflexivity|]); simpl;
      repeat split; try reflexivity.
    now rewrite app_nil_r.
Qed.

End EmitEvent.

(** ** Outcomes *)

Lemma ensures_bind {A B : Type} (c : outcome A) (k : A -> outcome B)
    (bad : Prop) (P : A -> Prop) (Q : B -> Prop) :
  Spec.ensures c bad P ->
  (forall a, P a -> Spec.ensures (k a) bad Q) ->
  Spec.ensures (bind c k) bad Q.
Proof. destruct c; simpl; auto. Qed.

Lemma ensures_weaken {A : Type} (c : outcome A) (bad bad' : Prop) (P P' : A -> Prop) :
  Spec.ensures c bad P -> (bad -> bad') -> (forall a, P a -> P' a) ->
  Spec.ensures c bad' P'.
Proof. destruct c; simpl; auto. Qed.

(** ** The seeded generator *)

Lemma lehmer_step (s : Z) :
  1 <= s <= 2147483646 -> 1 <= Z.rem (s * 16807) 2147483647 <= 2147483646.
Proof.
  intros H.
  rewrite Z.rem_mod_nonneg by lia.
  assert (Hm := Z.mod_pos_bound (s * 16807) 2147483647 ltac:(lia)).
  assert (Hz : (s * 16807) mod 2147483647 <> 0).
  { intros E. apply Z.mod_divide in E; [|lia].
    rewrite Z.mul_comm in E.
    apply Z.gauss in E; [|now vm_compute].
    apply Z.divide_pos_le in E; lia. }
  lia.
Qed.

Lemma make_seed (s : Z) : Spec.rngOK (SeededRandom.make s) \/ Spec.degenerateSeed s.
Proof.
  unfold Spec.rngOK, Spec.degenerateSeed, SeededRandom.make; simpl.
  assert (H := Z.rem_bound_abs s 2147483647 ltac:(lia)).
  destruct (Z.rem s 2147483647 <=? 0) eqn:E; lia.
Qed.

Lemma randomInt_rng (lo hi : Z) (r : SeededRandom.t) :
  Spec.rngOK r -> Spec.rngOK (snd (SeededRandom.randomInt lo hi r)).
Proof.
  intros Hr. unfold SeededRandom.randomInt, SeededRandom.random; simpl.
  exact (lehmer_step _ Hr).
Qed.

Lemma randomInt_range (lo hi : Z) (r : SeededRandom.t) :
  Spec.rngOK r -> lo < hi -> lo <= fst (SeededRandom.randomInt lo hi r) < hi.
Proof.
  intros Hr Hlt. unfold SeededRandom.randomInt, SeededRandom.random; simpl.
  pose proof (lehmer_step _ Hr) as Hs.
  set (s := Z.rem (SeededRandom.seed r * 16807) 2147483647) in *.
  unfold Qfloor, Qmult, inject_Z; simpl Qnum; simpl Qden.
  assert (0 <= (s - 1) * (hi - lo) / 2147483646).
  { apply Z.div_pos; nia. }
  assert ((s - 1) * (hi - lo) / 2147483646 < hi - lo).
  { apply Z.div_lt_upper_bound; nia. }
  lia.
Qed.

Lemma index_in_range {A : Type} (l : list A) (i : Z) :
  0 <= i < Z.of_nat (List.length l) ->
  exists a, SeededRandom.index l i = Some a /\ In a l.
Proof.
  intros H. unfold SeededRandom.index.
  destruct (i <? 0) eqn:E; [lia|].
  destruct (nth_error l (Z.to_nat i)) as [a|] eqn:Hn.
  - exists a. split; [reflexivity|]. eapply nth_error_In; eauto.
  - apply nth_error_None in Hn. lia.
Qed.

Lemma choice_spec {A : Type} (l : list A) (r : SeededRandom.t) :
  l <> [] ->
  match fst (SeededRandom.choice l r) with
  | Some a => In a l
  | None => ~ Spec.rngOK r
  end /\
  (Spec.rngOK r -> Spec.rngOK (snd (SeededRandom.choice l r))).
Proof.
  intros Hne. destruct l as [|a0 l0]; [congruence|].
  unfold SeededRandom.choice.
  set (n := Z.of_nat (List.length (a0 :: l0))).
  destruct (SeededRandom.randomInt 0 n r) as [i r'] eqn:E.
  assert (Ei : i = fst (SeededRandom.randomInt 0 n r)) by now rewrite E.
  assert (Er : r' = snd (SeededRandom.randomInt 0 n r)) by now rewrite E.
  simpl fst; simpl snd. split.
  - destruct (SeededRandom.index (a0 :: l0) i) as [a|] eqn:Hi.
    + unfold SeededRandom.index in Hi.
      destruct (i <? 0); [discriminate|]. eapply nth_error_In; eauto.
    + intros Hr.
      assert (Hrange : 0 <= i < n).
      { subst i. apply randomInt_range; [exact Hr|]. unfold n. simpl List.length. lia. }
      destruct (index_in_range (a0 :: l0) i Hrange) as (a & Ha & _). congruence.
  - intros Hr. subst r'. now apply randomInt_rng.
Qed.

(** ** Arrays *)

Lemma removeAt_incl {A : Type} (i : nat) (l : list A) : incl (WorldManager.removeAt i l) l.
Proof.
  revert i. induction l as [|a l IH]; intros [|i] b Hb; simpl in *;
    try contradiction.
  - now right.
  - destruct Hb as [<-|Hb]; [now left|]. right. now apply (IH i).
Qed.

Lemma splice1_spec {A : Type} (i : Z) (l : list A) :
  match WorldManager.splice1 i l with
  | (Some a, rest) => In a l /\ incl rest l
  | (None, rest) => ~ (0 <= i < Z.of_nat (List.length l))
  end.
Proof.
  unfold WorldManager.splice1.
  set (start := if i <? 0 then _ else _).
  destruct (nth_error l (Z.to_nat start)) as [a|] eqn:Hn.
  - split; [eapply nth_error_In; eauto | apply removeAt_incl].
  - apply nth_error_None in Hn. subst start.
    destruct (i <? 0) eqn:E; lia.
Qed.

(* ===================================================================== *)
(** ** Level generation *)
(* ===================================================================== *)

(** ** The room store *)

Lemma key_eqb_eq (a b : Z * Z) : key_eqb a b = true <-> a = b.
Proof.
  destruct a as [a1 a2], b as [b1 b2]. unfold key_eqb; simpl.
  rewrite andb_true_iff, !Z.eqb_eq. split; [intros [-> ->]; reflexivity|].
  intros E; inversion E; auto.
Qed.

Lemma map_get_None (k : Z * Z) (m : list ((Z * Z) * WorldRoom.t)) :
  WorldManager.map_get k m = None <-> ~ In k (map fst m).
Proof.
  induction m as [|[k' v] m IH]; simpl.
  - tauto.
  - destruct (key_eqb k k') eqn:E.
    + apply key_eqb_eq in E. subst. split; [discriminate|]. intros H. exfalso. apply H. now left.
    + rewrite IH. split; [|tauto]. intros H [->|H']; [|tauto].
      assert (key_eqb k k = true) by now apply key_eqb_eq. congruence.
Qed.

Lemma map_set_fresh (k : Z * Z) (v : WorldRoom.t) (m : list ((Z * Z) * WorldRoom.t)) :
  WorldManager.map_get k m = None -> WorldManager.map_set k v m = m ++ [(k, v)].
Proof.
  induction m as [|[k' v'] m IH]; simpl; [reflexivity|].
  destruct (key_eqb k k'); [discriminate|]. intros H. now rewrite IH.
Qed.

Lemma hasRoom_keys (wm : WorldManager.t) (x y : Z) :
  WorldManager.hasRoom wm x y = true <-> In (x, y) (Spec.keys wm).
Proof.
  unfold WorldManager.hasRoom, WorldManager.getRoom, Spec.keys.
  destruct (WorldManager.map_get (x, y) (WorldManager.rooms wm)) eqn:E.
  - split; [intros _|reflexivity].
    destruct (in_dec (fun a b : Z * Z =>
                        ltac:(decide equality; apply Z.eq_dec) : {a = b} + {a <> b})
                     (x, y) (map fst (WorldManager.rooms wm))) as [H|H]; [exact H|].
    apply map_get_None in H. congruence.
  - split; [discriminate|]. intros H. apply map_get_None in E. contradiction.
Qed.

Lemma shift_0 (r : WorldRoom.t) : WorldRoom.shift 0 0 r = r.
Proof. destruct r; unfold WorldRoom.shift; simpl. now rewrite !Z.add_0_r. Qed.

Lemma shift_shift (dx dy dx' dy' : Z) (r : WorldRoom.t) :
  WorldRoom.shift dx' dy' (WorldRoom.shift dx dy r) = WorldRoom.shift (dx + dx') (dy + dy') r.
Proof. unfold WorldRoom.shift; simpl. now rewrite <- !Z.add_assoc. Qed.

Lemma movedBy_0 (wm : WorldManager.t) : movedBy 0 0 wm = wm.
Proof.
  destruct wm; unfold movedBy, WorldManager.set_rooms; simpl. f_equal.
  rewrite <- (map_id rooms) at 2. apply map_ext. intros [k r]; simpl. now rewrite shift_0.
Qed.

Lemma movedBy_movedBy (dx dy dx' dy' : Z) (wm : WorldManager.t) :
  movedBy dx' dy' (movedBy dx dy wm) = movedBy (dx + dx') (dy + dy') wm.
Proof.
  unfold movedBy, WorldManager.set_rooms; simpl. f_equal.
  rewrite map_map. apply map_ext. intros [k r]; simpl. now rewrite shift_shift.
Qed.

Lemma adjustAllRoomsPosition_movedBy (dx dy : Z) (wm : WorldManager.t) :
  WorldManager.adjustAllRoomsPosition dx dy wm = movedBy dx dy wm.
Proof.
  unfold WorldManager.adjustAllRoomsPosition.
  destruct ((dx =? 0) && (dy =? 0)) eqn:E; [|reflexivity].
  apply andb_true_iff in E. destruct E as [E1 E2].
  apply Z.eqb_eq in E1, E2. subst. now rewrite movedBy_0.
Qed.

Lemma calculateOptimalRoomPosition_moved (x y : Z) (rd : Tile.t) (wm : WorldManager.t) :
  exists dx dy, snd (WorldManager.calculateOptimalRoomPosition x y rd wm) = movedBy dx dy wm.
Proof.
  unfold WorldManager.calculateOptimalRoomPosition.
  match goal with |- context [if ?c then (0, ?a) else (?b, wm)] => destruct c end;
  match goal with |- context [if ?c then (0, ?a) else (?b, ?w)] => destruct c end;
  simpl; rewrite ?adjustAllRoomsPosition_movedBy, ?movedBy_movedBy; eauto.
  exists 0, 0. now rewrite movedBy_0.
Qed.

Lemma keys_movedBy (dx dy : Z) (wm : WorldManager.t) :
  Spec.keys (movedBy dx dy wm) = Spec.keys wm.
Proof.
  unfold Spec.keys, movedBy; simpl. rewrite map_map. now apply map_ext.
Qed.

Lemma roomOK_movedBy (dx dy : Z) (wm : WorldManager.t) :
  Forall Spec.roomOK (WorldManager.rooms wm) ->
  Forall Spec.roomOK (WorldManager.rooms (movedBy dx dy wm)).
Proof.
  unfold movedBy; simpl. intros H. apply Forall_map.
  eapply Forall_impl; [|exact H]. intros [k r]; unfold Spec.roomOK; simpl. tauto.
Qed.

Lemma linked_mono (ks ks' : list (Z * Z)) (p : Z * Z) :
  incl ks ks' -> Spec.linked ks p -> Spec.linked ks' p.
Proof.
  intros Hi H. induction H as [|p q _ IH Hadj Hin].
  - constructor.
  - eapply Spec.linked_step; eauto.
Qed.

Lemma make_roomOK (rd : Tile.t) (wx wy x y : Z) :
  Spec.roomOK ((x, y), WorldRoom.make rd wx wy x y).
Proof.
  unfold Spec.roomOK, WorldRoom.make.
  destruct (WorldRoom.createCollisionMap rd) as [[cmap tw] th]. simpl. auto.
Qed.

Lemma Inv_place (wm wm' : WorldManager.t) (q : Z * Z) :
  Spec.Inv wm ->
  Spec.keys wm' = Spec.keys wm ++ [q] ->
  ~ In q (Spec.keys wm) ->
  Forall Spec.roomOK (WorldManager.rooms wm') ->
  (exists p, Spec.linked (Spec.keys wm) p /\ In q (WorldManager.adjacent4 p)) ->
  Spec.Inv wm'.
Proof.
  intros (Hnd & _ & Hl) Hk Hfresh Hok (p & Hp & Hadj).
  assert (Hincl : incl (Spec.keys wm) (Spec.keys wm')).
  { rewrite Hk. apply incl_appl, incl_refl. }
  split; [|split].
  - rewrite Hk. apply NoDup_app; [exact Hnd| repeat constructor; simpl; tauto|].
    intros a Ha [<-|[]]. contradiction.
  - exact Hok.
  - intros k Hin. rewrite Hk in Hin. apply in_app_or in Hin.
    destruct Hin as [Hin|[<-|[]]].
    + eapply linked_mono; eauto.
    + eapply Spec.linked_step; [eapply linked_mono; eauto | exact Hadj |].
      rewrite Hk. apply in_or_app. right. now left.
Qed.

Lemma frame_refl (wm : WorldManager.t) : Spec.frame wm wm.
Proof. unfold Spec.frame; tauto. Qed.

Lemma frame_trans (a b c : WorldManager.t) : Spec.frame a b -> Spec.frame b c -> Spec.frame a c.
Proof. unfold Spec.frame; intuition congruence. Qed.

Lemma generateRoomAt_spec (x y : Z) (wm : WorldManager.t) :
  Spec.Inv wm ->
  (exists p, Spec.linked (Spec.keys wm) p /\ In (x, y) (WorldManager.adjacent4 p)) ->
  Spec.ensures (WorldManager.generateRoomAt x y wm)
    (~ Spec.rngOK (WorldManager.rng wm)) (roomPost x y wm).
Proof.
  intros HI Hadj. unfold WorldManager.generateRoomAt.
  assert (Hsame : roomPost x y wm (false, wm)).
  { unfold roomPost. split; [exact HI|]. split; [apply frame_refl|].
    split; [auto|]. split; reflexivity. }
  destruct (WorldManager.hasRoom wm x y) eqn:Hhas; [exact Hsame|].
  destruct (negb (WorldManager.isWithinLevelBounds wm x y)); [exact Hsame|].
  destruct (WorldManager.generatedRooms wm >=? _); [exact Hsame|].
  destruct (WorldManager.findSuitableTiles wm _ false) as [|t0 ts] eqn:Hs; [exact Hsame|].
  destruct (choice_spec (t0 :: ts) (WorldManager.rng wm) ltac:(discriminate)) as [Hc Hr].
  destruct (SeededRandom.choice (t0 :: ts) (WorldManager.rng wm)) as [c rng'] eqn:Hch.
  simpl in Hc, Hr.
  destruct c as [chosenTile|]; [|exact Hc].
  destruct (calculateOptimalRoomPosition_moved x y chosenTile
              (WorldManager.set_rng rng' wm)) as (dx & dy & Hm).
  destruct (WorldManager.calculateOptimalRoomPosition x y chosenTile
              (WorldManager.set_rng rng' wm)) as [[wX wY] wm2] eqn:Hcalc.
  simpl in Hm. subst wm2. simpl.
  assert (Hfresh : ~ In (x, y) (Spec.keys wm)).
  { intros H. apply hasRoom_keys in H. congruence. }
  assert (Hget : WorldManager.map_get (x, y)
                   (WorldManager.rooms (movedBy dx dy (WorldManager.set_rng rng' wm))) = None).
  { apply map_get_None. fold (Spec.keys (movedBy dx dy (WorldManager.set_rng rng' wm))).
    rewrite keys_movedBy. exact Hfresh. }
  assert (Hkeys : Spec.keys
            (WorldManager.set_generatedRooms
               (WorldManager.generatedRooms wm + 1)
               (WorldManager.createRoom chosenTile wX wY x y
                  (movedBy dx dy (WorldManager.set_rng rng' wm)))) =
          Spec.keys wm ++ [(x, y)]).
  { unfold Spec.keys, WorldManager.createRoom; simpl.
    rewrite map_set_fresh by exact Hget. rewrite map_app, map_map. simpl. reflexivity. }
  split; [|split; [|split; [|split]]].
  - eapply (Inv_place wm); eauto.
    unfold WorldManager.createRoom; simpl.
    rewrite map_set_fresh by exact Hget.
    apply Forall_app. split.
    + apply (roomOK_movedBy dx dy (WorldManager.set_rng rng' wm)). apply HI.
    + repeat constructor; apply make_roomOK.
  - unfold Spec.frame; simpl. tauto.
  - exact Hr.
  - exact Hkeys.
  - reflexivity.
Qed.

Lemma anchored_mono (wm wm' : WorldManager.t) (l l' : list (Z * Z)) :
  incl (Spec.keys wm) (Spec.keys wm') -> incl l' l -> anchored wm l -> anchored wm' l'.
Proof.
  intros Hk Hl H q Hq. destruct (H q (Hl q Hq)) as (p & Hp & Ha).
  exists p. split; [eapply linked_mono; eauto | exact Ha].
Qed.

Lemma Inv_set_rng (r : SeededRandom.t) (wm : WorldManager.t) :
  Spec.Inv wm -> Spec.Inv (WorldManager.set_rng r wm).
Proof. intros H; exact H. Qed.

Lemma addRooms_spec (n : nat) :
  forall adj queue gp wm,
    Spec.Inv wm -> anchored wm adj -> Forall (Spec.linked (Spec.keys wm)) queue ->
    Spec.ensures (WorldManager.addRooms n adj queue gp wm)
      (~ Spec.rngOK (WorldManager.rng wm)) (addPost wm queue).
Proof.
  induction n as [|n IH]; intros adj queue gp wm HI Hadj Hq.
  - simpl. unfold addPost. split; [exact HI|]. split; [apply frame_refl|].
    split; [auto|]. split; [apply incl_refl|]. split; [exact Hq|lia].
  - destruct adj as [|a adj'].
    + simpl. unfold addPost. split; [exact HI|]. split; [apply frame_refl|].
      split; [auto|]. split; [apply incl_refl|]. split; [exact Hq|lia].
    + cbn [WorldManager.addRooms].
      set (len := Z.of_nat (List.length (a :: adj'))).
      pose proof (randomInt_rng 0 len (WorldManager.rng wm)) as Hrng.
      pose proof (randomInt_range 0 len (WorldManager.rng wm)) as Hrange.
      destruct (SeededRandom.randomInt 0 len (WorldManager.rng wm)) as [posIndex rng'].
      simpl in Hrng, Hrange.
      pose proof (splice1_spec posIndex (a :: adj')) as Hsp.
      destruct (WorldManager.splice1 posIndex (a :: adj')) as [[newPos|] rest].
      2:{ simpl. intros Hr. apply Hsp. apply Hrange; [exact Hr|]. unfold len. simpl. lia. }
      destruct Hsp as [Hin Hrest].
      eapply ensures_bind.
      * eapply ensures_weaken;
          [apply (generateRoomAt_spec (fst newPos) (snd newPos) (WorldManager.set_rng rng' wm))
          | | intros a0 H; exact H].
        -- exact HI.
        -- rewrite <- surjective_pairing. apply (Hadj newPos Hin).
        -- simpl. tauto.
      * intros [ok wm2] (HI2 & Hf2 & Hr2 & Hk2). simpl in Hr2.
        assert (Hincl : incl (Spec.keys wm) (Spec.keys wm2)).
        { destruct ok; destruct Hk2 as [Hk2 _]; rewrite Hk2;
            [apply incl_appl|]; apply incl_refl. }
        assert (Hadj2 : anchored wm2 rest).
        { eapply anchored_mono; [exact Hincl| |exact Hadj]. exact Hrest. }
        assert (Hq2 : Forall (Spec.linked (Spec.keys wm2)) queue).
        { eapply Forall_impl; [|exact Hq]. intros p. now apply linked_mono. }
        destruct ok.
        -- destruct Hk2 as [Hk2 Hg2].
           assert (Hq3 : Forall (Spec.linked (Spec.keys wm2)) (queue ++ [newPos])).
           { apply Forall_app. split; [exact Hq2|]. constructor; [|constructor].
             apply HI2. rewrite Hk2, <- surjective_pairing.
             apply in_or_app. right. now left. }
           eapply ensures_weaken; [apply (IH rest _ (gp ++ [newPos]) wm2 HI2 Hadj2 Hq3) | |].
           ++ tauto.
           ++ intros [[q3 gp3] wm3] (HI3 & Hf3 & Hr3 & Hk3 & Hl3 & Hn3).
              unfold addPost. split; [exact HI3|].
              split; [eapply frame_trans; [|exact Hf3]; exact Hf2|].
              split; [tauto|].
              split; [eapply incl_tran; eauto|].
              split; [exact Hl3|].
              rewrite length_app in Hn3. simpl in Hn3, Hg2. lia.
        -- destruct Hk2 as [Hk2 Hg2].
           eapply ensures_weaken; [apply (IH rest _ gp wm2 HI2 Hadj2 Hq2) | |].
           ++ tauto.
           ++ intros [[q3 gp3] wm3] (HI3 & Hf3 & Hr3 & Hk3 & Hl3 & Hn3).
              unfold addPost. split; [exact HI3|].
              split; [eapply frame_trans; [|exact Hf3]; exact Hf2|].
              split; [tauto|].
              split; [eapply incl_tran; eauto|].
              split; [exact Hl3|].
              simpl in Hg2. lia.
Qed.

Lemma genPost_refl (wm : WorldManager.t) : Spec.Inv wm -> genPost wm wm.
Proof.
  intros H. split; [exact H|]. split; [apply frame_refl|]. split; [auto|apply incl_refl].
Qed.

Lemma genPost_trans (a b c : WorldManager.t) : genPost a b -> genPost b c -> genPost a c.
Proof.
  intros (_ & Hf1 & Hr1 & Hk1) (HI & Hf2 & Hr2 & Hk2).
  split; [exact HI|]. split; [eapply frame_trans; eauto|].
  split; [tauto|eapply incl_tran; eauto].
Qed.

Lemma getValidAdjacentPositions_anchored (wm : WorldManager.t) (c : Z * Z) (gp : list (Z * Z)) :
  Spec.linked (Spec.keys wm) c ->
  anchored wm (WorldManager.getValidAdjacentPositions wm c gp).
Proof.
  intros Hc q Hq. unfold WorldManager.getValidAdjacentPositions in Hq.
  apply filter_In in Hq. exists c. tauto.
Qed.

Lemma generationLoop_spec (fuel : nat) (rtg : Z) :
  forall queue gp wm,
    Spec.Inv wm -> Forall (Spec.linked (Spec.keys wm)) queue ->
    (rtg - WorldManager.generatedRooms wm) + Z.of_nat (List.length queue) <= Z.of_nat fuel ->
    Spec.ensures (WorldManager.generationLoop fuel rtg queue gp wm)
      (~ Spec.rngOK (WorldManager.rng wm)) (genPost wm).
Proof.
  induction fuel as [|fuel IH]; intros queue gp wm HI Hq Hm.
  - destruct queue as [|c queue']; simpl; [now apply genPost_refl|].
    destruct (WorldManager.generatedRooms wm <? rtg) eqn:E; [|now apply genPost_refl].
    simpl in Hm. lia.
  - destruct queue as [|c queue']; cbn [WorldManager.generationLoop]; [now apply genPost_refl|].
    destruct (WorldManager.generatedRooms wm <? rtg) eqn:E; [|now apply genPost_refl].
    pose proof (randomInt_rng 1 3 (WorldManager.rng wm)) as Hrng.
    destruct (SeededRandom.randomInt 1 3 (WorldManager.rng wm)) as [k rng'].
    simpl in Hrng.
    inversion Hq as [|c0 q0 Hc Hq' E0]; subst.
    eapply ensures_bind.
    + eapply ensures_weaken;
        [eapply (addRooms_spec _ _ queue' gp (WorldManager.set_rng rng' wm))
        | | intros a H; exact H].
      * exact HI.
      * apply (getValidAdjacentPositions_anchored (WorldManager.set_rng rng' wm)). exact Hc.
      * exact Hq'.
      * simpl. tauto.
    + intros [[q2 gp2] wm2] (HI2 & Hf2 & Hr2 & Hk2 & Hl2 & Hn2). simpl in Hr2, Hn2, Hk2.
      eapply ensures_weaken; [apply (IH q2 gp2 wm2 HI2 Hl2) | |].
      * simpl List.length in Hm. lia.
      * tauto.
      * intros wm3 H3. eapply genPost_trans; [|exact H3].
        split; [exact HI2|]. split; [exact Hf2|]. split; [tauto|exact Hk2].
Qed.

Lemma topUp_spec (n : nat) :
  forall avail wm,
    Spec.Inv wm -> anchored wm avail ->
    Spec.ensures (WorldManager.topUp n avail wm)
      (~ Spec.rngOK (WorldManager.rng wm)) (genPost wm).
Proof.
  induction n as [|n IH]; intros avail wm HI Ha.
  - simpl. now apply genPost_refl.
  - destruct avail as [|a avail']; [simpl; now apply genPost_refl|].
    cbn [WorldManager.topUp].
    set (len := Z.of_nat (List.length (a :: avail'))).
    pose proof (randomInt_rng 0 len (WorldManager.rng wm)) as Hrng.
    pose proof (randomInt_range 0 len (WorldManager.rng wm)) as Hrange.
    destruct (SeededRandom.randomInt 0 len (WorldManager.rng wm)) as [posIndex rng'].
    simpl in Hrng, Hrange.
    pose proof (splice1_spec posIndex (a :: avail')) as Hsp.
    destruct (WorldManager.splice1 posIndex (a :: avail')) as [[pos|] rest].
    2:{ simpl. intros Hr. apply Hsp. apply Hrange; [exact Hr|]. unfold len. simpl. lia. }
    destruct Hsp as [Hin Hrest].
    eapply ensures_bind.
    + eapply ensures_weaken;
        [apply (generateRoomAt_spec (fst pos) (snd pos) (WorldManager.set_rng rng' wm))
        | | intros a0 H; exact H].
      * exact HI.
      * rewrite <- surjective_pairing. apply (Ha pos Hin).
      * simpl. tauto.
    + intros [ok wm2] (HI2 & Hf2 & Hr2 & Hk2). simpl in Hr2.
      assert (Hincl : incl (Spec.keys wm) (Spec.keys wm2)).
      { destruct ok; destruct Hk2 as [Hk2 _]; rewrite Hk2;
          [apply incl_appl|]; apply incl_refl. }
      eapply ensures_weaken; [apply (IH rest wm2 HI2) | |].
      * eapply anchored_mono; [exact Hincl|exact Hrest|exact Ha].
      * tauto.
      * intros wm3 H3. eapply genPost_trans; [|exact H3].
        split; [exact HI2|]. split; [exact Hf2|]. split; [tauto|exact Hincl].
Qed.

Lemma adjacent4_sym (p q : Z * Z) :
  In q (WorldManager.adjacent4 p) -> In p (WorldManager.adjacent4 q).
Proof.
  destruct p as [px py], q as [qx qy]. simpl.
  intros [H|[H|[H|[H|[]]]]]; inversion H; subst.
  - right; left; f_equal; lia.
  - left; f_equal; lia.
  - right; right; right; left; f_equal; lia.
  - right; right; left; f_equal; lia.
Qed.

Lemma ensureMinimumRooms_spec (wm : WorldManager.t) :
  Spec.Inv wm ->
  Spec.ensures (WorldManager.ensureMinimumRooms wm)
    (~ Spec.rngOK (WorldManager.rng wm)) (genPost wm).
Proof.
  intros HI. unfold WorldManager.ensureMinimumRooms.
  destruct (_ <? _); [|now apply genPost_refl].
  apply topUp_spec; [exact HI|].
  intros q Hq. apply in_flat_map in Hq. destruct Hq as (x & _ & Hq).
  apply in_flat_map in Hq. destruct Hq as (y & _ & Hq).
  destruct (negb (WorldManager.hasRoom wm x y) && WorldManager.hasAdjacentRoom wm x y) eqn:E;
    [|destruct Hq].
  destruct Hq as [<-|[]].
  apply andb_true_iff in E. destruct E as [_ E].
  unfold WorldManager.hasAdjacentRoom in E. apply existsb_exists in E.
  destruct E as (pos & Hpos & Hhas).
  exists pos. split.
  - apply HI. rewrite (surjective_pairing pos). apply hasRoom_keys. exact Hhas.
  - now apply adjacent4_sym.
Qed.

Lemma filter_nil_none {A : Type} (f : A -> bool) (l : list A) :
  filter f l = [] -> forall a, In a l -> f a = false.
Proof.
  intros H a Ha. destruct (f a) eqn:E; [|reflexivity].
  assert (In a (filter f l)) by (apply filter_In; auto).
  rewrite H in *. contradiction.
Qed.

Lemma generateStartRoom_spec (wm : WorldManager.t) :
  WorldManager.rooms wm = [] ->
  Spec.ensures (WorldManager.generateStartRoom wm)
    (~ Spec.rngOK (WorldManager.rng wm))
    (fun wm' =>
       Spec.Inv wm' /\
       (Spec.rngOK (WorldManager.rng wm) -> Spec.rngOK (WorldManager.rng wm')) /\
       WorldManager.tileLoader wm' = WorldManager.tileLoader wm /\
       WorldManager.levelConstraints wm' = WorldManager.levelConstraints wm /\
       WorldManager.exitRoomsGenerated wm' = WorldManager.exitRoomsGenerated wm /\
       WorldManager.generatedRooms wm' = WorldManager.generatedRooms wm /\
       WorldManager.startRoom wm' =
         match filter Tile.start (WorldManager.tileLoader wm) with
         | [] => WorldManager.startRoom wm
         | _ => Some (WorldManager.LiveRoom (0, 0))
         end /\
       (filter Tile.start (WorldManager.tileLoader wm) <> [] -> In (0, 0) (Spec.keys wm'))).
Proof.
  intros Hempty. unfold WorldManager.generateStartRoom, WorldManager.filterTiles.
  destruct (filter Tile.start (WorldManager.tileLoader wm)) as [|t0 ts] eqn:Hs.
  - simpl. split.
    { unfold Spec.Inv, Spec.keys. rewrite Hempty. simpl.
      split; [constructor|]. split; [constructor|]. intros k Hk. destruct Hk. }
    split; [auto|]. do 5 (split; [reflexivity|]). congruence.
  - destruct (choice_spec (t0 :: ts) (WorldManager.rng wm) ltac:(discriminate)) as [Hc Hr].
    destruct (SeededRandom.choice (t0 :: ts) (WorldManager.rng wm)) as [c rng'].
    simpl in Hc, Hr. destruct c as [startTile|]; [|exact Hc].
    simpl. unfold WorldManager.createRoom, Spec.Inv, Spec.keys. simpl.
    rewrite Hempty. simpl.
    split.
    { split; [repeat constructor; simpl; tauto|].
      split; [repeat constructor; apply make_roomOK|].
      intros k [<-|[]]. constructor. }
    split; [exact Hr|]. do 5 (split; [reflexivity|]). intros _. now left.
Qed.

Lemma keys_generateExitRoom (wm : WorldManager.t) :
  Spec.keys (WorldManager.generateExitRoom wm) = Spec.keys wm.
Proof.
  unfold WorldManager.generateExitRoom.
  destruct (_ >=? _); [reflexivity|].
  destruct (WorldManager.rooms wm) as [|kr rs] eqn:E; [reflexivity|].
  destruct (WorldManager.exitScan _ _ _ _) as [i|]; [|reflexivity].
  unfold Spec.keys. simpl. rewrite E.
  generalize (kr :: rs). clear. intros l. revert i.
  induction l as [|a l IH]; intros [|i]; simpl; try reflexivity.
  now rewrite IH.
Qed.

Lemma initialize_spec (seed0 levelNumber : Z) (wm : WorldManager.t) :
  Spec.ensures (WorldManager.initialize seed0 levelNumber wm)
    (Spec.degenerateSeed seed0) (Spec.generated wm).
Proof.
  unfold WorldManager.initialize, WorldManager.generateFiniteLevel.
  set (wm0 := {| WorldManager.tileLoader := _ |}).
  assert (Hbad : forall wm1 : WorldManager.t,
             (Spec.rngOK (WorldManager.rng wm0) -> Spec.rngOK (WorldManager.rng wm1)) ->
             ~ Spec.rngOK (WorldManager.rng wm1) -> Spec.degenerateSeed seed0).
  { intros wm1 H Hn. destruct (make_seed seed0) as [Hok|Hd]; [|exact Hd].
    exfalso. apply Hn, H. exact Hok. }
  eapply ensures_bind.
  - eapply ensures_weaken; [apply (generateStartRoom_spec wm0); reflexivity| |intros a H; exact H].
    apply (Hbad wm0). auto.
  - intros wm1 (HI1 & Hr1 & Ht1 & Hc1 & He1 & Hg1 & Hs1 & Hk1).
    eapply ensures_bind.
    + eapply ensures_weaken;
        [apply (generationLoop_spec _ _ [(0, 0)] [(0, 0)] wm1 HI1)| |intros a H; exact H].
      * repeat constructor.
      * rewrite Hg1. simpl. lia.
      * apply (Hbad wm1 Hr1).
    + intros wm2 (HI2 & Hf2 & Hr2 & Hk2).
      eapply ensures_bind.
      * eapply ensures_weaken;
          [apply (ensureMinimumRooms_spec wm2 HI2)| |intros a H; exact H].
        apply (Hbad wm2). tauto.
      * intros wm3 (HI3 & Hf3 & Hr3 & Hk3). simpl.
        exists wm3. split; [reflexivity|]. split; [exact HI3|].
        destruct Hf2 as (Ht2 & Hc2 & _ & He2 & Hs2).
        destruct Hf3 as (Ht3 & Hc3 & _ & He3 & Hs3).
        split; [now rewrite Ht3, Ht2, Ht1|].
        split; [now rewrite He3, He2, He1|].
        split; [now rewrite Hc3, Hc2, Hc1|].
        split; [rewrite Hs3, Hs2, Hs1; reflexivity|].
        intros Hst. apply Hk3, Hk2, Hk1. exact Hst.
Qed.

Lemma hasStartTile_filter (tl : list Tile.t) :
  Spec.hasStartTile tl -> filter Tile.start tl <> [].
Proof.
  intros (t & Hin & Ht) E.
  rewrite (filter_nil_none _ _ E t Hin) in Ht. discriminate.
Qed.

Lemma linked_reachable (ks : list (Z * Z)) (p : Z * Z) :
  In (0, 0) ks -> Spec.linked ks p -> Spec.reachable ks p.
Proof.
  intros H0 H. induction H.
  - now constructor.
  - eapply Spec.reach_step; eauto.
Qed.

(** C3 (amended). When the catalog holds a start template, [initialize]
    returns a level (unless the seed is a degenerate one, on which it
    throws) in which the start room sits at the grid origin and every placed
    room is reachable from it by 4-neighbour steps through placed rooms. *)
Theorem generated_rooms_reachable_from_start (seed0 levelNumber : Z) (wm : WorldManager.t) :
  Spec.hasStartTile (WorldManager.tileLoader wm) ->
  match WorldManager.initialize seed0 levelNumber wm with
  | Done wm' =>
      In (0, 0) (Spec.keys wm') /\
      forall k, In k (Spec.keys wm') -> Spec.reachable (Spec.keys wm') k
  | Thrown => Spec.degenerateSeed seed0
  | OutOfFuel => False
  end.
Proof.
  intros Hst.
  pose proof (initialize_spec seed0 levelNumber wm) as H.
  destruct (WorldManager.initialize seed0 levelNumber wm) as [wm'| |]; simpl in H; auto.
  destruct H as (wmE & -> & HI & _ & _ & _ & _ & H0).
  apply hasStartTile_filter in Hst. specialize (H0 Hst).
  rewrite keys_generateExitRoom. split; [exact H0|].
  intros k Hk. apply linked_reachable; [exact H0|]. now apply HI.
Qed.

(** ** The exit room *)

Lemma exitScan_spec (l : list WorldRoom.t) :
  forall (i0 : nat) (cur : option nat) (maxD : Z),
    (WorldManager.exitScan l i0 cur maxD = cur /\
     forall r, In r l -> WorldManager.manhattan r <= maxD) \/
    exists j r,
      WorldManager.exitScan l i0 cur maxD = Some (i0 + j)%nat /\
      nth_error l j = Some r /\
      maxD < WorldManager.manhattan r /\
      (forall r', In r' l -> WorldManager.manhattan r' <= WorldManager.manhattan r) /\
      (forall j' r', (j' < j)%nat -> nth_error l j' = Some r' ->
                     WorldManager.manhattan r' < WorldManager.manhattan r).
Proof.
  induction l as [|a l IH]; intros i0 cur maxD; simpl.
  - left. split; [reflexivity|]. intros r [].
  - destruct (WorldManager.manhattan a >? maxD) eqn:E.
    + right. destruct (IH (S i0) (Some i0) (WorldManager.manhattan a))
        as [[Hres Hle]|(j & r & Hres & Hn & Hgt & Hmax & Hfirst)].
      * exists 0%nat, a. rewrite Hres, Nat.add_0_r. split; [reflexivity|].
        split; [reflexivity|]. split; [lia|]. split.
        -- intros r' [<-|Hr']; [lia|]. now apply Hle.
        -- intros j' r' Hj. lia.
      * exists (S j), r. rewrite Hres. split; [f_equal; lia|].
        split; [exact Hn|]. split; [lia|]. split.
        -- intros r' [<-|Hr']; [lia|]. now apply Hmax.
        -- intros [|j'] r' Hj Hn'; simpl in Hn'.
           ++ inversion Hn'; subst. lia.
           ++ apply (Hfirst j' r'); [lia|exact Hn'].
    + destruct (IH (S i0) cur maxD)
        as [[Hres Hle]|(j & r & Hres & Hn & Hgt & Hmax & Hfirst)].
      * left. split; [exact Hres|]. intros r [<-|Hr]; [lia|]. now apply Hle.
      * right. exists (S j), r. rewrite Hres. split; [f_equal; lia|].
        split; [exact Hn|]. split; [lia|]. split.
        -- intros r' [<-|Hr']; [lia|]. now apply Hmax.
        -- intros [|j'] r' Hj Hn'; simpl in Hn'.
           ++ inversion Hn'; subst. lia.
           ++ apply (Hfirst j' r'); [lia|exact Hn'].
Qed.

Lemma nth_error_updateAt {A : Type} (f : A -> A) (l : list A) (i j : nat) :
  nth_error (updateAt i f l) j =
  if Nat.eqb i j then option_map f (nth_error l j) else nth_error l j.
Proof.
  revert i j. induction l as [|a l IH]; intros [|i] [|j]; simpl; try reflexivity.
  - now destruct (Nat.eqb i j).
  - apply IH.
Qed.

Lemma manhattan_nonneg (r : WorldRoom.t) : 0 <= WorldManager.manhattan r.
Proof. unfold WorldManager.manhattan. lia. Qed.

Lemma generateExitRoom_spec (wm : WorldManager.t) :
  Forall Spec.roomOK (WorldManager.rooms wm) ->
  WorldManager.exitRoomsGenerated wm = 0 ->
  WorldManager.maxExits (WorldManager.levelConstraints wm) = 1 ->
  WorldManager.rooms wm <> [] ->
  exists i r,
    nth_error (placed wm) i = Some r /\
    exitAt (WorldManager.generateExitRoom wm) i (WorldRoom.markExit r) /\
    WorldManager.rooms (WorldManager.generateExitRoom wm) =
      updateAt i (fun kr => (fst kr, WorldRoom.markExit (snd kr))) (WorldManager.rooms wm).
Proof.
  intros Hok He Hm Hne. unfold WorldManager.generateExitRoom.
  rewrite He, Hm. change (0 >=? 1) with false. cbv iota.
  unfold placed.
  destruct (WorldManager.rooms wm) as [|kr rs] eqn:Hrs; [congruence|].
  destruct (exitScan_spec (map snd (kr :: rs)) 0 None (-1))
    as [[_ Hle]|(j & r & Hres & Hn & Hgt & Hmax & Hfirst)].
  { exfalso. specialize (Hle (snd kr) (or_introl eq_refl)).
    pose proof (manhattan_nonneg (snd kr)). lia. }
  rewrite Hres. simpl Nat.add. exists j, r. split; [exact Hn|].
  split; [|reflexivity].
  assert (Hmap : map snd (updateAt j (fun kr0 : (Z * Z) * WorldRoom.t =>
                                        (fst kr0, WorldRoom.markExit (snd kr0))) (kr :: rs)) =
                 updateAt j WorldRoom.markExit (map snd (kr :: rs))).
  { generalize (kr :: rs). clear. intros l. revert j.
    induction l as [|a l IH]; intros [|j]; simpl; try reflexivity. now rewrite IH. }
  unfold exitAt, placed. cbn [WorldManager.rooms WorldManager.set_exitRoomsGenerated
                              WorldManager.set_rooms]. rewrite Hmap.
  assert (Hno : forall j' r', nth_error (map snd (kr :: rs)) j' = Some r' ->
                              WorldRoom.isExit r' = false).
  { intros j' r' Hj'. apply nth_error_In in Hj'. apply in_map_iff in Hj'.
    destruct Hj' as (kr' & <- & Hin). rewrite Forall_forall in Hok. now apply Hok. }
  split; [|split; [|split; [|split]]].
  - rewrite nth_error_updateAt, Nat.eqb_refl, Hn. reflexivity.
  - reflexivity.
  - intros j' r' Hj' Hex. rewrite nth_error_updateAt in Hj'.
    destruct (Nat.eqb j j') eqn:E; [now apply Nat.eqb_eq in E|].
    rewrite (Hno _ _ Hj') in Hex. discriminate.
  - intros r' Hr'. apply In_nth_error in Hr'. destruct Hr' as (j' & Hj').
    rewrite nth_error_updateAt in Hj'.
    destruct (Nat.eqb j j') eqn:E.
    + apply Nat.eqb_eq in E. subst j'. rewrite Hn in Hj'. inversion Hj'.
      unfold WorldManager.manhattan. simpl. lia.
    + apply nth_error_In in Hj'. apply (Hmax r' Hj').
  - intros j' r' Hlt Hj'. rewrite nth_error_updateAt in Hj'.
    destruct (Nat.eqb j j') eqn:E; [apply Nat.eqb_eq in E; lia|].
    apply (Hfirst j' r' Hlt Hj').
Qed.

Lemma two_keys_one_off_origin (l : list ((Z * Z) * WorldRoom.t)) :
  NoDup (map fst l) -> (2 <= List.length l)%nat ->
  exists kr, In kr l /\ fst kr <> (0, 0).
Proof.
  destruct l as [|a [|b l]]; simpl; try lia. intros Hnd _.
  destruct (key_eqb (fst a) (0, 0)) eqn:E.
  - apply key_eqb_eq in E. exists b. split; [auto|].
    inversion Hnd as [|? ? Hnot _]; subst. intros Hb. apply Hnot. left. congruence.
  - exists a. split; [auto|]. intros Ha. apply key_eqb_eq in Ha. congruence.
Qed.

Lemma updateAt_In {A : Type} (f : A -> A) (i : nat) (l : list A) (a : A) :
  In a l -> In a (updateAt i f l) \/ In (f a) (updateAt i f l).
Proof.
  revert i. induction l as [|b l IH]; intros i; simpl; [tauto|].
  intros [->|H]; destruct i; simpl; auto.
  destruct (IH i H); auto.
Qed.

(** C6 (amended). When at least one room is placed, exactly one room is
    marked [isExit]; no placed room is farther from the grid origin, and it is
    the first room of that distance in the order of placement; it is not
    the start room as soon as two rooms are placed. *)
Theorem exit_room_farthest_first_found (seed0 levelNumber : Z) (wm : WorldManager.t) :
  match WorldManager.initialize seed0 levelNumber wm with
  | Done wm' =>
      WorldManager.rooms wm' = [] \/
      exists i exitRoom,
        exitAt wm' i exitRoom /\
        ((2 <= List.length (WorldManager.rooms wm'))%nat ->
         WorldManager.startRoom wm' <>
           Some (WorldManager.LiveRoom (WorldRoom.roomX exitRoom, WorldRoom.roomY exitRoom)))
  | Thrown => Spec.degenerateSeed seed0
  | OutOfFuel => False
  end.
Proof.
  pose proof (initialize_spec seed0 levelNumber wm) as H.
  destruct (WorldManager.initialize seed0 levelNumber wm) as [wm'| |]; simpl in H; auto.
  destruct H as (wmE & -> & HI & _ & He & Hm & Hs & _).
  destruct (WorldManager.rooms wmE) as [|kr0 rs0] eqn:Hrs.
  { left. unfold WorldManager.generateExitRoom. rewrite Hrs.
    now destruct (_ >=? _). }
  right. destruct HI as (Hnd & Hok & _).
  destruct (generateExitRoom_spec wmE Hok He Hm ltac:(congruence))
    as (i & r & Hn & Hexit & Hrooms).
  exists i, (WorldRoom.markExit r). split; [exact Hexit|].
  intros Hlen Hstart.
  assert (Hs' : WorldManager.startRoom (WorldManager.generateExitRoom wmE) =
                WorldManager.startRoom wmE).
  { unfold WorldManager.generateExitRoom.
    destruct (_ >=? _); [reflexivity|]. rewrite Hrs.
    now destruct (WorldManager.exitScan _ _ _ _). }
  rewrite Hs', Hs in Hstart.
  assert (Horigin : (WorldRoom.roomX r, WorldRoom.roomY r) = (0, 0)).
  { destruct (filter Tile.start (WorldManager.tileLoader wm)).
    - destruct (WorldManager.startRoom wm); discriminate.
    - simpl in Hstart. congruence. }
  assert (Hlen' : (2 <= List.length (WorldManager.rooms wmE))%nat).
  { rewrite Hrooms in Hlen.
    revert Hlen. generalize (WorldManager.rooms wmE). clear. intros l. revert i.
    induction l as [|a l IH]; intros [|i]; simpl; auto.
    intros H. specialize (IH i). destruct l; simpl in *; try lia.
    destruct i; simpl in *; lia. }
  destruct (two_keys_one_off_origin _ Hnd Hlen') as (kr & Hin & Hoff).
  rewrite Forall_forall in Hok. destruct (Hok kr Hin) as [Hkey _].
  destruct Hexit as (_ & _ & _ & Hmax & _).
  assert (Hle : WorldManager.manhattan (snd kr) <= WorldManager.manhattan r).
  { assert (Hp : In (snd kr) (placed wmE)) by (unfold placed; now apply in_map).
    unfold placed in Hmax. rewrite Hrooms in Hmax.
    assert (Hmap : forall l : list ((Z * Z) * WorldRoom.t),
               map snd (updateAt i (fun kr0 => (fst kr0, WorldRoom.markExit (snd kr0))) l) =
               updateAt i WorldRoom.markExit (map snd l)).
    { clear. intros l. revert i.
      induction l as [|a l IH]; intros [|i]; simpl; try reflexivity. now rewrite IH. }
    rewrite Hmap in Hmax.
    destruct (updateAt_In WorldRoom.markExit i _ _ Hp) as [H1|H1];
      apply Hmax in H1; exact H1. }
  inversion Horigin as [[Hx Hy]].
  unfold WorldManager.manhattan in Hle. rewrite Hx, Hy in Hle. simpl in Hle.
  apply Hoff. rewrite Hkey. f_equal; lia.
Qed.

(** C6, as stated, fails on the fallback catalog: the level consists of
    the start room, and the start room is marked as the exit. *)
Lemma exit_room_is_start_room_on_fallback_catalog :
  exists wm',
    WorldManager.initialize 1 1 (WorldManager.make TileLoader.createFallbackTiles 0) = Done wm' /\
    ~ exitDesignationAsSpecified wm'.
Proof.
  eexists. split; [vm_compute; reflexivity|].
  intros (i & r & Hn & _ & _ & Hstart & _).
  destruct i as [|i]; simpl in Hn.
  - inversion Hn; subst. apply Hstart. reflexivity.
  - destruct i; discriminate.
Qed.

(** C2 (the code departs from the claim).  Seed 1, level 1, on a catalog
    of two 4 by 4 templates: the rooms at grid (0,1) and (2,0) are not
    grid-adjacent, and their rectangles share 192 by 64 pixels. *)
Theorem nonadjacent_rooms_overlap_seed_1 :
  exists wm a b,
    WorldManager.initialize 1 1 (WorldManager.make crossCatalog 0) = Done wm /\
    WorldManager.getRoom wm 0 1 = Some a /\
    WorldManager.getRoom wm 2 0 = Some b /\
    In a (placed wm) /\ In b (placed wm) /\
    ~ gridAdjacent a b /\
    overlapWidth a b = 192 /\ overlapHeight a b = 64 /\
    ~ nonOverlapExceptSharedEdge wm.
Proof.
  eexists. eexists. eexists.
  split; [vm_compute; reflexivity|].
  split; [vm_compute; reflexivity|].
  split; [vm_compute; reflexivity|].
  match goal with
  | |- In ?a (placed ?w) /\ In ?b (placed ?w) /\ _ =>
      assert (Ia : In a (placed w)) by (vm_compute; do 5 right; left; reflexivity);
      assert (Ib : In b (placed w)) by (vm_compute; do 3 right; left; reflexivity);
      assert (Hadj : ~ gridAdjacent a b) by (vm_compute; discriminate)
  end.
  split; [exact Ia|]. split; [exact Ib|]. split; [exact Hadj|].
  split; [vm_compute; reflexivity|].
  split; [vm_compute; reflexivity|].
  intros H. destruct (H _ _ Ia Ib) as [Hn|[Hg _]].
  - discriminate.
  - apply Hn. split; vm_compute; reflexivity.
  - exact (Hadj Hg).
Qed.

(** ** Generation does not read the references to the start room *)

Local Abbreviation forget := Spec.forgetStart.

Lemma forget_calculateOptimalRoomPosition (x y : Z) (rd : Tile.t) (wm : WorldManager.t) :
  WorldManager.calculateOptimalRoomPosition x y rd (forget wm) =
  (fst (WorldManager.calculateOptimalRoomPosition x y rd wm),
   forget (snd (WorldManager.calculateOptimalRoomPosition x y rd wm))).
Proof.
  unfold WorldManager.calculateOptimalRoomPosition.
  change (WorldManager.getRoom (forget wm)) with (WorldManager.getRoom wm).
  change (WorldManager.calculateRoomWorldPosition (forget wm))
    with (WorldManager.calculateRoomWorldPosition wm).
  match goal with |- context [if ?c then (0, ?a) else (?b, forget wm)] => destruct c end;
  match goal with |- context [if ?c then (0, ?a) else (?b, ?w)] => destruct c end;
  unfold WorldManager.adjustAllRoomsPosition;
  repeat match goal with |- context [if ?c then _ else _] => destruct c end;
  reflexivity.
Qed.

Lemma forget_generateRoomAt (x y : Z) (wm : WorldManager.t) :
  WorldManager.generateRoomAt x y (forget wm) =
  Spec.outcome_map (fun r : bool * WorldManager.t => (fst r, forget (snd r)))
    (WorldManager.generateRoomAt x y wm).
Proof.
  unfold WorldManager.generateRoomAt.
  change (WorldManager.hasRoom (forget wm)) with (WorldManager.hasRoom wm).
  change (WorldManager.isWithinLevelBounds (forget wm))
    with (WorldManager.isWithinLevelBounds wm).
  change (WorldManager.generatedRooms (forget wm)) with (WorldManager.generatedRooms wm).
  change (WorldManager.levelConstraints (forget wm)) with (WorldManager.levelConstraints wm).
  change (WorldManager.getRequiredConnections (forget wm))
    with (WorldManager.getRequiredConnections wm).
  change (WorldManager.findSuitableTiles (forget wm)) with (WorldManager.findSuitableTiles wm).
  change (WorldManager.rng (forget wm)) with (WorldManager.rng wm).
  destruct (WorldManager.hasRoom wm x y); [reflexivity|].
  destruct (negb _); [reflexivity|].
  destruct (_ >=? _); [reflexivity|].
  destruct (WorldManager.findSuitableTiles wm _ false) as [|t0 ts]; [reflexivity|].
  destruct (SeededRandom.choice (t0 :: ts) (WorldManager.rng wm)) as [[c|] rng']; [|reflexivity].
  change (WorldManager.set_rng rng' (forget wm)) with (forget (WorldManager.set_rng rng' wm)).
  rewrite forget_calculateOptimalRoomPosition.
  destruct (WorldManager.calculateOptimalRoomPosition x y c (WorldManager.set_rng rng' wm))
    as [[wX wY] wm2].
  reflexivity.
Qed.

Lemma forget_addRooms (n : nat) :
  forall adj queue gp wm,
    WorldManager.addRooms n adj queue gp (forget wm) =
    Spec.outcome_map
      (fun r : list (Z * Z) * list (Z * Z) * WorldManager.t =>
         (fst (fst r), snd (fst r), forget (snd r)))
      (WorldManager.addRooms n adj queue gp wm).
Proof.
  induction n as [|n IH]; intros adj queue gp wm; [reflexivity|].
  destruct adj as [|a adj']; [reflexivity|].
  cbn [WorldManager.addRooms].
  change (WorldManager.rng (forget wm)) with (WorldManager.rng wm).
  destruct (SeededRandom.randomInt 0 _ (WorldManager.rng wm)) as [posIndex rng'].
  change (WorldManager.set_rng rng' (forget wm)) with (forget (WorldManager.set_rng rng' wm)).
  destruct (WorldManager.splice1 posIndex (a :: adj')) as [[newPos|] rest]; [|reflexivity].
  rewrite forget_generateRoomAt.
  destruct (WorldManager.generateRoomAt _ _ _) as [[ok wm2]| |]; simpl; try reflexivity.
  destruct ok; apply IH.
Qed.

Lemma forget_generationLoop (fuel : nat) (rtg : Z) :
  forall queue gp wm,
    WorldManager.generationLoop fuel rtg queue gp (forget wm) =
    Spec.outcome_map forget (WorldManager.generationLoop fuel rtg queue gp wm).
Proof.
  induction fuel as [|fuel IH]; intros queue gp wm.
  - destruct queue; simpl; [reflexivity|]. now destruct (_ <? _).
  - destruct queue as [|c queue']; [reflexivity|].
    cbn [WorldManager.generationLoop].
    change (WorldManager.generatedRooms (forget wm)) with (WorldManager.generatedRooms wm).
    destruct (_ <? _); [|reflexivity].
    change (WorldManager.rng (forget wm)) with (WorldManager.rng wm).
    destruct (SeededRandom.randomInt 1 3 (WorldManager.rng wm)) as [k rng'].
    change (WorldManager.set_rng rng' (forget wm)) with (forget (WorldManager.set_rng rng' wm)).
    change (WorldManager.getValidAdjacentPositions (forget wm))
      with (WorldManager.getValidAdjacentPositions wm).
    change (WorldManager.generatedRooms (forget (WorldManager.set_rng rng' wm)))
      with (WorldManager.generatedRooms (WorldManager.set_rng rng' wm)).
    rewrite forget_addRooms.
    destruct (WorldManager.addRooms _ _ _ _ _) as [[[q2 gp2] wm2]| |]; simpl; try reflexivity.
    apply IH.
Qed.

Lemma forget_topUp (n : nat) :
  forall avail wm,
    WorldManager.topUp n avail (forget wm) =
    Spec.outcome_map forget (WorldManager.topUp n avail wm).
Proof.
  induction n as [|n IH]; intros avail wm; [reflexivity|].
  destruct avail as [|a avail']; [reflexivity|].
  cbn [WorldManager.topUp].
  change (WorldManager.rng (forget wm)) with (WorldManager.rng wm).
  destruct (SeededRandom.randomInt 0 _ (WorldManager.rng wm)) as [posIndex rng'].
  change (WorldManager.set_rng rng' (forget wm)) with (forget (WorldManager.set_rng rng' wm)).
  destruct (WorldManager.splice1 posIndex (a :: avail')) as [[pos|] rest]; [|reflexivity].
  rewrite forget_generateRoomAt.
  destruct (WorldManager.generateRoomAt _ _ _) as [[ok wm2]| |]; simpl; try reflexivity.
  apply IH.
Qed.

Lemma forget_ensureMinimumRooms (wm : WorldManager.t) :
  WorldManager.ensureMinimumRooms (forget wm) =
  Spec.outcome_map forget (WorldManager.ensureMinimumRooms wm).
Proof.
  unfold WorldManager.ensureMinimumRooms.
  change (WorldManager.generatedRooms (forget wm)) with (WorldManager.generatedRooms wm).
  change (WorldManager.levelConstraints (forget wm)) with (WorldManager.levelConstraints wm).
  change (WorldManager.levelBounds (forget wm)) with (WorldManager.levelBounds wm).
  destruct (_ <? _); [|reflexivity].
  change (WorldManager.hasRoom (forget wm)) with (WorldManager.hasRoom wm).
  change (WorldManager.hasAdjacentRoom (forget wm)) with (WorldManager.hasAdjacentRoom wm).
  apply forget_topUp.
Qed.

Lemma forget_generateExitRoom (wm : WorldManager.t) :
  WorldManager.generateExitRoom (forget wm) = forget (WorldManager.generateExitRoom wm).
Proof.
  unfold WorldManager.generateExitRoom.
  change (WorldManager.exitRoomsGenerated (forget wm))
    with (WorldManager.exitRoomsGenerated wm).
  change (WorldManager.levelConstraints (forget wm)) with (WorldManager.levelConstraints wm).
  change (WorldManager.rooms (forget wm)) with (WorldManager.rooms wm).
  destruct (_ >=? _); [reflexivity|].
  destruct (WorldManager.rooms wm); [reflexivity|].
  now destruct (WorldManager.exitScan _ _ _ _).
Qed.

Lemma forget_generateStartRoom (wm : WorldManager.t) :
  Spec.outcome_map forget (WorldManager.generateStartRoom (forget wm)) =
  Spec.outcome_map forget (WorldManager.generateStartRoom wm).
Proof.
  unfold WorldManager.generateStartRoom.
  change (WorldManager.filterTiles (forget wm)) with (WorldManager.filterTiles wm).
  change (WorldManager.rng (forget wm)) with (WorldManager.rng wm).
  destruct (WorldManager.filterTiles wm Tile.start) as [|t0 ts]; [reflexivity|].
  destruct (SeededRandom.choice (t0 :: ts) (WorldManager.rng wm)) as [[c|] rng']; reflexivity.
Qed.

Lemma outcome_map_bind {A B C : Type} (f : B -> C) (c : outcome A) (k : A -> outcome B) :
  Spec.outcome_map f (bind c k) = bind c (fun a => Spec.outcome_map f (k a)).
Proof. now destruct c. Qed.

Lemma outcome_map_forget_idem (c : outcome WorldManager.t) :
  Spec.outcome_map forget (Spec.outcome_map forget c) = Spec.outcome_map forget c.
Proof. now destruct c. Qed.

Lemma forget_generateFiniteLevel (wm : WorldManager.t) :
  Spec.outcome_map forget (WorldManager.generateFiniteLevel (forget wm)) =
  Spec.outcome_map forget (WorldManager.generateFiniteLevel wm).
Proof.
  unfold WorldManager.generateFiniteLevel.
  match goal with |- context [bind _ ?k] => set (K := k) end.
  assert (HK : forall w, K (forget w) = Spec.outcome_map forget (K w)).
  { intros w. unfold K.
    change (WorldManager.levelConstraints (forget w)) with (WorldManager.levelConstraints w).
    cbv zeta. rewrite forget_generationLoop.
    destruct (WorldManager.generationLoop _ _ _ _ w) as [w2| |]; simpl; try reflexivity.
    rewrite forget_ensureMinimumRooms.
    destruct (WorldManager.ensureMinimumRooms w2) as [w3| |]; simpl; try reflexivity.
    now rewrite forget_generateExitRoom. }
  pose proof (forget_generateStartRoom wm) as Hs.
  destruct (WorldManager.generateStartRoom (forget wm)) as [a| |];
    destruct (WorldManager.generateStartRoom wm) as [b| |];
    cbn [Spec.outcome_map] in Hs; try discriminate; try reflexivity.
  assert (Hab : forget a = forget b) by congruence. cbn [bind].
  rewrite <- (outcome_map_forget_idem (K a)), <- (outcome_map_forget_idem (K b)).
  rewrite <- !HK, Hab. reflexivity.
Qed.

Lemma rooms_determined (seed0 levelNumber : Z) (wm1 wm2 : WorldManager.t) :
  WorldManager.tileLoader wm1 = WorldManager.tileLoader wm2 ->
  Spec.outcome_map forget (WorldManager.initialize seed0 levelNumber wm1) =
  Spec.outcome_map forget (WorldManager.initialize seed0 levelNumber wm2).
Proof.
  intros Ht. unfold WorldManager.initialize. cbv zeta.
  match goal with
  | |- Spec.outcome_map _ (WorldManager.generateFiniteLevel ?a) =
       Spec.outcome_map _ (WorldManager.generateFiniteLevel ?b) =>
      rewrite <- (forget_generateFiniteLevel a), <- (forget_generateFiniteLevel b);
      replace (forget b) with (forget a); [reflexivity|]
  end.
  unfold Spec.forgetStart, WorldManager.set_start; simpl. rewrite Ht. reflexivity.
Qed.

Lemma startRoom_generateExitRoom (wm : WorldManager.t) :
  WorldManager.startRoom (WorldManager.generateExitRoom wm) = WorldManager.startRoom wm.
Proof.
  unfold WorldManager.generateExitRoom.
  destruct (_ >=? _); [reflexivity|].
  destruct (WorldManager.rooms wm); [reflexivity|].
  now destruct (WorldManager.exitScan _ _ _ _).
Qed.

Lemma startRoomInGraph_determined (seed0 levelNumber : Z) (wm wm' : WorldManager.t) :
  WorldManager.initialize seed0 levelNumber wm = Done wm' ->
  Spec.startRoomInGraph wm' =
  match filter Tile.start (WorldManager.tileLoader wm) with
  | [] => None
  | _ => WorldManager.getRoom wm' 0 0
  end.
Proof.
  intros E. pose proof (initialize_spec seed0 levelNumber wm) as H.
  rewrite E in H. simpl in H.
  destruct H as (wmE & -> & _ & _ & _ & _ & Hs & _).
  unfold Spec.startRoomInGraph. rewrite startRoom_generateExitRoom, Hs.
  destruct (filter Tile.start (WorldManager.tileLoader wm)); [|reflexivity].
  now destruct (WorldManager.startRoom wm).
Qed.

(** C5. Two calls of [initialize] with the same seed and level number, on
    managers that hold the same catalog, whatever else they hold, end the
    same way, and when they return they have built the same room graph: the
    same rooms under the same grid keys, from the same templates, at the same
    world origins, with the same exit flags, and the same start room. *)
Theorem initialize_deterministic (seed0 levelNumber : Z) (wm1 wm2 : WorldManager.t) :
  WorldManager.tileLoader wm1 = WorldManager.tileLoader wm2 ->
  Spec.outcome_map Spec.roomGraph (WorldManager.initialize seed0 levelNumber wm1) =
  Spec.outcome_map Spec.roomGraph (WorldManager.initialize seed0 levelNumber wm2).
Proof.
  intros Ht.
  pose proof (rooms_determined seed0 levelNumber wm1 wm2 Ht) as Hr.
  pose proof (startRoomInGraph_determined seed0 levelNumber wm1) as H1.
  pose proof (startRoomInGraph_determined seed0 levelNumber wm2) as H2.
  destruct (WorldManager.initialize seed0 levelNumber wm1) as [a| |];
    destruct (WorldManager.initialize seed0 levelNumber wm2) as [b| |];
    cbn [Spec.outcome_map] in *; try discriminate; try reflexivity.
  assert (Hab : Spec.forgetStart a = Spec.forgetStart b) by congruence.
  assert (Hrooms : WorldManager.rooms a = WorldManager.rooms b).
  { change (WorldManager.rooms (Spec.forgetStart a) = WorldManager.rooms (Spec.forgetStart b)).
    now rewrite Hab. }
  unfold Spec.roomGraph. rewrite (H1 a eq_refl), (H2 b eq_refl), Ht, Hrooms.
  unfold WorldManager.getRoom. rewrite Hrooms. reflexivity.
Qed.

Lemma initialize_deterministic_witness :
  Spec.outcome_map Spec.roomGraph
    (WorldManager.initialize 1 1 (WorldManager.make crossCatalog 0)) =
  Spec.outcome_map Spec.roomGraph (WorldManager.initialize 1 1 usedManager).
Proof.
  apply (initialize_deterministic 1 1 (WorldManager.make crossCatalog 0) usedManager).
  vm_compute. reflexivity.
Defined.

Lemma generated_rooms_reachable_from_start_witness :
  match WorldManager.initialize 1 1 (WorldManager.make crossCatalog 0) with
  | Done wm' =>
      In (0, 0) (Spec.keys wm') /\
      forall k, In k (Spec.keys wm') -> Spec.reachable (Spec.keys wm') k
  | Thrown => Spec.degenerateSeed 1
  | OutOfFuel => False
  end.
Proof.
  apply (generated_rooms_reachable_from_start 1 1 (WorldManager.make crossCatalog 0)).
  exists (crossTile "start" true). split; [left; reflexivity|reflexivity].
Defined.

Lemma reachable_origin_placed (ks : list (Z * Z)) (p : Z * Z) :
  Spec.reachable ks p -> In (0, 0) ks.
Proof. induction 1; auto. Qed.

(** C3, as stated, fails on a catalog without a start template: rooms are
    placed around the origin, the origin stays empty, and no room is
    reachable from a start room. *)
Lemma rooms_without_start_room_not_reachable :
  exists wm',
    WorldManager.initialize 1 1 (WorldManager.make [crossTile "cross" false] 0) = Done wm' /\
    Spec.keys wm' = [(0, 1); (1, 1); (2, 1); (2, 0); (2, 2)] /\
    ~ connectedAsSpecified wm'.
Proof.
  eexists. split; [vm_compute; reflexivity|]. split; [vm_compute; reflexivity|].
  intros H. specialize (H (0, 1)).
  assert (Hin : In (0, 0) [(0, 1); (1, 1); (2, 1); (2, 0); (2, 2)]).
  { apply (reachable_origin_placed _ (0, 1)). apply H. vm_compute. now left. }
  simpl in Hin. intuition discriminate.
Qed.

Lemma exit_room_farthest_first_found_witness :
  match WorldManager.initialize 1 1 (WorldManager.make crossCatalog 0) with
  | Done wm' =>
      WorldManager.rooms wm' = [] \/
      exists i exitRoom,
        exitAt wm' i exitRoom /\
        ((2 <= List.length (WorldManager.rooms wm'))%nat ->
         WorldManager.startRoom wm' <>
           Some (WorldManager.LiveRoom (WorldRoom.roomX exitRoom, WorldRoom.roomY exitRoom)))
  | Thrown => Spec.degenerateSeed 1
  | OutOfFuel => False
  end.
Proof.
  exact (exit_room_farthest_first_found 1 1 (WorldManager.make crossCatalog 0)).
Defined.

(** ** PowerManagementSystem.update *)

(** The beam of the scene is the one that [traceLaser] computes for the
    emitter. *)
Example litBeams_traced :
  match Collision.endPoint
          (Collision.traceLaser (Collision.mkV 98 96) (Collision.mkV 1 0)
             (litEntities "laser_1" "cell_1") None) with
  | Collision.Pt v => (Vector2.x v == 320)%Q /\ (Vector2.y v == 96)%Q
  | Collision.PtNaN => False
  end.
Proof. vm_compute. split; reflexivity. Qed.

(** With identifiers free of underscores the events are edge-triggered:
    three ticks on the same beams, one [laser_hit_cell], one [cell_powered]. *)
Example events_once_without_underscore :
  calls (ticks [1; 2; 3] (litManager "laser1" "cell1", litEntities "laser1" "cell1"))
  = ["on_laser_hit_cell"; "on_cell_powered"]%string.
Proof. vm_compute. reflexivity. Qed.

(** C1 (the code departs from the claim).  The identifiers are of the kind
    the tile loader itself makes up ([auto_emitter_..], [auto_cell_..]).  On
    three ticks with the same entities and beams the listener of
    [laser_hit_cell] is called on every tick, for the same laser and cell:
    each tick ends by taking the connection key apart at its first two
    underscores, finds no cell called [emitter], and disconnects.
    [cell_powered] is emitted once. *)
Theorem laser_hit_cell_reemitted_every_tick :
  let laser := "auto_emitter_room_1"%string in
  let cell := "auto_cell_room_1"%string in
  let hit :=
    ("on_laser_hit_cell"%string,
     Power.LaserHitCell laser cell
       {| Vector2.x := 64 + 64 / 2; Vector2.y := 64 + 64 / 2 |}
       {| Vector2.x := 320 + 64 / 2; Vector2.y := 64 + 64 / 2 |}) in
  let powered :=
    ("on_cell_powered"%string,
     Power.CellPowered cell {| Vector2.x := 320 + 64 / 2; Vector2.y := 64 + 64 / 2 |} [laser]) in
  let lost := ("on_laser_lost_cell"%string, Power.LaserLostCell "auto" "emitter") in
  exists st,
    ticks [1; 2; 3] (litManager laser cell, litEntities laser cell) = Power.Normal st /\
    Power.world Journal string (fst st) = [hit; powered; lost; hit; lost; hit; lost].
Proof.
  eexists. split; vm_compute; reflexivity.
Qed.

(** ** TileLoader.validateAndFixTile *)

Example twoLaserTile_repaired :
  option_map (map Prefab.pos)
    (match TileLoader.validateAndFixTile twoLaserTile with
     | Done t => Tile.prefabs t
     | _ => None
     end)
  = Some [(1, 1); (2, 1); (1, 2); (2, 2)].
Proof. vm_compute. reflexivity. Qed.

Example twoLaserStartTile_repaired :
  option_map (map (fun p => (Prefab.type p, Prefab.pos p)))
    (match TileLoader.validateAndFixTile twoLaserStartTile with
     | Done t => Tile.prefabs t
     | _ => None
     end)
  = Some [("LaserEmitter"%string, (1, 1)); ("LaserEmitter"%string, (2, 1)); ("Player"%string, (1, 2));
          ("PowerCell"%string, (2, 2))]%string.
Proof. vm_compute. reflexivity. Qed.

Lemma string_get_lt (s : string) (n : nat) (c : ascii) :
  String.get n s = Some c -> (n < String.length s)%nat.
Proof.
  revert n. induction s as [|a s IH]; intros [|n]; simpl; try discriminate; try lia.
  intros H. apply IH in H. lia.
Qed.

Lemma isChar_true (c : ascii) (o : option ascii) :
  TileLoader.isChar c o = true -> o = Some c.
Proof.
  destruct o as [c'|]; simpl; [|discriminate].
  intros H. apply Ascii.eqb_eq in H. now subst.
Qed.

Lemma charAt_Some (row : string) (x : Z) (c : ascii) :
  TileLoader.charAt row x = Some c -> 0 <= x /\ String.get (Z.to_nat x) row = Some c.
Proof.
  unfold TileLoader.charAt. destruct (x <? 0) eqn:E; [discriminate|]. intros H. split; [lia|exact H].
Qed.

Lemma occupied_false (prefabs : list Prefab.t) (x y : Z) :
  TileLoader.occupied prefabs x y = false ->
  forall p, In p prefabs -> Prefab.pos p <> (x, y).
Proof.
  unfold TileLoader.occupied. intros H p Hp E.
  assert (Ht : existsb (fun p0 => (fst (Prefab.pos p0) =? x) && (snd (Prefab.pos p0) =? y))
                       prefabs = true).
  { apply existsb_exists. exists p. split; [exact Hp|]. rewrite E. simpl.
    now rewrite !Z.eqb_refl. }
  congruence.
Qed.

Lemma safeCell_true (tile : Tile.t) (prefabs : list Prefab.t) (x y : Z) :
  TileLoader.safeCell (TileLoader.collisionOf tile) prefabs x y = true -> 0 <= y ->
  floorAt tile (x, y) /\ TileLoader.occupied prefabs x y = false.
Proof.
  unfold TileLoader.safeCell, floorAt. intros H Hy.
  destruct (nth_error (TileLoader.collisionOf tile) (Z.to_nat y)) as [row|] eqn:Hrow;
    [|discriminate].
  apply andb_true_iff in H. destruct H as [H Hocc].
  apply andb_true_iff in H. destruct H as [_ Hc].
  apply isChar_true, charAt_Some in Hc. destruct Hc as [Hx Hget].
  simpl. split.
  - split; [exact Hx|]. split; [exact Hy|]. exists row. auto.
  - now apply negb_true_iff in Hocc.
Qed.

Lemma safeCells_In (tile : Tile.t) (prefabs : list Prefab.t) (pos : Z * Z) :
  In pos (safeCells tile prefabs) ->
  floorAt tile pos /\ forall p, In p prefabs -> Prefab.pos p <> pos.
Proof.
  unfold safeCells. destruct (Tile.size tile) as [[w h]|]; [|intros []].
  intros H. apply in_flat_map in H. destruct H as (y & Hy & H).
  apply in_flat_map in H. destruct H as (x & Hx & H).
  destruct (TileLoader.safeCell _ _ x y) eqn:E; [|destruct H].
  destruct H as [<-|[]].
  apply rangeIncl_In in Hy.
  destruct (safeCell_true tile prefabs x y E ltac:(lia)) as [Hf Ho].
  split; [exact Hf|]. now apply occupied_false.
Qed.

Lemma NoDup_flat_map {A B : Type} (f : A -> list B) (l : list A) :
  NoDup l ->
  (forall a, In a l -> NoDup (f a)) ->
  (forall a b c, In a l -> In b l -> In c (f a) -> In c (f b) -> a = b) ->
  NoDup (flat_map f l).
Proof.
  induction 1 as [|a l Hnot Hnd IH]; intros Hf Hinj; simpl; [constructor|].
  apply NoDup_app.
  - apply Hf. now left.
  - apply IH.
    + intros b Hb. apply Hf. now right.
    + intros b b' c Hb Hb'. apply Hinj; now right.
  - intros c Hc Hc'. apply in_flat_map in Hc'. destruct Hc' as (b & Hb & Hcb).
    assert (a = b) by (apply (Hinj a b c); auto; [now left|now right]).
    subst. contradiction.
Qed.

Lemma NoDup_rangeIncl (lo hi : Z) : NoDup (rangeIncl lo hi).
Proof.
  unfold rangeIncl, range. rewrite map_map.
  apply Injective_map_NoDup; [|apply seq_NoDup].
  intros a b H. lia.
Qed.

Lemma NoDup_safeCells (tile : Tile.t) (prefabs : list Prefab.t) :
  NoDup (safeCells tile prefabs).
Proof.
  unfold safeCells. destruct (Tile.size tile) as [[w h]|]; [|constructor].
  apply NoDup_flat_map.
  - apply NoDup_rangeIncl.
  - intros y _. apply NoDup_flat_map.
    + apply NoDup_rangeIncl.
    + intros x _. destruct (TileLoader.safeCell _ _ x y); repeat constructor. intros [].
    + intros x x' c _ _ Hc Hc'.
      destruct (TileLoader.safeCell _ _ x y); [|destruct Hc].
      destruct (TileLoader.safeCell _ _ x' y); [|destruct Hc'].
      destruct Hc as [<-|[]]. destruct Hc' as [E|[]]. now inversion E.
  - intros y y' c _ _ Hc Hc'.
    apply in_flat_map in Hc. destruct Hc as (x & _ & Hc).
    apply in_flat_map in Hc'. destruct Hc' as (x' & _ & Hc').
    destruct (TileLoader.safeCell _ _ x y); [|destruct Hc].
    destruct (TileLoader.safeCell _ _ x' y'); [|destruct Hc'].
    destruct Hc as [<-|[]]. destruct Hc' as [E|[]]. now inversion E.
Qed.

Lemma findSafePositionNear_Some (tile : Tile.t) (prefabs : list Prefab.t)
    (tx ty sx sy : Z) :
  TileLoader.findSafePositionNear tile prefabs tx ty = Done (Some (sx, sy)) ->
  sx = tx /\ sy = ty /\ floorAt tile (tx, ty) /\
  forall p, In p prefabs -> Prefab.pos p <> (tx, ty).
Proof.
  unfold TileLoader.findSafePositionNear.
  destruct (ty <? _) eqn:E1; [|discriminate].
  destruct (ty <? 0) eqn:E2; [discriminate|].
  destruct (nth_error _ _) as [row|] eqn:Hrow; [|discriminate].
  destruct (_ && _) eqn:E3; [|discriminate].
  intros H. inversion H; subst.
  apply andb_true_iff in E3. destruct E3 as [E3 Hocc].
  apply andb_true_iff in E3. destruct E3 as [_ Hc].
  apply isChar_true, charAt_Some in Hc. destruct Hc as [Hx Hget].
  split; [reflexivity|]. split; [reflexivity|]. split.
  - unfold floorAt. simpl. split; [exact Hx|]. split; [lia|]. exists row. auto.
  - apply occupied_false. now apply negb_true_iff in Hocc.
Qed.

Lemma isCell_set_pos (pos : Z * Z) (p : Prefab.t) :
  isCell (TileLoader.set_pos pos p) = isCell p.
Proof. reflexivity. Qed.

Lemma Forall_updateAt {A : Type} (P : A -> Prop) (f : A -> A) (i : nat) (l : list A) :
  Forall P l -> (forall a, In a l -> P (f a)) -> Forall P (updateAt i f l).
Proof.
  revert i. induction l as [|a l IH]; intros [|i] H Hf; simpl; auto;
    inversion H; subst; constructor; auto.
  - apply Hf. now left.
  - apply IH; auto. intros b Hb. apply Hf. now right.
Qed.

Lemma apart_updateAt (target : Z * Z) (i : nat) (l : list Prefab.t) :
  ForallOrdPairs apart l ->
  (forall p, In p l -> Prefab.pos p <> target) ->
  ForallOrdPairs apart (updateAt i (TileLoader.set_pos target) l).
Proof.
  revert i. induction l as [|a l IH]; intros [|i] H Hfree; simpl; try constructor;
    inversion H; subst.
  - apply Forall_forall. intros q Hq _. simpl. intros E. apply (Hfree q); [now right|congruence].
  - assumption.
  - apply Forall_updateAt; [assumption|].
    intros q Hq _. simpl. apply Hfree. now left.
  - apply IH; [assumption|]. intros p Hp. apply Hfree. now right.
Qed.

Lemma updateAt_ext_at {A : Type} (f g : A -> A) (i : nat) (l : list A) (a : A) :
  nth_error l i = Some a -> f a = g a -> updateAt i f l = updateAt i g l.
Proof.
  revert i. induction l as [|b l IH]; intros [|i]; simpl; try discriminate.
  - intros H E. inversion H; subst. now rewrite E.
  - intros H E. f_equal. eapply IH; eauto.
Qed.

Lemma map_type_updateAt (pos : Z * Z) (i : nat) (l : list Prefab.t) :
  map Prefab.type (updateAt i (TileLoader.set_pos pos) l) = map Prefab.type l.
Proof.
  revert i. induction l as [|a l IH]; intros [|i]; simpl; auto. now rewrite IH.
Qed.

Lemma aligned_move (tile : Tile.t) (types : list string) (prefabs : list Prefab.t)
    (ci : nat) (target : Z * Z) :
  aligned tile types prefabs ->
  floorAt tile target ->
  (forall p, In p prefabs -> Prefab.pos p <> target) ->
  aligned tile types (updateAt ci (TileLoader.set_pos target) prefabs).
Proof.
  intros (Ht & Ha & Hf) Hfloor Hfree. split; [|split].
  - now rewrite map_type_updateAt.
  - now apply apart_updateAt.
  - apply Forall_updateAt; [exact Hf|]. intros a _ _. exact Hfloor.
Qed.

Lemma alignLoop_aligned (tile : Tile.t) (types : list string) (pairs : list (nat * nat)) :
  forall prefabs prefabs',
    TileLoader.alignLoop tile pairs prefabs = Done prefabs' ->
    aligned tile types prefabs -> aligned tile types prefabs'.
Proof.
  induction pairs as [|[li ci] rest IH]; intros prefabs prefabs' H HJ; simpl in H.
  - now inversion H; subst.
  - destruct (nth_error prefabs li) as [laser|]; [|eauto].
    destruct (nth_error prefabs ci) as [powerCell|] eqn:Hci; [|eauto].
    destruct (_ || _).
    + destruct (TileLoader.findSafePositionNear tile prefabs _ _) as [[[sx sy]|]| |] eqn:Hs;
        simpl in H; try discriminate; [|eauto].
      destruct (findSafePositionNear_Some _ _ _ _ _ _ Hs) as (-> & -> & Hfloor & Hfree).
      eapply IH; [exact H|].
      erewrite updateAt_ext_at; [apply aligned_move; eauto|exact Hci|reflexivity].
    + destruct (_ || _); [|eauto].
      destruct (TileLoader.findSafePositionNear tile prefabs _ _) as [[[sx sy]|]| |] eqn:Hs;
        simpl in H; try discriminate; [|eauto].
      destruct (findSafePositionNear_Some _ _ _ _ _ _ Hs) as (-> & -> & Hfloor & Hfree).
      eapply IH; [exact H|].
      erewrite updateAt_ext_at; [apply aligned_move; eauto|exact Hci|reflexivity].
Qed.

Lemma alignLasersAndPowerCells_aligned (tile : Tile.t) (types : list string)
    (prefabs prefabs' : list Prefab.t) :
  TileLoader.alignLasersAndPowerCells tile prefabs = Done prefabs' ->
  aligned tile types prefabs -> aligned tile types prefabs'.
Proof.
  unfold TileLoader.alignLasersAndPowerCells.
  destruct (TileLoader.indicesOf _ prefabs 0) as [|l ls].
  - intros H; now inversion H; subst.
  - destruct (TileLoader.indicesOf _ prefabs 0) as [|c cs].
    + intros H; now inversion H; subst.
    + apply alignLoop_aligned.
Qed.

Lemma filterKeep_filter (collision : list string) (prefabs prefabs' : list Prefab.t) :
  TileLoader.filterKeep collision prefabs = Done prefabs' ->
  prefabs' = filter (kept collision) prefabs.
Proof.
  revert prefabs'. induction prefabs as [|p rest IH]; intros prefabs' H; simpl in H.
  - now inversion H.
  - unfold kept at 1. simpl.
    destruct (TileLoader.keepPrefab collision p) as [k| |]; simpl in H; try discriminate.
    destruct (TileLoader.filterKeep collision rest) as [rest'| |]; simpl in H;
      try discriminate.
    inversion H; subst. rewrite (IH rest' eq_refl). now destruct k.
Qed.

Lemma floor_kept (tile : Tile.t) (collision : list string) (p : Prefab.t) :
  Tile.collision tile = Some collision ->
  floorAt tile (Prefab.pos p) -> kept collision p = true.
Proof.
  intros Hc (Hx & Hy & row & Hrow & Hget).
  unfold TileLoader.collisionOf in Hrow. rewrite Hc in Hrow.
  unfold kept, TileLoader.keepPrefab.
  destruct (Prefab.pos p) as [x y]. simpl in *.
  assert (Hlen : (Z.to_nat y < List.length collision)%nat).
  { apply nth_error_Some. congruence. }
  destruct (y >=? _) eqn:E1; [lia|].
  destruct (y <? 0) eqn:E2; [lia|].
  rewrite Hrow.
  pose proof (string_get_lt _ _ _ Hget) as Hlt.
  destruct (x >=? _) eqn:E3; [lia|].
  unfold TileLoader.charAt. destruct (x <? 0) eqn:E4; [lia|].
  rewrite Hget. reflexivity.
Qed.

Lemma apart_filter (f : Prefab.t -> bool) (l : list Prefab.t) :
  ForallOrdPairs apart l -> ForallOrdPairs apart (filter f l).
Proof.
  induction 1 as [|a l Ha _ IH]; simpl; [constructor|].
  destruct (f a); [|exact IH]. constructor; [|exact IH].
  rewrite Forall_forall in *. intros q Hq. apply filter_In in Hq. now apply Ha.
Qed.

Lemma cells_filter (f : Prefab.t -> bool) (l : list Prefab.t) :
  (forall p, In p l -> isCell p = true -> f p = true) ->
  filter isCell (filter f l) = filter isCell l.
Proof.
  induction l as [|a l IH]; intros H; simpl; [reflexivity|].
  assert (IH' : filter isCell (filter f l) = filter isCell l).
  { apply IH. intros p Hp. apply H. now right. }
  destruct (f a) eqn:Ef; simpl.
  - now rewrite IH'.
  - destruct (isCell a) eqn:Ec; [|exact IH'].
    rewrite (H a (or_introl eq_refl) Ec) in Ef. discriminate.
Qed.

Lemma cells_by_type (l l' : list Prefab.t) :
  map Prefab.type l = map Prefab.type l' ->
  List.length (filter isCell l) = List.length (filter isCell l').
Proof.
  revert l'. induction l as [|a l IH]; intros [|b l'] H; simpl in *; try discriminate; auto.
  inversion H as [[Ht Hr]].
  assert (E : isCell a = isCell b) by (unfold isCell, TileLoader.isType; now rewrite Ht).
  rewrite E. destruct (isCell b); simpl; rewrite (IH l' Hr); reflexivity.
Qed.

Lemma apart_split (before after : list Prefab.t) (p : Prefab.t) :
  ForallOrdPairs apart (before ++ p :: after) ->
  isCell p = true ->
  forall q, In q (before ++ after) -> Prefab.pos q <> Prefab.pos p.
Proof.
  induction before as [|b before IH]; simpl; intros H Hp q Hq; inversion H; subst.
  - rewrite Forall_forall in *. intros E. apply (H2 q Hq); auto.
  - destruct Hq as [<-|Hq].
    + rewrite Forall_forall in *. apply H2; [apply in_or_app; right; now left|auto].
    + now apply IH.
Qed.

Lemma aligned_cellsPlacedSafely (tile : Tile.t) (types : list string)
    (prefabs : list Prefab.t) :
  ForallOrdPairs apart prefabs ->
  Forall (fun p => isCell p = true -> floorAt tile (Prefab.pos p)) prefabs ->
  cellsPlacedSafely tile prefabs.
Proof.
  intros Ha Hf before p after -> Hp. split.
  - rewrite Forall_forall in Hf. apply Hf; [apply in_or_app; right; now left|exact Hp].
  - now apply apart_split.
Qed.

Lemma firstn_In {A : Type} (n : nat) (l : list A) (a : A) :
  In a (firstn n l) -> In a l.
Proof.
  revert l. induction n as [|n IH]; intros [|b l]; simpl; try tauto.
  intros [->|H]; auto.
Qed.

(** The power cells that the repair adds for two missing cells. *)
Lemma added_cells (tile : Tile.t) (prefabs : list Prefab.t) (w h : Z) :
  Tile.size tile = Some (w, h) ->
  filter isCell prefabs = [] ->
  List.length (filter isLaser prefabs) = 2%nat ->
  exists added,
    TileLoader.addPowerCellsToMatch tile prefabs (filter isLaser prefabs)
      (filter isCell prefabs) = Done (prefabs ++ added) /\
    Forall (fun c => isCell c = true) added /\
    Z.of_nat (List.length added) = Z.min 2 (Z.of_nat (List.length (safeCells tile prefabs))) /\
    map Prefab.pos added = firstn 2 (safeCells tile prefabs).
Proof.
  intros Hsize Hcells Hlasers.
  unfold TileLoader.addPowerCellsToMatch, TileLoader.findSafePositions.
  rewrite Hcells, Hlasers, Hsize. simpl List.length.
  change (Z.of_nat 2 - Z.of_nat 0) with 2.
  unfold TileLoader.slice0. change (2 <? 0) with false. cbv iota.
  change (Z.to_nat 2) with 2%nat.
  assert (Hsafe : flat_map
            (fun y => flat_map
               (fun x => if TileLoader.safeCell (TileLoader.collisionOf tile) prefabs x y
                         then [(x, y)] else [])
               (rangeIncl 1 (w - 2)))
            (rangeIncl 1 (h - 2)) = safeCells tile prefabs).
  { unfold safeCells. now rewrite Hsize. }
  rewrite Hsafe. simpl bind.
  eexists. split; [reflexivity|].
  destruct (safeCells tile prefabs) as [|a [|b rest]]; simpl.
  - split; [constructor|]. split; reflexivity.
  - split; [repeat constructor|]. split; reflexivity.
  - split; [repeat constructor|]. split; [lia|reflexivity].
Qed.

Lemma added_aligned (tile : Tile.t) (prefabs added : list Prefab.t) :
  filter isCell prefabs = [] ->
  Forall (fun c => isCell c = true) added ->
  map Prefab.pos added = firstn 2 (safeCells tile prefabs) ->
  aligned tile (map Prefab.type (prefabs ++ added)) (prefabs ++ added).
Proof.
  intros Hcells Hadded Hpos.
  assert (Hnone : forall p, In p prefabs -> isCell p = false).
  { intros p Hp. destruct (isCell p) eqn:E; [|reflexivity].
    assert (In p (filter isCell prefabs)) by (apply filter_In; auto).
    rewrite Hcells in *. contradiction. }
  assert (Hin : forall c, In c added ->
                  floorAt tile (Prefab.pos c) /\
                  forall p, In p prefabs -> Prefab.pos p <> Prefab.pos c).
  { intros c Hc. apply safeCells_In.
    assert (In (Prefab.pos c) (firstn 2 (safeCells tile prefabs))).
    { rewrite <- Hpos. now apply in_map. }
    eapply firstn_In; eauto. }
  assert (Hnd : NoDup (map Prefab.pos added)).
  { rewrite Hpos. pose proof (NoDup_safeCells tile prefabs) as H.
    destruct (safeCells tile prefabs) as [|a [|b rest]]; simpl.
    - constructor.
    - constructor; [intros []|constructor].
    - inversion H as [|? ? Hnot Hrest]; subst. constructor.
      + intros [E|[]]. apply Hnot. now left.
      + constructor; [intros []|constructor]. }
  split; [reflexivity|]. split.
  - clear Hpos. induction prefabs as [|p rest IH]; simpl.
    + clear Hin Hnone Hcells. induction added as [|c cs IHc]; [constructor|].
      simpl in Hnd. inversion Hnd as [|? ? Hnot Hnd']; subst.
      inversion Hadded; subst. constructor; [|auto].
      apply Forall_forall. intros q Hq _ E. apply Hnot. rewrite E. now apply in_map.
    + constructor.
      * apply Forall_forall. intros q Hq Hor. apply in_app_or in Hq.
        destruct Hq as [Hq|Hq].
        -- destruct Hor as [E|E]; [rewrite Hnone in E by (now left)|
                                   rewrite Hnone in E by (now right)]; discriminate.
        -- apply (Hin q Hq). now left.
      * apply IH.
        -- simpl in Hcells. destruct (isCell p); [discriminate|exact Hcells].
        -- intros q Hq. apply Hnone. now right.
        -- intros c Hc. destruct (Hin c Hc) as [Hf Hfree]. split; [exact Hf|].
           intros q Hq. apply Hfree. now right.
  - apply Forall_app. split.
    + apply Forall_forall. intros p Hp E. rewrite Hnone in E by exact Hp. discriminate.
    + apply Forall_forall. intros c Hc _. now apply Hin.
Qed.

(** What the validation pass yields, whenever it returns, for a template
    with two emitters and no power cell. *)
Lemma balance_repair_when_returns
    (tile tile' : Tile.t) (prefabs : list Prefab.t) :
  Tile.prefabs tile = Some prefabs ->
  List.length (filter isLaser prefabs) = 2%nat ->
  List.length (filter isCell prefabs) = 0%nat ->
  TileLoader.validateAndFixTile tile = Done tile' ->
  exists prefabs',
    Tile.prefabs tile' = Some prefabs' /\
    Z.of_nat (List.length (filter isCell prefabs')) =
      Z.min 2 (Z.of_nat (List.length (safeCells tile prefabs))) /\
    cellsPlacedSafely tile prefabs'.
Proof.
  intros Hps Hl Hc Hrun.
  assert (Hcells : filter isCell prefabs = []).
  { destruct (filter isCell prefabs); [reflexivity|discriminate]. }
  unfold TileLoader.validateAndFixTile, TileLoader.balanceLaserAndPowerCells in Hrun.
  rewrite Hps in Hrun.
  change (filter (TileLoader.isType "LaserEmitter"%string) prefabs)
    with (filter isLaser prefabs) in Hrun.
  change (filter (TileLoader.isType "PowerCell"%string) prefabs)
    with (filter isCell prefabs) in Hrun.
  rewrite Hl, Hc in Hrun. cbn [Nat.eqb negb Nat.ltb Nat.leb] in Hrun.
  destruct (Tile.size tile) as [[w h]|] eqn:Hsize.
  2:{ unfold TileLoader.addPowerCellsToMatch, TileLoader.findSafePositions in Hrun.
      rewrite Hsize in Hrun. cbn [bind] in Hrun. discriminate Hrun. }
  destruct (added_cells tile prefabs w h Hsize Hcells Hl)
    as (added & Hadd & Hallcells & Hlen & Hpos).
  rewrite Hadd in Hrun. cbn [bind] in Hrun.
  pose proof (added_aligned tile prefabs added Hcells Hallcells Hpos) as HJ.
  destruct (TileLoader.alignLasersAndPowerCells tile (prefabs ++ added))
    as [prefabs2| |] eqn:Halign; cbn [bind] in Hrun; try discriminate.
  pose proof (alignLasersAndPowerCells_aligned _ _ _ _ Halign HJ) as (Ht2 & Ha2 & Hf2).
  assert (Hcount2 : Z.of_nat (List.length (filter isCell prefabs2)) =
                    Z.min 2 (Z.of_nat (List.length (safeCells tile prefabs)))).
  { rewrite (cells_by_type _ _ Ht2), filter_app, Hcells. simpl.
    rewrite forallb_filter_id; [exact Hlen|].
    apply forallb_forall. rewrite Forall_forall in Hallcells. exact Hallcells. }
  unfold TileLoader.removeEntitiesInWalls in Hrun.
  cbn [Tile.prefabs Tile.collision TileLoader.set_prefabs] in Hrun.
  destruct (Tile.collision tile) as [collision|] eqn:Hcol.
  - destruct (TileLoader.filterKeep collision prefabs2) as [prefabs3| |] eqn:Hkeep;
      cbn [bind] in Hrun; try discriminate.
    inversion Hrun; subst tile'. exists prefabs3. split; [reflexivity|].
    apply filterKeep_filter in Hkeep. subst prefabs3.
    assert (Hkept : forall p, In p prefabs2 -> isCell p = true -> kept collision p = true).
    { intros p Hp Hcell. apply (floor_kept tile); [exact Hcol|].
      rewrite Forall_forall in Hf2. now apply Hf2. }
    split.
    + now rewrite (cells_filter _ _ Hkept).
    + apply (aligned_cellsPlacedSafely tile (map Prefab.type prefabs2)).
      * now apply apart_filter.
      * rewrite Forall_forall in *. intros p Hp. apply filter_In in Hp. now apply Hf2.
  - inversion Hrun; subst tile'. exists prefabs2. split; [reflexivity|].
    split; [exact Hcount2|].
    now apply (aligned_cellsPlacedSafely tile (map Prefab.type prefabs2)).
Qed.

Lemma findSafePositionNear_returns (tile : Tile.t) (prefabs : list Prefab.t) (tx ty : Z) :
  0 <= ty ->
  TileLoader.findSafePositionNear tile prefabs tx ty = Done (Some (tx, ty)) \/
  TileLoader.findSafePositionNear tile prefabs tx ty = Done None.
Proof.
  intros Hy. unfold TileLoader.findSafePositionNear.
  destruct (ty <? _); [|now right].
  destruct (ty <? 0) eqn:E; [lia|].
  destruct (nth_error _ _); [|now right].
  destruct (_ && _); [now left|now right].
Qed.

Lemma rowsFromZero_nth (prefabs : list Prefab.t) (i : nat) (p : Prefab.t) :
  rowsFromZero prefabs -> nth_error prefabs i = Some p -> 0 <= snd (Prefab.pos p).
Proof.
  intros H Hi. unfold rowsFromZero in H. rewrite Forall_forall in H.
  apply H. eapply nth_error_In; eauto.
Qed.

Lemma rowsFromZero_updateAt (prefabs : list Prefab.t) (i : nat) (f : Prefab.t -> Prefab.t) :
  rowsFromZero prefabs ->
  (forall p, nth_error prefabs i = Some p -> 0 <= snd (Prefab.pos (f p))) ->
  rowsFromZero (updateAt i f prefabs).
Proof.
  unfold rowsFromZero. revert i. induction prefabs as [|a l IH]; intros [|i] H Hf; simpl;
    auto; inversion H; subst; constructor; auto.
Qed.

Lemma alignLoop_returns (tile : Tile.t) (pairs : list (nat * nat)) :
  forall prefabs, rowsFromZero prefabs ->
    exists prefabs',
      TileLoader.alignLoop tile pairs prefabs = Done prefabs' /\ rowsFromZero prefabs'.
Proof.
  induction pairs as [|[li ci] rest IH]; intros prefabs H; simpl.
  - now exists prefabs.
  - destruct (nth_error prefabs li) as [laser|] eqn:Hli; [|auto].
    destruct (nth_error prefabs ci) as [powerCell|] eqn:Hci; [|auto].
    pose proof (rowsFromZero_nth _ _ _ H Hli) as Hl.
    pose proof (rowsFromZero_nth _ _ _ H Hci) as Hc.
    destruct (_ || _).
    + destruct (findSafePositionNear_returns tile prefabs
                  (fst (Prefab.pos powerCell)) (snd (Prefab.pos laser)) Hl) as [E|E];
        rewrite E; simpl; [|auto].
      apply IH. apply rowsFromZero_updateAt; [exact H|]. intros p _. exact Hl.
    + destruct (_ || _); [|auto].
      destruct (findSafePositionNear_returns tile prefabs
                  (fst (Prefab.pos laser)) (snd (Prefab.pos powerCell)) Hc) as [E|E];
        rewrite E; simpl; [|auto].
      apply IH. apply rowsFromZero_updateAt; [exact H|].
      intros p Hp. simpl. eapply rowsFromZero_nth; eauto.
Qed.

Lemma alignLasersAndPowerCells_returns (tile : Tile.t) (prefabs : list Prefab.t) :
  rowsFromZero prefabs ->
  exists prefabs',
    TileLoader.alignLasersAndPowerCells tile prefabs = Done prefabs' /\
    rowsFromZero prefabs'.
Proof.
  intros H. unfold TileLoader.alignLasersAndPowerCells.
  destruct (TileLoader.indicesOf _ prefabs 0) as [|l ls]; [now exists prefabs|].
  destruct (TileLoader.indicesOf _ prefabs 0) as [|c cs]; [now exists prefabs|].
  now apply alignLoop_returns.
Qed.

Lemma filterKeep_returns (collision : list string) (prefabs : list Prefab.t) :
  rowsFromZero prefabs -> exists l, TileLoader.filterKeep collision prefabs = Done l.
Proof.
  induction prefabs as [|p rest IH]; intros H; simpl; [now eexists|].
  inversion H as [|? ? Hp Hrest]; subst.
  destruct (IH Hrest) as (l & ->).
  unfold TileLoader.keepPrefab. destruct (Prefab.pos p) as [x y]. simpl in Hp.
  destruct (y >=? _); simpl; [now eexists|].
  destruct (y <? 0) eqn:E; [lia|].
  destruct (nth_error _ _); simpl; [|now eexists].
  destruct (x >=? _); simpl; [now eexists|].
  destruct (TileLoader.isChar _ _); simpl; now eexists.
Qed.

Lemma removeEntitiesInWalls_returns (tile : Tile.t) (prefabs : list Prefab.t) :
  rowsFromZero prefabs ->
  exists tile', TileLoader.removeEntitiesInWalls (TileLoader.set_prefabs prefabs tile)
                = Done tile'.
Proof.
  intros H. unfold TileLoader.removeEntitiesInWalls. simpl.
  destruct (Tile.collision tile) as [collision|]; [|now eexists].
  destruct (filterKeep_returns collision prefabs H) as (l & ->). simpl. now eexists.
Qed.

(** The validation pass returns on a template with a size, two emitters
    and no power cell, whose prefabs sit on rows of non-negative index. *)
Lemma validateAndFixTile_returns (tile : Tile.t) (size : Z * Z) (prefabs : list Prefab.t) :
  Tile.size tile = Some size ->
  Tile.prefabs tile = Some prefabs ->
  rowsFromZero prefabs ->
  List.length (filter isLaser prefabs) = 2%nat ->
  List.length (filter isCell prefabs) = 0%nat ->
  exists tile', TileLoader.validateAndFixTile tile = Done tile'.
Proof.
  intros Hsize Hps Hrows Hl Hc. destruct size as [w h].
  assert (Hcells : filter isCell prefabs = []).
  { destruct (filter isCell prefabs); [reflexivity|discriminate]. }
  unfold TileLoader.validateAndFixTile, TileLoader.balanceLaserAndPowerCells.
  rewrite Hps.
  change (filter (TileLoader.isType "LaserEmitter"%string) prefabs)
    with (filter isLaser prefabs).
  change (filter (TileLoader.isType "PowerCell"%string) prefabs)
    with (filter isCell prefabs).
  rewrite Hl, Hc. cbn [Nat.eqb negb Nat.ltb Nat.leb].
  destruct (added_cells tile prefabs w h Hsize Hcells Hl)
    as (added & Hadd & _ & _ & Hpos).
  rewrite Hadd. cbn [bind].
  assert (Hrows' : rowsFromZero (prefabs ++ added)).
  { apply Forall_app. split; [exact Hrows|].
    apply Forall_forall. intros c Hin.
    assert (Hs : In (Prefab.pos c) (safeCells tile prefabs)).
    { apply (firstn_In 2). rewrite <- Hpos. now apply in_map. }
    unfold safeCells in Hs. rewrite Hsize in Hs.
    apply in_flat_map in Hs. destruct Hs as (y & Hy & Hs).
    apply in_flat_map in Hs. destruct Hs as (x & _ & Hs).
    apply rangeIncl_In in Hy.
    destruct (TileLoader.safeCell _ _ x y); [|destruct Hs].
    destruct Hs as [E|[]]. rewrite <- E. simpl. lia. }
  destruct (alignLasersAndPowerCells_returns tile _ Hrows') as (prefabs2 & -> & Hrows2).
  cbn [bind]. now apply removeEntitiesInWalls_returns.
Qed.

(** C8 (amended). For a template with a size, two laser emitters and no
    power cell, whose prefabs sit on rows of non-negative index, the
    validation pass returns a template with [min 2 k] power cells, [k] being
    the number of safe interior cells of the template: two when there are at
    least two such cells.  Each power cell sits on a floor cell that no
    other prefab of the result occupies. *)
Theorem balance_repair_adds_cells_at_safe_positions
    (tile : Tile.t) (size : Z * Z) (prefabs : list Prefab.t) :
  Tile.size tile = Some size ->
  Tile.prefabs tile = Some prefabs ->
  rowsFromZero prefabs ->
  List.length (filter isLaser prefabs) = 2%nat ->
  List.length (filter isCell prefabs) = 0%nat ->
  exists tile' prefabs',
    TileLoader.validateAndFixTile tile = Done tile' /\
    Tile.prefabs tile' = Some prefabs' /\
    Z.of_nat (List.length (filter isCell prefabs')) =
      Z.min 2 (Z.of_nat (List.length (safeCells tile prefabs))) /\
    cellsPlacedSafely tile prefabs'.
Proof.
  intros Hsize Hps Hrows Hl Hc.
  destruct (validateAndFixTile_returns tile size prefabs Hsize Hps Hrows Hl Hc)
    as (tile' & Hrun).
  destruct (balance_repair_when_returns tile tile' prefabs Hps Hl Hc Hrun)
    as (prefabs' & Hp & Hn & Hsafe).
  exists tile', prefabs'. auto.
Qed.

Lemma balance_repair_adds_cells_at_safe_positions_witness :
  exists tile' prefabs',
    TileLoader.validateAndFixTile twoLaserTile = Done tile' /\
    Tile.prefabs tile' = Some prefabs' /\
    Z.of_nat (List.length (filter isCell prefabs')) = 2 /\
    cellsPlacedSafely twoLaserTile prefabs'.
Proof.
  assert (Hrows : rowsFromZero
            [laserPrefab "l1"%string 1 1 "E"%string; laserPrefab "l2"%string 2 1 "S"%string]).
  { repeat constructor; simpl; lia. }
  destruct (balance_repair_adds_cells_at_safe_positions twoLaserTile (4, 4)
              [laserPrefab "l1"%string 1 1 "E"%string; laserPrefab "l2"%string 2 1 "S"%string]
              eq_refl eq_refl Hrows eq_refl eq_refl)
    as (tile' & prefabs' & Hrun & Hp & Hn & Hsafe).
  exists tile', prefabs'. split; [exact Hrun|]. split; [exact Hp|]. split; [|exact Hsafe].
  rewrite Hn. vm_compute. reflexivity.
Defined.

(** C8, as stated, fails when fewer than two safe cells are left: in the
    walled start room the player stands on one of the two free interior
    cells, and the repair adds one power cell. *)
Lemma balance_repair_adds_one_cell_when_one_is_free :
  List.length (filter isLaser
    (match Tile.prefabs twoLaserStartTile with Some l => l | None => [] end)) = 2%nat /\
  List.length (filter isCell
    (match Tile.prefabs twoLaserStartTile with Some l => l | None => [] end)) = 0%nat /\
  ~ balancedAsSpecified twoLaserStartTile.
Proof.
  split; [reflexivity|]. split; [reflexivity|].
  intros (tile' & prefabs' & Hrun & Hp & Hn & _).
  vm_compute in Hrun. inversion Hrun; subst tile'.
  vm_compute in Hp. inversion Hp; subst prefabs'.
  vm_compute in Hn. discriminate Hn.
Qed.

(** ** LaserCollisionDetector.traceLaser: the walk over the hits *)


Lemma walkHits_blocked (pre post : list Collision.HitEntity) (h : Collision.HitEntity) :
  forall (d : Collision.point) (acc : list Collision.HitEntity),
    Forall (fun h => transparent h = true) pre ->
    transparent h = false ->
    Collision.walkHits (pre ++ h :: post) d acc
    = (Collision.hpoint (Collision.hit h), (acc ++ recorded pre ++ [h])%list).
Proof.
  induction pre as [|p rest IH]; intros d acc H Hh; simpl.
  - unfold transparent, isEmitter in Hh.
    destruct (Entity.isA "LaserEmitter" (Collision.entity h)); [discriminate|].
    destruct (Entity.solid (Collision.entity h)); [|discriminate].
    simpl in Hh. now rewrite Hh.
  - inversion H as [|? ? Hp Hrest]; subst.
    unfold transparent, isEmitter in Hp. unfold isEmitter at 1.
    destruct (Entity.isA "LaserEmitter" (Collision.entity p)); simpl.
    + now apply IH.
    + simpl in Hp.
      destruct (Entity.solid (Collision.entity p)); simpl in Hp.
      * rewrite Hp. rewrite IH by assumption. now rewrite <- app_assoc.
      * rewrite IH by assumption. now rewrite <- app_assoc.
Qed.

Lemma traceLaser_walk (start direction : Vector2.t) (entities : list Entity.t)
    (cb : option (Vector2.t -> bool)) :
  (Collision.endPoint (Collision.traceLaser start direction entities cb),
   Collision.hitEntities (Collision.traceLaser start direction entities cb))
  = Collision.walkHits (hitsWalked start direction entities cb)
      (Collision.Pt (wallLimitedEnd start direction cb)) [].
Proof.
  unfold Collision.traceLaser, hitsWalked, wallLimitedEnd.
  destruct (Collision.walkHits _ _ _) as [e processed]. reflexivity.
Qed.



(** ** lineAABBIntersect and findEntityCollisions *)

Lemma Qltb_true (a b : Q) : Qltb a b = true <-> (a < b)%Q.
Proof.
  unfold Qltb. rewrite negb_true_iff. split.
  - intros H. apply Qnot_le_lt. intros Hle. apply Qle_bool_iff in Hle. congruence.
  - intros H. destruct (Qle_bool b a) eqn:E; [|reflexivity].
    apply Qle_bool_iff in E. exfalso. now apply (Qlt_not_le a b).
Qed.

Lemma Qltb_false (a b : Q) : Qltb a b = false <-> (b <= a)%Q.
Proof.
  unfold Qltb. rewrite negb_false_iff. apply Qle_bool_iff.
Qed.

Lemma lineAABBIntersect_onSegment (start end_ : Vector2.t) (rect : Entity.Bounds)
    (h : Collision.Hit) :
  Collision.lineAABBIntersect start end_ rect = Some h -> onSegment start end_ h.
Proof.
  unfold Collision.lineAABBIntersect, onSegment. cbv zeta.
  set (tMin := Collision.nmax (Collision.nmin _ _) _).
  set (tMax := Collision.nmin (Collision.nmax _ _) _).
  clearbody tMin tMax.
  destruct (_ || _) eqn:E1; [discriminate|].
  apply orb_false_iff in E1. destruct E1 as [E1 E3].
  apply orb_false_iff in E1. destruct E1 as [E1 E2].
  destruct (Collision.nlt tMin (Collision.Fin 0)) eqn:E4; cbv iota.
  - destruct (Collision.nlt (Collision.Fin 1) tMax) eqn:E5; [discriminate|].
    destruct tMax as [q| | |]; simpl in *; try discriminate;
      intros H; inversion H; subst; simpl; auto.
    apply Qltb_false in E1. apply Qltb_false in E5. auto.
  - destruct (Collision.nlt (Collision.Fin 1) tMin) eqn:E5; [discriminate|].
    destruct tMin as [q| | |]; simpl in *; try discriminate;
      intros H; inversion H; subst; simpl; auto.
    apply Qltb_false in E4. apply Qltb_false in E5. auto.
Qed.

Lemma insertHit_In (h x : Collision.HitEntity) (l : list Collision.HitEntity) :
  In x (Collision.insertHit h l) <-> x = h \/ In x l.
Proof.
  induction l as [|a l IH]; simpl.
  - intuition.
  - destruct (Collision.sortsBefore a h); simpl; [rewrite IH|]; intuition.
Qed.

Lemma sortHits_In (x : Collision.HitEntity) (l : list Collision.HitEntity) :
  In x (Collision.sortHits l) <-> In x l.
Proof.
  induction l as [|a l IH]; simpl; [tauto|].
  rewrite insertHit_In, IH. intuition.
Qed.

(** Every hit that the detector collects is the intersection of the
    segment with the bounds of a visible, active entity of the scene. *)
Lemma findEntityCollisions_In (start end_ : Vector2.t) (entities : list Entity.t)
    (h : Collision.HitEntity) :
  In h (Collision.findEntityCollisions start end_ entities) <->
  In (Collision.entity h) entities /\
  Entity.visible (Collision.entity h) = true /\
  Entity.active (Collision.entity h) = true /\
  Collision.lineAABBIntersect start end_ (Entity.getBounds (Collision.entity h))
  = Some (Collision.hit h).
Proof.
  unfold Collision.findEntityCollisions. rewrite sortHits_In, in_flat_map. split.
  - intros (e & He & Hin).
    destruct (Entity.visible e) eqn:Hv; [|destruct Hin].
    destruct (Entity.active e) eqn:Ha; [|destruct Hin]. simpl in Hin.
    destruct (Collision.lineAABBIntersect start end_ (Entity.getBounds e)) as [hit|] eqn:Hh;
      [|destruct Hin].
    destruct Hin as [<-|[]]. simpl. auto.
  - intros (He & Hv & Ha & Hh). exists (Collision.entity h). split; [exact He|].
    rewrite Hv, Ha, Hh. simpl. left. now destruct h.
Qed.

Lemma sign_negative (q : Q) : (q < 0)%Q -> Collision.sign q = Lt.
Proof.
  unfold Collision.sign, Qlt. simpl. intros H. apply Z.compare_lt_iff. lia.
Qed.

Lemma sign_positive (q : Q) : (0 < q)%Q -> Collision.sign q = Gt.
Proof.
  unfold Collision.sign, Qlt. simpl. intros H. apply Z.compare_gt_iff. lia.
Qed.

Lemma Qinv_spec (d : Q) :
  ~ (d == 0)%Q -> (d * (1 / d) == 1)%Q /\ ((0 < d -> 0 < 1 / d) /\ (d < 0 -> 1 / d < 0))%Q.
Proof.
  intros H. assert (E : (d * (1 / d) == 1)%Q) by (field; exact H).
  split; [exact E|]. set (i := (1 / d)%Q) in *. clearbody i. split; intros Hd.
  - destruct (Qlt_le_dec 0 i); [assumption|exfalso; nra].
  - destruct (Qlt_le_dec i 0); [assumption|exfalso; nra].
Qed.

(** The beam of an emitter at a closed door two tiles east of a switch:
    it ends on the west face of the door. *)
Example closed_door_stops_beam :
  match Collision.endPoint
          (Collision.traceLaser (Collision.mkV 98 96) (Collision.mkV 1 0)
             (doorScene false) None) with
  | Collision.Pt v => (Vector2.x v == 320)%Q /\ (Vector2.y v == 96)%Q
  | Collision.PtNaN => False
  end.
Proof. vm_compute. split; reflexivity. Qed.

(** With the door open the beam runs its full length. *)
Example open_door_passes_beam :
  match Collision.endPoint
          (Collision.traceLaser (Collision.mkV 98 96) (Collision.mkV 1 0)
             (doorScene true) None) with
  | Collision.Pt v => (Vector2.x v == 2098)%Q /\ (Vector2.y v == 96)%Q
  | Collision.PtNaN => False
  end.
Proof. vm_compute. split; reflexivity. Qed.

(** ** LaserCollisionDetector.traceLaser: the reach of the ray *)

Lemma firstWallStep_In (callback : Vector2.t -> bool) (start stepVector : Vector2.t)
    (steps : list Z) (i : Z) :
  Collision.firstWallStep callback start stepVector steps = Some i -> In i steps.
Proof.
  induction steps as [|j rest IH]; simpl; [discriminate|].
  destruct (callback _).
  - intros H. inversion H. now left.
  - intros H. right. now apply IH.
Qed.

Lemma wallStep_range (start direction : Vector2.t) (cb : option (Vector2.t -> bool)) (i : Z) :
  wallStep start direction cb = Some i -> 1 <= i <= 250.
Proof.
  unfold wallStep. destruct cb as [callback|]; [|discriminate].
  intros H. apply firstWallStep_In, rangeIncl_In in H.
  change (Collision.maxDistance / Collision.stepSize) with 250 in H. exact H.
Qed.

Lemma wallLimitedEnd_wallStep (start direction : Vector2.t) (cb : option (Vector2.t -> bool)) :
  wallLimitedEnd start direction cb =
  match wallStep start direction cb with
  | Some i =>
      Collision.snapToTileBoundary
        (Vector2.add start
           (Vector2.multiply (Vector2.multiply direction (inject_Z Collision.stepSize))
              (inject_Z (i - 1))))
        direction
  | None => Vector2.add start (Vector2.multiply direction (inject_Z Collision.maxDistance))
  end.
Proof.
  unfold wallLimitedEnd, Collision.checkWallCollision, wallStep.
  destruct cb as [callback|]; [|reflexivity].
  now destruct (Collision.firstWallStep _ _ _ _).
Qed.

Lemma unit_le_1 (dx dy : Q) : (dx * dx + dy * dy == 1 -> dx <= 1 /\ -(1) <= dx)%Q.
Proof. intros H. split; nra. Qed.

Lemma reach_bound (dx dy K d : Q) :
  (dx * dx + dy * dy == 1 -> 0 <= K -> -(64) < d -> d < 64 ->
   (dx * K + d) * (dx * K + d) + (dy * K) * (dy * K) < (K + 64) * (K + 64))%Q.
Proof.
  intros H HK Hd1 Hd2.
  destruct (unit_le_1 dx dy H) as [H1 H2].
  assert (E : ((dx * K + d) * (dx * K + d) + (dy * K) * (dy * K)
               == K * K * (dx * dx + dy * dy) + 2 * d * dx * K + d * d)%Q) by ring.
  rewrite E, H.
  assert (Hb : (d * dx * K <= 64 * K)%Q).
  { destruct (Qlt_le_dec d 0).
    - assert (0 <= (-d) * K)%Q by nra. nra.
    - assert (0 <= d * K)%Q by nra. nra. }
  nra.
Qed.

Lemma TILE_64 : (Collision.TILE == 64)%Q.
Proof. reflexivity. Qed.

Lemma ceiling_snap (X : Q) :
  (0 <= inject_Z (Qceiling (X / Collision.TILE)) * Collision.TILE - X /\
   inject_Z (Qceiling (X / Collision.TILE)) * Collision.TILE - X < 64)%Q.
Proof.
  pose proof (Qle_ceiling (X / Collision.TILE)) as H1.
  pose proof (Qceiling_lt (X / Collision.TILE)) as H2.
  unfold Z.sub in H2. rewrite inject_Z_plus, inject_Z_opp in H2.
  set (c := inject_Z (Qceiling (X / Collision.TILE))) in *.
  rewrite TILE_64 in *. change (inject_Z 1) with 1%Q in H2. clearbody c.
  unfold Qdiv in *. set (u := (X * / 64)%Q) in *.
  assert (HX : (X == u * 64)%Q) by (unfold u; field).
  clearbody u. split; lra.
Qed.

Lemma floor_snap (X : Q) :
  (-(64) < inject_Z (Qfloor (X / Collision.TILE)) * Collision.TILE - X /\
   inject_Z (Qfloor (X / Collision.TILE)) * Collision.TILE - X <= 0)%Q.
Proof.
  pose proof (Qfloor_le (X / Collision.TILE)) as H1.
  pose proof (Qlt_floor (X / Collision.TILE)) as H2.
  rewrite inject_Z_plus in H2.
  set (c := inject_Z (Qfloor (X / Collision.TILE))) in *.
  rewrite TILE_64 in *. change (inject_Z 1) with 1%Q in H2. clearbody c.
  unfold Qdiv in *. set (u := (X * / 64)%Q) in *.
  assert (HX : (X == u * 64)%Q) by (unfold u; field).
  clearbody u. split; lra.
Qed.
Lemma snap_reach (start direction : Vector2.t) (k : Q) :
  unitVector direction -> (0 <= k)%Q ->
  (Vector2.distanceSq start
     (Collision.snapToTileBoundary
        (Vector2.add start
           (Vector2.multiply (Vector2.multiply direction (inject_Z Collision.stepSize)) k))
        direction)
   < (8 * k + 64) * (8 * k + 64))%Q.
Proof.
  destruct start as [sx sy], direction as [dx dy]. unfold unitVector. intros Hu Hk.
  assert (Hu' : (dy * dy + dx * dx == 1)%Q) by (rewrite Qplus_comm; exact Hu).
  assert (HK : (0 <= 8 * k)%Q) by lra.
  unfold Collision.snapToTileBoundary.
  cbn [Vector2.x Vector2.y Vector2.add Vector2.multiply] in *.
  change (inject_Z Collision.stepSize) with 8%Q.
  set (X := (sx + dx * 8 * k)%Q). set (Y := (sy + dy * 8 * k)%Q).
  destruct (ceiling_snap X) as [Hc1 Hc2]. destruct (floor_snap X) as [Hf1 Hf2].
  destruct (ceiling_snap Y) as [Hc3 Hc4]. destruct (floor_snap Y) as [Hf3 Hf4].
  destruct (Qltb (Qabs dy) (Qabs dx)).
  - destruct (Qltb 0 dx); [|destruct (Qltb dx 0)];
      unfold Vector2.distanceSq; cbn [Vector2.x Vector2.y].
    + set (c := (inject_Z (Qceiling (X / Collision.TILE)) * Collision.TILE)%Q) in *.
      setoid_replace ((sx - c) * (sx - c) + (sy - Y) * (sy - Y))%Q
        with ((dx * (8 * k) + (c - X)) * (dx * (8 * k) + (c - X))
              + (dy * (8 * k)) * (dy * (8 * k)))%Q by (unfold X, Y; ring).
      apply reach_bound; auto; lra.
    + set (c := (inject_Z (Qfloor (X / Collision.TILE)) * Collision.TILE)%Q) in *.
      setoid_replace ((sx - c) * (sx - c) + (sy - Y) * (sy - Y))%Q
        with ((dx * (8 * k) + (c - X)) * (dx * (8 * k) + (c - X))
              + (dy * (8 * k)) * (dy * (8 * k)))%Q by (unfold X, Y; ring).
      apply reach_bound; auto; lra.
    + setoid_replace ((sx - X) * (sx - X) + (sy - Y) * (sy - Y))%Q
        with ((dx * (8 * k) + 0) * (dx * (8 * k) + 0)
              + (dy * (8 * k)) * (dy * (8 * k)))%Q by (unfold X, Y; ring).
      apply reach_bound; auto; lra.
  - destruct (Qltb 0 dy); [|destruct (Qltb dy 0)];
      unfold Vector2.distanceSq; cbn [Vector2.x Vector2.y].
    + set (c := (inject_Z (Qceiling (Y / Collision.TILE)) * Collision.TILE)%Q) in *.
      setoid_replace ((sx - X) * (sx - X) + (sy - c) * (sy - c))%Q
        with ((dy * (8 * k) + (c - Y)) * (dy * (8 * k) + (c - Y))
              + (dx * (8 * k)) * (dx * (8 * k)))%Q by (unfold X, Y; ring).
      apply reach_bound; auto; lra.
    + set (c := (inject_Z (Qfloor (Y / Collision.TILE)) * Collision.TILE)%Q) in *.
      setoid_replace ((sx - X) * (sx - X) + (sy - c) * (sy - c))%Q
        with ((dy * (8 * k) + (c - Y)) * (dy * (8 * k) + (c - Y))
              + (dx * (8 * k)) * (dx * (8 * k)))%Q by (unfold X, Y; ring).
      apply reach_bound; auto; lra.
    + setoid_replace ((sx - X) * (sx - X) + (sy - Y) * (sy - Y))%Q
        with ((dy * (8 * k) + 0) * (dy * (8 * k) + 0)
              + (dx * (8 * k)) * (dx * (8 * k)))%Q by (unfold X, Y; ring).
      apply reach_bound; auto; lra.
Qed.

(** The end point of the walk is the one it starts with, or the point of
    one of the hits. *)
Lemma walkHits_endpoint (hits : list Collision.HitEntity) :
  forall (d : Collision.point) (acc : list Collision.HitEntity),
    fst (Collision.walkHits hits d acc) = d \/
    exists h, In h hits /\
      fst (Collision.walkHits hits d acc) = Collision.hpoint (Collision.hit h).
Proof.
  induction hits as [|h rest IH]; intros d acc; simpl; [now left|].
  assert (Hrest : forall acc',
    fst (Collision.walkHits rest d acc') = d \/
    exists h0, (h = h0 \/ In h0 rest) /\
      fst (Collision.walkHits rest d acc') = Collision.hpoint (Collision.hit h0)).
  { intros acc'. destruct (IH d acc') as [H|(h0 & Hin & H)]; [now left|].
    right. exists h0. auto. }
  destruct (Entity.isA _ _); [apply Hrest|].
  destruct (Entity.solid _); [|apply Hrest].
  destruct (Collision.isOpenDoor _); [apply Hrest|].
  right. exists h. simpl. auto.
Qed.

Lemma distanceSq_nonneg (a b : Vector2.t) : (0 <= Vector2.distanceSq a b)%Q.
Proof.
  unfold Vector2.distanceSq. cbv zeta.
  generalize (Vector2.x a - Vector2.x b)%Q (Vector2.y a - Vector2.y b)%Q.
  intros u v. nra.
Qed.

Lemma distanceSq_along (start v : Vector2.t) (q : Q) :
  (Vector2.distanceSq start (Vector2.add start (Vector2.multiply v q))
   == q * q * (Vector2.x v * Vector2.x v + Vector2.y v * Vector2.y v))%Q.
Proof.
  destruct start, v. unfold Vector2.distanceSq. simpl. ring.
Qed.

Lemma distanceSq_subtract (start w : Vector2.t) :
  (Vector2.x (Vector2.subtract w start) * Vector2.x (Vector2.subtract w start)
   + Vector2.y (Vector2.subtract w start) * Vector2.y (Vector2.subtract w start)
   == Vector2.distanceSq start w)%Q.
Proof.
  destruct start, w. unfold Vector2.distanceSq. simpl. ring.
Qed.

Lemma distanceSq_samePoint (start a b : Vector2.t) :
  samePoint a b -> (Vector2.distanceSq start a == Vector2.distanceSq start b)%Q.
Proof.
  intros [Hx Hy]. unfold Vector2.distanceSq. cbv zeta. now rewrite Hx, Hy.
Qed.

(** The end point lies on the segment from the start to the end of the
    wall-limited ray. *)
Lemma endPoint_on_wall_limited_ray (start direction : Vector2.t) (entities : list Entity.t)
    (cb : option (Vector2.t -> bool)) (p : Vector2.t) :
  Collision.endPoint (Collision.traceLaser start direction entities cb) = Collision.Pt p ->
  exists q, (0 <= q)%Q /\ (q <= 1)%Q /\
    samePoint p
      (Vector2.add start
         (Vector2.multiply (Vector2.subtract (wallLimitedEnd start direction cb) start) q)).
Proof.
  intros Hend.
  pose proof (traceLaser_walk start direction entities cb) as Hwalk.
  apply (f_equal fst) in Hwalk. simpl in Hwalk. rewrite Hend in Hwalk.
  destruct (walkHits_endpoint (hitsWalked start direction entities cb)
              (Collision.Pt (wallLimitedEnd start direction cb)) [])
    as [H|(h & Hin & H)]; rewrite H in Hwalk.
  - inversion Hwalk; subst. exists 1%Q. split; [lra|]. split; [lra|].
    destruct start, (wallLimitedEnd _ _ _). split; simpl; ring.
  - apply findEntityCollisions_In in Hin. destruct Hin as (_ & _ & _ & Hhit).
    apply lineAABBIntersect_onSegment in Hhit. unfold onSegment in Hhit.
    destruct (Collision.t (Collision.hit h)) as [q| | |].
    + destruct Hhit as (H0 & H1 & Hp). rewrite Hp in Hwalk. inversion Hwalk; subst.
      exists q. split; [exact H0|]. split; [exact H1|]. split; reflexivity.
    + destruct Hhit.
    + destruct Hhit.
    + rewrite Hhit in Hwalk. discriminate Hwalk.
Qed.

Lemma reachAtStep_eq (i : Z) : (reachAtStep i == 8 * inject_Z (i - 1) + 64)%Q.
Proof.
  unfold reachAtStep. change Collision.stepSize with 8%Z. change TILE_SIZE with 64%Z.
  rewrite inject_Z_plus, inject_Z_mult. reflexivity.
Qed.

(** ** Walls of whole tiles *)

Lemma firstWallStep_seq (callback : Vector2.t -> bool) (start stepVector : Vector2.t)
    (lo : Z) (n : nat) :
  forall (a : nat) (i : Z),
    Collision.firstWallStep callback start stepVector
      (map (fun k => lo + Z.of_nat k) (seq a n)) = Some i ->
    lo + Z.of_nat a <= i < lo + Z.of_nat (a + n) /\
    callback (Vector2.add start (Vector2.multiply stepVector (inject_Z i))) = true /\
    forall j, lo + Z.of_nat a <= j < i ->
      callback (Vector2.add start (Vector2.multiply stepVector (inject_Z j))) = false.
Proof.
  induction n as [|n IH]; intros a i; simpl; [discriminate|].
  destruct (callback _) eqn:E.
  - intros H. inversion H; subst. split; [lia|]. split; [exact E|]. intros j Hj. lia.
  - intros H. destruct (IH (S a) i H) as (Hr & Hi & Hbefore).
    split; [lia|]. split; [exact Hi|]. intros j Hj.
    destruct (Z.eq_dec j (lo + Z.of_nat a)) as [->|Hne]; [exact E|].
    apply Hbefore. lia.
Qed.

(** The sample that [wallStep] returns is the first at which the callback
    reports a wall. *)
Lemma wallStep_first (start direction : Vector2.t) (callback : Vector2.t -> bool) (i : Z) :
  wallStep start direction (Some callback) = Some i ->
  callback (sample start direction i) = true /\
  forall j, 1 <= j < i -> callback (sample start direction j) = false.
Proof.
  unfold wallStep, rangeIncl, range. rewrite map_map. intros H.
  apply firstWallStep_seq in H. destruct H as (_ & Hi & Hbefore).
  split; [exact Hi|]. intros j Hj. apply Hbefore. lia.
Qed.

Lemma Qdiv_TILE_le (x y : Q) : (x <= y -> x / Collision.TILE <= y / Collision.TILE)%Q.
Proof.
  intros H. unfold Qdiv. apply Qmult_le_compat_r; [exact H|]. rewrite TILE_64.
  unfold Qle. simpl. lia.
Qed.

Lemma Qdiv_TILE_mult (x : Q) : (x == x / Collision.TILE * 64)%Q.
Proof. rewrite TILE_64. field. Qed.

Lemma Qceiling_le_floor_succ (x : Q) : (Qceiling x <= Qfloor x + 1)%Z.
Proof.
  pose proof (Qceiling_lt x) as H1. pose proof (Qlt_floor x) as H2.
  assert (H : (inject_Z (Qceiling x - 1) < inject_Z (Qfloor x + 1))%Q)
    by (eapply Qlt_trans; eauto).
  rewrite <- Zlt_Qlt in H. lia.
Qed.

(** Going up from [X] to a point [C] of another tile, the tile boundary
    above [X] is not past [C]. *)
Lemma ceiling_snap_before (X C : Q) :
  (X <= C)%Q -> tileOf X <> tileOf C ->
  (inject_Z (Qceiling (X / Collision.TILE)) * Collision.TILE <= C)%Q.
Proof.
  unfold tileOf. intros Hle Hne.
  assert (Hm : (Qfloor (X / Collision.TILE) <= Qfloor (C / Collision.TILE))%Z).
  { now apply Qfloor_resp_le, Qdiv_TILE_le. }
  pose proof (Qceiling_le_floor_succ (X / Collision.TILE)) as Hc.
  pose proof (Qfloor_le (C / Collision.TILE)) as Hf.
  assert (Hz : (Qceiling (X / Collision.TILE) <= Qfloor (C / Collision.TILE))%Z) by lia.
  rewrite Zle_Qle in Hz. pose proof (Qdiv_TILE_mult C) as HC.
  set (c := inject_Z (Qceiling (X / Collision.TILE))) in *.
  set (f := inject_Z (Qfloor (C / Collision.TILE))) in *.
  set (u := (C / Collision.TILE)%Q) in *. clearbody c f u.
  rewrite TILE_64. lra.
Qed.

(** Going down from [X] to a point [C] of another tile, the tile boundary
    below [X] is not past [C]. *)
Lemma floor_snap_before (X C : Q) :
  (C <= X)%Q -> tileOf X <> tileOf C ->
  (C <= inject_Z (Qfloor (X / Collision.TILE)) * Collision.TILE)%Q.
Proof.
  unfold tileOf. intros Hle Hne.
  assert (Hm : (Qfloor (C / Collision.TILE) <= Qfloor (X / Collision.TILE))%Z).
  { now apply Qfloor_resp_le, Qdiv_TILE_le. }
  pose proof (Qlt_floor (C / Collision.TILE)) as Hf.
  assert (Hz : (Qfloor (C / Collision.TILE) + 1 <= Qfloor (X / Collision.TILE))%Z) by lia.
  rewrite Zle_Qle in Hz. pose proof (Qdiv_TILE_mult C) as HC.
  set (c := inject_Z (Qfloor (X / Collision.TILE))) in *.
  set (f := inject_Z (Qfloor (C / Collision.TILE) + 1)) in *.
  set (u := (C / Collision.TILE)%Q) in *. clearbody c f u.
  rewrite TILE_64. lra.
Qed.
Lemma axisDirection_unit (d : Vector2.t) : axisDirection d -> unitVector d.
Proof. intros [-> | [-> | [-> | ->]]]; reflexivity. Qed.

Lemma tileOf_same (a b : Q) : (a == b)%Q -> tileOf a = tileOf b.
Proof. intros H. unfold tileOf. now rewrite H. Qed.

(** With a wall of whole tiles, the tile of the moving coordinate changes
    between the last clear sample and the sample in the wall. *)
Lemma wall_sample_in_next_tile (callback : Vector2.t -> bool) (p q : Vector2.t) :
  tileWall callback -> callback p = false -> callback q = true ->
  (tileOf (Vector2.y p) = tileOf (Vector2.y q) ->
   tileOf (Vector2.x p) <> tileOf (Vector2.x q)) /\
  (tileOf (Vector2.x p) = tileOf (Vector2.x q) ->
   tileOf (Vector2.y p) <> tileOf (Vector2.y q)).
Proof.
  intros Hw Hp Hq. split; intros H1 H2.
  - rewrite (Hw p q H2 H1) in Hp. congruence.
  - rewrite (Hw p q H1 H2) in Hp. congruence.
Qed.

Lemma inject_Z_pred (i : Z) : (inject_Z (i - 1) == inject_Z i - 1)%Q.
Proof. unfold Z.sub. rewrite inject_Z_plus, inject_Z_opp. reflexivity. Qed.

Lemma square_le (a b : Q) : (0 <= a -> a <= b -> a * a <= b * b)%Q.
Proof. intros. nra. Qed.

(** For a ray along an axis and a wall of whole tiles, the snapped wall
    hit point is within [maxDistance] of the start. *)
Lemma snap_on_tile_wall (start direction : Vector2.t) (callback : Vector2.t -> bool) (i : Z) :
  axisDirection direction -> tileWall callback ->
  wallStep start direction (Some callback) = Some i ->
  (Vector2.distanceSq start
     (Collision.snapToTileBoundary (sample start direction (i - 1)) direction)
   <= maxDistanceSq)%Q.
Proof.
  intros Hd Hw Hstep.
  pose proof (wallStep_range _ _ _ _ Hstep) as Hi.
  destruct (wallStep_first _ _ _ _ Hstep) as [Hwall Hclear].
  destruct (Z.eq_dec i 1) as [->|Hi1].
  - apply Qlt_le_weak.
    eapply Qlt_le_trans; [apply (snap_reach start direction (inject_Z (1 - 1)))|].
    + now apply axisDirection_unit.
    + vm_compute. discriminate.
    + vm_compute. discriminate.
  - specialize (Hclear (i - 1) ltac:(lia)).
    destruct (wall_sample_in_next_tile callback _ _ Hw Hclear Hwall) as [Hx Hy].
    pose proof (inject_Z_pred i) as Hk.
    assert (Hk2 : (2 <= inject_Z i)%Q) by (change 2%Q with (inject_Z 2); rewrite <- Zle_Qle; lia).
    assert (Hk250 : (inject_Z i <= 250)%Q)
      by (change 250%Q with (inject_Z 250); rewrite <- Zle_Qle; lia).
    unfold maxDistanceSq.
    change (inject_Z (Collision.maxDistance * Collision.maxDistance)) with (2000 * 2000)%Q.
    destruct start as [sx sy].
    unfold sample in *. unfold Collision.snapToTileBoundary, Vector2.distanceSq.
    change (inject_Z Collision.stepSize) with 8%Q in *.
    set (k := inject_Z i) in *. set (k1 := inject_Z (i - 1)) in *. clearbody k k1.
    destruct Hd as [-> | [-> | [-> | ->]]];
      cbn [Vector2.x Vector2.y Vector2.add Vector2.multiply Collision.mkV] in *.
    + change (Qltb (Qabs (inject_Z 0)) (Qabs (inject_Z 1))) with true.
      change (Qltb 0 (inject_Z 1)) with true. cbv iota.
      cbn [Vector2.x Vector2.y].
      assert (Hne : tileOf (sx + inject_Z 1 * 8 * k1) <> tileOf (sx + inject_Z 1 * 8 * k)).
      { apply Hx. apply tileOf_same. change (inject_Z 0) with 0%Q. ring. }
      change (inject_Z 1) with 1%Q in *. change (inject_Z 0) with 0%Q in *.
      assert (Hle : (sx + 1 * 8 * k1 <= sx + 1 * 8 * k)%Q) by lra.
      pose proof (ceiling_snap_before _ _ Hle Hne) as Hc.
      destruct (ceiling_snap (sx + 1 * 8 * k1)) as [Hc0 _].
      set (c := (inject_Z (Qceiling ((sx + 1 * 8 * k1) / Collision.TILE)) * Collision.TILE)%Q)
        in *. clearbody c.
      setoid_replace ((sx - c) * (sx - c) + (sy - (sy + 0 * 8 * k1)) * (sy - (sy + 0 * 8 * k1)))%Q
        with ((c - sx) * (c - sx))%Q by ring.
      apply square_le; lra.
    + change (Qltb (Qabs (inject_Z 0)) (Qabs (inject_Z (-1)))) with true.
      change (Qltb 0 (inject_Z (-1))) with false.
      change (Qltb (inject_Z (-1)) 0) with true. cbv iota.
      cbn [Vector2.x Vector2.y].
      assert (Hne : tileOf (sx + inject_Z (-1) * 8 * k1) <> tileOf (sx + inject_Z (-1) * 8 * k)).
      { apply Hx. apply tileOf_same. change (inject_Z 0) with 0%Q. ring. }
      change (inject_Z (-1)) with (-(1))%Q in *. change (inject_Z 0) with 0%Q in *.
      assert (Hle : (sx + -(1) * 8 * k <= sx + -(1) * 8 * k1)%Q) by lra.
      pose proof (floor_snap_before _ _ Hle Hne) as Hc.
      destruct (floor_snap (sx + -(1) * 8 * k1)) as [_ Hc0].
      set (c := (inject_Z (Qfloor ((sx + -(1) * 8 * k1) / Collision.TILE)) * Collision.TILE)%Q)
        in *. clearbody c.
      setoid_replace ((sx - c) * (sx - c) + (sy - (sy + 0 * 8 * k1)) * (sy - (sy + 0 * 8 * k1)))%Q
        with ((sx - c) * (sx - c))%Q by ring.
      apply square_le; lra.
    + change (Qltb (Qabs (inject_Z 1)) (Qabs (inject_Z 0))) with false.
      change (Qltb 0 (inject_Z 1)) with true. cbv iota.
      cbn [Vector2.x Vector2.y].
      assert (Hne : tileOf (sy + inject_Z 1 * 8 * k1) <> tileOf (sy + inject_Z 1 * 8 * k)).
      { apply Hy. apply tileOf_same. change (inject_Z 0) with 0%Q. ring. }
      change (inject_Z 1) with 1%Q in *. change (inject_Z 0) with 0%Q in *.
      assert (Hle : (sy + 1 * 8 * k1 <= sy + 1 * 8 * k)%Q) by lra.
      pose proof (ceiling_snap_before _ _ Hle Hne) as Hc.
      destruct (ceiling_snap (sy + 1 * 8 * k1)) as [Hc0 _].
      set (c := (inject_Z (Qceiling ((sy + 1 * 8 * k1) / Collision.TILE)) * Collision.TILE)%Q)
        in *. clearbody c.
      setoid_replace ((sx - (sx + 0 * 8 * k1)) * (sx - (sx + 0 * 8 * k1)) + (sy - c) * (sy - c))%Q
        with ((c - sy) * (c - sy))%Q by ring.
      apply square_le; lra.
    + change (Qltb (Qabs (inject_Z (-1))) (Qabs (inject_Z 0))) with false.
      change (Qltb 0 (inject_Z (-1))) with false.
      change (Qltb (inject_Z (-1)) 0) with true. cbv iota.
      cbn [Vector2.x Vector2.y].
      assert (Hne : tileOf (sy + inject_Z (-1) * 8 * k1) <> tileOf (sy + inject_Z (-1) * 8 * k)).
      { apply Hy. apply tileOf_same. change (inject_Z 0) with 0%Q. ring. }
      change (inject_Z (-1)) with (-(1))%Q in *. change (inject_Z 0) with 0%Q in *.
      assert (Hle : (sy + -(1) * 8 * k <= sy + -(1) * 8 * k1)%Q) by lra.
      pose proof (floor_snap_before _ _ Hle Hne) as Hc.
      destruct (floor_snap (sy + -(1) * 8 * k1)) as [_ Hc0].
      set (c := (inject_Z (Qfloor ((sy + -(1) * 8 * k1) / Collision.TILE)) * Collision.TILE)%Q)
        in *. clearbody c.
      setoid_replace ((sx - (sx + 0 * 8 * k1)) * (sx - (sx + 0 * 8 * k1)) + (sy - c) * (sy - c))%Q
        with ((sy - c) * (sy - c))%Q by ring.
      apply square_le; lra.
Qed.
Lemma tileWall_wallFromTile (n : Z) : tileWall (wallFromTile n).
Proof. intros p q Hx _. unfold wallFromTile. now rewrite Hx. Qed.

(** The end point is no farther from the start than the end of the
    wall-limited ray. *)
Lemma endPoint_not_past_wall_limited_end (start direction : Vector2.t)
    (entities : list Entity.t) (cb : option (Vector2.t -> bool)) (p : Vector2.t) :
  Collision.endPoint (Collision.traceLaser start direction entities cb) = Collision.Pt p ->
  (Vector2.distanceSq start p
   <= Vector2.distanceSq start (wallLimitedEnd start direction cb))%Q.
Proof.
  intros Hend.
  pose proof (endPoint_on_wall_limited_ray start direction entities cb p Hend)
    as (q & Hq0 & Hq1 & Hp).
  set (w := wallLimitedEnd start direction cb) in *.
  assert (Hd : (Vector2.distanceSq start p == q * q * Vector2.distanceSq start w)%Q).
  { rewrite (distanceSq_samePoint start _ _ Hp), distanceSq_along.
    now rewrite distanceSq_subtract. }
  rewrite Hd. assert (Hqq : (q * q <= 1)%Q) by nra.
  rewrite <- (Qmult_1_l (Vector2.distanceSq start w)) at 2.
  apply Qmult_le_compat_r; [exact Hqq|apply distanceSq_nonneg].
Qed.

Lemma unobstructed_reach (start direction : Vector2.t) :
  unitVector direction ->
  (Vector2.distanceSq start
     (Vector2.add start (Vector2.multiply direction (inject_Z Collision.maxDistance)))
   == maxDistanceSq)%Q.
Proof.
  intros Hunit. rewrite distanceSq_along. unfold unitVector in Hunit. rewrite Hunit.
  reflexivity.
Qed.

(** A wall of whole tiles whose face is 2000 px from the start: the end
    point is on that face, at [maxDistance] and not below it. *)
Example wall_face_at_max_distance :
  match Collision.endPoint
          (Collision.traceLaser (Collision.mkV 48 0) (Collision.mkV 1 0) []
             (Some (wallFromTile 32))) with
  | Collision.Pt v => (Vector2.distanceSq (Collision.mkV 48 0) v == maxDistanceSq)%Q
  | Collision.PtNaN => False
  end.
Proof. vm_compute. reflexivity. Qed.

(** A ray that runs along the line of the top edge of a solid entity: the
    parameter of the hit is [0 * Infinity], and the end point has no
    coordinates. *)
Example ray_along_edge_line :
  Collision.endPoint
    (Collision.traceLaser (Collision.mkV 0 64) (Collision.mkV 1 0)
       [tileEntity "PowerCell"%string "cell_1"%string 128 64 false ""%string true] None)
  = Collision.PtNaN.
Proof. vm_compute. reflexivity. Qed.

(* ===================================================================== *)
(** * Further properties of the embedded code *)
(* ===================================================================== *)

(** ** utils.js: SeededRandom *)

Lemma make_nonneg_seed (s : Z) : 0 <= s -> rngOK (SeededRandom.make s).
Proof.
  intros Hs. unfold rngOK, SeededRandom.make. simpl.
  rewrite Z.rem_mod_nonneg by lia.
  pose proof (Z.mod_pos_bound s 2147483647 ltac:(lia)) as Hm.
  destruct (s mod 2147483647 <=? 0) eqn:E; lia.
Qed.

Lemma random_unit_interval (r : SeededRandom.t) :
  rngOK r ->
  (0 <= fst (SeededRandom.random r))%Q /\ (fst (SeededRandom.random r) < 1)%Q /\
  rngOK (snd (SeededRandom.random r)).
Proof.
  intros Hr. unfold SeededRandom.random. simpl.
  pose proof (lehmer_step _ Hr) as Hs.
  set (s := Z.rem (SeededRandom.seed r * 16807) 2147483647) in *.
  split; [|split].
  - unfold Qle. simpl. lia.
  - unfold Qlt. simpl. lia.
  - exact Hs.
Qed.

Lemma afterDraws_rngOK (n : nat) (r : SeededRandom.t) :
  rngOK r -> rngOK (afterDraws n r).
Proof.
  intros Hr. induction n as [|n IH]; simpl; [exact Hr|].
  now apply random_unit_interval.
Qed.

(** Every non-negative seed starts the generator in a state from which
    each draw of [random()], however many came before, lies in [[0, 1)]. *)
Theorem random_draws_in_unit_interval (s : Z) (n : nat) :
  0 <= s ->
  let r := afterDraws n (SeededRandom.make s) in
  1 <= SeededRandom.seed r <= 2147483646 /\
  (0 <= fst (SeededRandom.random r))%Q /\ (fst (SeededRandom.random r) < 1)%Q.
Proof.
  intros Hs r.
  assert (Hr : rngOK r) by (apply afterDraws_rngOK; now apply make_nonneg_seed).
  split; [exact Hr|]. destruct (random_unit_interval r Hr) as (H0 & H1 & _). auto.
Qed.

Lemma random_draws_in_unit_interval_witness :
  let r := afterDraws 3 (SeededRandom.make 12345) in
  1 <= SeededRandom.seed r <= 2147483646 /\
  (0 <= fst (SeededRandom.random r))%Q /\ (fst (SeededRandom.random r) < 1)%Q.
Proof.
  apply (random_draws_in_unit_interval 12345 3). lia.
Defined.

(** [randomInt(min, max)] on a valid generator returns an integer of
    [[min, max)] when [min < max], and [min] itself when [max = min]; the
    generator stays valid. *)
Theorem randomInt_within_bounds (lo hi : Z) (r : SeededRandom.t) :
  1 <= SeededRandom.seed r <= 2147483646 ->
  lo <= hi ->
  let (v, r') := SeededRandom.randomInt lo hi r in
  1 <= SeededRandom.seed r' <= 2147483646 /\
  (lo < hi -> lo <= v < hi) /\ (lo = hi -> v = lo).
Proof.
  intros Hr Hle.
  pose proof (randomInt_rng lo hi r Hr) as H1.
  pose proof (randomInt_range lo hi r Hr) as H2.
  destruct (SeededRandom.randomInt lo hi r) as [v r'] eqn:E. simpl in *.
  split; [exact H1|]. split; [exact H2|].
  intros ->. unfold SeededRandom.randomInt, SeededRandom.random in E.
  inversion E. rewrite Z.sub_diag. unfold Qfloor, Qmult, inject_Z. simpl Qnum. simpl Qden.
  rewrite Z.mul_0_r. rewrite Z.div_0_l by lia. lia.
Qed.

Lemma randomInt_within_bounds_witness :
  let (v, r') := SeededRandom.randomInt 3 9 (SeededRandom.make 42) in
  1 <= SeededRandom.seed r' <= 2147483646 /\
  (3 < 9 -> 3 <= v < 9) /\ (3 = 9 -> v = 3).
Proof.
  apply (randomInt_within_bounds 3 9 (SeededRandom.make 42)); vm_compute.
  - split; discriminate.
  - discriminate.
Defined.

(** [choice(array)] on a valid generator returns an element of a non-empty
    array; on the empty array it returns [undefined] and draws nothing. *)
Theorem choice_picks_an_element {A : Type} (array : list A) (r : SeededRandom.t) :
  1 <= SeededRandom.seed r <= 2147483646 ->
  match array with
  | [] => SeededRandom.choice array r = (None, r)
  | _ => exists a, fst (SeededRandom.choice array r) = Some a /\ In a array /\
                   snd (SeededRandom.choice array r) = snd (SeededRandom.random r)
  end.
Proof.
  intros Hr. destruct array as [|a0 l0]; [reflexivity|].
  destruct (choice_spec (a0 :: l0) r ltac:(discriminate)) as [H _].
  destruct (fst (SeededRandom.choice (a0 :: l0) r)) as [a|] eqn:E.
  - exists a. split; [reflexivity|]. split; [exact H|].
    unfold SeededRandom.choice, SeededRandom.randomInt.
    now destruct (SeededRandom.random r).
  - contradiction.
Qed.

Lemma choice_picks_an_element_witness :
  exists a, fst (SeededRandom.choice [10; 20; 30] (SeededRandom.make 7)) = Some a /\
            In a [10; 20; 30] /\
            snd (SeededRandom.choice [10; 20; 30] (SeededRandom.make 7))
            = snd (SeededRandom.random (SeededRandom.make 7)).
Proof.
  apply (choice_picks_an_element [10; 20; 30] (SeededRandom.make 7)).
  vm_compute. split; discriminate.
Defined.

(** ** utils.js: shuffle *)

Lemma replaceAt_length {A : Type} (i : nat) (v : A) (l : list A) :
  List.length (JsArray.replaceAt i v l) = List.length l.
Proof.
  revert i. induction l as [|a l IH]; intros [|i]; simpl; auto.
Qed.

Lemma replaceAt_perm {A : Type} (l : list A) :
  forall (i : nat) (a y : A),
    nth_error l i = Some y ->
    Permutation (a :: l) (y :: JsArray.replaceAt i a l).
Proof.
  induction l as [|b l IH]; intros [|i] a y H; simpl in *; try discriminate.
  - inversion H; subst. apply perm_swap.
  - eapply perm_trans; [apply perm_swap|].
    eapply perm_trans; [apply perm_skip, (IH i a y H)|]. apply perm_swap.
Qed.

(** Exchanging the elements at two indices of a list permutes it. *)
Lemma exchange_perm {A : Type} (l : list A) :
  forall (i j : nat) (x y : A),
    nth_error l i = Some x -> nth_error l j = Some y ->
    Permutation l (JsArray.replaceAt j x (JsArray.replaceAt i y l)).
Proof.
  induction l as [|a l IH]; intros [|i] [|j] x y Hi Hj; simpl in *; try discriminate.
  - inversion Hi; inversion Hj; subst. reflexivity.
  - inversion Hi; subst. now apply replaceAt_perm.
  - inversion Hj; subst. now apply replaceAt_perm.
  - apply perm_skip. now apply IH.
Qed.

Lemma shuffleLoop_perm {A : Type} (n : nat) :
  forall (e : list (option A)) (r : SeededRandom.t),
    rngOK r -> (n < List.length e)%nat ->
    let result := SeededRandom.shuffleLoop n {| JsArray.elems := e; JsArray.props := [] |} r in
    Permutation e (JsArray.elems (fst result)) /\
    JsArray.props (fst result) = [] /\
    rngOK (snd result).
Proof.
  induction n as [|n IH]; intros e r Hr Hn; cbn [SeededRandom.shuffleLoop].
  - simpl. auto.
  - pose proof (randomInt_range 0 (Z.of_nat (S n) + 1) r Hr ltac:(lia)) as Hj.
    pose proof (randomInt_rng 0 (Z.of_nat (S n) + 1) r Hr) as Hr'.
    destruct (SeededRandom.randomInt 0 (Z.of_nat (S n) + 1) r) as [j r'].
    simpl fst in Hj. simpl snd in Hr'.
    set (arr := {| JsArray.elems := e; JsArray.props := [] |}).
    destruct (nth_error e (S n)) as [x|] eqn:Hx.
    2:{ apply nth_error_None in Hx. lia. }
    destruct (nth_error e (Z.to_nat j)) as [y|] eqn:Hy.
    2:{ apply nth_error_None in Hy. lia. }
    assert (Gi : JsArray.get arr (Z.of_nat (S n)) = x).
    { unfold JsArray.get. destruct (Z.ltb_spec (Z.of_nat (S n)) 0) as [E|E]; [lia|].
      rewrite Nat2Z.id. unfold arr. cbn [JsArray.elems]. now rewrite Hx. }
    assert (Gj : JsArray.get arr j = y).
    { unfold JsArray.get. destruct (Z.ltb_spec j 0) as [E|E]; [lia|].
      unfold arr. cbn [JsArray.elems]. now rewrite Hy. }
    rewrite Gi, Gj.
    assert (Es : JsArray.set j x (JsArray.set (Z.of_nat (S n)) y arr)
                 = {| JsArray.elems :=
                        JsArray.replaceAt (Z.to_nat j) x (JsArray.replaceAt (S n) y e);
                      JsArray.props := [] |}).
    { unfold arr. unfold JsArray.set at 2. destruct (Z.ltb_spec (Z.of_nat (S n)) 0) as [E1|E1]; [lia|].
      cbn [JsArray.elems]. destruct (Z.ltb_spec (Z.of_nat (S n)) (Z.of_nat (List.length e))) as [E2|E2]; [|lia].
      rewrite Nat2Z.id. unfold JsArray.set. destruct (Z.ltb_spec j 0) as [E3|E3]; [lia|].
      cbn [JsArray.elems]. rewrite replaceAt_length.
      destruct (Z.ltb_spec j (Z.of_nat (List.length e))) as [E4|E4]; [reflexivity|lia]. }
    rewrite Es.
    destruct (IH (JsArray.replaceAt (Z.to_nat j) x (JsArray.replaceAt (S n) y e)) r' Hr')
      as (Hp & Hprops & Hrng).
    { rewrite !replaceAt_length. lia. }
    split; [|split; assumption].
    eapply perm_trans; [|exact Hp]. now apply exchange_perm.
Qed.

(** On a valid generator [shuffle(array)] returns an array with the
    elements of [array] in some order, none missing and none twice, and no
    other property; the generator stays valid. *)
Theorem shuffle_permutes {A : Type} (array : list A) (r : SeededRandom.t) :
  1 <= SeededRandom.seed r <= 2147483646 ->
  exists shuffled,
    fst (SeededRandom.shuffle array r) = JsArray.ofList shuffled /\
    Permutation array shuffled /\
    1 <= SeededRandom.seed (snd (SeededRandom.shuffle array r)) <= 2147483646.
Proof.
  intros Hr. unfold SeededRandom.shuffle, JsArray.ofList.
  destruct array as [|a0 l0].
  - exists []. simpl. auto.
  - destruct (shuffleLoop_perm (List.length (a0 :: l0) - 1) (map Some (a0 :: l0)) r Hr)
      as (Hp & Hprops & Hrng).
    { rewrite length_map. simpl. lia. }
    destruct (SeededRandom.shuffleLoop _ _ r) as [[e props] r'] eqn:E.
    cbn [fst snd JsArray.elems JsArray.props] in Hp, Hprops, Hrng. subst props.
    apply Permutation_sym, Permutation_map_inv in Hp.
    destruct Hp as (l' & -> & Hperm).
    exists l'. cbn [fst snd]. auto.
Qed.

Lemma shuffle_permutes_witness :
  exists shuffled,
    fst (SeededRandom.shuffle [1; 2; 3; 4; 5] (SeededRandom.make 2024))
    = JsArray.ofList shuffled /\
    Permutation [1; 2; 3; 4; 5] shuffled /\
    1 <= SeededRandom.seed (snd (SeededRandom.shuffle [1; 2; 3; 4; 5] (SeededRandom.make 2024)))
      <= 2147483646.
Proof.
  apply (shuffle_permutes [1; 2; 3; 4; 5] (SeededRandom.make 2024)).
  vm_compute. split; discriminate.
Defined.

(** In the state [0], which the seed [-2147483646] gives, every index drawn
    is [-1]: the shuffle loses an element of the array. *)
Example shuffle_degenerate_seed :
  JsArray.elems (fst (SeededRandom.shuffle [1; 2; 3] (SeededRandom.make (-2147483646))))
  = [Some 1; Some 3; None].
Proof. vm_compute. reflexivity. Qed.

(** ** utils.js: chunk and clamp *)

Lemma firstn_skipn_firstn {A : Type} (a b : nat) (l : list A) :
  (firstn a l ++ firstn b (skipn a l))%list = firstn (a + b) l.
Proof.
  revert l. induction a as [|a IH]; intros l; simpl; [reflexivity|].
  destruct l as [|x l]; simpl.
  - now rewrite firstn_nil.
  - now rewrite IH.
Qed.

Lemma jsSlice_inside {A : Type} (array : list A) (i size : Z) :
  0 <= i < Z.of_nat (List.length array) -> 1 <= size ->
  Utils.jsSlice array i (i + size)
  = firstn (Z.to_nat (Z.min size (Z.of_nat (List.length array) - i)))
           (skipn (Z.to_nat i) array).
Proof.
  intros Hi Hs. unfold Utils.jsSlice.
  destruct (Z.ltb_spec i 0); [lia|]. destruct (Z.ltb_spec (i + size) 0); [lia|].
  f_equal; [|f_equal]; lia.
Qed.

Lemma chunkLoop_spec {A : Type} (array : list A) (size : Z) (fuel : nat) :
  1 <= size ->
  forall (chunks : list (list A)),
    let i := Z.of_nat (List.length chunks) * size in
    (Z.of_nat (List.length array) - i <= Z.of_nat fuel) ->
    List.concat chunks = firstn (Z.to_nat i) array ->
    (forall k c, nth_error chunks k = Some c ->
       Z.of_nat (List.length c)
       = Z.min size (Z.of_nat (List.length array) - Z.of_nat k * size)) ->
    exists result,
      Utils.chunkLoop fuel array size i chunks = Done result /\
      List.concat result = array /\
      (forall k c, nth_error result k = Some c ->
         Z.of_nat (List.length c)
         = Z.min size (Z.of_nat (List.length array) - Z.of_nat k * size)).
Proof.
  intros Hs. induction fuel as [|fuel IH]; intros chunks i Hfuel Hcat Hlen.
  - simpl. destruct (Z.ltb_spec i (Z.of_nat (List.length array))); [lia|].
    exists chunks. split; [reflexivity|]. split; [|exact Hlen].
    rewrite Hcat. apply firstn_all2. lia.
  - simpl. destruct (Z.ltb_spec i (Z.of_nat (List.length array))) as [Hi|Hi].
    + assert (Hi0 : 0 <= i) by (unfold i; nia).
      rewrite (jsSlice_inside array i size) by lia.
      set (c := firstn (Z.to_nat (Z.min size (Z.of_nat (List.length array) - i)))
                       (skipn (Z.to_nat i) array)).
      assert (Hc : Z.of_nat (List.length c) = Z.min size (Z.of_nat (List.length array) - i)).
      { unfold c. rewrite length_firstn, length_skipn. lia. }
      assert (Ei : i + size = Z.of_nat (List.length (chunks ++ [c])) * size).
      { rewrite length_app. simpl. unfold i. lia. }
      pose proof (IH (chunks ++ [c])%list) as IH'. cbv zeta in IH'.
      rewrite <- Ei in IH'. apply IH'; clear IH'.
      * lia.
      * rewrite List.concat_app. cbn [List.concat]. rewrite app_nil_r, Hcat. unfold c.
        rewrite firstn_skipn_firstn.
        destruct (Z.le_ge_cases size (Z.of_nat (List.length array) - i)).
        -- f_equal. lia.
        -- rewrite !firstn_all2 by lia. reflexivity.
      * intros k c' Hk. destruct (Nat.lt_ge_cases k (List.length chunks)) as [Hlt|Hge].
        -- rewrite nth_error_app1 in Hk by exact Hlt. now apply Hlen.
        -- rewrite nth_error_app2 in Hk by exact Hge.
           destruct (k - List.length chunks)%nat as [|m] eqn:Em; simpl in Hk.
           ++ inversion Hk; subst c'. rewrite Hc. unfold i.
              replace k with (List.length chunks) by lia. reflexivity.
           ++ destruct m; discriminate.
    + exists chunks. split; [reflexivity|]. split; [|exact Hlen].
      rewrite Hcat. apply firstn_all2. lia.
Qed.

(** For a chunk size of at least one, [chunk(array, size)] returns chunks
    that put end to end give [array] back; the chunk of index [k] holds
    [size] elements, or the [length - k * size] that are left. *)
Theorem chunk_concat {A : Type} (array : list A) (size : Z) :
  1 <= size ->
  exists chunks,
    Utils.chunk array size = Done chunks /\
    List.concat chunks = array /\
    (forall k c, nth_error chunks k = Some c ->
       Z.of_nat (List.length c)
       = Z.min size (Z.of_nat (List.length array) - Z.of_nat k * size)).
Proof.
  intros Hs. unfold Utils.chunk.
  apply (chunkLoop_spec array size (List.length array) Hs []).
  - simpl. lia.
  - reflexivity.
  - intros [|k] c H; discriminate.
Qed.

Lemma chunk_concat_witness :
  exists chunks,
    Utils.chunk [1; 2; 3; 4; 5; 6; 7] 3 = Done chunks /\
    List.concat chunks = [1; 2; 3; 4; 5; 6; 7] /\
    (forall k c, nth_error chunks k = Some c ->
       Z.of_nat (List.length c)
       = Z.min 3 (Z.of_nat (List.length [1; 2; 3; 4; 5; 6; 7]) - Z.of_nat k * 3)).
Proof.
  apply (chunk_concat [1; 2; 3; 4; 5; 6; 7] 3). lia.
Defined.

(** With a chunk size of zero or less the loop of [chunk] never leaves a
    non-empty array: whatever the number of iterations allowed, it has not
    returned. *)
Theorem chunk_size_not_positive_never_returns {A : Type} (array : list A) (size : Z)
    (fuel : nat) :
  size <= 0 -> array <> [] ->
  Utils.chunkLoop fuel array size 0 [] = OutOfFuel.
Proof.
  intros Hs Hne.
  assert (H : forall (i : Z) (chunks : list (list A)),
             i <= 0 -> Utils.chunkLoop fuel array size i chunks = OutOfFuel).
  { induction fuel as [|fuel IH]; intros i chunks Hi; simpl;
      destruct (Z.ltb_spec i (Z.of_nat (List.length array))) as [Hlt|Hge].
    - reflexivity.
    - destruct array; [congruence|simpl in Hge; lia].
    - apply IH. lia.
    - destruct array; [congruence|simpl in Hge; lia]. }
  apply H. lia.
Qed.

Lemma chunk_size_not_positive_never_returns_witness :
  Utils.chunkLoop 1000 [1; 2; 3] 0 0 [] = OutOfFuel.
Proof.
  apply (chunk_size_not_positive_never_returns [1; 2; 3] 0 1000); [lia|discriminate].
Defined.

(** [clamp(value, min, max)] lies between the bounds when [min <= max],
    and is [value] when [value] does; when the bounds are crossed it is
    [max]. *)
Theorem clamp_within_bounds (value lo hi : Q) :
  ((lo <= hi ->
    lo <= Utils.clamp value lo hi /\ Utils.clamp value lo hi <= hi /\
    (lo <= value -> value <= hi -> Utils.clamp value lo hi == value)) /\
   (hi < lo -> Utils.clamp value lo hi == hi))%Q.
Proof.
  unfold Utils.clamp. split.
  - intros H. split; [|split].
    + apply Q.min_glb; [apply Q.le_max_r|exact H].
    + apply Q.le_min_r.
    + intros H1 H2. rewrite (Q.max_l value lo H1). now apply Q.min_l.
  - intros H. apply Q.min_r.
    eapply Qle_trans; [|apply Q.le_max_r]. now apply Qlt_le_weak.
Qed.

(** ** collision.js: rectangles *)

Lemma Qmin_pos (a b : Q) : (0 < Qmin a b <-> 0 < a /\ 0 < b)%Q.
Proof.
  split.
  - intros H. split; eapply Qlt_le_trans; eauto; [apply Q.le_min_l|apply Q.le_min_r].
  - intros [Ha Hb]. destruct (Q.min_spec a b) as [[_ E]|[_ E]]; now rewrite E.
Qed.

(** Two rectangles intersect, for [rectangleIntersect], exactly when both
    components of their [calculateOverlap] are positive; the test does not
    depend on the order of the rectangles. *)
Theorem rectangleIntersect_iff_overlap_positive (rect1 rect2 : Entity.Bounds) :
  (Collision.rectangleIntersect rect1 rect2 = true <->
   (0 < fst (Collision.calculateOverlap rect1 rect2) /\
    0 < snd (Collision.calculateOverlap rect1 rect2))%Q) /\
  Collision.rectangleIntersect rect2 rect1 = Collision.rectangleIntersect rect1 rect2.
Proof.
  unfold Collision.rectangleIntersect, Collision.calculateOverlap.
  destruct rect1 as [x1 y1 w1 h1], rect2 as [x2 y2 w2 h2]. simpl. split.
  - rewrite !andb_true_iff, !Qltb_true, !Qmin_pos. split.
    + intros (((H1 & H2) & H3) & H4). repeat split; lra.
    + intros ((H1 & H2) & (H3 & H4)). repeat split; lra.
  - destruct (Qltb x2 (x1 + w1)), (Qltb x1 (x2 + w2)), (Qltb y2 (y1 + h1)),
      (Qltb y1 (y2 + h2)); reflexivity.
Qed.

(** ** collision.js: the player *)

Lemma vector_eta (v : Vector2.t) : {| Vector2.x := Vector2.x v; Vector2.y := Vector2.y v |} = v.
Proof. now destruct v. Qed.

(** [moveWithCollisionSliding] with a collision callback leaves the player
    where it was or puts it at a position where none of its four corners
    collides: at [newPosition] when that is free, else at [newPosition] on
    one axis and the old position on the other.  Its size does not change. *)
Theorem sliding_never_enters_collision (player : Entity.t) (newPosition : Vector2.t)
    (callback : Vector2.t -> bool) :
  let moved := Collision.moveWithCollisionSliding player newPosition (Some callback) in
  let old := Entity.position player in
  Entity.width moved = Entity.width player /\
  Entity.height moved = Entity.height player /\
  (Collision.checkCollisionAt player newPosition (Some callback) = false ->
   Entity.position moved = newPosition) /\
  (Entity.position moved = old \/
   Collision.checkCollisionAt moved (Entity.position moved) (Some callback) = false) /\
  (Entity.position moved = old \/ Entity.position moved = newPosition \/
   Entity.position moved
   = {| Vector2.x := Vector2.x newPosition; Vector2.y := Vector2.y old |} \/
   Entity.position moved
   = {| Vector2.x := Vector2.x old; Vector2.y := Vector2.y newPosition |}).
Proof.
  destruct player as [cn id [px py] w h vis act sol op ia dir pw lp].
  destruct newPosition as [nx ny].
  unfold Collision.moveWithCollisionSliding.
  cbn [Entity.position Vector2.x Vector2.y Entity.set_position].
  destruct (Collision.checkCollisionAt _ {| Vector2.x := nx; Vector2.y := ny |} _) eqn:E0;
    cbn [negb].
  - destruct (Collision.checkCollisionAt _ {| Vector2.x := nx; Vector2.y := py |} _) eqn:E1;
      cbn [negb Entity.position Vector2.x Vector2.y Entity.set_position].
    + destruct (Collision.checkCollisionAt _ {| Vector2.x := px; Vector2.y := ny |} _) eqn:E2;
        cbn [negb Entity.position Entity.width Entity.height Entity.set_position
             Vector2.x Vector2.y].
      * repeat split; auto; discriminate.
      * repeat split; auto; try discriminate.
    + unfold Collision.checkCollisionAt, Collision.getCollisionTestPoints in *.
      cbn [Entity.width Entity.height Entity.position Entity.set_position
           Vector2.x Vector2.y] in *.
      rewrite E0. cbn [negb Entity.position Entity.width Entity.height Entity.set_position
                       Vector2.x Vector2.y].
      repeat split; auto; discriminate.
  - cbn [Entity.position Entity.width Entity.height]. repeat split; auto.
Qed.

(** Without a callback the move is made as asked. *)
Lemma sliding_without_callback (player : Entity.t) (newPosition : Vector2.t) :
  Entity.position (Collision.moveWithCollisionSliding player newPosition None) = newPosition.
Proof.
  unfold Collision.moveWithCollisionSliding. destruct player. simpl. apply vector_eta.
Qed.

(** ** collision.js: tiles *)

Lemma Qfloor_tile (a : Z) : Qfloor (inject_Z a * Collision.TILE / Collision.TILE) = a.
Proof.
  assert (E : (inject_Z a * Collision.TILE / Collision.TILE == inject_Z a)%Q).
  { rewrite TILE_64. field. }
  rewrite E. apply Qfloor_Z.
Qed.

Lemma floor_tile_corner (c : Q) :
  (inject_Z (Qfloor (c / Collision.TILE)) * Collision.TILE <= c /\
   c < inject_Z (Qfloor (c / Collision.TILE)) * Collision.TILE + 64)%Q.
Proof.
  destruct (floor_snap c) as [H1 H2].
  set (f := (inject_Z (Qfloor (c / Collision.TILE)) * Collision.TILE)%Q) in *.
  clearbody f. split; lra.
Qed.

(** [worldToTile] undoes [tileToWorld] on whole tile coordinates, and
    [tileToWorld(worldToTile(p))] is the corner of the tile that holds [p]:
    not past [p], and less than a tile before it. *)
Theorem worldToTile_tileToWorld :
  (forall a b : Z,
     Collision.worldToTile (Collision.tileToWorld (Collision.mkV a b)) = Collision.mkV a b) /\
  (forall p : Vector2.t,
     let corner := Collision.tileToWorld (Collision.worldToTile p) in
     (Vector2.x corner <= Vector2.x p /\ Vector2.x p < Vector2.x corner + 64 /\
      Vector2.y corner <= Vector2.y p /\ Vector2.y p < Vector2.y corner + 64)%Q).
Proof.
  split.
  - intros a b. unfold Collision.worldToTile, Collision.tileToWorld, Collision.mkV.
    cbn [Vector2.x Vector2.y]. now rewrite !Qfloor_tile.
  - intros [px py]. unfold Collision.worldToTile, Collision.tileToWorld.
    cbn [Vector2.x Vector2.y].
    destruct (floor_tile_corner px). destruct (floor_tile_corner py). auto.
Qed.

(** [snapToTileBoundary(point, direction)] changes one coordinate of the
    point: [x] when the direction is more horizontal than vertical, else
    [y].  That coordinate goes to a multiple of the tile size, forward
    along the direction and by less than a tile; with no component of the
    direction on that axis it stays. *)
Theorem snapToTileBoundary_forward (p direction : Vector2.t) :
  let q := Collision.snapToTileBoundary p direction in
  let dx := Vector2.x direction in
  let dy := Vector2.y direction in
  ((Qabs dy < Qabs dx)%Q ->
   Vector2.y q = Vector2.y p /\
   (exists k : Z, Vector2.x q == inject_Z k * 64)%Q /\
   ((0 < dx)%Q -> (Vector2.x p <= Vector2.x q /\ Vector2.x q < Vector2.x p + 64)%Q) /\
   ((dx < 0)%Q -> (Vector2.x p - 64 < Vector2.x q /\ Vector2.x q <= Vector2.x p)%Q)) /\
  ((Qabs dx <= Qabs dy)%Q ->
   Vector2.x q = Vector2.x p /\
   ((dy == 0)%Q -> Vector2.y q = Vector2.y p) /\
   (~ (dy == 0)%Q -> exists k : Z, (Vector2.y q == inject_Z k * 64)%Q) /\
   ((0 < dy)%Q -> (Vector2.y p <= Vector2.y q /\ Vector2.y q < Vector2.y p + 64)%Q) /\
   ((dy < 0)%Q -> (Vector2.y p - 64 < Vector2.y q /\ Vector2.y q <= Vector2.y p)%Q)).
Proof.
  destruct p as [px py], direction as [dx dy].
  unfold Collision.snapToTileBoundary. cbn [Vector2.x Vector2.y].
  destruct (ceiling_snap px) as [Hcx1 Hcx2]. destruct (floor_snap px) as [Hfx1 Hfx2].
  destruct (ceiling_snap py) as [Hcy1 Hcy2]. destruct (floor_snap py) as [Hfy1 Hfy2].
  set (cx := (inject_Z (Qceiling (px / Collision.TILE)) * Collision.TILE)%Q) in *.
  set (fx := (inject_Z (Qfloor (px / Collision.TILE)) * Collision.TILE)%Q) in *.
  set (cy := (inject_Z (Qceiling (py / Collision.TILE)) * Collision.TILE)%Q) in *.
  set (fy := (inject_Z (Qfloor (py / Collision.TILE)) * Collision.TILE)%Q) in *.
  assert (Kcx : exists k : Z, (cx == inject_Z k * 64)%Q) by (eexists; reflexivity).
  assert (Kfx : exists k : Z, (fx == inject_Z k * 64)%Q) by (eexists; reflexivity).
  assert (Kcy : exists k : Z, (cy == inject_Z k * 64)%Q) by (eexists; reflexivity).
  assert (Kfy : exists k : Z, (fy == inject_Z k * 64)%Q) by (eexists; reflexivity).
  clearbody cx fx cy fy.
  destruct (Qltb (Qabs dy) (Qabs dx)) eqn:Edom; cbn [Vector2.x Vector2.y].
  - apply Qltb_true in Edom. split.
    + intros _. split; [reflexivity|].
      assert (Hdx : ~ (dx == 0)%Q).
      { intros E. rewrite E in Edom. pose proof (Qabs_nonneg dy). simpl in Edom. lra. }
      destruct (Qltb 0 dx) eqn:E1; [|destruct (Qltb dx 0) eqn:E2].
      * apply Qltb_true in E1. split; [exact Kcx|]. split; intros; lra.
      * apply Qltb_true in E2. split; [exact Kfx|]. split; intros; lra.
      * apply Qltb_false in E1. apply Qltb_false in E2. exfalso. apply Hdx. lra.
    + intros H. lra.
  - apply Qltb_false in Edom. split.
    + intros H. lra.
    + intros _. split; [reflexivity|].
      destruct (Qltb 0 dy) eqn:E1; [|destruct (Qltb dy 0) eqn:E2].
      * apply Qltb_true in E1. split; [intros E; lra|]. split; [intros _; exact Kcy|].
        split; intros; lra.
      * apply Qltb_true in E2. split; [intros E; lra|]. split; [intros _; exact Kfy|].
        split; intros; lra.
      * apply Qltb_false in E1. apply Qltb_false in E2.
        split; [reflexivity|]. split; [|split; intros; lra].
        intros H. exfalso. apply H. lra.
Qed.

(** ** world.js: the limits of a generated level *)

Lemma make_roomShaped (rd : Tile.t) (wx wy rx ry : Z) :
  roomShaped (WorldRoom.make rd wx wy rx ry).
Proof.
  unfold roomShaped, WorldRoom.make, WorldRoom.createCollisionMap. cbn.
  split; [reflexivity|]. split; [reflexivity|]. split.
  - now rewrite length_map, range_length.
  - apply Forall_forall. intros row Hrow. apply in_map_iff in Hrow.
    destruct Hrow as (y & <- & _). now rewrite length_map, range_length.
Qed.

Lemma shift_roomShaped (dx dy : Z) (r : WorldRoom.t) :
  roomShaped r -> roomShaped (WorldRoom.shift dx dy r).
Proof. intros H; exact H. Qed.

Lemma markExit_roomShaped (r : WorldRoom.t) : roomShaped r -> roomShaped (WorldRoom.markExit r).
Proof. intros H; exact H. Qed.

Lemma levelOK_movedBy (s : Z) b c (dx dy : Z) (wm : WorldManager.t) :
  levelOK s b c wm -> levelOK s b c (movedBy dx dy wm).
Proof.
  intros (Hb & Hc & Hn & Hg & Hr). unfold levelOK, movedBy. simpl.
  rewrite length_map. repeat split; auto.
  apply Forall_map. eapply Forall_impl; [|exact Hr].
  intros [k r] [Hk Hs]; simpl in *. split; [exact Hk|]. now apply shift_roomShaped.
Qed.

Lemma generateRoomAt_levelOK (s : Z) b c (x y : Z) (wm : WorldManager.t)
    (res : bool * WorldManager.t) :
  WorldManager.generateRoomAt x y wm = Done res ->
  levelOK s b c wm -> levelOK s b c (snd res).
Proof.
  unfold WorldManager.generateRoomAt. intros Hrun HL.
  destruct (WorldManager.hasRoom wm x y) eqn:Hhas; [inversion Hrun; exact HL|].
  destruct (negb (WorldManager.isWithinLevelBounds wm x y)) eqn:Hin; [inversion Hrun; exact HL|].
  destruct (WorldManager.generatedRooms wm >=? _) eqn:Hmax; [inversion Hrun; exact HL|].
  destruct (WorldManager.findSuitableTiles wm _ false) as [|t0 ts]; [inversion Hrun; exact HL|].
  destruct (SeededRandom.choice (t0 :: ts) (WorldManager.rng wm)) as [ch rng'].
  destruct ch as [chosenTile|]; [|discriminate].
  destruct (calculateOptimalRoomPosition_moved x y chosenTile
              (WorldManager.set_rng rng' wm)) as (dx & dy & Hm).
  destruct (WorldManager.calculateOptimalRoomPosition x y chosenTile
              (WorldManager.set_rng rng' wm)) as [[wX wY] wm2].
  simpl in Hm. subst wm2. inversion Hrun; subst res; clear Hrun. simpl.
  assert (Hget : WorldManager.map_get (x, y)
                   (WorldManager.rooms (movedBy dx dy (WorldManager.set_rng rng' wm))) = None).
  { apply map_get_None. fold (Spec.keys (movedBy dx dy (WorldManager.set_rng rng' wm))).
    rewrite keys_movedBy. intros H. apply (hasRoom_keys wm) in H. congruence. }
  pose proof (levelOK_movedBy s b c dx dy (WorldManager.set_rng rng' wm) HL)
    as (Hb & Hc & Hn & Hg & Hr).
  unfold levelOK, WorldManager.createRoom. simpl.
  rewrite (map_set_fresh _ _ _ Hget).
  simpl in Hb, Hc, Hn, Hg, Hr.
  split; [exact Hb|]. split; [exact Hc|]. split; [|split].
  - rewrite length_app. simpl. lia.
  - rewrite <- Hc. lia.
  - apply Forall_app. split; [exact Hr|]. constructor; [|constructor]. simpl. split.
    + right. apply negb_false_iff in Hin. unfold WorldManager.isWithinLevelBounds in Hin.
      rewrite <- Hb. unfold inGrid. simpl. lia.
    + apply make_roomShaped.
Qed.

Section GenerationKeeps.

(** A property of the manager that drawing a number and placing a room
    keep is kept by the loops of generation, which change the manager in no
    other way. *)
Variable P : WorldManager.t -> Prop.
Hypothesis keeps_rng : forall r wm, P wm -> P (WorldManager.set_rng r wm).
Hypothesis keeps_room :
  forall x y wm res, WorldManager.generateRoomAt x y wm = Done res -> P wm -> P (snd res).

Lemma addRooms_keeps (n : nat) :
  forall adj queue gp wm res,
    WorldManager.addRooms n adj queue gp wm = Done res -> P wm -> P (snd res).
Proof.
  induction n as [|n IH]; intros adj queue gp wm res Hrun HP.
  - simpl in Hrun. inversion Hrun. exact HP.
  - destruct adj as [|a adj']; [simpl in Hrun; inversion Hrun; exact HP|].
    cbn [WorldManager.addRooms] in Hrun.
    destruct (SeededRandom.randomInt 0 _ (WorldManager.rng wm)) as [posIndex rng'].
    destruct (WorldManager.splice1 posIndex (a :: adj')) as [[newPos|] rest];
      [|discriminate].
    destruct (WorldManager.generateRoomAt (fst newPos) (snd newPos)
                (WorldManager.set_rng rng' wm)) as [[ok wm2]| |] eqn:Eg;
      simpl in Hrun; try discriminate.
    pose proof (keeps_room _ _ _ _ Eg (keeps_rng rng' wm HP)) as HP2. simpl in HP2.
    destruct ok; eapply IH; eauto.
Qed.

Lemma generationLoop_keeps (fuel : nat) (rtg : Z) :
  forall queue gp wm wm',
    WorldManager.generationLoop fuel rtg queue gp wm = Done wm' -> P wm -> P wm'.
Proof.
  induction fuel as [|fuel IH]; intros queue gp wm wm' Hrun HP.
  - destruct queue as [|cur queue']; simpl in Hrun; [inversion Hrun; subst; exact HP|].
    destruct (WorldManager.generatedRooms wm <? rtg); [discriminate|].
    inversion Hrun; subst; exact HP.
  - destruct queue as [|cur queue']; cbn [WorldManager.generationLoop] in Hrun;
      [inversion Hrun; subst; exact HP|].
    destruct (WorldManager.generatedRooms wm <? rtg);
      [|inversion Hrun; subst; exact HP].
    destruct (SeededRandom.randomInt 1 3 (WorldManager.rng wm)) as [k rng'].
    match type of Hrun with
    | bind ?call _ = _ => destruct call as [[[q2 gp2] wm2]| |] eqn:Ea
    end; simpl in Hrun; try discriminate.
    pose proof (addRooms_keeps _ _ _ _ _ _ Ea (keeps_rng rng' wm HP)) as HP2.
    simpl in HP2. eapply IH; eauto.
Qed.

Lemma topUp_keeps (n : nat) :
  forall avail wm wm', WorldManager.topUp n avail wm = Done wm' -> P wm -> P wm'.
Proof.
  induction n as [|n IH]; intros avail wm wm' Hrun HP.
  - simpl in Hrun. inversion Hrun; subst. exact HP.
  - destruct avail as [|a avail']; [simpl in Hrun; inversion Hrun; subst; exact HP|].
    cbn [WorldManager.topUp] in Hrun.
    destruct (SeededRandom.randomInt 0 _ (WorldManager.rng wm)) as [posIndex rng'].
    destruct (WorldManager.splice1 posIndex (a :: avail')) as [[pos|] rest];
      [|discriminate].
    destruct (WorldManager.generateRoomAt (fst pos) (snd pos)
                (WorldManager.set_rng rng' wm)) as [[ok wm2]| |] eqn:Eg;
      simpl in Hrun; try discriminate.
    pose proof (keeps_room _ _ _ _ Eg (keeps_rng rng' wm HP)) as HP2. simpl in HP2.
    eapply IH; eauto.
Qed.

Lemma ensureMinimumRooms_keeps (wm wm' : WorldManager.t) :
  WorldManager.ensureMinimumRooms wm = Done wm' -> P wm -> P wm'.
Proof.
  unfold WorldManager.ensureMinimumRooms. intros Hrun HP.
  destruct (_ <? _); [|inversion Hrun; subst; exact HP].
  eapply topUp_keeps; eauto.
Qed.

(** [generateFiniteLevel], for a property that holds once the start room
    is placed and that marking the exit keeps. *)
Lemma generateFiniteLevel_keeps (wm wm' : WorldManager.t) :
  (forall wm1, WorldManager.generateStartRoom wm = Done wm1 -> P wm1) ->
  (forall wm3, P wm3 -> P (WorldManager.generateExitRoom wm3)) ->
  WorldManager.generateFiniteLevel wm = Done wm' -> P wm'.
Proof.
  unfold WorldManager.generateFiniteLevel. intros Hstart Hexit Hrun.
  destruct (WorldManager.generateStartRoom wm) as [wm1| |] eqn:E1; simpl in Hrun;
    try discriminate.
  match type of Hrun with
  | bind ?call _ = _ => destruct call as [wm2| |] eqn:E2
  end; simpl in Hrun; try discriminate.
  destruct (WorldManager.ensureMinimumRooms wm2) as [wm3| |] eqn:E3; simpl in Hrun;
    try discriminate.
  inversion Hrun; subst wm'.
  apply Hexit. eapply ensureMinimumRooms_keeps; [exact E3|].
  eapply generationLoop_keeps; [exact E2|]. now apply Hstart.
Qed.

End GenerationKeeps.

Lemma length_updateAt {A : Type} (f : A -> A) (i : nat) (l : list A) :
  List.length (updateAt i f l) = List.length l.
Proof. revert i. induction l as [|a l IH]; intros [|i]; simpl; auto. Qed.

Lemma generateExitRoom_levelOK (s : Z) b c (wm : WorldManager.t) :
  levelOK s b c wm -> levelOK s b c (WorldManager.generateExitRoom wm).
Proof.
  intros HL. unfold WorldManager.generateExitRoom.
  destruct (_ >=? _); [exact HL|].
  destruct (WorldManager.rooms wm) as [|kr rs] eqn:E; [exact HL|].
  destruct (WorldManager.exitScan _ _ _ _) as [i|]; [|exact HL].
  destruct HL as (Hb & Hc & Hn & Hg & Hr). unfold levelOK. simpl.
  rewrite length_updateAt. rewrite E in Hn, Hr.
  repeat split; auto.
  apply Forall_updateAt; [exact Hr|].
  intros a Ha. rewrite Forall_forall in Hr. destruct (Hr a Ha) as [Hk Hs].
  simpl. split; [exact Hk|]. now apply markExit_roomShaped.
Qed.

Lemma generateStartRoom_levelOK b c (wm wm' : WorldManager.t) :
  WorldManager.rooms wm = [] -> WorldManager.generatedRooms wm = 0 ->
  WorldManager.levelBounds wm = b -> WorldManager.levelConstraints wm = c ->
  WorldManager.generateStartRoom wm = Done wm' ->
  levelOK (match filter Tile.start (WorldManager.tileLoader wm) with [] => 0 | _ => 1 end)
          b c wm'.
Proof.
  intros Hrooms Hgen Hb Hc. unfold WorldManager.generateStartRoom, WorldManager.filterTiles.
  destruct (filter Tile.start (WorldManager.tileLoader wm)) as [|t0 ts].
  - intros Hrun. inversion Hrun; subst wm'. unfold levelOK.
    rewrite Hrooms, Hgen. simpl. repeat split; auto. lia.
  - destruct (SeededRandom.choice (t0 :: ts) (WorldManager.rng wm)) as [ch rng'].
    destruct ch as [startTile|]; [|discriminate].
    intros Hrun. inversion Hrun; subst wm'. unfold levelOK, WorldManager.createRoom. simpl.
    rewrite Hrooms, Hgen. simpl. repeat split; auto; try lia.
    constructor; [|constructor]. simpl. split; [now left|apply make_roomShaped].
Qed.

Lemma initialize_levelOK (seed0 levelNumber : Z) (wm wm' : WorldManager.t) :
  WorldManager.initialize seed0 levelNumber wm = Done wm' ->
  levelOK (match filter Tile.start (WorldManager.tileLoader wm) with [] => 0 | _ => 1 end)
          (WorldManager.levelBounds (WorldManager.adjustConstraintsForLevel levelNumber wm))
          (WorldManager.levelConstraints (WorldManager.adjustConstraintsForLevel levelNumber wm))
          wm'.
Proof.
  unfold WorldManager.initialize.
  set (wm0 := {| WorldManager.tileLoader := _ |}).
  apply generateFiniteLevel_keeps.
  - intros r w H; exact H.
  - intros x y w res. apply generateRoomAt_levelOK.
  - intros wm1. now apply (generateStartRoom_levelOK _ _ wm0 wm1).
  - intros wm3. apply generateExitRoom_levelOK.
Qed.

Lemma adjusted_constraints (levelNumber : Z) (wm : WorldManager.t) :
  0 <= levelNumber ->
  let wm' := WorldManager.adjustConstraintsForLevel levelNumber wm in
  let c := WorldManager.levelConstraints wm' in
  6 <= WorldManager.maxRooms c <= 15 /\
  4 <= WorldManager.minRooms c <= 8 /\
  WorldManager.minRooms c <= WorldManager.maxRooms c /\
  3 <= WorldManager.maxWidth c <= 5 /\
  WorldManager.maxHeight c = WorldManager.maxWidth c /\
  WorldManager.maxRooms c <= WorldManager.maxWidth c * WorldManager.maxHeight c /\
  WorldManager.levelBounds wm'
  = {| WorldManager.minX := 0; WorldManager.maxX := WorldManager.maxWidth c - 1;
       WorldManager.minY := 0; WorldManager.maxY := WorldManager.maxHeight c - 1 |}.
Proof.
  intros H. unfold WorldManager.adjustConstraintsForLevel.
  cbn [WorldManager.levelConstraints WorldManager.levelBounds WorldManager.maxRooms
       WorldManager.minRooms WorldManager.maxWidth WorldManager.maxHeight].
  pose proof (Z.div_mod levelNumber 2 ltac:(lia)) as E2.
  pose proof (Z.mod_pos_bound levelNumber 2 ltac:(lia)) as B2.
  pose proof (Z.div_mod levelNumber 3 ltac:(lia)) as E3.
  pose proof (Z.mod_pos_bound levelNumber 3 ltac:(lia)) as B3.
  pose proof (Z.div_mod levelNumber 4 ltac:(lia)) as E4.
  pose proof (Z.mod_pos_bound levelNumber 4 ltac:(lia)) as B4.
  set (h := levelNumber / 2) in *. set (t := levelNumber / 3) in *.
  set (q := levelNumber / 4) in *.
  clearbody h t q.
  repeat split; try lia.
Qed.

(** From level [0] on, [adjustConstraintsForLevel] sets constraints that
    fit together: between 6 and 15 rooms at most, between 4 and 8 at least
    and never more than the maximum, a square grid of side 3 to 5 whose
    cells are enough for the maximum, and bounds that are this grid. *)
Theorem adjustConstraintsForLevel_consistent (levelNumber : Z) (wm : WorldManager.t) :
  0 <= levelNumber ->
  let wm' := WorldManager.adjustConstraintsForLevel levelNumber wm in
  let c := WorldManager.levelConstraints wm' in
  6 <= WorldManager.maxRooms c <= 15 /\
  4 <= WorldManager.minRooms c <= 8 /\
  WorldManager.minRooms c <= WorldManager.maxRooms c /\
  3 <= WorldManager.maxWidth c <= 5 /\
  WorldManager.maxHeight c = WorldManager.maxWidth c /\
  WorldManager.maxRooms c <= WorldManager.maxWidth c * WorldManager.maxHeight c /\
  WorldManager.levelBounds wm'
  = {| WorldManager.minX := 0; WorldManager.maxX := WorldManager.maxWidth c - 1;
       WorldManager.minY := 0; WorldManager.maxY := WorldManager.maxHeight c - 1 |}.
Proof. exact (adjusted_constraints levelNumber wm). Qed.

Lemma adjustConstraintsForLevel_consistent_witness :
  0 <= 7 /\
  WorldManager.levelConstraints
    (WorldManager.adjustConstraintsForLevel 7 (WorldManager.make [] 0))
  = {| WorldManager.maxRooms := 9; WorldManager.maxExits := 1;
       WorldManager.maxWidth := 5; WorldManager.maxHeight := 5;
       WorldManager.minRooms := 5 |} /\
  6 <= 9 <= 15.
Proof.
  split; [lia|]. split; [reflexivity|].
  exact (proj1 (adjustConstraintsForLevel_consistent 7 (WorldManager.make [] 0) ltac:(lia))).
Defined.

(** A level that [initialize] returns, for a level number from [0] on and
    a catalog with a start template, holds the start room and the counted
    rooms and no more than [maxRooms] in all; no two rooms share a grid
    cell, and every room lies in the grid of [maxWidth] by [maxHeight]
    cells.  [initialize] does return, unless the seed is degenerate. *)
Theorem generated_level_within_limits (seed0 levelNumber : Z) (wm : WorldManager.t) :
  0 <= levelNumber ->
  hasStartTile (WorldManager.tileLoader wm) ->
  match WorldManager.initialize seed0 levelNumber wm with
  | Done wm' =>
      let c := WorldManager.levelConstraints wm' in
      Z.of_nat (List.length (WorldManager.rooms wm')) = WorldManager.generatedRooms wm' + 1 /\
      Z.of_nat (List.length (WorldManager.rooms wm')) <= WorldManager.maxRooms c /\
      NoDup (keys wm') /\
      (forall x y, In (x, y) (keys wm') ->
         0 <= x < WorldManager.maxWidth c /\ 0 <= y < WorldManager.maxHeight c)
  | Thrown => degenerateSeed seed0
  | OutOfFuel => False
  end.
Proof.
  intros Hlevel Hstart.
  pose proof (initialize_spec seed0 levelNumber wm) as Hspec.
  pose proof (initialize_levelOK seed0 levelNumber wm) as HL.
  destruct (WorldManager.initialize seed0 levelNumber wm) as [wm'| |];
    simpl in Hspec; [|exact Hspec|exact Hspec].
  specialize (HL wm' eq_refl).
  pose proof (hasStartTile_filter _ Hstart) as Hne.
  destruct (filter Tile.start (WorldManager.tileLoader wm)) as [|t0 ts]; [congruence|].
  destruct HL as (Hb & Hc & Hn & Hg & Hr).
  destruct (adjusted_constraints levelNumber wm Hlevel)
    as (Hmax & _ & _ & Hw & Hh & _ & Hbounds).
  cbv zeta in *. rewrite Hc.
  split; [exact Hn|]. split; [lia|]. split.
  - destruct Hspec as (wmE & -> & (Hnd & _) & _). now rewrite keys_generateExitRoom.
  - intros x y Hin. unfold keys in Hin. apply in_map_iff in Hin.
    destruct Hin as ([k r] & Hk & Hin). simpl in Hk. subst k.
    rewrite Hbounds in Hr.
    rewrite Forall_forall in Hr. destruct (Hr _ Hin) as [[Hk|Hk] _];
      cbn [fst snd] in Hk.
    + inversion Hk; subst. lia.
    + unfold inGrid in Hk.
      cbn [fst snd WorldManager.minX WorldManager.maxX WorldManager.minY WorldManager.maxY]
        in Hk. lia.
Qed.
Lemma generated_level_within_limits_witness :
  match WorldManager.initialize 1 1 (WorldManager.make crossCatalog 0) with
  | Done wm' =>
      let c := WorldManager.levelConstraints wm' in
      Z.of_nat (List.length (WorldManager.rooms wm')) = WorldManager.generatedRooms wm' + 1 /\
      Z.of_nat (List.length (WorldManager.rooms wm')) <= WorldManager.maxRooms c /\
      NoDup (keys wm') /\
      (forall x y, In (x, y) (keys wm') ->
         0 <= x < WorldManager.maxWidth c /\ 0 <= y < WorldManager.maxHeight c)
  | Thrown => degenerateSeed 1
  | OutOfFuel => False
  end.
Proof.
  apply (generated_level_within_limits 1 1 (WorldManager.make crossCatalog 0)); [lia|].
  exists (crossTile "start"%string true). split; [left; reflexivity|reflexivity].
Defined.

(** ** world.js: rooms and pixel positions *)

Lemma Qfloor_range (q : Q) (n : Z) :
  0 <= Qfloor q < n <-> (0 <= q /\ q < inject_Z n)%Q.
Proof.
  pose proof (Qfloor_le q) as Hle. pose proof (Qlt_floor q) as Hlt.
  split.
  - intros [H0 Hn]. split.
    + eapply Qle_trans; [|exact Hle]. change 0%Q with (inject_Z 0).
      now rewrite <- Zle_Qle.
    + eapply Qlt_le_trans; [exact Hlt|]. rewrite <- Zle_Qle. lia.
  - intros [H0 Hn]. split.
    + change 0 with (Qfloor (inject_Z 0)). now apply Qfloor_resp_le.
    + destruct (Z_lt_le_dec (Qfloor q) n) as [H|H]; [exact H|].
      exfalso. apply (Qlt_irrefl q). eapply Qlt_le_trans; [exact Hn|].
      eapply Qle_trans; [|exact Hle]. now rewrite <- Zle_Qle.
Qed.

Lemma local_in_range (p : Q) (origin tiles : Z) :
  0 <= Qfloor ((p - inject_Z origin) / inject_Z TILE_SIZE) < tiles <->
  (inject_Z origin <= p /\ p < inject_Z (origin + tiles * TILE_SIZE))%Q.
Proof.
  rewrite Qfloor_range, inject_Z_plus, inject_Z_mult.
  change (inject_Z TILE_SIZE) with 64%Q.
  set (u := ((p - inject_Z origin) / 64)%Q).
  assert (Hu : (p == inject_Z origin + u * 64)%Q) by (unfold u; field).
  clearbody u. generalize dependent (inject_Z origin). generalize dependent (inject_Z tiles).
  intros t o Hu. rewrite Hu. split; intros [H1 H2]; split; lra.
Qed.

Lemma room_contains_local (room : WorldRoom.t) (worldPos : Vector2.t) :
  WorldRoom.width room = WorldRoom.tileWidth room * TILE_SIZE ->
  WorldRoom.height room = WorldRoom.tileHeight room * TILE_SIZE ->
  (WorldQuery.containsWorldPosition room worldPos = true <->
   0 <= fst (WorldQuery.worldToLocal room worldPos) < WorldRoom.tileWidth room /\
   0 <= snd (WorldQuery.worldToLocal room worldPos) < WorldRoom.tileHeight room).
Proof.
  intros Hw Hh.
  unfold WorldQuery.containsWorldPosition, WorldQuery.worldToLocal, WorldQuery.getBounds.
  cbn [fst snd WorldQuery.left WorldQuery.right WorldQuery.top WorldQuery.bottom].
  rewrite !andb_true_iff, !Qltb_true, !Qle_bool_iff, !local_in_range, Hw, Hh. tauto.
Qed.

(** In a room whose pixel size is its tile size times the side of a tile,
    as the constructor sets it, [containsWorldPosition] holds of a position
    exactly when [worldToLocal] sends it to a tile of the room; and
    [worldToLocal] undoes [localToWorld] on whole tile coordinates. *)
Theorem room_contains_iff_local_tile_in_room (room : WorldRoom.t) (worldPos : Vector2.t) :
  WorldRoom.width room = WorldRoom.tileWidth room * TILE_SIZE ->
  WorldRoom.height room = WorldRoom.tileHeight room * TILE_SIZE ->
  (WorldQuery.containsWorldPosition room worldPos = true <->
   0 <= fst (WorldQuery.worldToLocal room worldPos) < WorldRoom.tileWidth room /\
   0 <= snd (WorldQuery.worldToLocal room worldPos) < WorldRoom.tileHeight room) /\
  (forall a b : Z,
     WorldQuery.worldToLocal room (WorldQuery.localToWorld room (Collision.mkV a b)) = (a, b)).
Proof.
  intros Hw Hh. split; [now apply room_contains_local|].
  intros a b. unfold WorldQuery.worldToLocal, WorldQuery.localToWorld, Collision.mkV.
  cbn [Vector2.x Vector2.y]. f_equal.
  - rewrite <- (Qfloor_Z a) at 2. apply Qfloor_comp.
    change (inject_Z TILE_SIZE) with 64%Q. field.
  - rewrite <- (Qfloor_Z b) at 2. apply Qfloor_comp.
    change (inject_Z TILE_SIZE) with 64%Q. field.
Qed.

Lemma room_contains_iff_local_tile_in_room_witness :
  let room := WorldRoom.make (crossTile "cross" false) 192 0 1 0 in
  WorldQuery.containsWorldPosition room (Collision.mkV 200 70) = true <->
  0 <= fst (WorldQuery.worldToLocal room (Collision.mkV 200 70)) < 4 /\
  0 <= snd (WorldQuery.worldToLocal room (Collision.mkV 200 70)) < 4.
Proof.
  exact (proj1 (room_contains_iff_local_tile_in_room
                  (WorldRoom.make (crossTile "cross" false) 192 0 1 0)
                  (Collision.mkV 200 70) eq_refl eq_refl)).
Defined.

Lemma hasCollisionAtWorldPosition_shaped (wm : WorldManager.t) (worldPos : Vector2.t) :
  Forall (fun kr : (Z * Z) * WorldRoom.t => roomShaped (snd kr)) (WorldManager.rooms wm) ->
  exists b,
    WorldQuery.hasCollisionAtWorldPosition wm worldPos = Some b /\
    (WorldQuery.getRoomAtWorldPosition wm worldPos = None -> b = true) /\
    (forall room, WorldQuery.getRoomAtWorldPosition wm worldPos = Some room ->
       WorldQuery.containsWorldPosition room worldPos = true /\
       exists row,
         nth_error (WorldRoom.collisionMap room)
                   (Z.to_nat (snd (WorldQuery.worldToLocal room worldPos))) = Some row /\
         nth_error row (Z.to_nat (fst (WorldQuery.worldToLocal room worldPos))) = Some b).
Proof.
  intros Hshaped.
  unfold WorldQuery.hasCollisionAtWorldPosition, WorldQuery.getRoomAtWorldPosition.
  destruct (find _ (WorldManager.rooms wm)) as [[k room]|] eqn:Efind; cbn [option_map snd].
  2:{ exists true. split; [reflexivity|]. split; [reflexivity|]. intros room H; discriminate. }
  apply find_some in Efind. destruct Efind as [Hin Hcont]. cbn [snd] in Hcont.
  rewrite Forall_forall in Hshaped. pose proof (Hshaped _ Hin) as (Hw & Hh & Hrows & Hcols).
  cbn [snd] in Hw, Hh, Hrows, Hcols.
  pose proof (proj1 (room_contains_local room worldPos Hw Hh) Hcont) as [Hx Hy].
  destruct (WorldQuery.worldToLocal room worldPos) as [lx ly] eqn:El. cbn [fst snd] in Hx, Hy.
  destruct (nth_error (WorldRoom.collisionMap room) (Z.to_nat ly)) as [row|] eqn:Erow.
  2:{ apply nth_error_None in Erow. lia. }
  assert (Hlen : List.length row = Z.to_nat (WorldRoom.tileWidth room)).
  { rewrite Forall_forall in Hcols. apply Hcols. eapply nth_error_In; eauto. }
  destruct (nth_error row (Z.to_nat lx)) as [b|] eqn:Eb.
  2:{ apply nth_error_None in Eb. lia. }
  exists b. split; [|split].
  - unfold WorldRoom.hasCollisionAt.
    replace ((lx <? 0) || (lx >=? WorldRoom.tileWidth room) ||
             (ly <? 0) || (ly >=? WorldRoom.tileHeight room)) with false by lia.
    now rewrite Erow.
  - discriminate.
  - intros room' E. inversion E; subst room'. rewrite El. cbn [fst snd].
    split; [exact Hcont|]. exists row. auto.
Qed.
(** In a level that [initialize] has returned, [hasCollisionAtWorldPosition]
    answers every position with a boolean: [true] where no room contains
    the position, else the entry of the collision map of the first room
    that contains it, at the tile of the position; it never reads the map
    out of range. *)
Theorem level_collision_query_total (seed0 levelNumber : Z) (wm wm' : WorldManager.t)
    (worldPos : Vector2.t) :
  WorldManager.initialize seed0 levelNumber wm = Done wm' ->
  exists b,
    WorldQuery.hasCollisionAtWorldPosition wm' worldPos = Some b /\
    (WorldQuery.getRoomAtWorldPosition wm' worldPos = None -> b = true) /\
    (forall room, WorldQuery.getRoomAtWorldPosition wm' worldPos = Some room ->
       WorldQuery.containsWorldPosition room worldPos = true /\
       exists row,
         nth_error (WorldRoom.collisionMap room)
                   (Z.to_nat (snd (WorldQuery.worldToLocal room worldPos))) = Some row /\
         nth_error row (Z.to_nat (fst (WorldQuery.worldToLocal room worldPos))) = Some b).
Proof.
  intros Hrun. apply hasCollisionAtWorldPosition_shaped.
  pose proof (initialize_levelOK _ _ _ _ Hrun) as (_ & _ & _ & _ & Hr).
  eapply Forall_impl; [|exact Hr]. intros kr H. apply H.
Qed.

Lemma level_collision_query_total_witness :
  exists b,
    WorldQuery.hasCollisionAtWorldPosition usedManager (Collision.mkV 100 100) = Some b /\
    (WorldQuery.getRoomAtWorldPosition usedManager (Collision.mkV 100 100) = None ->
     b = true) /\
    (forall room,
       WorldQuery.getRoomAtWorldPosition usedManager (Collision.mkV 100 100) = Some room ->
       WorldQuery.containsWorldPosition room (Collision.mkV 100 100) = true /\
       exists row,
         nth_error (WorldRoom.collisionMap room)
                   (Z.to_nat (snd (WorldQuery.worldToLocal room (Collision.mkV 100 100))))
         = Some row /\
         nth_error row (Z.to_nat (fst (WorldQuery.worldToLocal room (Collision.mkV 100 100))))
         = Some b).
Proof.
  apply (level_collision_query_total 7 3 (WorldManager.make crossCatalog 5)).
  vm_compute. reflexivity.
Defined.

Lemma map_get_set_same (k : Z * Z) (v : WorldRoom.t) (m : list ((Z * Z) * WorldRoom.t)) :
  WorldManager.map_get k (WorldManager.map_set k v m) = Some v.
Proof.
  assert (Hk : key_eqb k k = true) by now apply key_eqb_eq.
  induction m as [|[k' v'] m IH]; simpl; [now rewrite Hk|].
  destruct (key_eqb k k') eqn:E; simpl; [now rewrite Hk|]. now rewrite E.
Qed.

Lemma map_get_set_other (k k0 : Z * Z) (v : WorldRoom.t) (m : list ((Z * Z) * WorldRoom.t)) :
  k0 <> k -> WorldManager.map_get k0 (WorldManager.map_set k v m) = WorldManager.map_get k0 m.
Proof.
  intros Hne.
  assert (Hk : key_eqb k0 k = false).
  { destruct (key_eqb k0 k) eqn:E; [|reflexivity]. apply key_eqb_eq in E. contradiction. }
  induction m as [|[k' v'] m IH]; simpl; [now rewrite Hk|].
  destruct (key_eqb k k') eqn:E; simpl.
  - apply key_eqb_eq in E. subst k'. now rewrite Hk.
  - now rewrite IH.
Qed.

Lemma length_map_set (k : Z * Z) (v : WorldRoom.t) (m : list ((Z * Z) * WorldRoom.t)) :
  List.length (WorldManager.map_set k v m)
  = match WorldManager.map_get k m with
    | Some _ => List.length m
    | None => S (List.length m)
    end.
Proof.
  induction m as [|[k' v'] m IH]; simpl; [reflexivity|].
  destruct (key_eqb k k'); simpl; [reflexivity|].
  rewrite IH. now destruct (WorldManager.map_get k m).
Qed.

(** After [createRoom(roomData, worldX, worldY, roomX, roomY)], [getRoom]
    finds the new room at [(roomX, roomY)] and what it found before at
    every other cell; the store has one room more when the cell was free,
    and as many as before when the room replaces one. *)
Theorem createRoom_then_getRoom (rd : Tile.t) (wx wy rx ry : Z) (wm : WorldManager.t) :
  let wm' := WorldManager.createRoom rd wx wy rx ry wm in
  WorldManager.getRoom wm' rx ry = Some (WorldRoom.make rd wx wy rx ry) /\
  (forall x y, (x, y) <> (rx, ry) -> WorldManager.getRoom wm' x y = WorldManager.getRoom wm x y) /\
  List.length (WorldManager.rooms wm')
  = (if WorldManager.hasRoom wm rx ry
     then List.length (WorldManager.rooms wm)
     else S (List.length (WorldManager.rooms wm))).
Proof.
  unfold WorldManager.createRoom, WorldManager.getRoom, WorldManager.hasRoom,
    WorldManager.getRoom. simpl.
  split; [apply map_get_set_same|]. split.
  - intros x y Hne. now apply map_get_set_other.
  - rewrite length_map_set. now destruct (WorldManager.map_get (rx, ry) (WorldManager.rooms wm)).
Qed.

Lemma normalizeExits_keys (tw th : Z) (exits : list (string * (Z * Z))) :
  map fst (WorldRoom.normalizeExits tw th exits) = map fst exits.
Proof.
  unfold WorldRoom.normalizeExits. rewrite map_map. apply map_ext.
  intros [d [x y]]. reflexivity.
Qed.

Lemma normalizeExits_spec (tw th : Z) (exits : list (string * (Z * Z))) :
  1 <= tw -> 1 <= th ->
  (forall d x y, In (d, (x, y)) (WorldRoom.normalizeExits tw th exits) ->
     0 <= x < tw /\ 0 <= y < th) /\
  (forall d x y, In (d, (x, y)) exits -> 0 <= x < tw -> 0 <= y < th ->
     In (d, (x, y)) (WorldRoom.normalizeExits tw th exits)).
Proof.
  intros Hw Hh. unfold WorldRoom.normalizeExits. split.
  - intros d x y Hin. apply in_map_iff in Hin. destruct Hin as ([d0 [x0 y0]] & E & _).
    inversion E; subst. lia.
  - intros d x y Hin Hx Hy. apply in_map_iff. exists (d, (x, y)). split; [|exact Hin].
    f_equal. f_equal; lia.
Qed.

(** The exits of a room of at least one tile each way are those of its
    template, direction by direction, each moved to the nearest tile of the
    room: all lie inside the room, and those that were inside stay. *)
Theorem room_exits_inside_room (rd : Tile.t) (wx wy rx ry : Z) :
  let room := WorldRoom.make rd wx wy rx ry in
  1 <= WorldRoom.tileWidth room -> 1 <= WorldRoom.tileHeight room ->
  map fst (WorldRoom.exits room) = map fst (Tile.exits rd) /\
  (forall d x y, In (d, (x, y)) (WorldRoom.exits room) ->
     0 <= x < WorldRoom.tileWidth room /\ 0 <= y < WorldRoom.tileHeight room) /\
  (forall d x y, In (d, (x, y)) (Tile.exits rd) ->
     0 <= x < WorldRoom.tileWidth room -> 0 <= y < WorldRoom.tileHeight room ->
     In (d, (x, y)) (WorldRoom.exits room)).
Proof.
  unfold WorldRoom.make.
  destruct (WorldRoom.createCollisionMap rd) as [[cmap tw] th].
  cbn [WorldRoom.tileWidth WorldRoom.tileHeight WorldRoom.exits].
  intros Hw Hh. split; [apply normalizeExits_keys|]. now apply normalizeExits_spec.
Qed.

Lemma room_exits_inside_room_witness :
  map fst (WorldRoom.exits (WorldRoom.make (crossTile "cross" false) 0 0 0 0))
  = map fst (Tile.exits (crossTile "cross" false)).
Proof.
  exact (proj1 (room_exits_inside_room (crossTile "cross" false) 0 0 0 0
                  ltac:(vm_compute; discriminate) ltac:(vm_compute; discriminate))).
Defined.

(** ** world.js: exits of neighbouring rooms *)

Lemma nth_map_get (m : list ((Z * Z) * WorldRoom.t)) :
  forall i k v,
    NoDup (map fst m) -> nth_error m i = Some (k, v) -> WorldManager.map_get k m = Some v.
Proof.
  induction m as [|[k' v'] m IH]; intros [|i] k v Hnd Hn; simpl in *; try discriminate.
  - inversion Hn; subst.
    assert (E : key_eqb k k = true) by now apply key_eqb_eq.
    now rewrite E.
  - inversion Hnd as [|a l Hnotin Hnd']; subst.
    destruct (key_eqb k k') eqn:E.
    + apply key_eqb_eq in E. subst k'. exfalso. apply Hnotin.
      apply nth_error_In in Hn. apply (in_map fst) in Hn. exact Hn.
    + eapply IH; eauto.
Qed.

Lemma required_In (wm : WorldManager.t) (x y dx dy : Z) (dir opposite : string)
    (A : WorldRoom.t) :
  In (dx, dy, dir, opposite) facing ->
  WorldManager.getRoom wm (x + dx) (y + dy) = Some A ->
  WorldManager.hasExit A opposite = true ->
  In dir (WorldManager.getRequiredConnections wm x y).
Proof.
  intros Hin Hget Hexit. unfold WorldManager.getRequiredConnections.
  apply in_flat_map. exists (dx, dy, dir, opposite). split; [exact Hin|].
  rewrite Hget, Hexit. now left.
Qed.

Lemma suitable_has_exit (wm : WorldManager.t) (required : list string) (tile : Tile.t)
    (dir : string) :
  In tile (WorldManager.findSuitableTiles wm required false) -> In dir required ->
  existsb (String.eqb dir) (map fst (Tile.exits tile)) = true.
Proof.
  unfold WorldManager.findSuitableTiles, WorldManager.filterTiles.
  intros Hin Hdir. apply filter_In in Hin. destruct Hin as [_ Hp].
  destruct (Tile.start tile); [discriminate|].
  destruct (Tile.exit tile && negb false); [discriminate|].
  rewrite forallb_forall in Hp. now apply Hp.
Qed.

Lemma hasExit_make (tile : Tile.t) (wx wy x y : Z) (dir : string) :
  WorldManager.hasExit (WorldRoom.make tile wx wy x y) dir
  = existsb (String.eqb dir) (map fst (Tile.exits tile)).
Proof.
  unfold WorldManager.hasExit, WorldRoom.make.
  destruct (WorldRoom.createCollisionMap tile) as [[cmap tw] th].
  cbn [WorldRoom.exits]. unfold WorldRoom.normalizeExits.
  induction (Tile.exits tile) as [|[d [px py]] l IH]; simpl; [reflexivity|].
  now rewrite IH, String.eqb_sym.
Qed.

Lemma exitsOK_movedBy (dx dy : Z) (wm : WorldManager.t) :
  exitsOK wm -> exitsOK (movedBy dx dy wm).
Proof.
  intros [Hnd Hans]. split; [now rewrite keys_movedBy|].
  unfold movedBy. simpl.
  intros i j ka A kb B ox oy dir opposite Hij Hi Hj Hin Hk HA.
  rewrite nth_error_map in Hi, Hj.
  destruct (nth_error (WorldManager.rooms wm) i) as [[ka0 A0]|] eqn:Ei; [|discriminate].
  destruct (nth_error (WorldManager.rooms wm) j) as [[kb0 B0]|] eqn:Ej; [|discriminate].
  simpl in Hi, Hj. inversion Hi; subst. inversion Hj; subst.
  exact (Hans i j _ A0 _ B0 ox oy dir opposite Hij Ei Ej Hin eq_refl HA).
Qed.

Lemma generateRoomAt_exitsOK (x y : Z) (wm : WorldManager.t) (res : bool * WorldManager.t) :
  WorldManager.generateRoomAt x y wm = Done res -> exitsOK wm -> exitsOK (snd res).
Proof.
  unfold WorldManager.generateRoomAt. intros Hrun HP.
  destruct (WorldManager.hasRoom wm x y) eqn:Hhas; [inversion Hrun; exact HP|].
  destruct (negb (WorldManager.isWithinLevelBounds wm x y)); [inversion Hrun; exact HP|].
  destruct (WorldManager.generatedRooms wm >=? _); [inversion Hrun; exact HP|].
  destruct (WorldManager.findSuitableTiles wm _ false) as [|t0 ts] eqn:Hs;
    [inversion Hrun; exact HP|].
  destruct (choice_spec (t0 :: ts) (WorldManager.rng wm) ltac:(discriminate)) as [Hc _].
  destruct (SeededRandom.choice (t0 :: ts) (WorldManager.rng wm)) as [ch rng'].
  destruct ch as [chosenTile|]; [|discriminate]. cbn [fst] in Hc. rewrite <- Hs in Hc.
  destruct (calculateOptimalRoomPosition_moved x y chosenTile
              (WorldManager.set_rng rng' wm)) as (dx & dy & Hm).
  destruct (WorldManager.calculateOptimalRoomPosition x y chosenTile
              (WorldManager.set_rng rng' wm)) as [[wX wY] wm2].
  simpl in Hm. subst wm2. inversion Hrun; subst res; clear Hrun. simpl.
  assert (Hfresh : ~ In (x, y) (keys wm)).
  { intros H. apply (hasRoom_keys wm) in H. congruence. }
  assert (Hget : WorldManager.map_get (x, y)
                   (WorldManager.rooms (movedBy dx dy (WorldManager.set_rng rng' wm))) = None).
  { apply map_get_None. fold (keys (movedBy dx dy (WorldManager.set_rng rng' wm))).
    now rewrite keys_movedBy. }
  destruct HP as [Hnd Hans].
  pose proof (exitsOK_movedBy dx dy (WorldManager.set_rng rng' wm) (conj Hnd Hans))
    as [_ Hans'].
  unfold exitsOK, keys, WorldManager.createRoom. simpl.
  rewrite (map_set_fresh _ _ _ Hget). simpl in Hans'.
  set (old := map (fun kr : (Z * Z) * WorldRoom.t =>
                     (fst kr, WorldRoom.shift dx dy (snd kr))) (WorldManager.rooms wm)) in *.
  change (WorldManager.rooms (movedBy dx dy (WorldManager.set_rng rng' wm))) with old in *.
  assert (Hkeys : map fst old = keys wm).
  { unfold old, keys. rewrite map_map. now apply map_ext. }
  assert (Hlen : List.length old = List.length (WorldManager.rooms wm)).
  { unfold old. now rewrite length_map. }
  split.
  - rewrite map_app, Hkeys. simpl.
    apply NoDup_app; [exact Hnd|repeat constructor; simpl; tauto|].
    intros a Ha [<-|[]]. contradiction.
  - intros i j ka A kb B ox oy dir opposite Hij Hi Hj Hin Hk HA.
    destruct (Nat.lt_ge_cases j (List.length old)) as [Hj'|Hj'].
    + rewrite nth_error_app1 in Hi by lia. rewrite nth_error_app1 in Hj by lia.
      exact (Hans' i j ka A kb B ox oy dir opposite Hij Hi Hj Hin Hk HA).
    + rewrite nth_error_app2 in Hj by lia.
      destruct (j - List.length old)%nat as [|n] eqn:Ej; [|destruct n; discriminate].
      simpl in Hj. inversion Hj; subst kb B; clear Hj.
      rewrite nth_error_app1 in Hi by lia.
      unfold old in Hi. rewrite nth_error_map in Hi.
      destruct (nth_error (WorldManager.rooms wm) i) as [[ka0 A0]|] eqn:Ei; [|discriminate].
      simpl in Hi. inversion Hi; subst ka0 A; clear Hi. simpl in Hk.
      rewrite hasExit_make. eapply suitable_has_exit; [exact Hc|].
      apply (required_In wm x y ox oy dir opposite A0); [exact Hin| |exact HA].
      unfold WorldManager.getRoom. rewrite <- Hk. eapply nth_map_get; eauto.
Qed.

Lemma generateStartRoom_exitsOK (wm wm1 : WorldManager.t) :
  WorldManager.rooms wm = [] ->
  WorldManager.generateStartRoom wm = Done wm1 -> exitsOK wm1.
Proof.
  intros Hrooms. unfold WorldManager.generateStartRoom, WorldManager.filterTiles.
  assert (Hnone : exitsAnswered []).
  { intros i j ka A kb B ox oy dir opposite _ Hi. destruct i; discriminate. }
  destruct (filter Tile.start (WorldManager.tileLoader wm)) as [|t0 ts].
  - intros Hrun. inversion Hrun; subst wm1. unfold exitsOK, keys. rewrite Hrooms.
    split; [constructor|exact Hnone].
  - destruct (SeededRandom.choice (t0 :: ts) (WorldManager.rng wm)) as [ch rng'].
    destruct ch as [startTile|]; [|discriminate].
    intros Hrun. inversion Hrun; subst wm1.
    unfold exitsOK, keys, WorldManager.createRoom. simpl. rewrite Hrooms. simpl. split.
    + repeat constructor. simpl. tauto.
    + intros i j ka A kb B ox oy dir opposite Hij Hi Hj.
      destruct j as [|j]; [lia|]. destruct j; discriminate.
Qed.

Lemma generateExitRoom_exitsOK (wm : WorldManager.t) :
  exitsOK wm -> exitsOK (WorldManager.generateExitRoom wm).
Proof.
  intros [Hnd Hans]. split; [now rewrite keys_generateExitRoom|].
  unfold WorldManager.generateExitRoom.
  destruct (_ >=? _); [exact Hans|].
  destruct (WorldManager.rooms wm) as [|kr rs] eqn:E; [rewrite E; exact Hans|].
  destruct (WorldManager.exitScan _ _ _ _) as [e|]; [|rewrite E; exact Hans].
  simpl. rewrite <- E.
  intros i j ka A kb B ox oy dir opposite Hij Hi Hj Hin Hk HA.
  rewrite nth_error_updateAt in Hi, Hj.
  assert (Hi' : exists A0, nth_error (WorldManager.rooms wm) i = Some (ka, A0) /\
                           WorldManager.hasExit A0 opposite = true).
  { destruct (nth_error (WorldManager.rooms wm) i) as [[k0 A0]|];
      [|destruct (Nat.eqb e i); discriminate].
    destruct (Nat.eqb e i); simpl in Hi; inversion Hi; subst; eauto. }
  destruct Hi' as (A0 & Hi0 & HA0).
  destruct (nth_error (WorldManager.rooms wm) j) as [[k0 B0]|] eqn:Hj0;
    [|destruct (Nat.eqb e j); discriminate].
  assert (HB : k0 = kb /\ WorldManager.hasExit B dir = WorldManager.hasExit B0 dir).
  { destruct (Nat.eqb e j); simpl in Hj; inversion Hj; subst; auto. }
  destruct HB as [-> ->]. rewrite <- E in Hans.
  exact (Hans i j ka A0 kb B0 ox oy dir opposite Hij Hi0 Hj0 Hin Hk HA0).
Qed.

Lemma initialize_exitsOK (seed0 levelNumber : Z) (wm wm' : WorldManager.t) :
  WorldManager.initialize seed0 levelNumber wm = Done wm' -> exitsOK wm'.
Proof.
  unfold WorldManager.initialize.
  set (wm0 := {| WorldManager.tileLoader := _ |}).
  apply generateFiniteLevel_keeps.
  - intros r w H; exact H.
  - apply generateRoomAt_exitsOK.
  - intros wm1. now apply generateStartRoom_exitsOK.
  - apply generateExitRoom_exitsOK.
Qed.

(** In a level that [initialize] has returned, a room placed after a
    neighbour answers the exits of that neighbour: where the earlier room
    has an exit on the side that faces the later one, the later room has an
    exit on the side that faces back. *)
Theorem later_room_answers_exits_of_earlier_neighbour
    (seed0 levelNumber : Z) (wm wm' : WorldManager.t) :
  WorldManager.initialize seed0 levelNumber wm = Done wm' ->
  forall i j ka A kb B dx dy dir opposite,
    (i < j)%nat ->
    nth_error (WorldManager.rooms wm') i = Some (ka, A) ->
    nth_error (WorldManager.rooms wm') j = Some (kb, B) ->
    In (dx, dy, dir, opposite) facing ->
    ka = (fst kb + dx, snd kb + dy) ->
    WorldManager.hasExit A opposite = true ->
    WorldManager.hasExit B dir = true.
Proof.
  intros Hrun. exact (proj2 (initialize_exitsOK _ _ _ _ Hrun)).
Qed.

Lemma later_room_answers_exits_of_earlier_neighbour_witness :
  WorldManager.hasExit (snd (placedAt usedManager 1)) "N" = true.
Proof.
  apply (later_room_answers_exits_of_earlier_neighbour 7 3
           (WorldManager.make crossCatalog 5) usedManager
           ltac:(vm_compute; reflexivity) 0%nat 1%nat
           (fst (placedAt usedManager 0)) (snd (placedAt usedManager 0))
           (fst (placedAt usedManager 1)) (snd (placedAt usedManager 1))
           0 (-1) "N"%string "S"%string);
    [lia | vm_compute; reflexivity | vm_compute; reflexivity | left; reflexivity
    | vm_compute; reflexivity | vm_compute; reflexivity].
Defined.

(** ** powerManagement.js: connections *)

Lemma get_In {V : Type} (k : string) (m : list (string * V)) (v : V) :
  Power.get k m = Some v -> In k (map fst m).
Proof.
  induction m as [|[k' v'] m IH]; simpl; [discriminate|].
  destruct (String.eqb k k') eqn:E; [|auto].
  apply String.eqb_eq in E. subst. auto.
Qed.

Lemma get_modify {V : Type} (k k' : string) (f : V -> V) (m : list (string * V)) :
  Power.get k (Power.modify k' f m)
  = if String.eqb k' k then option_map f (Power.get k m) else Power.get k m.
Proof.
  unfold Power.modify.
  induction m as [|[k0 v0] m IH]; cbn [map Power.get fst snd]; [now destruct (String.eqb k' k)|].
  destruct (String.eqb k' k0) eqn:E0; cbn [map Power.get fst snd];
    destruct (String.eqb k k0) eqn:E1.
  - apply String.eqb_eq in E0, E1. subst. now rewrite String.eqb_refl.
  - exact IH.
  - apply String.eqb_eq in E1. subst k0. now rewrite E0.
  - exact IH.
Qed.

Lemma get_None_keys {V : Type} (k : string) (m : list (string * V)) :
  Power.get k m = None -> ~ In k (map fst m).
Proof.
  induction m as [|[k0 v0] m IH]; simpl; [tauto|].
  destruct (String.eqb k k0) eqn:E; [discriminate|].
  intros H [Hk|Hk]; [subst; now rewrite String.eqb_refl in E|now apply IH].
Qed.

Lemma modify_keys {V : Type} (k : string) (f : V -> V) (m : list (string * V)) :
  map fst (Power.modify k f m) = map fst m.
Proof.
  unfold Power.modify. rewrite map_map. apply map_ext.
  intros [k0 v0]. simpl. now destruct (String.eqb k k0).
Qed.

Lemma disconnect_off (now : Z) (p : Power.LaserPowerState) :
  Power.isConnected (Power.disconnect now p) = false.
Proof. unfold Power.disconnect. destruct (Power.isConnected p) eqn:E; [reflexivity|exact E]. Qed.

Section DropLoop.

(** A loop over the keys of the connections that switches a connection off
    when it is on and [cond] holds of its key, and changes nothing on which
    [cond] depends.  [ps] reads the connections off the state of the loop;
    [R] is what an iteration keeps. *)
Variable S : Type.
Variable ps : S -> list (string * Power.LaserPowerState).
Variable cond : string -> S -> bool.
Variable R : S -> S -> Prop.
Variable now : Z.
Variable body : string -> S -> Power.completion S.
Hypothesis R_refl : forall s, R s s.
Hypothesis R_trans : forall a b c, R a b -> R b c -> R a c.
Hypothesis R_cond : forall a b k, R a b -> cond k b = cond k a.
Hypothesis body_spec :
  forall k s,
    match Power.get k (ps s) with
    | Some p =>
        if Power.isConnected p && cond k s
        then exists s', body k s = Power.Normal s' /\
                        ps s' = Power.modify k (Power.disconnect now) (ps s) /\ R s s'
        else body k s = Power.Normal s
    | None => body k s = Power.Normal s
    end.

Lemma dropLoop (ks : list string) :
  forall s0,
    exists s', Power.forEach body ks s0 = Power.Normal s' /\ R s0 s' /\
      map fst (ps s') = map fst (ps s0) /\
      (forall k p, In k ks -> Power.get k (ps s') = Some p -> cond k s0 = true ->
         Power.isConnected p = false) /\
      (forall k p, Power.get k (ps s0) = Some p -> Power.isConnected p = false ->
         exists p', Power.get k (ps s') = Some p' /\ Power.isConnected p' = false) /\
      (forall k, cond k s0 = false -> Power.get k (ps s') = Power.get k (ps s0)).
Proof.
  induction ks as [|k ks IH]; intros s0; cbn [Power.forEach].
  - exists s0. split; [reflexivity|]. split; [apply R_refl|]. split; [reflexivity|].
    split; [intros k p []|]. split; [eauto|reflexivity].
  - assert (Hstep : exists s1, body k s0 = Power.Normal s1 /\ R s0 s1 /\
              map fst (ps s1) = map fst (ps s0) /\
              (forall p, Power.get k (ps s1) = Some p -> cond k s0 = true ->
                 Power.isConnected p = false) /\
              (forall k' p, Power.get k' (ps s0) = Some p -> Power.isConnected p = false ->
                 exists p', Power.get k' (ps s1) = Some p' /\ Power.isConnected p' = false) /\
              (forall k', cond k' s0 = false ->
                 Power.get k' (ps s1) = Power.get k' (ps s0))).
    { pose proof (body_spec k s0) as Hb.
      destruct (Power.get k (ps s0)) as [p0|] eqn:Ek.
      2:{ exists s0. split; [exact Hb|]. split; [apply R_refl|]. split; [reflexivity|].
          split; [congruence|]. split; [eauto|reflexivity]. }
      destruct (Power.isConnected p0 && cond k s0) eqn:Ec.
      2:{ exists s0. split; [exact Hb|]. split; [apply R_refl|]. split; [reflexivity|].
          split.
          { intros p Hp Hc. rewrite Hc, andb_true_r in Ec. congruence. }
          split; [eauto|reflexivity]. }
      apply andb_true_iff in Ec. destruct Ec as [Hon Hc].
      destruct Hb as (s1 & E1 & Hps & HR).
      exists s1. split; [exact E1|]. split; [exact HR|]. rewrite Hps.
      split; [apply modify_keys|]. split; [|split].
      - intros p Hp _. rewrite get_modify, String.eqb_refl, Ek in Hp. simpl in Hp.
        inversion Hp. apply disconnect_off.
      - intros k' p Hp Hoff. rewrite get_modify.
        destruct (String.eqb k k') eqn:E; [|eauto].
        rewrite Hp. simpl. eexists. split; [reflexivity|apply disconnect_off].
      - intros k' Hk'. rewrite get_modify.
        destruct (String.eqb k k') eqn:E; [|reflexivity].
        apply String.eqb_eq in E. subst k'. congruence. }
    destruct Hstep as (s1 & E1 & HR1 & Hkeys1 & Hk1 & Hoff1 & Hother1).
    rewrite E1. cbn [Power.andThen].
    destruct (IH s1) as (s' & E' & HR' & Hkeys' & Hin' & Hoff' & Hother').
    exists s'. split; [exact E'|]. split; [eapply R_trans; eauto|].
    split; [congruence|]. split; [|split].
    + intros k' p [<-|Hin] Hp Hc.
      * destruct (Power.get k (ps s1)) as [p1|] eqn:Ek1.
        -- destruct (Hoff' k p1 Ek1 (Hk1 p1 eq_refl Hc)) as (p' & Hp' & Hoffp).
           congruence.
        -- apply get_In in Hp. rewrite Hkeys' in Hp.
           exfalso. exact (get_None_keys _ _ Ek1 Hp).
      * apply (Hin' k' p Hin Hp). now rewrite (R_cond _ _ k' HR1).
    + intros k' p Hp Hoff. destruct (Hoff1 k' p Hp Hoff) as (p1 & Hp1 & Hoffp1). eauto.
    + intros k' Hk'. rewrite Hother', Hother1; [reflexivity|exact Hk'|].
      now rewrite (R_cond _ _ k' HR1).
Qed.

End DropLoop.

Section Connections.

Variables (W Listener : Type).
Variable call : Listener -> Power.EventData -> W -> Power.completion W.

Local Abbreviation state := (Power.t W Listener).

Local Abbreviation powerStates := (Power.powerStates W Listener).
Local Abbreviation cellStates := (Power.cellStates W Listener).
Local Abbreviation laserStates := (Power.laserStates W Listener).
Local Abbreviation eventListeners := (Power.eventListeners W Listener).
Local Abbreviation lastUpdate := (Power.lastUpdate W Listener).
Local Abbreviation emitEvent := (Power.emitEvent W Listener call).

Lemma emitEvent_frame (event : string) (data : Power.EventData) (s : state) :
  exists s', emitEvent event data s = Power.Normal s' /\
    powerStates s' = powerStates s /\ cellStates s' = cellStates s /\
    laserStates s' = laserStates s /\ eventListeners s' = eventListeners s /\
    lastUpdate s' = lastUpdate s /\
    Power.totalCellPowerings W Listener s' = Power.totalCellPowerings W Listener s.
Proof.
  unfold Power.emitEvent.
  destruct (Power.get event (eventListeners s)) as [l|].
  - rewrite forEach_guardedCall. simpl.
    destruct (Power.debugMode W Listener s); eexists; (split; [reflexivity|]); simpl; tauto.
  - simpl.
    destruct (Power.debugMode W Listener s); eexists; (split; [reflexivity|]); simpl; tauto.
Qed.

(** A loop all of whose iterations complete normally and keep [P]. *)
Lemma forEach_keeps {A S : Type} (P : S -> Prop) (f : A -> S -> Power.completion S)
    (array : list A) :
  (forall a s, P s -> exists s', f a s = Power.Normal s' /\ P s') ->
  forall s, P s -> exists s', Power.forEach f array s = Power.Normal s' /\ P s'.
Proof.
  intros Hf. induction array as [|a rest IH]; intros s HP; simpl.
  - eauto.
  - destruct (Hf a s HP) as (s1 & E1 & HP1). rewrite E1. simpl. now apply IH.
Qed.

(** The loop of [onLaserRotated] and [onLaserToggled] over the connections:
    those of the laser are off afterwards, the others are untouched. *)
Lemma laserLoop (now : Z) (id : string) (s : state) :
  exists s',
    Power.forEach
      (fun key s =>
         match Power.get key (powerStates s) with
         | Some powerState =>
             if String.prefix (String.append id "_") key && Power.isConnected powerState
             then emitEvent Power.LASER_LOST_CELL
                    (Power.LaserLostCell id (Power.powerCellId powerState))
                    (Power.with_powerStates W Listener
                       (Power.modify key (Power.disconnect now) (powerStates s)) s)
             else Power.Normal s
         | None => Power.Normal s
         end)
      (map fst (powerStates s)) s = Power.Normal s' /\
    (cellStates s' = cellStates s /\ laserStates s' = laserStates s) /\
    (forall key p, Power.get key (powerStates s') = Some p ->
       String.prefix (String.append id "_") key = true -> Power.isConnected p = false) /\
    (forall key, String.prefix (String.append id "_") key = false ->
       Power.get key (powerStates s') = Power.get key (powerStates s)).
Proof.
  match goal with |- context [Power.forEach ?f _ _] => set (body := f) end.
  destruct (dropLoop state powerStates (fun key _ => String.prefix (String.append id "_") key)
              (fun a b => cellStates b = cellStates a /\ laserStates b = laserStates a)
              now body) with (ks := map fst (powerStates s)) (s0 := s)
    as (s' & E & HR & Hkeys & Hin & _ & Hother).
  - tauto.
  - intros a b c [? ?] [? ?]. split; congruence.
  - reflexivity.
  - intros k s0. unfold body. destruct (Power.get k (powerStates s0)) as [p|]; [|reflexivity].
    rewrite andb_comm. destruct (String.prefix (String.append id "_") k && Power.isConnected p);
      [|reflexivity].
    destruct (emitEvent_frame Power.LASER_LOST_CELL
                (Power.LaserLostCell id (Power.powerCellId p))
                (Power.with_powerStates W Listener
                   (Power.modify k (Power.disconnect now) (powerStates s0)) s0))
      as (s1 & E1 & Hp1 & Hc1 & Hl1 & _).
    exists s1. simpl in *. tauto.
  - exists s'. split; [exact E|]. split; [exact HR|]. split; [|exact Hother].
    intros key p Hp Hpre. apply (Hin key p); auto.
    rewrite <- Hkeys. eapply get_In; eauto.
Qed.

(** Rotating an emitter, and switching off one that was recorded as on or
    not recorded, complete normally whatever the listeners do, and leave
    every connection whose key starts with the emitter's identifier and an
    underscore disconnected; the other connections and the states of the
    cells are untouched. *)
Theorem laser_rotation_or_switch_off_disconnects (now : Z) (laser : Entity.t) (s : state) :
  Entity.id laser <> ""%string ->
  let mine := String.prefix (String.append (Entity.id laser) "_") in
  let disconnected (s' : state) :=
    cellStates s' = cellStates s /\
    (forall key p, Power.get key (powerStates s') = Some p -> mine key = true ->
       Power.isConnected p = false) /\
    (forall key, mine key = false ->
       Power.get key (powerStates s') = Power.get key (powerStates s)) in
  (exists s', Power.onLaserRotated W Listener call now laser s = Power.Normal s' /\
              disconnected s') /\
  (Entity.isActive laser = false ->
   (forall recorded, Power.get (Entity.id laser) (laserStates s) = Some recorded ->
      Power.ls_isActive recorded = true) ->
   exists s', Power.onLaserToggled W Listener call now laser s = Power.Normal s' /\
              disconnected s').
Proof.
  intros Hid mine disconnected. split.
  - unfold Power.onLaserRotated.
    destruct (String.eqb (Entity.id laser) "") eqn:E; [apply String.eqb_eq in E; contradiction|].
    match goal with
    | |- context [Power.forEach _ (map fst (powerStates ?s1)) ?s1] =>
        destruct (laserLoop now (Entity.id laser) s1) as (s2 & E2 & [Hc2 _] & Hon2 & Hother2)
    end.
    rewrite E2. cbn [Power.andThen].
    match goal with
    | |- context [Power.emitEvent W Listener call ?e ?d ?s0] =>
        destruct (emitEvent_frame e d s0) as (s3 & E3 & Hp3 & Hc3 & _)
    end.
    exists s3. split; [exact E3|]. unfold disconnected, mine. rewrite Hp3, Hc3.
    simpl in Hc2, Hother2. auto.
  - intros Hoff Hrec. unfold Power.onLaserToggled.
    destruct (String.eqb (Entity.id laser) "") eqn:E; [apply String.eqb_eq in E; contradiction|].
    rewrite Hoff.
    assert (Hgo : forall s1 : state,
              cellStates s1 = cellStates s -> powerStates s1 = powerStates s ->
              exists s',
                Power.andThen
                  (Power.forEach
                     (fun key s =>
                        match Power.get key (powerStates s) with
                        | Some powerState =>
                            if String.prefix (String.append (Entity.id laser) "_") key
                               && Power.isConnected powerState
                            then emitEvent Power.LASER_LOST_CELL
                                   (Power.LaserLostCell (Entity.id laser)
                                      (Power.powerCellId powerState))
                                   (Power.with_powerStates W Listener
                                      (Power.modify key (Power.disconnect now) (powerStates s)) s)
                            else Power.Normal s
                        | None => Power.Normal s
                        end)
                     (map fst (powerStates s1)) s1)
                  (fun s =>
                     emitEvent Power.LASER_DEACTIVATED
                       (Power.LaserDeactivated (Entity.id laser) (Entity.getCenter laser)) s)
                = Power.Normal s' /\ disconnected s').
    { intros s1 Hc1 Hp1.
      destruct (laserLoop now (Entity.id laser) s1) as (s2 & E2 & [Hc2 _] & Hon2 & Hother2).
      rewrite E2. cbn [Power.andThen].
      match goal with
      | |- context [Power.emitEvent W Listener call ?e ?d ?s0] =>
          destruct (emitEvent_frame e d s0) as (s3 & E3 & Hp3 & Hc3 & _)
      end.
      exists s3. split; [exact E3|]. unfold disconnected, mine. rewrite Hp3, Hc3, <- Hp1.
      split; [congruence|]. auto. }
    destruct (Power.get (Entity.id laser) (laserStates s)) as [recorded|] eqn:Erec.
    + rewrite (Hrec recorded eq_refl). cbn [Bool.eqb negb]. apply Hgo; reflexivity.
    + apply Hgo; reflexivity.
Qed.

(** What every step of [update] keeps: the time stamp and the registry of
    listeners. *)
Let kept (s s' : state) : Prop :=
  lastUpdate s' = lastUpdate s /\ eventListeners s' = eventListeners s.

Let kept2 (st st' : state * list Entity.t) : Prop := kept (fst st) (fst st').

Ltac emit_step :=
  match goal with
  | |- context [Power.emitEvent W Listener call ?e ?d ?s0] =>
      let s1 := fresh "s" in
      let E := fresh "E" in
      destruct (emitEvent_frame e d s0) as (s1 & E & ? & ? & ? & ? & ? & ?);
      rewrite E; clear E; cbn [Power.andThen]
  end.

Ltac kept_solve :=
  cbn [fst snd Power.lastUpdate Power.eventListeners Power.powerStates Power.cellStates
       Power.laserStates Power.with_powerStates Power.with_cellStates
       Power.with_laserStates Power.with_stats Power.with_lastUpdate] in *; repeat match goal with H : _ /\ _ |- _ => destruct H end; split; congruence.

Ltac kept_done :=
  eexists; split; [reflexivity|]; unfold kept2, kept in *; kept_solve.

Lemma updateLaserState_kept (now : Z) (laser : Entity.t) (s0 s : state) :
  kept s0 s ->
  exists s', Power.updateLaserState W Listener call now laser s = Power.Normal s' /\ kept s0 s'.
Proof.
  intros HK. unfold Power.updateLaserState.
  destruct (Power.get (Entity.id laser) (laserStates s)) as [currentState|]; [|eauto].
  destruct (negb (Bool.eqb (Entity.isActive laser) (Power.ls_isActive currentState)));
    [destruct (Entity.isActive laser); emit_step|cbn [Power.andThen]];
    (destruct (negb (String.eqb (Entity.direction laser) (Power.ls_direction currentState)));
     [emit_step|cbn [Power.andThen]]); kept_done.
Qed.

Lemma updateLaserStates_kept (now : Z) (entities : list Entity.t) (s : state) :
  exists s', Power.updateLaserStates W Listener call now entities s = Power.Normal s' /\
             kept s s'.
Proof.
  unfold Power.updateLaserStates.
  apply (forEach_keeps (kept s)).
  - intros laser s1. apply updateLaserState_kept.
  - split; reflexivity.
Qed.

Lemma emit_frame (event : string) (data : Power.EventData) (st : state * list Entity.t) :
  exists st', Power.emit W Listener call event data st = Power.Normal st' /\
    snd st' = snd st /\
    powerStates (fst st') = powerStates (fst st) /\
    cellStates (fst st') = cellStates (fst st) /\
    kept (fst st) (fst st').
Proof.
  destruct st as [s entities]. unfold Power.emit. cbn [fst snd].
  destruct (emitEvent_frame event data s) as (s1 & E & ? & ? & ? & ? & ? & ?).
  rewrite E. eexists. split; [reflexivity|]. unfold kept. simpl. tauto.
Qed.

Ltac emit2_step :=
  match goal with
  | |- context [Power.emit W Listener call ?e ?d ?st0] =>
      let st1 := fresh "st" in
      let E := fresh "E" in
      destruct (emit_frame e d st0) as (st1 & E & ? & ? & ? & ?);
      rewrite E; clear E; cbn [Power.andThen]
  end.

Lemma beamOnCell_kept (now : Z) (lasers : list nat) (ci : nat) (beam : Power.Beam)
    (st0 st : state * list Entity.t) :
  kept2 st0 st ->
  exists st', Power.beamOnCell W Listener call now lasers ci beam st = Power.Normal st' /\
              kept2 st0 st'.
Proof.
  intros HK. unfold Power.beamOnCell. destruct st as [s entities].
  destruct (Power.start beam) as [beamStart|]; [|eauto].
  destruct (Power.end_ beam) as [beamEnd|]; [|eauto].
  destruct (nth_error entities ci) as [cell|]; [|eauto].
  destruct (Power.findLaserForBeam beamStart lasers entities) as [hit entities'].
  destruct hit as [li|]; [|eauto].
  destruct (nth_error entities' li) as [hitLaser|]; [|eauto].
  destruct (Power.withinReach _ _); [|eauto].
  set (key := Power.connectionKey _ _).
  match goal with
  | |- context [Power.get key (powerStates ?x)] =>
      match x with
      | Power.with_cellStates _ _ _ _ => set (s1 := x)
      end
  end.
  assert (Hfin : forall st1 : state * list Entity.t,
            kept (fst st0) (fst st1) ->
            exists st', Power.Normal st1 = Power.Normal st' /\ kept2 st0 st').
  { intros st1 H1. exists st1. split; [reflexivity|exact H1]. }
  assert (HK1 : kept (fst st0) s1) by exact HK.
  destruct (Power.get key (powerStates s1)) as [known|] eqn:Ek.
  - rewrite Ek. destruct (negb (Power.isConnected known)); [|now apply Hfin].
    emit2_step. apply Hfin. unfold kept2, kept in *. subst s1.
    clear Hfin. kept_solve.
  - match goal with
    | |- context [match Power.get key ?m with _ => _ end] =>
        destruct (Power.get key m) as [powerState|]
    end; [|now apply Hfin].
    destruct (negb (Power.isConnected powerState)); [|now apply Hfin].
    emit2_step. apply Hfin. unfold kept2, kept in *. subst s1.
    clear Hfin. kept_solve.
Qed.

Lemma updateCell_kept (now : Z) (lasers : list nat) (laserBeams : list Power.Beam) (ci : nat)
    (st0 st : state * list Entity.t) :
  kept2 st0 st ->
  exists st', Power.updateCell W Listener call now lasers laserBeams ci st = Power.Normal st' /\
              kept2 st0 st'.
Proof.
  intros HK. unfold Power.updateCell.
  destruct (nth_error (snd st) ci) as [cell0|]; [|eauto].
  destruct (Power.get (Entity.id cell0) (cellStates (fst st))) as [known|]; [|eauto].
  destruct (forEach_keeps (kept2 st0) (Power.beamOnCell W Listener call now lasers ci)
              laserBeams (fun beam st1 => beamOnCell_kept now lasers ci beam st0 st1) st HK)
    as ([s1 entities1] & E1 & HK1).
  rewrite E1. cbn [Power.andThen].
  destruct (Power.get (Entity.id cell0) (cellStates s1)) as [cellState|]; [|eauto].
  destruct (nth_error entities1 ci) as [cell|]; [|eauto].
  destruct (negb (Bool.eqb _ _)); [|eauto].
  match goal with
  | |- context [if ?b then Power.emit _ _ _ _ _ _ else _] => destruct b
  end; emit2_step;
    kept_done.
Qed.

(** [lost] as [checkConnection] computes it. *)
Let lost (key : string) (st : state * list Entity.t) : bool :=
  match nth_error (Power.split_ key) 1 with
  | Some c =>
      match Power.get c (cellStates (fst st)) with
      | Some cellState =>
          negb (existsb (String.eqb (nth 0 (Power.split_ key) ""%string))
                        (Power.poweringLasers cellState))
      | None => true
      end
  | None => true
  end.

Lemma updatePowerCellStates_spec (now : Z) (laserBeams : list Power.Beam)
    (st : state * list Entity.t) :
  exists st',
    Power.updatePowerCellStates W Listener call now laserBeams st = Power.Normal st' /\
    kept2 st st' /\
    (forall key p, Power.get key (powerStates (fst st')) = Some p ->
       Power.isConnected p = true -> lost key st' = false).
Proof.
  unfold Power.updatePowerCellStates.
  set (powerCells := TileLoader.indicesOf (Entity.isA "PowerCell") (snd st) 0).
  set (lasers := TileLoader.indicesOf (Entity.isA "LaserEmitter") (snd st) 0).
  match goal with
  | |- context [Power.forEach _ powerCells ?st1] => set (st1' := st1)
  end.
  assert (HK1 : kept2 st st1').
  { unfold st1'. generalize powerCells. intros l.
    assert (H : forall st2, kept2 st st2 ->
              kept2 st (fold_left
                (fun (st : state * list Entity.t) ci =>
                   match nth_error (snd st) ci with
                   | Some cell =>
                       (Power.with_cellStates W Listener
                          (Power.modify (Entity.id cell) (Power.set_poweringLasers [])
                             (cellStates (fst st))) (fst st), snd st)
                   | None => st
                   end) l st2)).
    { induction l as [|ci l IH]; intros st2 H2; simpl; [exact H2|].
      apply IH. destruct (nth_error (snd st2) ci); [|exact H2]. exact H2. }
    apply H. split; reflexivity. }
  clearbody st1'.
  destruct (forEach_keeps (kept2 st) (Power.updateCell W Listener call now lasers laserBeams)
              powerCells (fun ci st2 => updateCell_kept now lasers laserBeams ci st st2)
              st1' HK1) as (st2 & E2 & HK2).
  rewrite E2. cbn [Power.andThen].
  destruct (dropLoop (state * list Entity.t) (fun st => powerStates (fst st)) lost
              (fun a b => cellStates (fst b) = cellStates (fst a) /\ kept2 a b)
              now (Power.checkConnection W Listener call now))
    with (ks := map fst (powerStates (fst st2))) (s0 := st2)
    as (st3 & E3 & [Hc3 HK3] & Hkeys3 & Hin3 & _ & _).
  - intros s0. split; [reflexivity|split; reflexivity].
  - intros a b c [Hab Kab] [Hbc Kbc]. split; [congruence|].
    unfold kept2, kept in *. intuition congruence.
  - intros a b k [Hab _]. unfold lost. now rewrite Hab.
  - intros k [s0 entities0]. unfold Power.checkConnection. cbn [fst].
    destruct (Power.get k (powerStates s0)) as [p|]; [|reflexivity].
    destruct (Power.isConnected p); [|reflexivity]. cbn [andb].
    unfold lost. cbn [fst].
    match goal with
    | |- context [if ?b then exists _, _ else _] => destruct b
    end; [|reflexivity].
    emit2_step. eexists. split; [reflexivity|]. unfold kept2, kept in *. cbn in *.
    intuition congruence.
  - exists st3. split; [exact E3|]. split.
    { unfold kept2, kept in *. intuition congruence. }
    intros key p Hp Hon.
    destruct (lost key st3) eqn:El; [|reflexivity].
    assert (Hin : In key (map fst (powerStates (fst st2)))).
    { rewrite <- Hkeys3. eapply get_In; eauto. }
    assert (El2 : lost key st2 = true) by (unfold lost in *; now rewrite <- Hc3).
    rewrite (Hin3 key p Hin Hp El2) in Hon. discriminate.
Qed.

Lemma get_map_values {V : Type} (f : V -> V) (k : string) (m : list (string * V)) :
  Power.get k (map (fun kv : string * V => (fst kv, f (snd kv))) m)
  = option_map f (Power.get k m).
Proof.
  induction m as [|[k0 v0] m IH]; simpl; [reflexivity|].
  now destruct (String.eqb k k0).
Qed.

Lemma update_spec (now : Z) (laserBeams : list Power.Beam) (st : state * list Entity.t) :
  exists st',
    Power.update W Listener call now laserBeams st = Power.Normal st' /\
    lastUpdate (fst st') = now /\
    eventListeners (fst st') = eventListeners (fst st) /\
    Power.statsTotalPowerTime W Listener (fst st')
    = fold_left (fun sum kv => sum + Power.totalPowerTime (snd kv)) (powerStates (fst st')) 0 /\
    (forall key p, Power.get key (powerStates (fst st')) = Some p ->
       Power.isConnected p = true -> lost key st' = false).
Proof.
  unfold Power.update. destruct st as [s entities].
  destruct (updateLaserStates_kept now entities (Power.with_lastUpdate W Listener now s))
    as (s1 & E1 & HK1).
  rewrite E1.
  destruct (updatePowerCellStates_spec now laserBeams (s1, entities))
    as ([s2 entities2] & E2 & HK2 & Hon2).
  rewrite E2. cbn [Power.andThen fst snd].
  eexists. split; [reflexivity|].
  unfold Power.updateStatistics, Power.updateConnectionStates.
  destruct HK1 as [HK1a HK1b]. destruct HK2 as [HK2a HK2b].
  cbn [fst snd Power.lastUpdate Power.eventListeners Power.powerStates Power.cellStates
       Power.statsTotalPowerTime Power.with_powerStates Power.with_stats
       Power.with_lastUpdate] in *.
  split; [congruence|]. split; [congruence|]. split; [reflexivity|].
  intros key p Hp Hon. rewrite get_map_values in Hp.
  destruct (Power.get key (powerStates s2)) as [p2|] eqn:E; [|discriminate].
  simpl in Hp. inversion Hp; subst p.
  assert (Hon2' : Power.isConnected p2 = true).
  { unfold Power.updateTotalTime in Hon.
    destruct (Power.isConnected p2) eqn:Ep2; [reflexivity|congruence]. }
  exact (Hon2 key p2 E Hon2').
Qed.

(** [update] completes normally whatever the listeners do.  It stamps the
    manager with the clock reading, leaves the registry of listeners as it
    was, and sets the total power time of the statistics to the sum over
    the connections. *)
Theorem update_completes_normally (now : Z) (laserBeams : list Power.Beam)
    (st : state * list Entity.t) :
  exists st',
    Power.update W Listener call now laserBeams st = Power.Normal st' /\
    lastUpdate (fst st') = now /\
    eventListeners (fst st') = eventListeners (fst st) /\
    Power.statsTotalPowerTime W Listener (fst st')
    = fold_left (fun sum kv => sum + Power.totalPowerTime (snd kv)) (powerStates (fst st')) 0.
Proof.
  destruct (update_spec now laserBeams st) as (st' & E & H1 & H2 & H3 & _).
  exists st'. auto.
Qed.

(** After [update], a connection is connected only if the update found it:
    its key splits at an underscore into a laser and a cell, the cell has a
    state, and the laser is among the lasers powering the cell. *)
Theorem connected_after_update_means_powering (now : Z) (laserBeams : list Power.Beam)
    (st : state * list Entity.t) :
  exists st',
    Power.update W Listener call now laserBeams st = Power.Normal st' /\
    forall key p,
      Power.get key (powerStates (fst st')) = Some p -> Power.isConnected p = true ->
      exists cell cellState,
        nth_error (Power.split_ key) 1 = Some cell /\
        Power.get cell (cellStates (fst st')) = Some cellState /\
        In (nth 0 (Power.split_ key) ""%string) (Power.poweringLasers cellState).
Proof.
  destruct (update_spec now laserBeams st) as (st' & E & _ & _ & _ & Hon).
  exists st'. split; [exact E|]. intros key p Hp Hc.
  specialize (Hon key p Hp Hc). unfold lost in Hon.
  destruct (nth_error (Power.split_ key) 1) as [cell|] eqn:Ecell; [|discriminate].
  destruct (Power.get cell (cellStates (fst st'))) as [cellState|] eqn:Estate;
    [|discriminate].
  exists cell, cellState.
  split; [first [reflexivity|exact Ecell]|]. split; [first [reflexivity|exact Estate]|].
  apply negb_false_iff in Hon. apply existsb_exists in Hon.
  destruct Hon as (l & Hin & Heq). apply String.eqb_eq in Heq. now subst.
Qed.

End Connections.

Lemma laser_rotation_or_switch_off_disconnects_witness :
  let turned := tileEntity "LaserEmitter"%string "laser1"%string 64 64 true "S"%string false in
  let switchedOff :=
    tileEntity "LaserEmitter"%string "laser1"%string 64 64 false "E"%string false in
  let key := "laser1_cell1"%string in
  connectionOn key connectedManager = Some true /\
  (exists s',
     Power.onLaserRotated Journal string journalist 2000 turned connectedManager
     = Power.Normal s' /\
     connectionOn key s' = Some false /\
     Power.cellStates Journal string s' = Power.cellStates Journal string connectedManager) /\
  (exists s',
     Power.onLaserToggled Journal string journalist 2000 switchedOff connectedManager
     = Power.Normal s' /\
     connectionOn key s' = Some false /\
     Power.cellStates Journal string s' = Power.cellStates Journal string connectedManager).
Proof.
  intros turned switchedOff key. split; [vm_compute; reflexivity|]. split.
  - destruct (proj1 (laser_rotation_or_switch_off_disconnects Journal string journalist 2000
                       turned connectedManager ltac:(discriminate)))
      as (s' & E & Hc & Hoff & _).
    exists s'. split; [exact E|]. split; [|exact Hc].
    assert (Hrun : match Power.onLaserRotated Journal string journalist 2000 turned
                           connectedManager with
                   | Power.Normal s => connectionOn key s <> None
                   | Power.Abrupt _ _ => False
                   end) by (vm_compute; discriminate).
    rewrite E in Hrun. unfold connectionOn in *.
    destruct (Power.get key (Power.powerStates Journal string s')) as [p|] eqn:G.
    + cbn [option_map]. f_equal. apply (Hoff key p G). reflexivity.
    + exfalso. apply Hrun. reflexivity.
  - destruct (proj2 (laser_rotation_or_switch_off_disconnects Journal string journalist 2000
                       switchedOff connectedManager ltac:(discriminate)))
      as (s' & E & Hc & Hoff & _).
    + reflexivity.
    + intros recorded H. vm_compute in H. inversion H. reflexivity.
    + exists s'. split; [exact E|]. split; [|exact Hc].
      assert (Hrun : match Power.onLaserToggled Journal string journalist 2000 switchedOff
                             connectedManager with
                     | Power.Normal s => connectionOn key s <> None
                     | Power.Abrupt _ _ => False
                     end) by (vm_compute; discriminate).
      rewrite E in Hrun. unfold connectionOn in *.
      destruct (Power.get key (Power.powerStates Journal string s')) as [p|] eqn:G.
      * cbn [option_map]. f_equal. apply (Hoff key p G). reflexivity.
      * exfalso. apply Hrun. reflexivity.
Defined.

(** The listeners of the lit scene hear of the lost connection when the
    emitter is rotated. *)
Example rotation_reports_lost_connection :
  match Power.onLaserRotated Journal string journalist 2000
          (tileEntity "LaserEmitter"%string "laser1"%string 64 64 true "S"%string false)
          connectedManager with
  | Power.Normal s' =>
      map fst (Power.world Journal string s')
      = ["on_laser_hit_cell"; "on_cell_powered"; "on_laser_lost_cell"]%string
  | Power.Abrupt _ _ => False
  end.
Proof. vm_compute. reflexivity. Qed.

(** An emitter without an identifier is ignored: nothing is recorded and
    no listener is called. *)
Example rotation_of_nameless_emitter_ignored :
  Power.onLaserRotated Journal string journalist 2000
    (tileEntity "LaserEmitter"%string ""%string 64 64 true "S"%string false) connectedManager
  = Power.Normal connectedManager.
Proof. reflexivity. Qed.

(** ** collision.js: the slab test *)

Lemma sign_zero (q : Q) : (q == 0)%Q -> Collision.sign q = Eq.
Proof.
  unfold Collision.sign, Qeq. simpl. intros H. apply Z.compare_eq_iff. lia.
Qed.

Lemma nmin_defined (a b : Collision.num) :
  Collision.nmin a b <> Collision.NaN -> a <> Collision.NaN /\ b <> Collision.NaN.
Proof. destruct a, b; simpl; intros H; split; congruence. Qed.

Lemma nmax_defined (a b : Collision.num) :
  Collision.nmax a b <> Collision.NaN -> a <> Collision.NaN /\ b <> Collision.NaN.
Proof. destruct a, b; simpl; intros H; split; congruence. Qed.

Lemma nlt_defined (a b : Collision.num) :
  Collision.nlt a b = true -> a <> Collision.NaN /\ b <> Collision.NaN.
Proof. destruct a, b; simpl; intros H; split; congruence. Qed.

(** A number not below the larger of two is below neither. *)
Lemma above_nmax (a b : Collision.num) (q : Q) :
  a <> Collision.NaN -> b <> Collision.NaN ->
  Collision.nlt (Collision.Fin q) (Collision.nmax a b) = false ->
  Collision.nlt (Collision.Fin q) a = false /\ Collision.nlt (Collision.Fin q) b = false.
Proof.
  intros Ha Hb. destruct a as [p| | |], b as [r| | |]; try congruence; simpl;
    try (intros H; split; (reflexivity || exact H || discriminate)).
  - destruct (Qltb p r) eqn:E; simpl; intros H.
    + apply Qltb_true in E. apply Qltb_false in H. split; [|now apply Qltb_false].
      apply Qltb_false. lra.
    + apply Qltb_false in E. apply Qltb_false in H. split; [now apply Qltb_false|].
      apply Qltb_false. lra.
Qed.

(** A number not above the smaller of two is above neither. *)
Lemma below_nmin (a b : Collision.num) (q : Q) :
  a <> Collision.NaN -> b <> Collision.NaN ->
  Collision.nlt (Collision.nmin a b) (Collision.Fin q) = false ->
  Collision.nlt a (Collision.Fin q) = false /\ Collision.nlt b (Collision.Fin q) = false.
Proof.
  intros Ha Hb. destruct a as [p| | |], b as [r| | |]; try congruence; simpl;
    try (intros H; split; (reflexivity || exact H || discriminate)).
  - destruct (Qltb r p) eqn:E; simpl; intros H.
    + apply Qltb_true in E. apply Qltb_false in H. split; [|now apply Qltb_false].
      apply Qltb_false. lra.
    + apply Qltb_false in E. apply Qltb_false in H. split; [now apply Qltb_false|].
      apply Qltb_false. lra.
Qed.

(** One axis of the slab test: a parameter between the two crossings puts
    the coordinate between the two faces. *)
Lemma slab_axis (s d b w q : Q) :
  (0 <= w)%Q ->
  let inv := if Qeq_bool d 0 then Collision.PInf else Collision.Fin (1 / d) in
  let t1 := Collision.nmul (Collision.Fin (b - s)) inv in
  let t2 := Collision.nmul (Collision.Fin (b + w - s)) inv in
  t1 <> Collision.NaN -> t2 <> Collision.NaN ->
  Collision.nlt (Collision.Fin q) (Collision.nmin t1 t2) = false ->
  Collision.nlt (Collision.nmax t1 t2) (Collision.Fin q) = false ->
  (b <= s + d * q /\ s + d * q <= b + w)%Q.
Proof.
  intros Hw. cbv zeta.
  destruct (Qeq_bool d 0) eqn:Ed.
  - apply Qeq_bool_iff in Ed.
    assert (Hs : (s + d * q == s)%Q) by (rewrite Ed; ring).
    rewrite Hs. simpl Collision.nmul.
    destruct (Qlt_le_dec (b - s) 0) as [H1|H1];
      [rewrite (sign_negative _ H1)
      |destruct (Qle_lt_or_eq _ _ H1) as [H1'|H1'];
         [rewrite (sign_positive _ H1')|rewrite (sign_zero (b - s)) by (symmetry; exact H1')]];
      (destruct (Qlt_le_dec (b + w - s) 0) as [H2|H2];
       [rewrite (sign_negative _ H2)
       |destruct (Qle_lt_or_eq _ _ H2) as [H2'|H2'];
          [rewrite (sign_positive _ H2')
          |rewrite (sign_zero (b + w - s)) by (symmetry; exact H2')]]);
      simpl; intros N1 N2 L U; try congruence; try discriminate; split; lra.
  - assert (Hd : ~ (d == 0)%Q).
    { intros E. apply Qeq_bool_iff in E. congruence. }
    destruct (Qinv_spec d Hd) as (Hinv & Hpos & Hneg).
    simpl Collision.nmul. intros _ _.
    set (r := (1 / d)%Q) in *. clearbody r.
    set (u := ((b - s) * r)%Q). set (v := ((b + w - s) * r)%Q).
    assert (Hu : (u * d == b - s)%Q).
    { unfold u. setoid_replace ((b - s) * r * d)%Q with ((b - s) * (d * r))%Q by ring.
      rewrite Hinv. ring. }
    assert (Hv : (v * d == b + w - s)%Q).
    { unfold v. setoid_replace ((b + w - s) * r * d)%Q with ((b + w - s) * (d * r))%Q by ring.
      rewrite Hinv. ring. }
    assert (Hvu : (v - u == w * r)%Q) by (unfold u, v; ring).
    clearbody u v. simpl.
    intros L U.
    assert (HL : (u <= q \/ v <= q)%Q).
    { destruct (Qltb v u); apply Qltb_false in L; auto. }
    assert (HU : (q <= u \/ q <= v)%Q).
    { destruct (Qltb u v); apply Qltb_false in U; auto. }
    destruct (Qlt_le_dec 0 d) as [Hd0|Hd0].
    + pose proof (Hpos Hd0) as Hr.
      assert (Huv : (u <= v)%Q) by nra.
      assert (H1 : (u <= q)%Q) by (destruct HL; lra).
      assert (H2 : (q <= v)%Q) by (destruct HU; lra).
      assert (H3 : (u * d <= q * d)%Q) by (apply Qmult_le_compat_r; lra).
      assert (H4 : (q * d <= v * d)%Q) by (apply Qmult_le_compat_r; lra).
      setoid_replace (d * q)%Q with (q * d)%Q by ring. lra.
    + assert (Hd1 : (d < 0)%Q).
      { destruct (Qle_lt_or_eq _ _ Hd0) as [H|H]; [exact H|contradiction]. }
      pose proof (Hneg Hd1) as Hr.
      assert (Huv : (v <= u)%Q) by nra.
      assert (H1 : (v <= q)%Q) by (destruct HL; lra).
      assert (H2 : (q <= u)%Q) by (destruct HU; lra).
      assert (H3 : (q * (- d) <= u * (- d))%Q) by (apply Qmult_le_compat_r; lra).
      assert (H4 : (v * (- d) <= q * (- d))%Q) by (apply Qmult_le_compat_r; lra).
      setoid_replace (d * q)%Q with (q * d)%Q by ring. lra.
Qed.
Lemma lineAABBIntersect_inside (start end_ : Vector2.t) (rect : Entity.Bounds)
    (h : Collision.Hit) (q : Q) :
  (0 <= Entity.bwidth rect)%Q -> (0 <= Entity.bheight rect)%Q ->
  Collision.lineAABBIntersect start end_ rect = Some h ->
  Collision.t h = Collision.Fin q ->
  let p := Vector2.add start (Vector2.multiply (Vector2.subtract end_ start) q) in
  Collision.hpoint h = Collision.Pt p /\
  (Entity.bx rect <= Vector2.x p /\ Vector2.x p <= Entity.bx rect + Entity.bwidth rect /\
   Entity.by_ rect <= Vector2.y p /\ Vector2.y p <= Entity.by_ rect + Entity.bheight rect)%Q.
Proof.
  intros Hw Hh Hrun Ht.
  pose proof (slab_axis (Vector2.x start) (Vector2.x (Vector2.subtract end_ start))
                (Entity.bx rect) (Entity.bwidth rect) q Hw) as Hx.
  pose proof (slab_axis (Vector2.y start) (Vector2.y (Vector2.subtract end_ start))
                (Entity.by_ rect) (Entity.bheight rect) q Hh) as Hy.
  cbv zeta in Hx, Hy.
  unfold Collision.lineAABBIntersect in Hrun. cbv zeta in Hrun.
  set (t1 := Collision.nmul (Collision.Fin (Entity.bx rect - Vector2.x start)) _) in *.
  set (t2 := Collision.nmul
               (Collision.Fin (Entity.bx rect + Entity.bwidth rect - Vector2.x start)) _) in *.
  set (t3 := Collision.nmul (Collision.Fin (Entity.by_ rect - Vector2.y start)) _) in *.
  set (t4 := Collision.nmul
               (Collision.Fin (Entity.by_ rect + Entity.bheight rect - Vector2.y start)) _) in *.
  clearbody t1 t2 t3 t4.
  set (tMin := Collision.nmax (Collision.nmin t1 t2) (Collision.nmin t3 t4)) in *.
  set (tMax := Collision.nmin (Collision.nmax t1 t2) (Collision.nmax t3 t4)) in *.
  destruct (_ || _) eqn:E1 in Hrun; [discriminate|].
  apply orb_false_iff in E1. destruct E1 as [E1 E3].
  apply orb_false_iff in E1. destruct E1 as [E1 E2].
  assert (Hfacts : tMin <> Collision.NaN /\
                   Collision.nlt (Collision.Fin q) tMin = false /\
                   Collision.nlt tMax (Collision.Fin q) = false /\
                   Collision.hpoint h
                   = Collision.Pt (Vector2.add start
                                     (Vector2.multiply (Vector2.subtract end_ start) q))).
  { destruct (Collision.nlt tMin (Collision.Fin 0)) eqn:E4.
    - destruct (Collision.nlt (Collision.Fin 1) tMax) eqn:E5; [discriminate|].
      destruct tMax as [qm| | |] eqn:EM; inversion Hrun; subst h; simpl in Ht;
        try discriminate.
      inversion Ht; subst qm.
      split; [exact (proj1 (nlt_defined _ _ E4))|]. split; [exact E2|].
      split; [|reflexivity]. simpl. apply Qltb_false. lra.
    - destruct (Collision.nlt (Collision.Fin 1) tMin) eqn:E5; [discriminate|].
      destruct tMin as [qm| | |] eqn:Em; inversion Hrun; subst h; simpl in Ht;
        try discriminate.
      inversion Ht; subst qm.
      split; [discriminate|]. split; [simpl; apply Qltb_false; lra|].
      split; [exact E2|reflexivity]. }
  destruct Hfacts as (Hdef & Hlo & Hhi & Hpt).
  destruct (nmax_defined _ _ Hdef) as [Hdx Hdy].
  destruct (nmin_defined _ _ Hdx) as [D1 D2].
  destruct (nmin_defined _ _ Hdy) as [D3 D4].
  assert (Hmx : Collision.nmax t1 t2 <> Collision.NaN).
  { destruct t1, t2; simpl; try congruence; destruct (Qltb _ _); discriminate. }
  assert (Hmy : Collision.nmax t3 t4 <> Collision.NaN).
  { destruct t3, t4; simpl; try congruence; destruct (Qltb _ _); discriminate. }
  destruct (above_nmax _ _ q Hdx Hdy Hlo) as [Lx Ly].
  destruct (below_nmin _ _ q Hmx Hmy Hhi) as [Ux Uy].
  specialize (Hx D1 D2 Lx Ux). specialize (Hy D3 D4 Ly Uy).
  cbv zeta. split; [exact Hpt|].
  unfold Vector2.add, Vector2.multiply. cbn [Vector2.x Vector2.y]. tauto.
Qed.

(** ** dungeonGen.js: the repairs of the tile loader *)

Lemma safeCell_complete (tile : Tile.t) (prefabs : list Prefab.t) (x y : Z) :
  floorAt tile (x, y) -> (forall p, In p prefabs -> Prefab.pos p <> (x, y)) ->
  TileLoader.safeCell (TileLoader.collisionOf tile) prefabs x y = true.
Proof.
  intros (Hx & Hy & row & Hrow & Hget) Hfree. simpl in Hx, Hy, Hrow, Hget.
  unfold TileLoader.safeCell. rewrite Hrow.
  assert (Hlen : (Z.to_nat y < List.length (TileLoader.collisionOf tile))%nat).
  { apply nth_error_Some. congruence. }
  pose proof (string_get_lt _ _ _ Hget) as Hxl.
  assert (Hocc : TileLoader.occupied prefabs x y = false).
  { unfold TileLoader.occupied. apply not_true_is_false. intros H.
    apply existsb_exists in H. destruct H as (p & Hin & Hp).
    apply andb_true_iff in Hp. destruct Hp as [H1 H2].
    apply Z.eqb_eq in H1, H2. apply (Hfree p Hin).
    rewrite (surjective_pairing (Prefab.pos p)). now rewrite H1, H2. }
  rewrite Hocc. unfold TileLoader.charAt.
  replace (x <? 0) with false by lia. rewrite Hget.
  replace (y <? Z.of_nat (List.length (TileLoader.collisionOf tile))) with true by lia.
  replace (x <? Z.of_nat (String.length row)) with true by lia. reflexivity.
Qed.

Lemma safeCells_iff (tile : Tile.t) (prefabs : list Prefab.t) (w h x y : Z) :
  Tile.size tile = Some (w, h) ->
  (In (x, y) (safeCells tile prefabs) <->
   1 <= x <= w - 2 /\ 1 <= y <= h - 2 /\ floorAt tile (x, y) /\
   forall p, In p prefabs -> Prefab.pos p <> (x, y)).
Proof.
  intros Hsize. split.
  - intros Hin. destruct (safeCells_In tile prefabs (x, y) Hin) as [Hf Hfree].
    unfold safeCells in Hin. rewrite Hsize in Hin.
    apply in_flat_map in Hin. destruct Hin as (y' & Hy & Hin).
    apply in_flat_map in Hin. destruct Hin as (x' & Hx & Hin).
    destruct (TileLoader.safeCell _ _ x' y'); [|destruct Hin].
    destruct Hin as [E|[]]. inversion E; subst.
    apply rangeIncl_In in Hx, Hy. auto.
  - intros (Hx & Hy & Hf & Hfree). unfold safeCells. rewrite Hsize.
    apply in_flat_map. exists y. split; [now apply rangeIncl_In|].
    apply in_flat_map. exists x. split; [now apply rangeIncl_In|].
    rewrite (safeCell_complete tile prefabs x y Hf Hfree). now left.
Qed.

Lemma findSafePositions_firstn (tile : Tile.t) (prefabs : list Prefab.t) (count w h : Z) :
  Tile.size tile = Some (w, h) -> 0 <= count ->
  TileLoader.findSafePositions tile prefabs count
  = Done (firstn (Z.to_nat count) (safeCells tile prefabs)).
Proof.
  intros Hsize Hc. unfold TileLoader.findSafePositions, safeCells, TileLoader.slice0.
  rewrite Hsize. replace (count <? 0) with false by lia. reflexivity.
Qed.

Lemma NoDup_firstn_of {A : Type} (n : nat) (l : list A) : NoDup l -> NoDup (firstn n l).
Proof.
  intros H. rewrite <- (firstn_skipn n l) in H. now apply NoDup_app_remove_r in H.
Qed.

(** [findSafePositions(tile, count)] throws on a template without [size].
    Otherwise, for a count that is not negative, it returns at most [count]
    cells, no cell twice: each is an interior cell whose collision character
    is ".", the position of no prefab; and when it returns fewer than
    [count] cells it returns every such cell. *)
Theorem findSafePositions_free_interior_floor (tile : Tile.t) (prefabs : list Prefab.t)
    (count : Z) :
  (Tile.size tile = None -> TileLoader.findSafePositions tile prefabs count = Thrown) /\
  (forall w h, Tile.size tile = Some (w, h) -> 0 <= count ->
   exists cells,
     TileLoader.findSafePositions tile prefabs count = Done cells /\
     NoDup cells /\ Z.of_nat (List.length cells) <= count /\
     (forall x y, In (x, y) cells ->
        1 <= x <= w - 2 /\ 1 <= y <= h - 2 /\ floorAt tile (x, y) /\
        forall p, In p prefabs -> Prefab.pos p <> (x, y)) /\
     (Z.of_nat (List.length cells) < count ->
      forall x y,
        1 <= x <= w - 2 -> 1 <= y <= h - 2 -> floorAt tile (x, y) ->
        (forall p, In p prefabs -> Prefab.pos p <> (x, y)) -> In (x, y) cells)).
Proof.
  split.
  - intros Hsize. unfold TileLoader.findSafePositions. now rewrite Hsize.
  - intros w h Hsize Hc. eexists. split; [now apply (findSafePositions_firstn _ _ _ w h)|].
    split; [apply NoDup_firstn_of, NoDup_safeCells|]. split; [|split].
    + rewrite length_firstn. lia.
    + intros x y Hin. apply firstn_In in Hin. now apply (safeCells_iff tile prefabs w h).
    + intros Hlt x y Hx Hy Hf Hfree. rewrite length_firstn in Hlt.
      rewrite firstn_all2 by lia.
      apply (safeCells_iff tile prefabs w h); auto.
Qed.
Lemma count_by_type (ty : string) (l l' : list Prefab.t) :
  map Prefab.type l = map Prefab.type l' ->
  List.length (filter (TileLoader.isType ty) l)
  = List.length (filter (TileLoader.isType ty) l').
Proof.
  revert l'. induction l as [|p l IH]; intros [|p' l'] H; simpl in H; try discriminate;
    [reflexivity|].
  inversion H as [[Hp Hl]]. specialize (IH l' Hl). cbn [filter].
  replace (TileLoader.isType ty p) with (TileLoader.isType ty p')
    by (unfold TileLoader.isType; now rewrite Hp).
  destruct (TileLoader.isType ty p'); simpl; congruence.
Qed.

Lemma map_type_updateAt_same (f : Prefab.t -> Prefab.t) (i : nat) (l : list Prefab.t) :
  (forall c, Prefab.type (f c) = Prefab.type c) ->
  map Prefab.type (updateAt i f l) = map Prefab.type l.
Proof.
  intros Hf. revert i. induction l as [|p l IH]; intros [|i]; simpl; try reflexivity.
  - now rewrite Hf.
  - now rewrite IH.
Qed.

Lemma alignLoop_types (tile : Tile.t) (pairs : list (nat * nat)) :
  forall prefabs prefabs',
    TileLoader.alignLoop tile pairs prefabs = Done prefabs' ->
    map Prefab.type prefabs' = map Prefab.type prefabs.
Proof.
  induction pairs as [|[li ci] rest IH]; intros prefabs prefabs' Hrun; simpl in Hrun.
  - now inversion Hrun.
  - destruct (nth_error prefabs li) as [laser|]; [|now apply IH].
    destruct (nth_error prefabs ci) as [powerCell|]; [|now apply IH].
    destruct (TileLoader.dirIs laser "E" || TileLoader.dirIs laser "W").
    + destruct (TileLoader.findSafePositionNear tile prefabs _ _) as [[[sx sy]|]| |];
        simpl in Hrun; try discriminate; [|now apply IH].
      rewrite (IH _ _ Hrun). now apply map_type_updateAt_same.
    + destruct (TileLoader.dirIs laser "N" || TileLoader.dirIs laser "S"); [|now apply IH].
      destruct (TileLoader.findSafePositionNear tile prefabs _ _) as [[[sx sy]|]| |];
        simpl in Hrun; try discriminate; [|now apply IH].
      rewrite (IH _ _ Hrun). now apply map_type_updateAt_same.
Qed.

Lemma alignLasersAndPowerCells_types (tile : Tile.t) (prefabs prefabs' : list Prefab.t) :
  TileLoader.alignLasersAndPowerCells tile prefabs = Done prefabs' ->
  map Prefab.type prefabs' = map Prefab.type prefabs.
Proof.
  unfold TileLoader.alignLasersAndPowerCells.
  destruct (TileLoader.indicesOf (TileLoader.isType "LaserEmitter") prefabs 0);
    [intros H; now inversion H|].
  destruct (TileLoader.indicesOf (TileLoader.isType "PowerCell") prefabs 0);
    [intros H; now inversion H|].
  apply alignLoop_types.
Qed.

(** The prefabs that [addPowerCellsToMatch] and [addLasersToMatch] append:
    one per position found, of the given type. *)
Lemma added_prefabs (tile : Tile.t) (prefabs : list Prefab.t) (ty : string)
    (make : nat * (Z * Z) -> Prefab.t) (needed : Z) :
  (forall ip, Prefab.type (make ip) = ty /\ Prefab.pos (make ip) = snd ip) ->
  0 <= needed ->
  let added := map make (combine (seq 0 (Z.to_nat needed))
                           (firstn (Z.to_nat needed) (safeCells tile prefabs))) in
  Z.of_nat (List.length added)
  = Z.min needed (Z.of_nat (List.length (safeCells tile prefabs))) /\
  Forall (fun p => Prefab.type p = ty) added /\
  rowsFromZero added.
Proof.
  intros Hmake Hn added. unfold added. split; [|split].
  - rewrite length_map, length_combine, length_seq, length_firstn. lia.
  - apply Forall_map, Forall_forall. intros ip _. apply Hmake.
  - unfold rowsFromZero. apply Forall_map, Forall_forall. intros [i pos] Hin.
    rewrite (proj2 (Hmake (i, pos))). simpl.
    apply in_combine_r, firstn_In in Hin.
    apply (safeCells_In tile prefabs pos Hin).
Qed.

Lemma count_added (ty ty' : string) (added : list Prefab.t) :
  Forall (fun p => Prefab.type p = ty) added ->
  List.length (filter (TileLoader.isType ty') added)
  = if String.eqb ty ty' then List.length added else 0%nat.
Proof.
  intros H. induction H as [|p l Hp Hl IH]; [now destruct (String.eqb ty ty')|].
  cbn [filter]. replace (TileLoader.isType ty' p) with (String.eqb ty ty')
    by (unfold TileLoader.isType; now rewrite Hp).
  destruct (String.eqb ty ty'); simpl; congruence.
Qed.

Lemma balance_counts (tile : Tile.t) (prefabs : list Prefab.t) (w h : Z) :
  Tile.size tile = Some (w, h) ->
  Tile.prefabs tile = Some prefabs ->
  rowsFromZero prefabs ->
  let lasers := Z.of_nat (List.length (filter isLaser prefabs)) in
  let cells := Z.of_nat (List.length (filter isCell prefabs)) in
  let free := Z.of_nat (List.length (safeCells tile prefabs)) in
  exists prefabs',
    TileLoader.balanceLaserAndPowerCells tile = Done (TileLoader.set_prefabs prefabs' tile) /\
    Z.of_nat (List.length (filter isLaser prefabs'))
    = lasers + Z.min (Z.max 0 (cells - lasers)) free /\
    Z.of_nat (List.length (filter isCell prefabs'))
    = cells + Z.min (Z.max 0 (lasers - cells)) free.
Proof.
  intros Hsize Hprefabs Hrows lasers cells free. subst lasers cells free.
  unfold isLaser, isCell.
  unfold TileLoader.balanceLaserAndPowerCells. rewrite Hprefabs.
  unfold isLaser, isCell in *.
  assert (Hstep : exists prefabs1,
    (if negb (List.length (filter (TileLoader.isType "LaserEmitter") prefabs) =? List.length (filter (TileLoader.isType "PowerCell") prefabs))%nat
     then if (List.length (filter (TileLoader.isType "PowerCell") prefabs) <? List.length (filter (TileLoader.isType "LaserEmitter") prefabs))%nat
          then TileLoader.addPowerCellsToMatch tile prefabs (filter (TileLoader.isType "LaserEmitter") prefabs)
                 (filter (TileLoader.isType "PowerCell") prefabs)
          else TileLoader.addLasersToMatch tile prefabs (filter (TileLoader.isType "LaserEmitter") prefabs)
                 (filter (TileLoader.isType "PowerCell") prefabs)
     else Done prefabs) = Done prefabs1 /\
    rowsFromZero prefabs1 /\
    Z.of_nat (List.length (filter (TileLoader.isType "LaserEmitter") prefabs1))
    = Z.of_nat (List.length (filter (TileLoader.isType "LaserEmitter") prefabs))
      + Z.min (Z.max 0 (Z.of_nat (List.length (filter (TileLoader.isType "PowerCell") prefabs))
                        - Z.of_nat (List.length (filter (TileLoader.isType "LaserEmitter") prefabs))))
              (Z.of_nat (List.length (safeCells tile prefabs))) /\
    Z.of_nat (List.length (filter (TileLoader.isType "PowerCell") prefabs1))
    = Z.of_nat (List.length (filter (TileLoader.isType "PowerCell") prefabs))
      + Z.min (Z.max 0 (Z.of_nat (List.length (filter (TileLoader.isType "LaserEmitter") prefabs))
                        - Z.of_nat (List.length (filter (TileLoader.isType "PowerCell") prefabs))))
              (Z.of_nat (List.length (safeCells tile prefabs)))).
  { destruct (Nat.eqb_spec (List.length (filter (TileLoader.isType "LaserEmitter") prefabs))
                           (List.length (filter (TileLoader.isType "PowerCell") prefabs))) as [E|E]; cbn [negb].
    - exists prefabs. split; [reflexivity|]. split; [exact Hrows|]. lia.
    - destruct (Nat.ltb_spec (List.length (filter (TileLoader.isType "PowerCell") prefabs))
                             (List.length (filter (TileLoader.isType "LaserEmitter") prefabs))) as [Hlt|Hge].
      + unfold TileLoader.addPowerCellsToMatch.
        rewrite (findSafePositions_firstn tile prefabs _ w h Hsize) by lia.
        cbn [bind].
        match goal with
        | |- context [map ?f (combine _ _)] =>
            destruct (added_prefabs tile prefabs "PowerCell" f
                        (Z.of_nat (List.length (filter (TileLoader.isType "LaserEmitter") prefabs))
                         - Z.of_nat (List.length (filter (TileLoader.isType "PowerCell") prefabs))))
              as (Hlen & Hty & Hrow); [intros [i pos]; split; reflexivity|lia|]
        end.
        eexists. split; [reflexivity|]. split; [now apply Forall_app|].
        rewrite !filter_app, !length_app, !Nat2Z.inj_add.
        rewrite !(count_added "PowerCell" _ _ Hty). simpl String.eqb. cbv iota.
        lia.
      + unfold TileLoader.addLasersToMatch.
        rewrite (findSafePositions_firstn tile prefabs _ w h Hsize) by lia.
        cbn [bind]. rewrite Hsize.
        match goal with
        | |- context [map ?f (combine _ _)] =>
            destruct (added_prefabs tile prefabs "LaserEmitter" f
                        (Z.of_nat (List.length (filter (TileLoader.isType "PowerCell") prefabs))
                         - Z.of_nat (List.length (filter (TileLoader.isType "LaserEmitter") prefabs))))
              as (Hlen & Hty & Hrow); [intros [i pos]; split; reflexivity|lia|]
        end.
        eexists. split; [reflexivity|]. split; [now apply Forall_app|].
        rewrite !filter_app, !length_app, !Nat2Z.inj_add.
        rewrite !(count_added "LaserEmitter" _ _ Hty). simpl String.eqb. cbv iota.
        lia. }
  destruct Hstep as (prefabs1 & E1 & Hrows1 & HL1 & HC1). rewrite E1. cbn [bind].
  destruct (alignLasersAndPowerCells_returns tile prefabs1 Hrows1) as (prefabs2 & E2 & _).
  rewrite E2. cbn [bind].
  pose proof (alignLasersAndPowerCells_types tile prefabs1 prefabs2 E2) as Hty.
  exists prefabs2. split; [reflexivity|].
  rewrite <- (count_by_type "LaserEmitter" _ _ Hty) in HL1.
  rewrite <- (count_by_type "PowerCell" _ _ Hty) in HC1.
  split; [exact HL1|exact HC1].
Qed.

(** On a template with a size whose prefabs sit on rows of non-negative
    index, [balanceLaserAndPowerCells] returns; it adds power cells when
    the emitters are more, emitters when the power cells are more, as many
    as are missing or as there are free interior floor cells, and changes
    the number of neither otherwise.  With enough free cells the two
    numbers are equal afterwards. *)
Theorem balanceLaserAndPowerCells_evens_the_counts
    (tile : Tile.t) (prefabs : list Prefab.t) (w h : Z) :
  Tile.size tile = Some (w, h) ->
  Tile.prefabs tile = Some prefabs ->
  rowsFromZero prefabs ->
  let lasers := Z.of_nat (List.length (filter isLaser prefabs)) in
  let cells := Z.of_nat (List.length (filter isCell prefabs)) in
  let free := Z.of_nat (List.length (safeCells tile prefabs)) in
  exists prefabs',
    TileLoader.balanceLaserAndPowerCells tile = Done (TileLoader.set_prefabs prefabs' tile) /\
    Z.of_nat (List.length (filter isLaser prefabs'))
    = lasers + Z.min (Z.max 0 (cells - lasers)) free /\
    Z.of_nat (List.length (filter isCell prefabs'))
    = cells + Z.min (Z.max 0 (lasers - cells)) free /\
    (Z.abs (lasers - cells) <= free ->
     List.length (filter isLaser prefabs') = List.length (filter isCell prefabs')).
Proof.
  intros Hsize Hprefabs Hrows lasers cells free.
  destruct (balance_counts tile prefabs w h Hsize Hprefabs Hrows) as (prefabs' & E & HL & HC).
  exists prefabs'. split; [exact E|]. split; [exact HL|]. split; [exact HC|].
  intros Hfree. fold lasers cells free in HL, HC. lia.
Qed.

Lemma balanceLaserAndPowerCells_evens_the_counts_witness :
  exists prefabs',
    TileLoader.balanceLaserAndPowerCells twoLaserTile
    = Done (TileLoader.set_prefabs prefabs' twoLaserTile) /\
    Z.of_nat (List.length (filter isCell prefabs')) = 2.
Proof.
  destruct (balanceLaserAndPowerCells_evens_the_counts twoLaserTile
              [laserPrefab "l1" 1 1 "E"; laserPrefab "l2" 2 1 "S"] 4 4
              eq_refl eq_refl ltac:(repeat constructor; simpl; lia))
    as (prefabs' & E & _ & HC & _).
  exists prefabs'. split; [exact E|exact HC].
Defined.
Lemma keepPrefab_cases (collision : list string) (p : Prefab.t) :
  (snd (Prefab.pos p) < 0 /\ TileLoader.keepPrefab collision p = Thrown) \/
  (0 <= snd (Prefab.pos p) /\
   exists k, TileLoader.keepPrefab collision p = Done k /\
     (k = true <->
      exists row,
        nth_error collision (Z.to_nat (snd (Prefab.pos p))) = Some row /\
        fst (Prefab.pos p) < Z.of_nat (String.length row) /\
        TileLoader.charAt row (fst (Prefab.pos p)) <> Some "#"%char)).
Proof.
  unfold TileLoader.keepPrefab. destruct (Prefab.pos p) as [x y]. cbn [fst snd].
  rewrite Z.geb_leb.
  destruct (Z.ltb_spec y 0) as [Hy|Hy].
  - left. split; [exact Hy|].
    destruct (Z.leb_spec (Z.of_nat (List.length collision)) y); [lia|reflexivity].
  - right. split; [exact Hy|].
    destruct (Z.leb_spec (Z.of_nat (List.length collision)) y) as [Elen|Elen].
    + exists false. split; [reflexivity|]. split; [discriminate|].
      intros (row & Hrow & _).
      assert (Hlt : (Z.to_nat y < List.length collision)%nat)
        by (apply nth_error_Some; congruence).
      lia.
    + destruct (nth_error collision (Z.to_nat y)) as [row|] eqn:Erow.
      2:{ exists false. split; [reflexivity|]. split; [discriminate|].
          intros (row & Hrow & _). discriminate. }
      rewrite Z.geb_leb.
      destruct (Z.leb_spec (Z.of_nat (String.length row)) x) as [Ex|Ex].
      * exists false. split; [reflexivity|]. split; [discriminate|].
        intros (row' & Hrow & Hx & _). inversion Hrow; subst. lia.
      * destruct (TileLoader.isChar "#" (TileLoader.charAt row x)) eqn:Ec.
        -- exists false. split; [reflexivity|]. split; [discriminate|].
           intros (row' & Hrow & _ & Hc). inversion Hrow; subst.
           apply isChar_true in Ec. contradiction.
        -- exists true. split; [reflexivity|]. split; [|reflexivity].
           intros _. exists row. split; [reflexivity|]. split; [lia|].
           intros Hc. rewrite Hc in Ec. simpl in Ec. discriminate.
Qed.

Lemma filterKeep_throws (collision : list string) (prefabs : list Prefab.t) :
  (exists p, In p prefabs /\ snd (Prefab.pos p) < 0) ->
  TileLoader.filterKeep collision prefabs = Thrown.
Proof.
  induction prefabs as [|p0 rest IH]; intros (p & Hin & Hneg); [destruct Hin|].
  simpl. destruct (keepPrefab_cases collision p0) as [[_ E]|(Hpos & k & E & _)];
    rewrite E; simpl; [reflexivity|].
  destruct Hin as [->|Hin]; [lia|].
  rewrite IH by eauto. reflexivity.
Qed.

Lemma kept_iff (collision : list string) (p : Prefab.t) :
  0 <= snd (Prefab.pos p) ->
  (kept collision p = true <->
   exists row,
     nth_error collision (Z.to_nat (snd (Prefab.pos p))) = Some row /\
     fst (Prefab.pos p) < Z.of_nat (String.length row) /\
     TileLoader.charAt row (fst (Prefab.pos p)) <> Some "#"%char).
Proof.
  intros Hy. unfold kept.
  destruct (keepPrefab_cases collision p) as [[Hneg _]|(_ & k & E & Hk)]; [lia|].
  rewrite E. rewrite <- Hk. destruct k; split; congruence.
Qed.

Lemma removeEntitiesInWalls_spec (tile : Tile.t) (prefabs : list Prefab.t)
    (collision : list string) :
  Tile.prefabs tile = Some prefabs -> Tile.collision tile = Some collision ->
  rowsFromZero prefabs ->
  let remaining := filter (kept collision) prefabs in
  TileLoader.removeEntitiesInWalls tile = Done (TileLoader.set_prefabs remaining tile) /\
  TileLoader.removeEntitiesInWalls (TileLoader.set_prefabs remaining tile)
  = Done (TileLoader.set_prefabs remaining tile).
Proof.
  intros Hprefabs Hcollision Hrows remaining.
  assert (Hrun : forall l, rowsFromZero l ->
            TileLoader.filterKeep collision l = Done (filter (kept collision) l)).
  { intros l Hl. destruct (filterKeep_returns collision l Hl) as (l' & E).
    rewrite E. f_equal. now apply filterKeep_filter. }
  split.
  - unfold TileLoader.removeEntitiesInWalls. rewrite Hprefabs, Hcollision.
    rewrite (Hrun prefabs Hrows). reflexivity.
  - unfold TileLoader.removeEntitiesInWalls. cbn [TileLoader.set_prefabs Tile.prefabs
      Tile.collision]. rewrite Hcollision.
    rewrite (Hrun remaining).
    + simpl. unfold remaining.
      rewrite (forallb_filter_id (kept collision) (filter (kept collision) prefabs)).
      * reflexivity.
      * apply forallb_forall. intros p Hp. now apply filter_In in Hp.
    + unfold rowsFromZero, remaining in *. rewrite Forall_forall in *.
      intros p Hp. apply filter_In in Hp. now apply Hrows.
Qed.

(** On a template with prefabs and a collision map, [removeEntitiesInWalls]
    throws when a prefab has a negative row.  Otherwise it keeps, in their
    order, the prefabs whose row exists in the map, whose column is less
    than the length of that row and whose character there is not "#", and
    removes the others; applied again it changes nothing. *)
Theorem removeEntitiesInWalls_keeps_prefabs_off_walls (tile : Tile.t)
    (prefabs : list Prefab.t) (collision : list string) :
  Tile.prefabs tile = Some prefabs -> Tile.collision tile = Some collision ->
  ((exists p, In p prefabs /\ snd (Prefab.pos p) < 0) ->
   TileLoader.removeEntitiesInWalls tile = Thrown) /\
  (rowsFromZero prefabs ->
   exists keep remaining,
     remaining = filter keep prefabs /\
     TileLoader.removeEntitiesInWalls tile = Done (TileLoader.set_prefabs remaining tile) /\
     (forall p, In p remaining <->
        In p prefabs /\
        exists row,
          nth_error collision (Z.to_nat (snd (Prefab.pos p))) = Some row /\
          fst (Prefab.pos p) < Z.of_nat (String.length row) /\
          TileLoader.charAt row (fst (Prefab.pos p)) <> Some "#"%char) /\
     TileLoader.removeEntitiesInWalls (TileLoader.set_prefabs remaining tile)
     = Done (TileLoader.set_prefabs remaining tile)).
Proof.
  intros Hprefabs Hcollision. split.
  - intros Hneg. unfold TileLoader.removeEntitiesInWalls. rewrite Hprefabs, Hcollision.
    now rewrite (filterKeep_throws collision prefabs Hneg).
  - intros Hrows.
    destruct (removeEntitiesInWalls_spec tile prefabs collision Hprefabs Hcollision Hrows)
      as [E1 E2].
    exists (kept collision), (filter (kept collision) prefabs).
    split; [reflexivity|]. split; [exact E1|]. split; [|exact E2].
    intros p. rewrite filter_In. unfold rowsFromZero in Hrows. rewrite Forall_forall in Hrows.
    split.
    + intros [Hin Hk]. split; [exact Hin|]. apply kept_iff; auto.
    + intros [Hin Hk]. split; [exact Hin|]. apply kept_iff; auto.
Qed.

Lemma removeEntitiesInWalls_keeps_prefabs_off_walls_witness :
  TileLoader.removeEntitiesInWalls
    (TileLoader.set_prefabs [laserPrefab "l1" 1 (-1) "E"] twoLaserTile) = Thrown.
Proof.
  apply (proj1 (removeEntitiesInWalls_keeps_prefabs_off_walls
                  (TileLoader.set_prefabs [laserPrefab "l1" 1 (-1) "E"] twoLaserTile)
                  [laserPrefab "l1" 1 (-1) "E"]
                  ["####"; "#..#"; "#..#"; "####"]%string eq_refl eq_refl)).
  exists (laserPrefab "l1" 1 (-1) "E"). split; [left; reflexivity|simpl; lia].
Defined.

(** ** dungeonGen.js: rotated exits *)

Lemma direction_cases (d : string) :
  In d DungeonGenerator.directions ->
  d = "N"%string \/ d = "E"%string \/ d = "S"%string \/ d = "W"%string.
Proof. simpl. intuition. Qed.

Lemma rotated_index (r : Z) (d : string) :
  0 <= r -> In d DungeonGenerator.directions ->
  In (rotated r d) DungeonGenerator.directions /\
  DungeonGenerator.indexOf (rotated r d) DungeonGenerator.directions
  = (DungeonGenerator.indexOf d DungeonGenerator.directions + r) mod 4 /\
  rotated r d
  = DungeonGenerator.keyAt DungeonGenerator.directions
      ((DungeonGenerator.indexOf d DungeonGenerator.directions + r) mod 4).
Proof.
  intros Hr Hd. unfold rotated.
  assert (Hi : 0 <= DungeonGenerator.indexOf d DungeonGenerator.directions).
  { destruct (direction_cases d Hd) as [-> | [-> | [-> | ->]]]; vm_compute; discriminate. }
  rewrite Z.rem_mod_nonneg by lia.
  set (m := (DungeonGenerator.indexOf d DungeonGenerator.directions + r) mod 4).
  assert (Hm : m = 0 \/ m = 1 \/ m = 2 \/ m = 3).
  { pose proof (Z.mod_pos_bound
                  (DungeonGenerator.indexOf d DungeonGenerator.directions + r) 4 ltac:(lia)).
    fold m in H. lia. }
  clearbody m.
  destruct Hm as [-> | [-> | [-> | ->]]]; (split; [simpl; tauto|split; reflexivity]).
Qed.

Lemma index_of_direction (d d' : string) :
  In d DungeonGenerator.directions -> In d' DungeonGenerator.directions ->
  DungeonGenerator.indexOf d DungeonGenerator.directions
  = DungeonGenerator.indexOf d' DungeonGenerator.directions -> d = d'.
Proof.
  intros Hd Hd'.
  destruct (direction_cases d Hd) as [-> | [-> | [-> | ->]]];
    destruct (direction_cases d' Hd') as [-> | [-> | [-> | ->]]];
    vm_compute; intros H; try reflexivity; discriminate.
Qed.

Lemma index_bounds (d : string) :
  In d DungeonGenerator.directions ->
  0 <= DungeonGenerator.indexOf d DungeonGenerator.directions < 4.
Proof.
  intros Hd. destruct (direction_cases d Hd) as [-> | [-> | [-> | ->]]]; vm_compute;
    split; congruence.
Qed.

Lemma rotated_injective (r : Z) (d d' : string) :
  0 <= r -> In d DungeonGenerator.directions -> In d' DungeonGenerator.directions ->
  rotated r d = rotated r d' -> d = d'.
Proof.
  intros Hr Hd Hd' E.
  destruct (rotated_index r d Hr Hd) as (_ & Hi & _).
  destruct (rotated_index r d' Hr Hd') as (_ & Hi' & _).
  rewrite E, Hi' in Hi.
  pose proof (index_bounds d Hd). pose proof (index_bounds d' Hd').
  apply index_of_direction; auto.
  set (i := DungeonGenerator.indexOf d DungeonGenerator.directions) in *.
  set (i' := DungeonGenerator.indexOf d' DungeonGenerator.directions) in *.
  clearbody i i'.
  pose proof (Z.div_mod (i + r) 4 ltac:(lia)). pose proof (Z.div_mod (i' + r) 4 ltac:(lia)).
  lia.
Qed.

Lemma assign_fresh {V : Type} (key : string) (value : V) (object : list (string * V)) :
  ~ In key (map fst object) ->
  DungeonGenerator.assign key value object = (object ++ [(key, value)])%list.
Proof.
  induction object as [|[k v] rest IH]; simpl; [reflexivity|].
  intros H. destruct (String.eqb k key) eqn:E.
  - apply String.eqb_eq in E. subst. exfalso. apply H. now left.
  - rewrite IH; [reflexivity|]. intros Hin. apply H. now right.
Qed.

Lemma rotate_fold (r : Z) (exits acc : list (string * (Z * Z))) :
  NoDup (map fst acc ++ map (fun e => rotated r (fst e)) exits) ->
  fold_left
    (fun rotated0 (entry : string * (Z * Z)) =>
       let (dir, pos) := entry in
       DungeonGenerator.assign
         (DungeonGenerator.keyAt DungeonGenerator.directions
            (Z.rem (DungeonGenerator.indexOf dir DungeonGenerator.directions + r) 4))
         pos rotated0)
    exits acc
  = (acc ++ map (fun e => (rotated r (fst e), snd e)) exits)%list.
Proof.
  revert acc. induction exits as [|[d p] exits IH]; intros acc Hnd; simpl.
  - now rewrite app_nil_r.
  - fold (rotated r d). simpl in Hnd.
    rewrite assign_fresh.
    + rewrite IH.
      * now rewrite <- app_assoc.
      * rewrite map_app. simpl. rewrite <- app_assoc. exact Hnd.
    + apply NoDup_remove_2 in Hnd. intros Hin. apply Hnd. apply in_or_app. now left.
Qed.

Lemma rotateExits_map (exits : list (string * (Z * Z))) (r : Z) :
  0 <= r -> NoDup (map fst exits) ->
  (forall d, In d (map fst exits) -> In d DungeonGenerator.directions) ->
  DungeonGenerator.rotateExits exits r = map (fun e => (rotated r (fst e), snd e)) exits /\
  NoDup (map fst (DungeonGenerator.rotateExits exits r)) /\
  (forall d, In d (map fst (DungeonGenerator.rotateExits exits r)) ->
     In d DungeonGenerator.directions).
Proof.
  intros Hr Hnd Hdir.
  assert (Hnd' : NoDup (map (fun e : string * (Z * Z) => rotated r (fst e)) exits)).
  { clear - Hr Hnd Hdir. induction exits as [|[d p] exits IH]; simpl in *; [constructor|].
    inversion Hnd as [|x l Hnot Hrest]; subst. constructor.
    - intros Hin. apply in_map_iff in Hin. destruct Hin as ([d' p'] & E & Hin').
      simpl in E.
      assert (Hd : In d DungeonGenerator.directions) by (apply Hdir; now left).
      assert (Hd' : In d' DungeonGenerator.directions).
      { apply Hdir. right. apply in_map_iff. exists (d', p'). auto. }
      pose proof (rotated_injective r d' d Hr Hd' Hd E). subst d'.
      apply Hnot. apply in_map_iff. exists (d, p'). auto.
    - apply IH; auto. }
  assert (Hmap : DungeonGenerator.rotateExits exits r
                 = map (fun e => (rotated r (fst e), snd e)) exits).
  { unfold DungeonGenerator.rotateExits. destruct (Z.eqb_spec r 0) as [->|Hne].
    - clear - Hdir. induction exits as [|[d p] exits IH]; simpl in *; [reflexivity|].
      rewrite <- IH by auto. f_equal. f_equal.
      destruct (direction_cases d (Hdir d (or_introl eq_refl))) as [-> | [-> | [-> | ->]]];
        reflexivity.
    - rewrite (rotate_fold r exits []); [reflexivity|exact Hnd']. }
  split; [exact Hmap|]. rewrite Hmap, map_map. simpl. split; [exact Hnd'|].
  intros d Hin. apply in_map_iff in Hin. destruct Hin as ([d' p'] & <- & Hin').
  simpl. apply rotated_index; auto. apply Hdir. apply in_map_iff. exists (d', p'). auto.
Qed.

(** On exits whose directions are among N, E, S, W, each once,
    [rotateExits] by a rotation that is not negative turns every direction
    by that many quarter turns and leaves the positions as they are; two
    rotations in a row are the rotation by the sum, and four quarter turns
    give the exits back. *)
Theorem rotateExits_composes (exits : list (string * (Z * Z))) (a b : Z) :
  0 <= a -> 0 <= b -> NoDup (map fst exits) ->
  (forall d, In d (map fst exits) -> In d DungeonGenerator.directions) ->
  DungeonGenerator.rotateExits (DungeonGenerator.rotateExits exits a) b
  = DungeonGenerator.rotateExits exits (a + b) /\
  DungeonGenerator.rotateExits exits 4 = exits /\
  map snd (DungeonGenerator.rotateExits exits a) = map snd exits.
Proof.
  intros Ha Hb Hnd Hdir.
  destruct (rotateExits_map exits a Ha Hnd Hdir) as (Ea & Hnda & Hdira).
  destruct (rotateExits_map _ b Hb Hnda Hdira) as (Eb & _ & _).
  destruct (rotateExits_map exits (a + b) ltac:(lia) Hnd Hdir) as (Eab & _ & _).
  destruct (rotateExits_map exits 4 ltac:(lia) Hnd Hdir) as (E4 & _ & _).
  split; [|split].
  - rewrite Eb, Eab, Ea, map_map. apply map_ext_in. intros [d p] Hin. simpl. f_equal.
    assert (Hd : In d DungeonGenerator.directions).
    { apply Hdir. apply in_map_iff. exists (d, p). auto. }
    destruct (rotated_index a d Ha Hd) as (Hin1 & Hi1 & _).
    destruct (rotated_index b (rotated a d) Hb Hin1) as (_ & _ & E1).
    destruct (rotated_index (a + b) d ltac:(lia) Hd) as (_ & _ & E2).
    rewrite E1, E2, Hi1. f_equal. rewrite Zplus_mod_idemp_l. f_equal. lia.
  - rewrite E4. rewrite <- (map_id exits) at 2. apply map_ext_in. intros [d p] Hin. simpl.
    f_equal.
    assert (Hd : In d DungeonGenerator.directions).
    { apply Hdir. apply in_map_iff. exists (d, p). auto. }
    destruct (direction_cases d Hd) as [-> | [-> | [-> | ->]]]; reflexivity.
  - rewrite Ea, map_map. reflexivity.
Qed.

Lemma rotateExits_composes_witness :
  DungeonGenerator.rotateExits
    (DungeonGenerator.rotateExits [("N"%string, (1, 0)); ("E"%string, (3, 1))]%string 1) 3
  = DungeonGenerator.rotateExits [("N"%string, (1, 0)); ("E"%string, (3, 1))]%string (1 + 3).
Proof.
  apply (rotateExits_composes [("N"%string, (1, 0)); ("E"%string, (3, 1))]%string 1 3); [lia|lia| |].
  - repeat constructor; simpl; intuition discriminate.
  - simpl. intuition.
Defined.

(** ** powerManagement.js: registering listeners *)

Lemma get_set_same {V : Type} (k : string) (v : V) (m : list (string * V)) :
  Power.get k (Power.set k v m) = Some v.
Proof.
  induction m as [|[k0 v0] m IH]; simpl; [now rewrite String.eqb_refl|].
  destruct (String.eqb k k0) eqn:E; simpl; [now rewrite String.eqb_refl|].
  now rewrite E.
Qed.

Lemma get_set_other {V : Type} (k k' : string) (v : V) (m : list (string * V)) :
  k' <> k -> Power.get k' (Power.set k v m) = Power.get k' m.
Proof.
  intros Hne. apply String.eqb_neq in Hne.
  induction m as [|[k0 v0] m IH]; simpl; [now rewrite Hne|].
  destruct (String.eqb k k0) eqn:E; simpl.
  - apply String.eqb_eq in E. subst k0. now rewrite Hne.
  - now rewrite IH.
Qed.

Section Listeners.

Variables (W Listener : Type).
Variable call : Listener -> Power.EventData -> W -> Power.completion W.

(** The state of the application after a listener has run. *)
Let after (c : Power.completion W) : W :=
  match c with
  | Power.Normal w => w
  | Power.Abrupt _ w => w
  end.

Lemma allListenersRun_last (data : Power.EventData) (listeners : list Listener)
    (callback : Listener) (w : W) :
  fst (allListenersRun call data (listeners ++ [callback]) w)
  = after (call callback data (fst (allListenersRun call data listeners w))).
Proof.
  revert w. induction listeners as [|cb rest IH]; intros w; simpl.
  - destruct (call callback data w); reflexivity.
  - destruct (call cb data w) as [w'|e w'].
    + apply IH.
    + specialize (IH w').
      destruct (allListenersRun call data (rest ++ [callback]) w') as [w1 errors1].
      destruct (allListenersRun call data rest w') as [w2 errors2]. exact IH.
Qed.

(** [addEventListener(event, callback)] puts the callback last among the
    listeners of the event and leaves the listeners of every other event
    alone; an [emitEvent] of the event then calls it after the listeners
    registered before, on the state that they leave, whether or not one of
    them threw. *)
Theorem addEventListener_registers_last (event other : string) (callback : Listener)
    (data : Power.EventData) (s : Power.t W Listener) :
  let registered := Power.addEventListener W Listener event callback s in
  let before :=
    match Power.get event (Power.eventListeners W Listener s) with
    | Some l => l
    | None => []
    end in
  Power.get event (Power.eventListeners W Listener registered) = Some (before ++ [callback]) /\
  (other <> event ->
   Power.get other (Power.eventListeners W Listener registered)
   = Power.get other (Power.eventListeners W Listener s)) /\
  exists s',
    Power.emitEvent W Listener call event data registered = Power.Normal s' /\
    Power.world W Listener s'
    = after (call callback data
               (fst (allListenersRun call data before (Power.world W Listener s)))).
Proof.
  intros registered before. unfold registered, Power.addEventListener.
  cbn [Power.eventListeners]. fold before.
  split; [apply get_set_same|]. split; [apply get_set_other|].
  unfold Power.emitEvent. cbn [Power.eventListeners]. fold before.
  rewrite get_set_same, forEach_guardedCall. cbn [Power.andThen].
  match goal with
  | |- context [if ?b then _ else _] => destruct b
  end; eexists; (split; [reflexivity|]); cbn [Power.world Power.with_console Power.with_world];
    apply allListenersRun_last.
Qed.

End Listeners.

(** ** collision.js: the slab test, entry and completeness *)

Lemma nmul_inf_not_Fin (a q : Q) :
  Collision.nmul (Collision.Fin a) Collision.PInf <> Collision.Fin q.
Proof. simpl. destruct (Collision.sign a); discriminate. Qed.

Lemma nmin_cases (a b : Collision.num) :
  a <> Collision.NaN -> b <> Collision.NaN ->
  Collision.nmin a b = a \/ Collision.nmin a b = b.
Proof.
  intros Ha Hb. destruct a, b; try congruence; simpl; try (destruct (Qltb _ _)); auto.
Qed.

Lemma nmax_cases (a b : Collision.num) :
  a <> Collision.NaN -> b <> Collision.NaN ->
  Collision.nmax a b = a \/ Collision.nmax a b = b.
Proof.
  intros Ha Hb. destruct a, b; try congruence; simpl; try (destruct (Qltb _ _)); auto.
Qed.

Lemma nmin_not_NaN (a b : Collision.num) :
  a <> Collision.NaN -> b <> Collision.NaN -> Collision.nmin a b <> Collision.NaN.
Proof. intros Ha Hb. destruct (nmin_cases a b Ha Hb) as [E|E]; now rewrite E. Qed.

Lemma nmax_not_NaN (a b : Collision.num) :
  a <> Collision.NaN -> b <> Collision.NaN -> Collision.nmax a b <> Collision.NaN.
Proof. intros Ha Hb. destruct (nmax_cases a b Ha Hb) as [E|E]; now rewrite E. Qed.

(** The order of the numbers of the slab test, read off [nlt]. *)
Lemma nlt_asym (a b : Collision.num) :
  Collision.nlt a b = true -> Collision.nlt b a = false.
Proof.
  destruct a as [p| | |], b as [r| | |]; simpl; try discriminate; try reflexivity.
  intros H. apply Qltb_true in H. apply Qltb_false. lra.
Qed.

Lemma nlt_below (a : Collision.num) (p r : Q) :
  Collision.nlt a (Collision.Fin p) = true -> (p <= r)%Q ->
  Collision.nlt a (Collision.Fin r) = true.
Proof.
  destruct a as [q| | |]; simpl; try discriminate; try reflexivity.
  intros H Hpr. apply Qltb_true in H. apply Qltb_true. lra.
Qed.

Lemma nlt_above (a : Collision.num) (p r : Q) :
  Collision.nlt (Collision.Fin p) a = true -> (r <= p)%Q ->
  Collision.nlt (Collision.Fin r) a = true.
Proof.
  destruct a as [q| | |]; simpl; try discriminate; try reflexivity.
  intros H Hpr. apply Qltb_true in H. apply Qltb_true. lra.
Qed.

Lemma nlt_between (a b : Collision.num) (q : Q) :
  a <> Collision.NaN -> b <> Collision.NaN ->
  Collision.nlt (Collision.Fin q) a = false ->
  Collision.nlt b (Collision.Fin q) = false ->
  Collision.nlt b a = false.
Proof.
  intros Ha Hb. destruct a as [p| | |], b as [r| | |]; simpl; try congruence;
    try discriminate.
  intros H1 H2. apply Qltb_false in H1. apply Qltb_false in H2. apply Qltb_false. lra.
Qed.

Lemma below_nmax (a b : Collision.num) (q : Q) :
  a <> Collision.NaN -> b <> Collision.NaN ->
  Collision.nlt (Collision.Fin q) a = false -> Collision.nlt (Collision.Fin q) b = false ->
  Collision.nlt (Collision.Fin q) (Collision.nmax a b) = false.
Proof. intros Ha Hb H1 H2. destruct (nmax_cases a b Ha Hb) as [E|E]; now rewrite E. Qed.

Lemma above_nmin (a b : Collision.num) (q : Q) :
  a <> Collision.NaN -> b <> Collision.NaN ->
  Collision.nlt a (Collision.Fin q) = false -> Collision.nlt b (Collision.Fin q) = false ->
  Collision.nlt (Collision.nmin a b) (Collision.Fin q) = false.
Proof. intros Ha Hb H1 H2. destruct (nmin_cases a b Ha Hb) as [E|E]; now rewrite E. Qed.

(** A number that is neither [NaN], nor below 0, nor above 1 is a rational
    of the unit interval. *)
Lemma unit_number (a : Collision.num) :
  a <> Collision.NaN ->
  Collision.nlt a (Collision.Fin 0) = false -> Collision.nlt (Collision.Fin 1) a = false ->
  exists q, a = Collision.Fin q /\ (0 <= q)%Q /\ (q <= 1)%Q.
Proof.
  intros Ha. destruct a as [q| | |]; simpl; try congruence; try discriminate.
  intros H0 H1. apply Qltb_false in H0. apply Qltb_false in H1. eauto.
Qed.

(** The crossing parameters of one axis are numbers unless the segment
    runs along the line of a face. *)
Lemma crossing_not_NaN (a d : Q) :
  ((d == 0)%Q -> ~ (a == 0)%Q) ->
  Collision.nmul (Collision.Fin a)
    (if Qeq_bool d 0 then Collision.PInf else Collision.Fin (1 / d)) <> Collision.NaN.
Proof.
  intros H. destruct (Qeq_bool d 0) eqn:E; simpl; [|discriminate].
  apply Qeq_bool_iff in E. specialize (H E).
  destruct (Qlt_le_dec a 0) as [Ha|Ha].
  - rewrite (sign_negative _ Ha). discriminate.
  - destruct (Qle_lt_or_eq _ _ Ha) as [Hp|Hz].
    + rewrite (sign_positive _ Hp). discriminate.
    + exfalso. apply H. now symmetry.
Qed.

(** One axis of the slab test, the other way round: a parameter that puts
    the coordinate between the two faces lies between the two crossings. *)
Lemma slab_axis_complete (s d b w q : Q) :
  (0 <= w)%Q ->
  let inv := if Qeq_bool d 0 then Collision.PInf else Collision.Fin (1 / d) in
  let t1 := Collision.nmul (Collision.Fin (b - s)) inv in
  let t2 := Collision.nmul (Collision.Fin (b + w - s)) inv in
  t1 <> Collision.NaN -> t2 <> Collision.NaN ->
  (b <= s + d * q)%Q -> (s + d * q <= b + w)%Q ->
  Collision.nlt (Collision.Fin q) (Collision.nmin t1 t2) = false /\
  Collision.nlt (Collision.nmax t1 t2) (Collision.Fin q) = false.
Proof.
  intros Hw. cbv zeta.
  destruct (Qeq_bool d 0) eqn:Ed.
  - apply Qeq_bool_iff in Ed.
    assert (Hs : (s + d * q == s)%Q) by (rewrite Ed; ring).
    rewrite Hs. simpl Collision.nmul.
    destruct (Qlt_le_dec (b - s) 0) as [H1|H1];
      [rewrite (sign_negative _ H1)
      |destruct (Qle_lt_or_eq _ _ H1) as [H1'|H1'];
         [rewrite (sign_positive _ H1')|rewrite (sign_zero (b - s)) by (symmetry; exact H1')]];
      (destruct (Qlt_le_dec (b + w - s) 0) as [H2|H2];
       [rewrite (sign_negative _ H2)
       |destruct (Qle_lt_or_eq _ _ H2) as [H2'|H2'];
          [rewrite (sign_positive _ H2')
          |rewrite (sign_zero (b + w - s)) by (symmetry; exact H2')]]);
      simpl; intros N1 N2 L U; try congruence; try (split; reflexivity); exfalso; lra.
  - assert (Hd : ~ (d == 0)%Q).
    { intros E. apply Qeq_bool_iff in E. congruence. }
    destruct (Qinv_spec d Hd) as (Hinv & Hpos & Hneg).
    simpl Collision.nmul. intros _ _.
    set (r := (1 / d)%Q) in *. clearbody r.
    set (u := ((b - s) * r)%Q). set (v := ((b + w - s) * r)%Q).
    assert (Hu : (u * d == b - s)%Q).
    { unfold u. setoid_replace ((b - s) * r * d)%Q with ((b - s) * (d * r))%Q by ring.
      rewrite Hinv. ring. }
    assert (Hv : (v * d == b + w - s)%Q).
    { unfold v. setoid_replace ((b + w - s) * r * d)%Q with ((b + w - s) * (d * r))%Q by ring.
      rewrite Hinv. ring. }
    clearbody u v. intros L U.
    assert (HL : (u * d <= q * d)%Q) by (setoid_replace (q * d)%Q with (d * q)%Q by ring; lra).
    assert (HU : (q * d <= v * d)%Q) by (setoid_replace (q * d)%Q with (d * q)%Q by ring; lra).
    destruct (Qlt_le_dec 0 d) as [Hd0|Hd0].
    + assert (H1 : (u <= q)%Q) by (apply (Qmult_le_r _ _ d Hd0); exact HL).
      assert (H2 : (q <= v)%Q) by (apply (Qmult_le_r _ _ d Hd0); exact HU).
      simpl. split.
      * destruct (Qltb v u) eqn:E; [apply Qltb_true in E|apply Qltb_false in E];
          apply Qltb_false; lra.
      * destruct (Qltb u v) eqn:E; [apply Qltb_true in E|apply Qltb_false in E];
          apply Qltb_false; lra.
    + assert (Hd1 : (d < 0)%Q).
      { destruct (Qle_lt_or_eq _ _ Hd0) as [H|H]; [exact H|contradiction]. }
      assert (Hd2 : (0 < - d)%Q) by lra.
      assert (H1 : (v <= q)%Q).
      { apply (Qmult_le_r _ _ (- d) Hd2).
        setoid_replace (v * - d)%Q with (- (v * d))%Q by ring.
        setoid_replace (q * - d)%Q with (- (q * d))%Q by ring. lra. }
      assert (H2 : (q <= u)%Q).
      { apply (Qmult_le_r _ _ (- d) Hd2).
        setoid_replace (u * - d)%Q with (- (u * d))%Q by ring.
        setoid_replace (q * - d)%Q with (- (q * d))%Q by ring. lra. }
      simpl. split.
      * destruct (Qltb v u) eqn:E; [apply Qltb_true in E|apply Qltb_false in E];
          apply Qltb_false; lra.
      * destruct (Qltb u v) eqn:E; [apply Qltb_true in E|apply Qltb_false in E];
          apply Qltb_false; lra.
Qed.

(** One axis of the slab test, at the entry: up to the smaller of the two
    crossings the coordinate is not strictly between the two faces. *)
Lemma slab_axis_entry (s d b w q x : Q) :
  (0 <= w)%Q ->
  let inv := if Qeq_bool d 0 then Collision.PInf else Collision.Fin (1 / d) in
  let t1 := Collision.nmul (Collision.Fin (b - s)) inv in
  let t2 := Collision.nmul (Collision.Fin (b + w - s)) inv in
  Collision.nmin t1 t2 = Collision.Fin q -> (x <= q)%Q ->
  ~ ((b < s + d * x)%Q /\ (s + d * x < b + w)%Q).
Proof.
  intros Hw. cbv zeta.
  destruct (Qeq_bool d 0) eqn:Ed.
  - intros Hmin _. exfalso. simpl in Hmin.
    destruct (Collision.sign (b - s)), (Collision.sign (b + w - s)); simpl in Hmin;
      discriminate.
  - assert (Hd : ~ (d == 0)%Q).
    { intros E. apply Qeq_bool_iff in E. congruence. }
    destruct (Qinv_spec d Hd) as (Hinv & Hpos & Hneg).
    simpl Collision.nmul.
    set (r := (1 / d)%Q) in *. clearbody r.
    set (u := ((b - s) * r)%Q). set (v := ((b + w - s) * r)%Q).
    assert (Hu : (u * d == b - s)%Q).
    { unfold u. setoid_replace ((b - s) * r * d)%Q with ((b - s) * (d * r))%Q by ring.
      rewrite Hinv. ring. }
    assert (Hv : (v * d == b + w - s)%Q).
    { unfold v. setoid_replace ((b + w - s) * r * d)%Q with ((b + w - s) * (d * r))%Q by ring.
      rewrite Hinv. ring. }
    clearbody u v. simpl. intros Hmin Hx [H1 H2].
    destruct (Qlt_le_dec 0 d) as [Hd0|Hd0].
    + assert (Hq : (q <= u)%Q).
      { destruct (Qltb v u) eqn:E; inversion Hmin; subst.
        - apply Qltb_true in E. lra.
        - lra. }
      assert (H3 : (x * d <= u * d)%Q) by (apply Qmult_le_compat_r; lra).
      setoid_replace (d * x)%Q with (x * d)%Q in H1 by ring. lra.
    + assert (Hd1 : (d < 0)%Q).
      { destruct (Qle_lt_or_eq _ _ Hd0) as [H|H]; [exact H|contradiction]. }
      assert (Hq : (q <= v)%Q).
      { destruct (Qltb v u) eqn:E; inversion Hmin; subst.
        - lra.
        - apply Qltb_false in E. lra. }
      assert (H3 : (x * (- d) <= v * (- d))%Q) by (apply Qmult_le_compat_r; lra).
      setoid_replace (d * x)%Q with (x * d)%Q in H2 by ring. lra.
Qed.

Lemma along_start (a b : Vector2.t) :
  (Vector2.x (along a b 0) == Vector2.x a)%Q /\ (Vector2.y (along a b 0) == Vector2.y a)%Q.
Proof. unfold along, Vector2.add, Vector2.multiply; cbn [Vector2.x Vector2.y]. split; ring. Qed.

(** What [lineAABBIntersect] has established when it reports a hit whose
    crossing parameters are numbers: the entry [tMin] and the exit [tMax]
    of the slab test, and the parameter it chose. *)
Lemma lineAABBIntersect_chosen (start end_ : Vector2.t) (rect : Entity.Bounds)
    (h : Collision.Hit) :
  offEdgeLines start end_ rect ->
  Collision.lineAABBIntersect start end_ rect = Some h ->
  let dir := Vector2.subtract end_ start in
  let invDirX := if Qeq_bool (Vector2.x dir) 0 then Collision.PInf
                 else Collision.Fin (1 / Vector2.x dir) in
  let invDirY := if Qeq_bool (Vector2.y dir) 0 then Collision.PInf
                 else Collision.Fin (1 / Vector2.y dir) in
  let t1 := Collision.nmul (Collision.Fin (Entity.bx rect - Vector2.x start)) invDirX in
  let t2 := Collision.nmul
              (Collision.Fin (Entity.bx rect + Entity.bwidth rect - Vector2.x start)) invDirX in
  let t3 := Collision.nmul (Collision.Fin (Entity.by_ rect - Vector2.y start)) invDirY in
  let t4 := Collision.nmul
              (Collision.Fin (Entity.by_ rect + Entity.bheight rect - Vector2.y start))
              invDirY in
  let tMin := Collision.nmax (Collision.nmin t1 t2) (Collision.nmin t3 t4) in
  let tMax := Collision.nmin (Collision.nmax t1 t2) (Collision.nmax t3 t4) in
  (t1 <> Collision.NaN /\ t2 <> Collision.NaN /\ t3 <> Collision.NaN /\ t4 <> Collision.NaN) /\
  Collision.nlt tMax (Collision.Fin 0) = false /\
  Collision.nlt tMax tMin = false /\
  Collision.nlt (Collision.Fin 1) tMin = false /\
  exists q, Collision.t h = Collision.Fin q /\ (0 <= q)%Q /\ (q <= 1)%Q /\
    Collision.hpoint h = Collision.Pt (along start end_ q) /\
    (if Collision.nlt tMin (Collision.Fin 0) then tMax else tMin) = Collision.Fin q.
Proof.
  intros [Hx Hy] Hrun. cbv zeta.
  pose proof (lineAABBIntersect_onSegment start end_ rect h Hrun) as Hseg.
  assert (N1 := crossing_not_NaN (Entity.bx rect - Vector2.x start)
                  (Vector2.x (Vector2.subtract end_ start))
                  (fun E => proj1 (Hx E))).
  assert (N2 := crossing_not_NaN (Entity.bx rect + Entity.bwidth rect - Vector2.x start)
                  (Vector2.x (Vector2.subtract end_ start))
                  (fun E => proj2 (Hx E))).
  assert (N3 := crossing_not_NaN (Entity.by_ rect - Vector2.y start)
                  (Vector2.y (Vector2.subtract end_ start))
                  (fun E => proj1 (Hy E))).
  assert (N4 := crossing_not_NaN (Entity.by_ rect + Entity.bheight rect - Vector2.y start)
                  (Vector2.y (Vector2.subtract end_ start))
                  (fun E => proj2 (Hy E))).
  unfold Collision.lineAABBIntersect in Hrun. cbv zeta in Hrun.
  set (t1 := Collision.nmul (Collision.Fin (Entity.bx rect - Vector2.x start)) _) in *.
  set (t2 := Collision.nmul
               (Collision.Fin (Entity.bx rect + Entity.bwidth rect - Vector2.x start)) _) in *.
  set (t3 := Collision.nmul (Collision.Fin (Entity.by_ rect - Vector2.y start)) _) in *.
  set (t4 := Collision.nmul
               (Collision.Fin (Entity.by_ rect + Entity.bheight rect - Vector2.y start)) _) in *.
  clearbody t1 t2 t3 t4.
  assert (Nmin : Collision.nmax (Collision.nmin t1 t2) (Collision.nmin t3 t4) <> Collision.NaN)
    by (apply nmax_not_NaN; apply nmin_not_NaN; assumption).
  assert (Nmax : Collision.nmin (Collision.nmax t1 t2) (Collision.nmax t3 t4) <> Collision.NaN)
    by (apply nmin_not_NaN; apply nmax_not_NaN; assumption).
  set (tMin := Collision.nmax (Collision.nmin t1 t2) (Collision.nmin t3 t4)) in *.
  set (tMax := Collision.nmin (Collision.nmax t1 t2) (Collision.nmax t3 t4)) in *.
  clearbody tMin tMax.
  split; [tauto|].
  destruct (_ || _) eqn:E1 in Hrun; [discriminate|].
  apply orb_false_iff in E1. destruct E1 as [E1 E3].
  apply orb_false_iff in E1. destruct E1 as [E1 E2].
  split; [exact E1|]. split; [exact E2|]. split; [exact E3|].
  unfold onSegment in Hseg.
  destruct (Collision.nlt tMin (Collision.Fin 0)) eqn:E4.
  - destruct (Collision.nlt (Collision.Fin 1) tMax) eqn:E5; [discriminate|].
    destruct (unit_number tMax Nmax E1 E5) as (q & -> & H0 & H1).
    inversion Hrun; subst h; simpl in *. exists q. tauto.
  - destruct (Collision.nlt (Collision.Fin 1) tMin) eqn:E5; [discriminate|].
    destruct (unit_number tMin Nmin E4 E5) as (q & -> & H0 & H1).
    inversion Hrun; subst h; simpl in *. exists q. tauto.
Qed.

(** A hit on a rectangle that the segment does not run along an edge line
    of has a parameter. *)
Lemma lineAABBIntersect_numeric (start end_ : Vector2.t) (rect : Entity.Bounds)
    (h : Collision.Hit) :
  offEdgeLines start end_ rect ->
  Collision.lineAABBIntersect start end_ rect = Some h ->
  exists q, Collision.t h = Collision.Fin q /\ (0 <= q)%Q /\ (q <= 1)%Q /\
    Collision.hpoint h = Collision.Pt (along start end_ q).
Proof.
  intros Hoff Hrun.
  destruct (lineAABBIntersect_chosen start end_ rect h Hoff Hrun)
    as (_ & _ & _ & _ & q & Ht & H0 & H1 & Hp & _).
  eauto.
Qed.

(** A segment that starts outside a rectangle and hits it: the hit is at
    the entry of the slab test, no parameter before it puts the point in
    the open interior of the rectangle, and the hit point is in the
    rectangle. *)
Lemma lineAABBIntersect_entry (start end_ : Vector2.t) (rect : Entity.Bounds)
    (h : Collision.Hit) :
  (0 <= Entity.bwidth rect)%Q -> (0 <= Entity.bheight rect)%Q ->
  offEdgeLines start end_ rect ->
  Collision.lineAABBIntersect start end_ rect = Some h ->
  ~ inBounds start rect ->
  exists q, Collision.t h = Collision.Fin q /\ (0 <= q)%Q /\ (q <= 1)%Q /\
    Collision.hpoint h = Collision.Pt (along start end_ q) /\
    inBounds (along start end_ q) rect /\
    forall x, (x <= q)%Q -> ~ strictlyInside (along start end_ x) rect.
Proof.
  intros Hw Hh Hoff Hrun Hout.
  pose proof (lineAABBIntersect_chosen start end_ rect h Hoff Hrun) as Hc.
  pose proof (slab_axis (Vector2.x start) (Vector2.x (Vector2.subtract end_ start))
                (Entity.bx rect) (Entity.bwidth rect) 0 Hw) as Sx.
  pose proof (slab_axis (Vector2.y start) (Vector2.y (Vector2.subtract end_ start))
                (Entity.by_ rect) (Entity.bheight rect) 0 Hh) as Sy.
  pose proof (fun q x => slab_axis_entry (Vector2.x start)
                (Vector2.x (Vector2.subtract end_ start))
                (Entity.bx rect) (Entity.bwidth rect) q x Hw) as Ex.
  pose proof (fun q x => slab_axis_entry (Vector2.y start)
                (Vector2.y (Vector2.subtract end_ start))
                (Entity.by_ rect) (Entity.bheight rect) q x Hh) as Ey.
  cbv zeta in Hc, Sx, Sy, Ex, Ey.
  set (t1 := Collision.nmul (Collision.Fin (Entity.bx rect - Vector2.x start)) _) in *.
  set (t2 := Collision.nmul
               (Collision.Fin (Entity.bx rect + Entity.bwidth rect - Vector2.x start)) _) in *.
  set (t3 := Collision.nmul (Collision.Fin (Entity.by_ rect - Vector2.y start)) _) in *.
  set (t4 := Collision.nmul
               (Collision.Fin (Entity.by_ rect + Entity.bheight rect - Vector2.y start)) _) in *.
  clearbody t1 t2 t3 t4.
  destruct Hc as ((N1 & N2 & N3 & N4) & E1 & E2 & E3 & q & Ht & H0 & H1 & Hp & Hq).
  assert (Nminx := nmin_not_NaN t1 t2 N1 N2). assert (Nminy := nmin_not_NaN t3 t4 N3 N4).
  assert (Nmaxx := nmax_not_NaN t1 t2 N1 N2). assert (Nmaxy := nmax_not_NaN t3 t4 N3 N4).
  destruct (below_nmin _ _ 0 Nmaxx Nmaxy E1) as [Ux Uy].
  destruct (Collision.nlt (Collision.nmax (Collision.nmin t1 t2) (Collision.nmin t3 t4))
              (Collision.Fin 0)) eqn:E4.
  { exfalso. apply Hout.
    destruct (above_nmax _ _ 0 Nminx Nminy (nlt_asym _ _ E4)) as [Lx Ly].
    specialize (Sx N1 N2 Lx Ux). specialize (Sy N3 N4 Ly Uy).
    unfold inBounds. cbn [Vector2.subtract Vector2.x Vector2.y] in Sx, Sy. lra. }
  exists q. split; [exact Ht|]. split; [exact H0|]. split; [exact H1|]. split; [exact Hp|].
  split.
  - destruct (lineAABBIntersect_inside start end_ rect h q Hw Hh Hrun Ht) as [_ Hin].
    exact Hin.
  - intros x Hx (I1 & I2 & I3 & I4).
    unfold along, Vector2.add, Vector2.multiply in I1, I2, I3, I4.
    cbn [Vector2.x Vector2.y] in I1, I2, I3, I4.
    destruct (nmax_cases _ _ Nminx Nminy) as [E|E]; rewrite E in Hq.
    + apply (Ex q x Hq Hx). split; assumption.
    + apply (Ey q x Hq Hx). split; assumption.
Qed.

(** The slab test is complete for a segment that starts outside the
    rectangle: when a point of the segment lies in the rectangle, a hit is
    reported, at a parameter that is not after that of the point. *)
Lemma lineAABBIntersect_complete (start end_ : Vector2.t) (rect : Entity.Bounds) (s : Q) :
  (0 <= Entity.bwidth rect)%Q -> (0 <= Entity.bheight rect)%Q ->
  offEdgeLines start end_ rect ->
  (0 <= s)%Q -> (s <= 1)%Q ->
  inBounds (along start end_ s) rect ->
  ~ inBounds start rect ->
  exists h q,
    Collision.lineAABBIntersect start end_ rect = Some h /\
    Collision.t h = Collision.Fin q /\ (0 <= q)%Q /\ (q <= s)%Q /\
    Collision.hpoint h = Collision.Pt (along start end_ q).
Proof.
  intros Hw Hh [Hx Hy] Hs0 Hs1 Hin Hout.
  assert (N1 := crossing_not_NaN (Entity.bx rect - Vector2.x start)
                  (Vector2.x (Vector2.subtract end_ start))
                  (fun E => proj1 (Hx E))).
  assert (N2 := crossing_not_NaN (Entity.bx rect + Entity.bwidth rect - Vector2.x start)
                  (Vector2.x (Vector2.subtract end_ start))
                  (fun E => proj2 (Hx E))).
  assert (N3 := crossing_not_NaN (Entity.by_ rect - Vector2.y start)
                  (Vector2.y (Vector2.subtract end_ start))
                  (fun E => proj1 (Hy E))).
  assert (N4 := crossing_not_NaN (Entity.by_ rect + Entity.bheight rect - Vector2.y start)
                  (Vector2.y (Vector2.subtract end_ start))
                  (fun E => proj2 (Hy E))).
  destruct Hin as (I1 & I2 & I3 & I4).
  unfold along, Vector2.add, Vector2.multiply in I1, I2, I3, I4.
  cbn [Vector2.x Vector2.y] in I1, I2, I3, I4.
  pose proof (slab_axis_complete (Vector2.x start) (Vector2.x (Vector2.subtract end_ start))
                (Entity.bx rect) (Entity.bwidth rect) s Hw N1 N2 I1 I2) as [Lx Ux].
  pose proof (slab_axis_complete (Vector2.y start) (Vector2.y (Vector2.subtract end_ start))
                (Entity.by_ rect) (Entity.bheight rect) s Hh N3 N4 I3 I4) as [Ly Uy].
  pose proof (slab_axis (Vector2.x start) (Vector2.x (Vector2.subtract end_ start))
                (Entity.bx rect) (Entity.bwidth rect) 0 Hw) as Sx.
  pose proof (slab_axis (Vector2.y start) (Vector2.y (Vector2.subtract end_ start))
                (Entity.by_ rect) (Entity.bheight rect) 0 Hh) as Sy.
  cbv zeta in Sx, Sy.
  unfold Collision.lineAABBIntersect. cbv zeta.
  set (t1 := Collision.nmul (Collision.Fin (Entity.bx rect - Vector2.x start)) _) in *.
  set (t2 := Collision.nmul
               (Collision.Fin (Entity.bx rect + Entity.bwidth rect - Vector2.x start)) _) in *.
  set (t3 := Collision.nmul (Collision.Fin (Entity.by_ rect - Vector2.y start)) _) in *.
  set (t4 := Collision.nmul
               (Collision.Fin (Entity.by_ rect + Entity.bheight rect - Vector2.y start)) _) in *.
  clearbody t1 t2 t3 t4.
  assert (Nminx := nmin_not_NaN t1 t2 N1 N2). assert (Nminy := nmin_not_NaN t3 t4 N3 N4).
  assert (Nmaxx := nmax_not_NaN t1 t2 N1 N2). assert (Nmaxy := nmax_not_NaN t3 t4 N3 N4).
  assert (Lmin := below_nmax _ _ s Nminx Nminy Lx Ly).
  assert (Umax := above_nmin _ _ s Nmaxx Nmaxy Ux Uy).
  assert (Nmin := nmax_not_NaN _ _ Nminx Nminy).
  assert (Nmax := nmin_not_NaN _ _ Nmaxx Nmaxy).
  set (tMin := Collision.nmax (Collision.nmin t1 t2) (Collision.nmin t3 t4)) in *.
  set (tMax := Collision.nmin (Collision.nmax t1 t2) (Collision.nmax t3 t4)) in *.
  assert (E1 : Collision.nlt tMax (Collision.Fin 0) = false).
  { destruct (Collision.nlt tMax (Collision.Fin 0)) eqn:E; [|reflexivity].
    rewrite (nlt_below tMax 0 s E Hs0) in Umax. discriminate. }
  assert (E2 : Collision.nlt tMax tMin = false) by (apply (nlt_between _ _ s); assumption).
  assert (E3 : Collision.nlt (Collision.Fin 1) tMin = false).
  { destruct (Collision.nlt (Collision.Fin 1) tMin) eqn:E; [|reflexivity].
    rewrite (nlt_above tMin 1 s E Hs1) in Lmin. discriminate. }
  assert (E4 : Collision.nlt tMin (Collision.Fin 0) = false).
  { destruct (Collision.nlt tMin (Collision.Fin 0)) eqn:E; [|reflexivity].
    exfalso. apply Hout. unfold tMin, tMax in *.
    destruct (above_nmax _ _ 0 Nminx Nminy (nlt_asym _ _ E)) as [Lx0 Ly0].
    destruct (below_nmin _ _ 0 Nmaxx Nmaxy E1) as [Ux0 Uy0].
    specialize (Sx N1 N2 Lx0 Ux0). specialize (Sy N3 N4 Ly0 Uy0).
    unfold inBounds. cbn [Vector2.subtract Vector2.x Vector2.y] in Sx, Sy. lra. }
  rewrite E1, E2, E3, E4. cbn [orb]. rewrite E3.
  destruct (unit_number tMin Nmin E4 E3) as (q & Eq & H0 & H1).
  rewrite Eq in *. eexists. exists q. split; [reflexivity|]. cbn [Collision.t Collision.hpoint].
  split; [reflexivity|]. split; [exact H0|]. split; [|reflexivity].
  simpl in Lmin. now apply Qltb_false in Lmin.
Qed.

(** ** The place of a hit, up to the tolerance *)

Lemma Qabs_pos_nonzero (eps a : Q) : (0 < eps -> eps <= Qabs a -> ~ a == 0)%Q.
Proof. intros Hpos Hle E. rewrite E in Hle. change (Qabs 0) with 0%Q in Hle. lra. Qed.

Lemma clearOfEdgeLines_off (eps : Q) (a b : Vector2.t) (r : Entity.Bounds) :
  (0 < eps)%Q -> clearOfEdgeLines eps a b r -> offEdgeLines a b r.
Proof.
  intros Hpos [Hx Hy]. split; intros E.
  - destruct (Hx E) as [H1 H2]. split; intros Z.
    + apply (Qabs_pos_nonzero eps _ Hpos H1). lra.
    + apply (Qabs_pos_nonzero eps _ Hpos H2). lra.
  - destruct (Hy E) as [H1 H2]. split; intros Z.
    + apply (Qabs_pos_nonzero eps _ Hpos H1). lra.
    + apply (Qabs_pos_nonzero eps _ Hpos H2). lra.
Qed.

Lemma tolerance_pos : (0 < tolerance)%Q.
Proof. reflexivity. Qed.

Lemma along_along (a b : Vector2.t) (q x : Q) :
  (Vector2.x (along a (along a b q) x) == Vector2.x (along a b (q * x)))%Q /\
  (Vector2.y (along a (along a b q) x) == Vector2.y (along a b (q * x)))%Q.
Proof.
  unfold along, Vector2.add, Vector2.multiply, Vector2.subtract; cbn [Vector2.x Vector2.y].
  split; ring.
Qed.

Lemma insideBy_strictly (eps : Q) (p p' : Vector2.t) (b : Entity.Bounds) :
  (0 <= eps)%Q ->
  (Vector2.x p == Vector2.x p')%Q -> (Vector2.y p == Vector2.y p')%Q ->
  insideBy eps p b -> strictlyInside p' b.
Proof.
  intros Heps Hx Hy (H1 & H2 & H3 & H4). unfold strictlyInside.
  rewrite <- Hx, <- Hy. repeat split; lra.
Qed.

(** The hit point that [lineAABBIntersect] reports on a rectangle of
    ordinary size is a point of the segment and of the rectangle; when the
    segment starts outside the rectangle, it is where the segment enters
    it. *)
Lemma hit_place (start end_ : Vector2.t) (rect : Entity.Bounds) (h : Collision.Hit) :
  (0 <= Entity.bwidth rect)%Q -> (0 <= Entity.bheight rect)%Q ->
  clearOfEdgeLines tolerance start end_ rect ->
  Collision.lineAABBIntersect start end_ rect = Some h ->
  exists p, Collision.hpoint h = Collision.Pt p /\
    nearSegment tolerance start end_ p /\ withinOf tolerance p rect /\
    (~ inBounds start rect -> entersAt tolerance start p rect).
Proof.
  intros Hw Hh Hclear Hrun.
  pose proof (clearOfEdgeLines_off _ _ _ _ tolerance_pos Hclear) as Hoff.
  destruct (lineAABBIntersect_numeric start end_ rect h Hoff Hrun)
    as (q & Ht & H0 & H1 & Hp).
  destruct (lineAABBIntersect_inside start end_ rect h q Hw Hh Hrun Ht) as [_ Hin].
  fold (along start end_ q) in Hin.
  assert (Hwithin : withinOf tolerance (along start end_ q) rect).
  { unfold withinOf, tolerance. destruct Hin as (I1 & I2 & I3 & I4). repeat split; lra. }
  exists (along start end_ q). split; [exact Hp|]. split; [|split; [exact Hwithin|]].
  - exists q. split; [exact H0|]. split; [exact H1|].
    assert (Z : forall c : Q, (Qabs (c - c) <= tolerance)%Q).
    { intros c. setoid_replace (c - c)%Q with 0%Q by ring. discriminate. }
    split; apply Z.
  - intros Hout. split; [exact Hwithin|]. intros x Hx0 Hx1 Hins.
    destruct (lineAABBIntersect_entry start end_ rect h Hw Hh Hoff Hrun Hout)
      as (q' & Ht' & _ & _ & _ & _ & Hentry).
    rewrite Ht in Ht'. inversion Ht'; subst q'.
    destruct (along_along start end_ q x) as [Ex Ey].
    apply (Hentry (q * x)%Q).
    + assert (Hm : (x * q <= 1 * q)%Q) by (apply Qmult_le_compat_r; assumption).
      lra.
    + apply (insideBy_strictly tolerance (along start (along start end_ q) x) _ rect);
        [discriminate|exact Ex|exact Ey|exact Hins].
Qed.

(** ** LaserCollisionDetector.traceLaser: doors *)




(** ** findEntityCollisions: the order of the hits *)

Lemma insertHit_sorted (h : Collision.HitEntity) (l : list Collision.HitEntity) :
  numericHit h -> Forall numericHit l ->
  ForallOrdPairs (fun a b => (param a <= param b)%Q) l ->
  ForallOrdPairs (fun a b => (param a <= param b)%Q) (Collision.insertHit h l).
Proof.
  intros [q Hq] Hnum Hsorted. induction l as [|a l IH]; simpl.
  - constructor; constructor.
  - inversion Hnum as [|? ? [p Hp] Hnum']; subst.
    inversion Hsorted as [|? ? Ha Hl]; subst.
    unfold Collision.sortsBefore, Collision.distance. rewrite Hp, Hq.
    destruct (Qltb p q) eqn:E.
    + apply Qltb_true in E. constructor; [|now apply IH].
      apply Forall_forall. intros x Hx. apply insertHit_In in Hx. destruct Hx as [->|Hx].
      * unfold param. rewrite Hp, Hq. lra.
      * rewrite Forall_forall in Ha. now apply Ha.
    + apply Qltb_false in E. constructor; [|exact Hsorted].
      constructor.
      * unfold param. rewrite Hp, Hq. exact E.
      * rewrite Forall_forall in Ha |- *. intros x Hx. specialize (Ha x Hx).
        unfold param in *. rewrite Hp in Ha. rewrite Hq. lra.
Qed.

Lemma sortHits_sorted (l : list Collision.HitEntity) :
  Forall numericHit l ->
  ForallOrdPairs (fun a b => (param a <= param b)%Q) (Collision.sortHits l).
Proof.
  induction l as [|a l IH]; intros Hnum; simpl; [constructor|].
  inversion Hnum as [|? ? Ha Hl]; subst.
  apply insertHit_sorted; [exact Ha| |now apply IH].
  rewrite Forall_forall in Hl |- *. intros x Hx. apply Hl. now apply sortHits_In.
Qed.

Lemma sorted_tail (R : Collision.HitEntity -> Collision.HitEntity -> Prop)
    (pre post : list Collision.HitEntity) (b : Collision.HitEntity) :
  ForallOrdPairs R (pre ++ b :: post) -> Forall (R b) post.
Proof.
  induction pre as [|a pre IH]; simpl; intros H; inversion H; subst; auto.
Qed.

(** The hits that [traceLaser] walks have parameters and are in the order
    of these, when the ray keeps clear of the edge lines. *)
Lemma hitsWalked_sorted (start direction : Vector2.t) (entities : list Entity.t)
    (cb : option (Vector2.t -> bool)) :
  inPlainSight start (wallLimitedEnd start direction cb) entities ->
  Forall numericHit (hitsWalked start direction entities cb) /\
  ForallOrdPairs (fun a b => (param a <= param b)%Q) (hitsWalked start direction entities cb).
Proof.
  intros Hsight.
  assert (Hnum : forall h, In h (hitsWalked start direction entities cb) -> numericHit h).
  { intros h Hin. apply findEntityCollisions_In in Hin. destruct Hin as (He & Hv & Ha & Hhit).
    destruct (Hsight _ He Hv Ha) as [_ Hclear].
    destruct (lineAABBIntersect_numeric _ _ _ _
                (clearOfEdgeLines_off _ _ _ _ tolerance_pos Hclear) Hhit) as (q & Hq & _).
    now exists q. }
  split; [now apply Forall_forall|].
  unfold hitsWalked, Collision.findEntityCollisions in *.
  apply sortHits_sorted. apply Forall_forall. intros h Hin. apply Hnum.
  now apply sortHits_In.
Qed.

(** The first hit of a list that is not transparent. *)
Lemma first_blocker (hits : list Collision.HitEntity) (h : Collision.HitEntity) :
  In h hits -> transparent h = false ->
  exists pre b post,
    hits = (pre ++ b :: post)%list /\
    Forall (fun x => transparent x = true) pre /\ transparent b = false /\
    (b = h \/ In h post).
Proof.
  intros Hin Hh. induction hits as [|a l IH]; [destruct Hin|].
  destruct (transparent a) eqn:Ea.
  - destruct Hin as [->|Hin]; [congruence|].
    destruct (IH Hin) as (pre & b & post & -> & Hpre & Hb & Hpos).
    exists (a :: pre), b, post. split; [reflexivity|]. split; [now constructor|]. auto.
  - exists [], a, l. split; [reflexivity|]. split; [constructor|]. split; [exact Ea|].
    destruct Hin; auto.
Qed.

(** ** The wall-limited end of a ray along an axis *)

Lemma wallLimitedEnd_on_ray (start direction : Vector2.t) (cb : option (Vector2.t -> bool)) :
  wallStep start direction cb = None \/ axisDirection direction ->
  exists l, (0 <= l)%Q /\
    samePoint (wallLimitedEnd start direction cb) (pointAt start direction l).
Proof.
  rewrite wallLimitedEnd_wallStep.
  destruct (wallStep start direction cb) as [i|] eqn:Hstep.
  - intros [H|Hax]; [discriminate|].
    pose proof (wallStep_range _ _ _ _ Hstep) as Hi.
    assert (Hk : (0 <= inject_Z (i - 1))%Q).
    { change 0%Q with (inject_Z 0). rewrite <- Zle_Qle. lia. }
    set (k := inject_Z (i - 1)) in *. clearbody k.
    destruct start as [sx sy].
    change (inject_Z Collision.stepSize) with 8%Q.
    destruct Hax as [-> | [-> | [-> | ->]]]; unfold Collision.snapToTileBoundary, pointAt, samePoint;
      cbn [Vector2.x Vector2.y Vector2.add Vector2.multiply Collision.mkV].
    + set (X := (sx + inject_Z 1 * 8 * k)%Q).
      destruct (ceiling_snap X) as [Hc1 Hc2].
      exists (inject_Z (Qceiling (X / Collision.TILE)) * Collision.TILE - sx)%Q.
      change (Qltb 0 (inject_Z 1)) with true.
      change (Qltb (Qabs (inject_Z 0)) (Qabs (inject_Z 1))) with true.
      cbn [Vector2.x Vector2.y]. unfold X in *.
      change (inject_Z 1) with 1%Q in *. change (inject_Z 0) with 0%Q in *.
      split; [lra|]. split; ring.
    + set (X := (sx + inject_Z (-1) * 8 * k)%Q).
      destruct (floor_snap X) as [Hc1 Hc2].
      exists (sx - inject_Z (Qfloor (X / Collision.TILE)) * Collision.TILE)%Q.
      change (Qltb 0 (inject_Z (-1))) with false.
      change (Qltb (inject_Z (-1)) 0) with true.
      change (Qltb (Qabs (inject_Z 0)) (Qabs (inject_Z (-1)))) with true.
      cbn [Vector2.x Vector2.y]. unfold X in *.
      change (inject_Z (-1)) with (-(1))%Q in *. change (inject_Z 0) with 0%Q in *.
      split; [lra|]. split; ring.
    + set (Y := (sy + inject_Z 1 * 8 * k)%Q).
      destruct (ceiling_snap Y) as [Hc1 Hc2].
      exists (inject_Z (Qceiling (Y / Collision.TILE)) * Collision.TILE - sy)%Q.
      change (Qltb 0 (inject_Z 1)) with true.
      change (Qltb (Qabs (inject_Z 1)) (Qabs (inject_Z 0))) with false.
      cbn [Vector2.x Vector2.y]. unfold Y in *.
      change (inject_Z 1) with 1%Q in *. change (inject_Z 0) with 0%Q in *.
      split; [lra|]. split; ring.
    + set (Y := (sy + inject_Z (-1) * 8 * k)%Q).
      destruct (floor_snap Y) as [Hc1 Hc2].
      exists (sy - inject_Z (Qfloor (Y / Collision.TILE)) * Collision.TILE)%Q.
      change (Qltb 0 (inject_Z (-1))) with false.
      change (Qltb (inject_Z (-1)) 0) with true.
      change (Qltb (Qabs (inject_Z (-1))) (Qabs (inject_Z 0))) with false.
      cbn [Vector2.x Vector2.y]. unfold Y in *.
      change (inject_Z (-1)) with (-(1))%Q in *. change (inject_Z 0) with 0%Q in *.
      split; [lra|]. split; ring.
  - intros _. exists (inject_Z Collision.maxDistance). split; [discriminate|].
    split; reflexivity.
Qed.

(** ** LaserCollisionDetector.traceLaser: blocking entities *)

Lemma inBounds_samePoint (p p' : Vector2.t) (b : Entity.Bounds) :
  samePoint p p' -> inBounds p b -> inBounds p' b.
Proof. intros [Hx Hy]. unfold inBounds. now rewrite Hx, Hy. Qed.

Lemma insideBy_inBounds (p : Vector2.t) (b : Entity.Bounds) :
  insideBy tolerance p b -> inBounds p b.
Proof. unfold insideBy, inBounds, tolerance. intros (H1 & H2 & H3 & H4). repeat split; lra. Qed.

Lemma blocker_not_transparent (e : Entity.t) (h : Collision.Hit) :
  blocker e -> transparent {| Collision.entity := e; Collision.hit := h |} = false.
Proof.
  intros (_ & _ & Hs & He & Ho). unfold transparent, isEmitter. simpl.
  now rewrite Hs, He, Ho.
Qed.

(** Where the bounds of a blocking entity that the ray starts outside of
    hold the point of the ray at distance [d], the end point is no
    farther than [d] from the start. *)
Lemma blocker_limits_end_point (start direction : Vector2.t) (entities : list Entity.t)
    (cb : option (Vector2.t -> bool)) (p : Vector2.t) (e : Entity.t) (d : Q) :
  unitVector direction ->
  Collision.endPoint (Collision.traceLaser start direction entities cb) = Collision.Pt p ->
  wallStep start direction cb = None \/ axisDirection direction ->
  inPlainSight start (wallLimitedEnd start direction cb) entities ->
  In e entities -> blocker e ->
  ~ inBounds start (Entity.getBounds e) ->
  (0 <= d)%Q -> inBounds (pointAt start direction d) (Entity.getBounds e) ->
  (Vector2.distanceSq start p <= d * d)%Q.
Proof.
  intros Hunit Hend Hray Hsight He Hblock Hout Hd Hin.
  destruct (wallLimitedEnd_on_ray start direction cb Hray) as (l & Hl0 & HW).
  pose proof (endPoint_not_past_wall_limited_end start direction entities cb p Hend) as Hle.
  set (W := wallLimitedEnd start direction cb) in *.
  assert (HWl : (Vector2.distanceSq start W == l * l)%Q).
  { rewrite (distanceSq_samePoint start _ _ HW). unfold pointAt.
    rewrite distanceSq_along. unfold unitVector in Hunit. rewrite Hunit. ring. }
  destruct (Qlt_le_dec l d) as [Hfar|Hnear].
  { rewrite HWl in Hle. eapply Qle_trans; [exact Hle|]. apply square_le; lra. }
  destruct (Qle_lt_or_eq _ _ Hl0) as [Hlpos|Hlzero].
  2:{ exfalso. apply Hout. apply (inBounds_samePoint (pointAt start direction d)); [|exact Hin].
      assert (Hd0 : (d == 0)%Q) by lra.
      unfold samePoint, pointAt; cbn [Vector2.x Vector2.y Vector2.add Vector2.multiply].
      rewrite Hd0. split; ring. }
  set (s := (d / l)%Q).
  assert (Hsl : (s * l == d)%Q) by (unfold s; field; lra).
  assert (Hs0 : (0 <= s)%Q).
  { apply (Qmult_le_r _ _ l Hlpos). rewrite Hsl. lra. }
  assert (Hs1 : (s <= 1)%Q).
  { apply (Qmult_le_r _ _ l Hlpos). rewrite Hsl. lra. }
  assert (Hsame : samePoint (pointAt start direction d) (along start W s)).
  { destruct HW as [Hx Hy]. unfold pointAt in Hx, Hy.
    cbn [Vector2.x Vector2.y Vector2.add Vector2.multiply] in Hx, Hy.
    unfold samePoint, pointAt, along.
    cbn [Vector2.x Vector2.y Vector2.add Vector2.multiply Vector2.subtract].
    rewrite Hx, Hy, <- Hsl. split; ring. }
  pose proof (inBounds_samePoint _ _ _ Hsame Hin) as Hin'.
  destruct Hblock as (Hv & Ha & Hrest).
  destruct (Hsight e He Hv Ha) as [(Hw & Hh & _) Hclear].
  pose proof (clearOfEdgeLines_off _ _ _ _ tolerance_pos Hclear) as Hoff.
  destruct (lineAABBIntersect_complete start W (Entity.getBounds e) s Hw Hh Hoff Hs0 Hs1
              Hin' Hout) as (h & q & Hrun & Ht & Hq0 & Hqs & _).
  set (he := {| Collision.entity := e; Collision.hit := h |}).
  assert (Hhe : In he (hitsWalked start direction entities cb)).
  { apply findEntityCollisions_In. simpl. auto. }
  assert (Hopaque : transparent he = false).
  { apply blocker_not_transparent. unfold blocker. tauto. }
  destruct (first_blocker _ he Hhe Hopaque) as (pre & b & post & Hhits & Hpre & Hb & Hpos).
  destruct (hitsWalked_sorted start direction entities cb Hsight) as [Hnum Hsorted].
  pose proof (traceLaser_walk start direction entities cb) as Hwalk.
  rewrite Hhits, (walkHits_blocked pre post b _ _ Hpre Hb) in Hwalk.
  apply (f_equal fst) in Hwalk. cbn [fst] in Hwalk. rewrite Hend in Hwalk.
  assert (Hbin : In b (hitsWalked start direction entities cb)).
  { rewrite Hhits. apply in_or_app. right. now left. }
  pose proof Hbin as Hbhit. apply findEntityCollisions_In in Hbhit.
  destruct Hbhit as (Hbe & Hbv & Hba & Hbrun).
  destruct (Hsight _ Hbe Hbv Hba) as [_ Hbclear].
  destruct (lineAABBIntersect_numeric _ _ _ _
              (clearOfEdgeLines_off _ _ _ _ tolerance_pos Hbclear) Hbrun)
    as (qb & Hqb & Hqb0 & Hqb1 & Hpb).
  fold W in Hpb. rewrite Hpb in Hwalk. inversion Hwalk; subst p.
  assert (Horder : (qb <= q)%Q).
  { assert (Hparam : (param b <= param he)%Q).
    { destruct Hpos as [->|Hpost]; [lra|].
      rewrite Hhits in Hsorted. apply sorted_tail in Hsorted.
      rewrite Forall_forall in Hsorted. now apply Hsorted. }
    unfold param in Hparam. rewrite Hqb in Hparam. unfold he in Hparam. simpl in Hparam.
    now rewrite Ht in Hparam. }
  unfold along. rewrite distanceSq_along, distanceSq_subtract, HWl.
  setoid_replace (qb * qb * (l * l))%Q with ((qb * l) * (qb * l))%Q by ring.
  apply square_le.
  - apply Qmult_le_0_compat; lra.
  - rewrite <- Hsl. apply Qmult_le_compat_r; lra.
Qed.

(** ** LaserCollisionDetector.traceLaser: the reach of the ray, the claim *)

Lemma square_slack (far r : Q) :
  (0 <= r -> far <= r * r -> far <= (r + tolerance) * (r + tolerance))%Q.
Proof.
  intros Hr H. eapply Qle_trans; [exact H|].
  apply square_le; [exact Hr|]. unfold tolerance. lra.
Qed.

(** C4 (amended). For a unit direction, when the end point that
    [traceLaser] returns is a point.

    From a start on the pixel grid: the end point lies on the segment from
    the start to the end of the wall-limited ray.  If none of the 250 wall
    samples reports a wall, it is at distance at most [maxDistance] from
    the start.  If the first sample to report a wall is the [i]-th, it is
    at distance less than [8 (i - 1) + 64]: the sample before, moved
    forward to a tile boundary; this is below [maxDistance] for
    [i <= 243].  For a ray along an axis and a wall predicate that is the
    same all over each tile, the end point is at distance at most
    [maxDistance] in every case.

    From any start of ordinary size the same holds to [tolerance].

    Where the bounds of a visible, active, solid entity that is neither an
    emitter nor an open door hold a point of the ray, at distance [d] from
    the start and more than [tolerance] inside them, the start being
    outside them, the end point is at distance at most [d]: strictly less
    than [maxDistance] when [d] is.  This is for a ray along an axis or
    without a wall hit, which keeps clear of the lines of the edges of the
    entities that the detector looks at.

    Distances are compared through their squares. *)
Theorem laser_end_point_within_reach
    (start direction : Vector2.t) (entities : list Entity.t)
    (cb : option (Vector2.t -> bool)) (p : Vector2.t) :
  unitVector direction ->
  Collision.endPoint (Collision.traceLaser start direction entities cb) = Collision.Pt p ->
  let reach := wallLimitedEnd start direction cb in
  let far := Vector2.distanceSq start p in
  let limit := inject_Z Collision.maxDistance in
  (onGrid start ->
   (exists q, (0 <= q)%Q /\ (q <= 1)%Q /\ samePoint p (along start reach q)) /\
   match wallStep start direction cb with
   | None => (far <= maxDistanceSq)%Q
   | Some i =>
       1 <= i <= 250 /\
       (far < reachAtStep i * reachAtStep i)%Q /\
       (i <= 243 -> (far < maxDistanceSq)%Q)
   end /\
   (axisDirection direction ->
    (forall callback, cb = Some callback -> tileWall callback) ->
    (far <= maxDistanceSq)%Q)) /\
  (ordinaryPoint start ->
   nearSegment tolerance start reach p /\
   match wallStep start direction cb with
   | None => (far <= (limit + tolerance) * (limit + tolerance))%Q
   | Some i => (far <= (reachAtStep i + tolerance) * (reachAtStep i + tolerance))%Q
   end /\
   (axisDirection direction ->
    (forall callback, cb = Some callback -> tileWall callback) ->
    (far <= (limit + tolerance) * (limit + tolerance))%Q)) /\
  (ordinaryPoint start ->
   wallStep start direction cb = None \/ axisDirection direction ->
   inPlainSight start reach entities ->
   forall (e : Entity.t) (d : Q),
     In e entities -> blocker e -> ~ inBounds start (Entity.getBounds e) ->
     (0 <= d)%Q -> insideBy tolerance (pointAt start direction d) (Entity.getBounds e) ->
     (far <= d * d)%Q /\ ((d < limit)%Q -> (far < maxDistanceSq)%Q)).
Proof.
  intros Hunit Hend reach far limit.
  pose proof (endPoint_on_wall_limited_ray start direction entities cb p Hend) as Hseg.
  pose proof (endPoint_not_past_wall_limited_end start direction entities cb p Hend) as Hle.
  pose proof (wallLimitedEnd_wallStep start direction cb) as Hw.
  assert (Hsteps :
    match wallStep start direction cb with
    | None => (far <= maxDistanceSq)%Q
    | Some i =>
        1 <= i <= 250 /\
        (far < reachAtStep i * reachAtStep i)%Q /\
        (i <= 243 -> (far < maxDistanceSq)%Q)
    end).
  { destruct (wallStep start direction cb) as [i|] eqn:Hstep.
    + pose proof (wallStep_range _ _ _ _ Hstep) as Hi. split; [exact Hi|].
      assert (Hk : (0 <= inject_Z (i - 1))%Q).
      { change 0%Q with (inject_Z 0). rewrite <- Zle_Qle. lia. }
      pose proof (snap_reach start direction (inject_Z (i - 1)) Hunit Hk) as Hs.
      rewrite <- Hw, <- reachAtStep_eq in Hs.
      assert (Hlt : (far < reachAtStep i * reachAtStep i)%Q).
      { eapply Qle_lt_trans; eauto. }
      split; [exact Hlt|]. intros Hi'.
      assert (Hr : (reachAtStep i <= 2000)%Q).
      { unfold reachAtStep. change 2000%Q with (inject_Z 2000). rewrite <- Zle_Qle.
        change Collision.stepSize with 8%Z. change TILE_SIZE with 64%Z. lia. }
      assert (Hr0 : (0 <= reachAtStep i)%Q).
      { unfold reachAtStep. change 0%Q with (inject_Z 0). rewrite <- Zle_Qle.
        change Collision.stepSize with 8%Z. change TILE_SIZE with 64%Z. lia. }
      unfold maxDistanceSq.
      change (inject_Z (Collision.maxDistance * Collision.maxDistance)) with (2000 * 2000)%Q.
      eapply Qlt_le_trans; [exact Hlt|]. nra.
    + eapply Qle_trans; [exact Hle|]. rewrite Hw. apply Qle_lteq. right.
      now apply unobstructed_reach. }
  assert (Htiles : axisDirection direction ->
                   (forall callback, cb = Some callback -> tileWall callback) ->
                   (far <= maxDistanceSq)%Q).
  { intros Haxis Htile. eapply Qle_trans; [exact Hle|]. rewrite Hw.
    destruct (wallStep start direction cb) as [i|] eqn:Hstep.
    + destruct cb as [callback|]; [|discriminate Hstep].
      apply (snap_on_tile_wall start direction callback i Haxis (Htile callback eq_refl) Hstep).
    + apply Qle_lteq. right. now apply unobstructed_reach. }
  assert (Hmax : (maxDistanceSq == limit * limit)%Q).
  { unfold maxDistanceSq, limit. now rewrite inject_Z_mult. }
  assert (Hlimit : (0 <= limit)%Q) by discriminate.
  split; [|split].
  - intros _. split; [exact Hseg|]. split; [exact Hsteps|exact Htiles].
  - intros _. split; [|split].
    + destruct Hseg as (q & H0 & H1 & [Hx Hy]). exists q. split; [exact H0|]. split; [exact H1|].
      unfold along. rewrite Hx, Hy.
      assert (Z : forall c : Q, (Qabs (c - c) <= tolerance)%Q).
      { intros c. setoid_replace (c - c)%Q with 0%Q by ring. discriminate. }
      split; apply Z.
    + destruct (wallStep start direction cb) as [i|].
      * destruct Hsteps as (Hi & Hlt & _). apply square_slack; [|now apply Qlt_le_weak].
        unfold reachAtStep. change 0%Q with (inject_Z 0). rewrite <- Zle_Qle.
        change Collision.stepSize with 8%Z. change TILE_SIZE with 64%Z. lia.
      * apply square_slack; [exact Hlimit|]. now rewrite <- Hmax.
    + intros Haxis Htile. apply square_slack; [exact Hlimit|]. rewrite <- Hmax. now apply Htiles.
  - intros _ Hray Hsight e d He Hblock Hout Hd Hin.
    assert (Hfar : (far <= d * d)%Q).
    { apply (blocker_limits_end_point start direction entities cb p e d); auto.
      now apply insideBy_inBounds. }
    split; [exact Hfar|]. intros Hdl. rewrite Hmax.
    eapply Qle_lt_trans; [exact Hfar|]. nra.
Qed.

Lemma laser_end_point_within_reach_witness :
  let start := Collision.mkV 98 96 in
  let east := Collision.mkV 1 0 in
  let walls := Some (wallFromTile 32) in
  exists p,
    Collision.endPoint (Collision.traceLaser start east (doorScene false) walls)
    = Collision.Pt p /\
    (exists q, (0 <= q)%Q /\ (q <= 1)%Q /\
       samePoint p (along start (wallLimitedEnd start east walls) q)) /\
    (Vector2.distanceSq start p <= maxDistanceSq)%Q /\
    nearSegment tolerance start (wallLimitedEnd start east walls) p /\
    (Vector2.distanceSq start p <= 250 * 250)%Q /\
    (Vector2.distanceSq start p < maxDistanceSq)%Q.
Proof.
  intros start east walls.
  assert (Hunit : unitVector east) by reflexivity.
  assert (Hr : exists p,
             Collision.endPoint (Collision.traceLaser start east (doorScene false) walls)
             = Collision.Pt p) by (vm_compute; eexists; reflexivity).
  destruct Hr as [p Hp]. exists p. split; [exact Hp|].
  destruct (laser_end_point_within_reach start east (doorScene false) walls p Hunit Hp)
    as (HA & HB & HC).
  assert (Hord : ordinaryPoint start) by (split; vm_compute; discriminate).
  assert (Hgrid : onGrid start).
  { split; [exists 98|exists 96]; (split; [reflexivity|vm_compute; discriminate]). }
  assert (Haxis : axisDirection east) by (now left).
  assert (Hsight : inPlainSight start (wallLimitedEnd start east walls) (doorScene false)).
  { intros e [<-|[<-|[<-|[]]]] _ _; (split;
      [unfold ordinaryBounds, ordinary; vm_compute; repeat split; discriminate
      |split; intros E; vm_compute in E; try discriminate E; vm_compute; split; discriminate]). }
  assert (Hdoor : In (autoDoor 320 64 false) (doorScene false)) by (right; right; now left).
  assert (Hblock : blocker (autoDoor 320 64 false)) by (repeat split).
  assert (Hout : ~ inBounds start (Entity.getBounds (autoDoor 320 64 false))).
  { intros (H & _). vm_compute in H. apply H. reflexivity. }
  assert (Hin : insideBy tolerance (pointAt start east 250)
                  (Entity.getBounds (autoDoor 320 64 false))).
  { vm_compute. repeat split; reflexivity. }
  destruct (HA Hgrid) as (Hq & _ & Ht).
  destruct (HB Hord) as (Hnear & _ & _).
  destruct (HC Hord (or_intror Haxis) Hsight (autoDoor 320 64 false) 250%Q Hdoor Hblock Hout
              ltac:(discriminate) Hin) as [Hfar Hless].
  split; [exact Hq|]. split.
  - apply Ht; [exact Haxis|]. intros callback E. inversion E. apply tileWall_wallFromTile.
  - split; [exact Hnear|]. split; [exact Hfar|]. apply Hless. reflexivity.
Defined.

(** C4, as stated, fails.  With a wall that the sampling meets at its last
    sample, 2000 px from the start, the end point is the sample before,
    moved forward to the tile boundary at [x = 2048]: 2047 px from the
    start.  A solid power cell whose near face is 2000 px from the start
    stops the ray at that face, at [maxDistance] and not below it; one
    that has been destroyed is not looked at, and the ray runs its full
    length through it. *)
Lemma laser_end_point_beyond_max_distance :
  unitVector (Collision.mkV 1 0) /\
  wallStep (Collision.mkV 1 0) (Collision.mkV 1 0) (Some farWall) = Some 250 /\
  Collision.endPoint
    (Collision.traceLaser (Collision.mkV 1 0) (Collision.mkV 1 0) [] (Some farWall))
  = Collision.Pt (Collision.mkV 2048 0) /\
  ~ truncatedAsSpecified (Collision.mkV 1 0) (Collision.mkV 1 0) [] (Some farWall) /\
  ~ truncatedAsSpecified (Collision.mkV 0 0) (Collision.mkV 1 0) [cellAt 2000 (-32)] None /\
  ~ truncatedAsSpecified (Collision.mkV 0 0) (Collision.mkV 1 0)
      [destroyedCellAt 640 (-32)] None.
Proof.
  split; [reflexivity|]. split; [vm_compute; reflexivity|].
  assert (E : Collision.endPoint
                (Collision.traceLaser (Collision.mkV 1 0) (Collision.mkV 1 0) []
                   (Some farWall))
              = Collision.Pt (Collision.mkV 2048 0)) by (vm_compute; reflexivity).
  split; [exact E|]. split; [|split].
  - unfold truncatedAsSpecified. rewrite E. intros [H _].
    vm_compute in H. apply H. reflexivity.
  - unfold truncatedAsSpecified.
    remember (Collision.endPoint
                (Collision.traceLaser (Collision.mkV 0 0) (Collision.mkV 1 0)
                   [cellAt 2000 (-32)] None)) as e eqn:He.
    vm_compute in He. subst e. intros [_ H].
    assert (Hb : blockerOnRay (Collision.mkV 0 0) (Collision.mkV 1 0) [cellAt 2000 (-32)]).
    { exists (cellAt 2000 (-32)), 2000%Q. split; [now left|]. split; [reflexivity|].
      split; [reflexivity|]. split; [discriminate|]. split; [discriminate|].
      vm_compute. repeat split; discriminate. }
    specialize (H (or_intror Hb)). vm_compute in H. discriminate H.
  - unfold truncatedAsSpecified.
    remember (Collision.endPoint
                (Collision.traceLaser (Collision.mkV 0 0) (Collision.mkV 1 0)
                   [destroyedCellAt 640 (-32)] None)) as e eqn:He.
    vm_compute in He. subst e. intros [_ H].
    assert (Hb : blockerOnRay (Collision.mkV 0 0) (Collision.mkV 1 0)
                   [destroyedCellAt 640 (-32)]).
    { exists (destroyedCellAt 640 (-32)), 650%Q. split; [now left|]. split; [reflexivity|].
      split; [reflexivity|]. split; [discriminate|]. split; [discriminate|].
      vm_compute. repeat split; discriminate. }
    specialize (H (or_intror Hb)). vm_compute in H. discriminate H.
Qed.

(** ** collision.js: the place of a hit *)

(** When [lineAABBIntersect] reports a hit on a rectangle of ordinary size
    whose edge lines the segment keeps clear of, the hit has a parameter
    between 0 and 1 and a point; the point is a point of the segment and
    of the rectangle, and when the segment starts outside the rectangle it
    is where the segment enters it.  The places are stated to
    [tolerance]. *)
Theorem lineAABBIntersect_hit_on_segment_and_in_rectangle
    (start end_ : Vector2.t) (rect : Entity.Bounds) (h : Collision.Hit) :
  ordinaryRay start end_ -> ordinaryBounds rect ->
  clearOfEdgeLines tolerance start end_ rect ->
  Collision.lineAABBIntersect start end_ rect = Some h ->
  exists p q,
    Collision.hpoint h = Collision.Pt p /\
    Collision.t h = Collision.Fin q /\ (0 <= q)%Q /\ (q <= 1)%Q /\
    nearSegment tolerance start end_ p /\ withinOf tolerance p rect /\
    (~ inBounds start rect -> entersAt tolerance start p rect).
Proof.
  intros _ (Hw & Hh & _) Hclear Hrun.
  destruct (hit_place start end_ rect h Hw Hh Hclear Hrun) as (p & Hp & Hnear & Hin & Hent).
  destruct (lineAABBIntersect_numeric start end_ rect h
              (clearOfEdgeLines_off _ _ _ _ tolerance_pos Hclear) Hrun)
    as (q & Hq & H0 & H1 & _).
  exists p, q. tauto.
Qed.

Lemma lineAABBIntersect_hit_on_segment_and_in_rectangle_witness :
  let start := Collision.mkV 0 0 in
  let end_ := Collision.mkV 49 0 in
  let rect := {| Entity.bx := 49; Entity.by_ := -(1); Entity.bwidth := 10;
                 Entity.bheight := 2 |} in
  exists h p q,
    Collision.lineAABBIntersect start end_ rect = Some h /\
    Collision.hpoint h = Collision.Pt p /\
    Collision.t h = Collision.Fin q /\ (0 <= q)%Q /\ (q <= 1)%Q /\
    nearSegment tolerance start end_ p /\ entersAt tolerance start p rect.
Proof.
  intros start end_ rect.
  assert (Hr : exists h, Collision.lineAABBIntersect start end_ rect = Some h)
    by (vm_compute; eexists; reflexivity).
  destruct Hr as [h Hh]. exists h.
  destruct (lineAABBIntersect_hit_on_segment_and_in_rectangle start end_ rect h)
    as (p & q & Hp & Hq & H0 & H1 & Hnear & _ & Hent).
  - unfold ordinaryRay, ordinary. vm_compute. repeat split; discriminate.
  - unfold ordinaryBounds, ordinary. vm_compute. repeat split; discriminate.
  - split; intros E; vm_compute in E; try discriminate E. vm_compute. split; discriminate.
  - exact Hh.
  - exists p, q. repeat (split; [assumption|]). apply Hent.
    intros (H & _). vm_compute in H. apply H. reflexivity.
Defined.

(** ** collision.js: pushing back *)


